(** * SPLATT: TTMc and CCD kernels over CSF storage

    A shallow embedding of [src/ttm.c] and [src/completion/ccd.c].

    Conventions of the embedding.
    - [val_t] (a C [double]) is modelled by the exact rationals [Qc]:
      the theorems are about the arithmetic the kernels perform, not about
      rounding.
    - [idx_t] is an unsigned 64-bit integer (the sources print it with
      the [lu] format).  Where the code computes a *count* with it (the flop
      counters) the arithmetic is [Z] with the wrap-around written out.
      Where the code uses it as an array index or a loop bound, it is a [nat]
      and the theorems carry the bounds that keep the C accesses in range.
    - C arrays are lists; [a[i]] is [a !!! i] and [a[i] = v] is [<[i:=v]> a].
    - The OpenMP regions are run by one worker, iterations in index order. *)

From stdpp Require Import base numbers list.
From Stdlib Require Import ZArith QArith Qcanon Lia Permutation.

Local Open Scope nat_scope.

(** ** Base types *)

Abbreviation val_t := Qc (only parsing).

#[global] Instance val_t_inhabited : Inhabited val_t := populate 0%Qc.

Definition idx_bits : Z := 64.

Definition idx_wrap (z : Z) : Z := z mod 2 ^ idx_bits.

Definition idx_mul (a b : Z) : Z := idx_wrap (a * b).

Definition idx_add (a b : Z) : Z := idx_wrap (a + b).

(** [for(i = lo; i < hi; ++i) body] *)
Definition for_range {S : Type} (lo hi : nat) (body : nat -> S -> S) (s : S) : S :=
  fold_left (fun s i => body i s) (seq lo (hi - lo)) s.

(** [for(i = hi; i-- != lo; ) body]: the indices [hi-1], ..., [lo]. *)
Definition for_down {S : Type} (hi lo : nat) (body : nat -> S -> S) (s : S) : S :=
  fold_left (fun s i => body i s) (rev (seq lo (hi - lo))) s.

(** ** Data model *)

(** [matrix_t]: [I] rows, [J] columns, [vals] row-major. *)
Record matrix_t : Type := Matrix {
  mat_I : nat;
  mat_J : nat;
  mat_vals : list val_t
}.

#[global] Instance matrix_t_inhabited : Inhabited matrix_t := populate (Matrix 0 0 []).

(** [sptensor_t]: the coordinate tensor. *)
Record sptensor_t : Type := SpTensor {
  tt_nmodes : nat;
  tt_dims : list nat;
  tt_nnz : nat;
  tt_ind : list (list nat);
  tt_vals : list val_t
}.

Inductive splatt_tile_type : Type :=
  | SPLATT_NOTILE
  | SPLATT_DENSETILE
  | SPLATT_SYNCTILE.

Inductive splatt_csf_type : Type :=
  | SPLATT_CSF_ONEMODE
  | SPLATT_CSF_TWOMODE
  | SPLATT_CSF_ALLMODE
  | SPLATT_CSF_INVALID (code : Z).

(** [csf_sparsity]: one tile.  A NULL [fids[l]] or [vals] is [None]. *)
Record csf_sparsity : Type := CsfSparsity {
  nfibs : list nat;
  fptr : list (list nat);
  fids : list (option (list nat));
  vals : option (list val_t)
}.

#[global] Instance csf_sparsity_inhabited : Inhabited csf_sparsity :=
  populate (CsfSparsity [] [] [] None).

Record splatt_csf : Type := Csf {
  nmodes : nat;
  dims : list nat;
  dim_perm : list nat;
  which_tile : splatt_tile_type;
  ntiles : nat;
  tile_dims : list nat;
  pt : list csf_sparsity
}.

#[global] Instance splatt_csf_inhabited : Inhabited splatt_csf :=
  populate (Csf 0 [] [] SPLATT_NOTILE 0 [] []).

Definition MAX_NMODES : nat := 8.

(** Modelled from the spec: [csf_mode_depth] (csf.c is not part of the
    sources at hand).  "Mode depth lookup depth(m) returns the position of m
    in dim_perm"; a mode that does not occur gets [MAX_NMODES], the value
    [ttmc_csf] initialises [outdepth] with. *)
Fixpoint mode_depth_from (mode : nat) (perm : list nat) (pos : nat) : nat :=
  match perm with
  | [] => MAX_NMODES
  | p :: rest => if Nat.eqb p mode then pos else mode_depth_from mode rest (S pos)
  end.

Definition csf_mode_depth (mode : nat) (perm : list nat) (nm : nat) : nat :=
  mode_depth_from mode (take nm perm) 0.

(** ** Flop counters *)

(** The counters are written once over the multiplication and addition
    they use: [idx_mul] and [idx_add] give the functions of ttm.c; [Z.mul]
    and [Z.add] give the same loops in unbounded integers, the count the
    code would return if [idx_t] could not wrap. *)
Section FlopCounters.

Variable mul add : Z -> Z -> Z.

(** [p_ttmc_outncols] *)
Definition outncols_with (nfactors : list Z) (nm mode : nat) : Z :=
  for_range 0 nm
    (fun m ncols => if Nat.eqb m mode then ncols else mul ncols (nfactors !!! m))
    1%Z.

(** One step of either tree walk: [out_size *= nfactors[dim_perm[d]];
    flops += nfibs[d] * out_size], on [(out_size, flops)]. *)
Definition flops_level (perm : list nat) (nf : list Z) (fibs : list nat)
    (d : nat) (st : Z * Z) : Z * Z :=
  let out_size := mul (fst st) (nf !!! (perm !!! d)) in
  (out_size, add (snd st) (mul (Z.of_nat (fibs !!! d)) out_size)).

(** The body of the loop over the tiles. *)
Definition flops_tile (csf : splatt_csf) (mode : nat) (nf : list Z)
    (depth : nat) (tile : nat) (flops : Z) : Z :=
  let perm := dim_perm csf in
  let fibs := nfibs (pt csf !!! tile) in
  (* move down tree *)
  let st1 :=
    for_range 1 depth (flops_level perm nf fibs) (nf !!! (perm !!! 0), flops) in
  (* move up tree: nmodes -> depth (exclusive) *)
  let st2 :=
    for_down (nmodes csf) (depth + 1) (flops_level perm nf fibs) (1%Z, snd st1) in
  (* final join if internal/leaf mode *)
  if Nat.ltb 0 depth then
    add (snd st2)
      (mul (Z.of_nat (fibs !!! depth)) (outncols_with nf (nmodes csf) mode))
  else snd st2.

Definition count_flops_with (csf : splatt_csf) (mode : nat) (nf : list Z) : Z :=
  let depth := csf_mode_depth mode (dim_perm csf) (nmodes csf) in
  for_range 0 (ntiles csf) (flops_tile csf mode nf depth) 0%Z.

End FlopCounters.

(** [p_ttmc_outncols] and [ttmc_csf_count_flops] as compiled, on [idx_t]. *)
Definition p_ttmc_outncols : list Z -> nat -> nat -> Z := outncols_with idx_mul.

Definition ttmc_csf_count_flops : splatt_csf -> nat -> list Z -> Z :=
  count_flops_with idx_mul idx_add.

(** The same count in unbounded integers. *)
Definition count_flops_unbounded : splatt_csf -> nat -> list Z -> Z :=
  count_flops_with Z.mul Z.add.

(** [ttmc_coord_count_flops]: [(nnzflops, accum)] over [m = nmodes-1 .. 0]. *)
Definition coord_flops_step (mode : nat) (nf : list Z) (m : nat) (st : Z * Z) : Z * Z :=
  if Nat.eqb m mode then st
  else
    let accum := idx_mul (snd st) (nf !!! m) in
    (idx_add (fst st) accum, accum).

Definition ttmc_coord_count_flops (tt : sptensor_t) (mode : nat) (nf : list Z) : Z :=
  let st := for_down (tt_nmodes tt) 0 (coord_flops_step mode nf) (0%Z, 1%Z) in
  idx_mul (Z.of_nat (tt_nnz tt)) (fst st).

(** ** The lock pool of ttm.c *)

Definition NLOCKS : nat := 1024.

Inductive lock_op : Type :=
  | LockSet (slot : Z)
  | LockUnset (slot : Z).

Definition lock_slot (op : lock_op) : Z :=
  match op with LockSet s => s | LockUnset s => s end.

(** The memory a TTMc call works on: the caller's output buffer, the
    worker's scratch ([thds[tid].scratch[0]] and [scratch[2]]), and the
    static lock pool: the flag [locks_initialized], the offsets into
    [locks] on which [omp_init_lock] has run, and the trace of
    [omp_set_lock] / [omp_unset_lock] calls, oldest first. *)
Record ttmc_mem : Type := TtmcMem {
  tenout : list val_t;
  scratch0 : list val_t;
  scratch2 : list val_t;
  locks_initialized : bool;
  lock_slots : list Z;
  lock_log : list lock_op
}.

Definition set_tenout (f : list val_t -> list val_t) (st : ttmc_mem) : ttmc_mem :=
  TtmcMem (f (tenout st)) (scratch0 st) (scratch2 st)
    (locks_initialized st) (lock_slots st) (lock_log st).

Definition set_scratch0 (f : list val_t -> list val_t) (st : ttmc_mem) : ttmc_mem :=
  TtmcMem (tenout st) (f (scratch0 st)) (scratch2 st)
    (locks_initialized st) (lock_slots st) (lock_log st).

Definition set_scratch2 (f : list val_t -> list val_t) (st : ttmc_mem) : ttmc_mem :=
  TtmcMem (tenout st) (scratch0 st) (f (scratch2 st))
    (locks_initialized st) (lock_slots st) (lock_log st).

Definition log_lock (op : lock_op) (st : ttmc_mem) : ttmc_mem :=
  TtmcMem (tenout st) (scratch0 st) (scratch2 st)
    (locks_initialized st) (lock_slots st) (lock_log st ++ [op]).

(** [p_init_locks]: [omp_init_lock(locks + (i*16))] for [i < NLOCKS], once. *)
Definition p_init_locks (st : ttmc_mem) : ttmc_mem :=
  if locks_initialized st then st
  else
    TtmcMem (tenout st) (scratch0 st) (scratch2 st) true
      (for_range 0 NLOCKS (fun i slots => slots ++ [Z.of_nat (i * 16)]) (lock_slots st))
      (lock_log st).

(** The conversion of an [idx_t] argument to the [int] parameter of
    [p_splatt_set_lock]: reduction to 32 bits, two's complement. *)
Definition int_of_idx (z : Z) : Z := ((z + 2 ^ 31) mod 2 ^ 32 - 2 ^ 31)%Z.

(** [p_splatt_set_lock] and [p_splatt_unset_lock]; [%] on [int] truncates
    towards zero. *)
Definition p_splatt_set_lock (id : Z) (st : ttmc_mem) : ttmc_mem :=
  let i := (Z.rem id (Z.of_nat NLOCKS) * 16)%Z in
  log_lock (LockSet i) st.

Definition p_splatt_unset_lock (id : Z) (st : ttmc_mem) : ttmc_mem :=
  let i := (Z.rem id (Z.of_nat NLOCKS) * 16)%Z in
  log_lock (LockUnset i) st.

(** ** Dense helpers of ttm.c *)

(** A row pointer [base + k] into a flat array, read at [r]. *)
Definition row_at (a : list val_t) (base : nat) (r : nat) : val_t := a !!! (base + r).

(** [p_twovec_outer_prod]: [out[i*nB + j] = rowA[i] * rowB[j]]; [out] is the
    array with the destination starting at [base]. *)
Definition p_twovec_outer_prod (rowA : nat -> val_t) (nA : nat)
    (rowB : nat -> val_t) (nB : nat) (base : nat) (out : list val_t) : list val_t :=
  for_range 0 nA (fun i (out : list val_t) =>
    let ival := rowA i in
    for_range 0 nB (fun j (out : list val_t) => <[base + i * nB + j := (ival * rowB j)%Qc]> out) out) out.

(** [p_twovec_outer_prod_accum]: [out[i*nB + j] += rowA[i] * rowB[j]]. *)
Definition p_twovec_outer_prod_accum (rowA : nat -> val_t) (nA : nat)
    (rowB : nat -> val_t) (nB : nat) (base : nat) (out : list val_t) : list val_t :=
  for_range 0 nA (fun i (out : list val_t) =>
    let ival := rowA i in
    for_range 0 nB (fun j (out : list val_t) =>
      <[base + i * nB + j := (out !!! (base + i * nB + j)%nat + ival * rowB j)%Qc]> out) out) out.

(** [p_clear_tenout]: [outsize] is [dims[mode]] times the column counts of
    the other matrices; [par_memset] zeroes that many entries. *)
Definition p_clear_outsize (mats : list matrix_t) (nm mode : nat) (dms : list nat) : nat :=
  for_range 0 nm
    (fun m outsize => if Nat.eqb m mode then outsize else outsize * mat_J (mats !!! m))
    (dms !!! mode).

Definition par_memset_zero (n : nat) (a : list val_t) : list val_t :=
  for_range 0 n (fun k (a : list val_t) => <[k := 0%Qc]> a) a.

Definition p_clear_tenout (mats : list matrix_t) (nm mode : nat) (dms : list nat)
    (st : ttmc_mem) : ttmc_mem :=
  set_tenout (par_memset_zero (p_clear_outsize mats nm mode dms)) st.

(** ** The 3-mode CSF kernels *)

(** [(sids == NULL) ? s : sids[s]] *)
Definition fid_at (ids : option (list nat)) (s : nat) : nat :=
  match ids with
  | None => s
  | Some l => l !!! s
  end.

(** [ids[i]] where the code does not test the array against NULL. *)
Definition ids_at (ids : option (list nat)) (i : nat) : nat := default [] ids !!! i.

Definition tile_fptr (t : csf_sparsity) (l : nat) : list nat := fptr t !!! l.

Definition tile_fids (t : csf_sparsity) (l : nat) : option (list nat) := fids t !!! l.

Definition tile_vals (t : csf_sparsity) : list val_t := default [] (vals t).

(** The per-fiber reduction shared by the root and internal kernels:
    [accum_nnz[r] = vfirst * bv[r]] from the first nonzero of fiber [f], then
    [accum_nnz[r] += v * bv[r]] for the others. *)
Definition fiber_accum_nnz (t : csf_sparsity) (B : matrix_t) (f : nat)
    (accum_nnz : list val_t) : list val_t :=
  let rankB := mat_J B in
  let fp := tile_fptr t 1 in
  let inds := tile_fids t 2 in
  let vs := tile_vals t in
  let jjfirst := fp !!! f in
  let vfirst := vs !!! jjfirst in
  let bv := row_at (mat_vals B) (ids_at inds jjfirst * rankB) in
  let accum_nnz :=
    for_range 0 rankB (fun r (acc : list val_t) => <[r := (vfirst * bv r)%Qc]> acc) accum_nnz in
  for_range (fp !!! f + 1) (fp !!! (f + 1)) (fun jj (acc : list val_t) =>
    let v := vs !!! jj in
    let bv := row_at (mat_vals B) (ids_at inds jj * rankB) in
    for_range 0 rankB (fun r (acc : list val_t) => <[r := (acc !!! r + v * bv r)%Qc]> acc) acc) accum_nnz.

(** [p_csf_ttmc_intl3] *)
Definition p_csf_ttmc_intl3 (csf : splatt_csf) (tile_id : nat) (mats : list matrix_t)
    (st : ttmc_mem) : ttmc_mem :=
  let A := mats !!! (dim_perm csf !!! 0) in
  let B := mats !!! (dim_perm csf !!! 2) in
  let rankA := mat_J A in
  let rankB := mat_J B in
  let t := pt csf !!! tile_id in
  let sptr := tile_fptr t 0 in
  let sids := tile_fids t 0 in
  let fids1 := tile_fids t 1 in
  let nslices := nfibs t !!! 0 in
  for_range 0 nslices (fun s st =>
    let fid := fid_at sids s in
    let av := row_at (mat_vals A) (fid * rankA) in
    for_range (sptr !!! s) (sptr !!! (s + 1)) (fun f st =>
      let st := set_scratch0 (fiber_accum_nnz t B f) st in
      (* accumulate outer product into tenout *)
      let o := ids_at fids1 f in
      let st := log_lock (LockSet (Z.of_nat (o mod NLOCKS))) st in
      let st :=
        set_tenout
          (p_twovec_outer_prod_accum av rankA (row_at (scratch0 st) 0) rankB
             (o * rankA * rankB)) st in
      log_lock (LockUnset (Z.of_nat (o mod NLOCKS))) st) st) st.

(** [p_csf_ttmc_leaf3].  The function opens with
    [assert(csf->nmodes == 3)], which is not carried here: the properties
    of this kernel take a representation of three modes.  The outer product
    of a fiber goes through [thds[tid].scratch[2]], which the caller has to
    have allocated. *)
Definition p_csf_ttmc_leaf3 (csf : splatt_csf) (tile_id : nat) (mats : list matrix_t)
    (st : ttmc_mem) : ttmc_mem :=
  let A := mats !!! (dim_perm csf !!! 0) in
  let B := mats !!! (dim_perm csf !!! 1) in
  let rankA := mat_J A in
  let rankB := mat_J B in
  let t := pt csf !!! tile_id in
  let sptr := tile_fptr t 0 in
  let fp := tile_fptr t 1 in
  let sids := tile_fids t 0 in
  let fids1 := tile_fids t 1 in
  let inds := tile_fids t 2 in
  let vs := tile_vals t in
  let nslices := nfibs t !!! 0 in
  for_range 0 nslices (fun s st =>
    let fid := fid_at sids s in
    (* root row *)
    let av := row_at (mat_vals A) (fid * rankA) in
    for_range (sptr !!! s) (sptr !!! (s + 1)) (fun f st =>
      (* fill fiber with outer product *)
      let bv := row_at (mat_vals B) (ids_at fids1 f * rankB) in
      let st := set_scratch2 (p_twovec_outer_prod av rankA bv rankB 0) st in
      for_range (fp !!! f) (fp !!! (f + 1)) (fun jj st =>
        let v := vs !!! jj in
        let o := ids_at inds jj in
        let st := log_lock (LockSet (Z.of_nat (o mod NLOCKS))) st in
        let st :=
          set_tenout (fun out =>
            for_range 0 (rankA * rankB) (fun r (out : list val_t) =>
              <[o * rankA * rankB + r :=
                  (out !!! (o * rankA * rankB + r)%nat + v * scratch2 st !!! r)%Qc]> out) out)
            st in
        log_lock (LockUnset (Z.of_nat (o mod NLOCKS))) st) st) st) st.

(** [p_csf_ttmc_root].  The body in the source is scaffolding: it sizes and
    allocates the per-level buffers [buf], walks [idxstack] over the fiber
    pointers and frees [buf]; the arithmetic is commented out, the names
    [i], [lastmat] and [inds] it reads are not declared, and no statement
    stores through [tenout], touches the scratch or takes a lock.  Its
    effect on the memory of the call is therefore none.  (The 3-mode kernel
    [p_csf_ttmc_root3] is compiled but its only call is inside [#if 0].)
    Whether a call of it comes back is not read off the source, which as it
    stands does not compile and asserts on [mats[MAX_NMODES]]: the
    properties that pass through this definition speak of the memory the
    call ends with, never of its returning. *)
Definition p_csf_ttmc_root (csf : splatt_csf) (tile_id : nat) (mats : list matrix_t)
    (st : ttmc_mem) : ttmc_mem := st.

(** ** Dispatch *)

(** How a call ends: it returns, or the process is ended by [exit(code)];
    either way with the memory as it then is. *)
Inductive outcome (S : Type) : Type :=
  | Returns (s : S)
  | Exits (code : Z) (s : S).

Arguments Returns {S} s.
Arguments Exits {S} code s.

Definition outcome_mem {S : Type} (o : outcome S) : S :=
  match o with Returns s => s | Exits _ s => s end.

Definition p_root_decide (tensor : splatt_csf) (mats : list matrix_t) (mode : nat)
    (st : ttmc_mem) : outcome ttmc_mem :=
  match which_tile tensor with
  | SPLATT_NOTILE => Returns (p_csf_ttmc_root tensor 0 mats st)
  | _ => Exits 1 st
  end.

Definition p_intl_decide (csf : splatt_csf) (mats : list matrix_t) (mode : nat)
    (st : ttmc_mem) : outcome ttmc_mem :=
  match which_tile csf with
  | SPLATT_NOTILE => Returns (p_csf_ttmc_intl3 csf 0 mats st)
  | _ => Exits 1 st
  end.

Definition p_leaf_decide (csf : splatt_csf) (mats : list matrix_t) (mode : nat)
    (st : ttmc_mem) : outcome ttmc_mem :=
  match which_tile csf with
  | SPLATT_NOTILE => Returns (p_csf_ttmc_leaf3 csf 0 mats st)
  | _ => Exits 1 st
  end.

(** The entries of [opts] the TTMc code reads. *)
Record splatt_opts : Type := Opts {
  opt_nthreads : nat;
  opt_csf_alloc : splatt_csf_type
}.

(** [ttmc_csf] *)
Definition ttmc_csf (tensors : list splatt_csf) (mats : list matrix_t) (mode : nat)
    (opts : splatt_opts) (st : ttmc_mem) : outcome ttmc_mem :=
  let t0 := tensors !!! 0 in
  (* clear out stale results *)
  let st := p_clear_tenout mats (nmodes t0) mode (dims t0) st in
  let st := p_init_locks st in
  let nm := nmodes t0 in
  match opt_csf_alloc opts with
  | SPLATT_CSF_ONEMODE =>
      let outdepth := csf_mode_depth mode (dim_perm t0) nm in
      if Nat.eqb outdepth 0 then p_root_decide t0 mats mode st
      else if Nat.eqb outdepth (nm - 1) then p_leaf_decide t0 mats mode st
      else p_intl_decide t0 mats mode st
  | SPLATT_CSF_TWOMODE =>
      (* longest mode handled via second tensor's root *)
      if Nat.eqb mode (dim_perm t0 !!! (nm - 1)) then
        p_root_decide (tensors !!! 1) mats mode st
      else
        let outdepth := csf_mode_depth mode (dim_perm t0) nm in
        if Nat.eqb outdepth 0 then p_root_decide t0 mats mode st
        else p_intl_decide t0 mats mode st
  | SPLATT_CSF_ALLMODE => p_root_decide (tensors !!! mode) mats mode st
  | SPLATT_CSF_INVALID _ => Exits 1 st
  end.

(** The status codes of the public header.  Only [SPLATT_SUCCESS] is
    named in the sources at hand; the error codes are kept apart by their
    number. *)
Inductive splatt_error_type : Type :=
  | SPLATT_SUCCESS
  | SPLATT_ERROR (code : Z).

(** [splatt_ttmc]: wraps the caller's arrays into [matrix_t]s over
    [tensors->dims] and [ncolumns], runs [ttmc_csf], frees, and returns
    [SPLATT_SUCCESS].  An [exit] inside [ttmc_csf] ends the process there,
    before any value is returned.

    [thd_init] is asked for one scratch array per worker, so
    [scratch[2]] does not exist in this call: the empty array stands for
    it.  A request that reaches the leaf kernel stores through that
    missing array, and a request that reaches the root kernel runs
    unfinished code; what the C program does on either is not described by
    this definition, and the properties of [splatt_ttmc] below are stated
    for the requests that exit and for the internal kernel only, except
    for the one that reads off the single [return] statement. *)
Definition splatt_ttmc (mode : nat) (ncolumns : list nat) (tensors : list splatt_csf)
    (matrices : list (list val_t)) (opts : splatt_opts) (st : ttmc_mem)
    : outcome (option splatt_error_type * ttmc_mem) :=
  let t0 := tensors !!! 0 in
  (* fill matrix pointers *)
  let mm :=
    for_range 0 (nmodes t0) (fun m (mm : list matrix_t * nat) =>
      (fst mm ++ [Matrix (dims t0 !!! m) (ncolumns !!! m) (matrices !!! m)],
       Nat.max (snd mm) (ncolumns !!! m))) ([], 0) in
  let mats := fst mm in
  let maxcols := snd mm in
  (* thd_init(nthreads, 1, maxcols * sizeof(val_t) + 64): one scratch array
     per worker, of [maxcols] values and 64 bytes more *)
  let st :=
    TtmcMem (tenout st) (replicate (maxcols + 8) 0%Qc) []
      (locks_initialized st) (lock_slots st) (lock_log st) in
  match ttmc_csf tensors mats mode opts st with
  | Returns st' => Returns (Some SPLATT_SUCCESS, st')
  | Exits c st' => Exits c (None, st')
  end.

(** ** The coordinate fallback *)

(** The locals of one worker of [ttmc_stream]: the memory of the call, the
    [buffers], the mode whose buffer [curr_buff] points to, and
    [buff_size]. *)
Record stream_thd : Type := StreamThd {
  thd_mem : ttmc_mem;
  thd_buffers : list (list val_t);
  thd_curr : nat;
  thd_buff_size : nat
}.

(** The set-up loop of [ttmc_stream], [m = nmodes-1 .. 0], on
    [(total_cols, ncols, buffers)].  The arrays are declared with
    [MAX_NMODES] entries; the [nmodes] (for [ncols], [nmodes + 1]) entries in
    use are modelled.  A buffer from [splatt_malloc] starts zero-filled
    here; every entry is written before it is read. *)
Definition stream_setup_step (mats : list matrix_t) (mode : nat) (m : nat)
    (loc : nat * list nat * list (list val_t)) : nat * list nat * list (list val_t) :=
  let '(total_cols, ncols, buffers) := loc in
  let nf := mat_J (mats !!! m) in
  if Nat.eqb m mode then
    (total_cols, <[m := ncols !!! (m + 1)]> ncols, <[m := []]> buffers)
  else
    let c := ncols !!! (m + 1) * nf in
    (total_cols * nf, <[m := c]> ncols, <[m := replicate c 0%Qc]> buffers).

Definition stream_setup (nm : nat) (mats : list matrix_t) (mode : nat)
    : nat * list nat * list (list val_t) :=
  for_down nm 0 (stream_setup_step mats mode)
    (1, <[nm := 1]> (replicate (nm + 1) 0), replicate nm []).

(** The body of the Kronecker loop, [m = last_mode-1 .. 0], for nonzero [n]. *)
Definition stream_kron_step (tt : sptensor_t) (mats : list matrix_t) (mode : nat)
    (first_mode : nat) (outrow : nat) (n : nat) (m : nat) (th : stream_thd) : stream_thd :=
  if Nat.eqb m mode then th
  else
    let nf := mat_J (mats !!! m) in
    let row := row_at (mat_vals (mats !!! m)) ((tt_ind tt !!! m) !!! n * nf) in
    let curr_buff := row_at (thd_buffers th !!! thd_curr th) 0 in
    let th :=
      if negb (Nat.eqb m first_mode) then
        (* outer product *)
        StreamThd (thd_mem th)
          (<[m := p_twovec_outer_prod row nf curr_buff (thd_buff_size th) 0
                    (thd_buffers th !!! m)]> (thd_buffers th))
          (thd_curr th) (thd_buff_size th)
      else
        let id := int_of_idx (Z.of_nat ((tt_ind tt !!! mode) !!! n)) in
        let st := p_splatt_set_lock id (thd_mem th) in
        (* accumulate into output on the first mode (last to be processed) *)
        let st :=
          set_tenout
            (p_twovec_outer_prod_accum row nf curr_buff (thd_buff_size th) outrow) st in
        let st := p_splatt_unset_lock id st in
        StreamThd st (thd_buffers th) (thd_curr th) (thd_buff_size th) in
    (* next buffer *)
    StreamThd (thd_mem th) (thd_buffers th) m (thd_buff_size th * nf).

(** The body of the loop over the nonzeros. *)
Definition stream_nnz_step (tt : sptensor_t) (mats : list matrix_t) (mode : nat)
    (total_cols first_mode last_mode : nat) (n : nat) (th : stream_thd) : stream_thd :=
  let outrow := (tt_ind tt !!! mode) !!! n * total_cols in
  (* initialize buffer with nonzero value *)
  let nfl := mat_J (mats !!! last_mode) in
  let last_row :=
    row_at (mat_vals (mats !!! last_mode)) ((tt_ind tt !!! last_mode) !!! n * nfl) in
  let v := tt_vals tt !!! n in
  let buf :=
    for_range 0 nfl (fun f (b : list val_t) => <[f := (v * last_row f)%Qc]> b)
      (thd_buffers th !!! last_mode) in
  let th := StreamThd (thd_mem th) (<[last_mode := buf]> (thd_buffers th)) last_mode nfl in
  (* now do nmodes-1 kronecker products *)
  for_down last_mode 0 (stream_kron_step tt mats mode first_mode outrow n) th.

(** [ttmc_stream] *)
Definition ttmc_stream (tt : sptensor_t) (mats : list matrix_t) (mode : nat)
    (st : ttmc_mem) : ttmc_mem :=
  let nm := tt_nmodes tt in
  let st := p_init_locks st in
  (* clear out stale results *)
  let st := p_clear_tenout mats nm mode (tt_dims tt) st in
  let '(total_cols, _, buffers) := stream_setup nm mats mode in
  (* the last mode we accumulate with *)
  let first_mode := if Nat.eqb mode 0 then 1 else 0 in
  let last_mode := if Nat.eqb mode (nm - 1) then nm - 2 else nm - 1 in
  thd_mem
    (for_range 0 (tt_nnz tt)
       (stream_nnz_step tt mats mode total_cols first_mode last_mode)
       (StreamThd st buffers 0 0)).

(** [tenout_dim]: the largest output size over the modes. *)
Definition tenout_dim (nm : nat) (nfactors : list Z) (dms : list Z) : Z :=
  for_range 0 nm (fun m maxdim =>
    Z.max maxdim (idx_mul (dms !!! m) (p_ttmc_outncols nfactors nm m))) 0%Z.

(** ** CCD tensor completion (completion/ccd.c) *)

(** [tc_model] and [tc_ws], with the fields ccd.c reads and writes. *)
Record tc_model : Type := TcModel {
  model_rank : nat;
  model_dims : list nat;
  factors : list (list val_t)
}.

Record tc_ws : Type := TcWs {
  regularization : list val_t;
  numerator : list val_t;
  denominator : list val_t
}.

Inductive node_type : Type :=
  | NODE_ROOT
  | NODE_INTL
  | NODE_LEAF.

(** [which_depth] *)
Definition which_depth (csf : splatt_csf) (m : nat) : node_type :=
  let depth := csf_mode_depth m (dim_perm csf) (nmodes csf) in
  if Nat.eqb depth 0 then NODE_ROOT
  else if Nat.eqb depth (nmodes csf - 1) then NODE_LEAF
  else NODE_INTL.

(** [GRAB_CONST_FACTORS]: column [f] of the factor at tree level [l],
    [model->factors[csf->dim_perm[l]] + (f * model->dims[csf->dim_perm[l]])]. *)
Definition factor_col (csf : splatt_csf) (model : tc_model) (f : nat) (l : nat)
    : nat -> val_t :=
  let m := dim_perm csf !!! l in
  row_at (factors model !!! m) (f * (model_dims model !!! m)).

(** The loop nest over one tile that all the 3-mode routines of ccd.c
    share: slices [i], their fibers [fib], their nonzeros [jj].  [body] gets
    the three ids and [jj]. *)
Definition tile_walk3 {S : Type} (t : csf_sparsity)
    (body : nat -> nat -> nat -> nat -> S -> S) (s : S) : S :=
  let sptr := tile_fptr t 0 in
  let fp := tile_fptr t 1 in
  for_range 0 (nfibs t !!! 0) (fun i s =>
    let a_id := fid_at (tile_fids t 0) i in
    for_range (sptr !!! i) (sptr !!! (i + 1)) (fun fib s =>
      let b_id := ids_at (tile_fids t 1) fib in
      for_range (fp !!! fib) (fp !!! (fib + 1)) (fun jj s =>
        body a_id b_id (ids_at (tile_fids t 2) jj) jj s) s) s) s.

Definition set_vals (t : csf_sparsity) (res : list val_t) : csf_sparsity :=
  CsfSparsity (nfibs t) (fptr t) (fids t)
    (match vals t with Some _ => Some res | None => None end).

(** [p_update_residual3] on one tile: [(residual, myloss)]. *)
Definition update_residual_tile (csf : splatt_csf) (f : nat) (model : tc_model)
    (mult : val_t) (t : csf_sparsity) (st : list val_t * val_t) : list val_t * val_t :=
  let avals := factor_col csf model f 0 in
  let bvals := factor_col csf model f 1 in
  let cvals := factor_col csf model f 2 in
  tile_walk3 t (fun a_id b_id c_id jj (st : list val_t * val_t) =>
    let aval := avals a_id in
    let bval := bvals b_id in
    let cval := cvals c_id in
    let residual := <[jj := (fst st !!! jj + mult * aval * bval * cval)%Qc]> (fst st) in
    (residual, (snd st + residual !!! jj * residual !!! jj)%Qc)) st.

(** [p_update_residual3]: the tensor with the residual updated in place,
    and the loss returned. *)
Definition p_update_residual3 (csf : splatt_csf) (f : nat) (model : tc_model)
    (mult : val_t) : splatt_csf * val_t :=
  let r :=
    for_range 0 (ntiles csf) (fun tile (st : list csf_sparsity * val_t) =>
      let t := fst st !!! tile in
      let '(res, myloss) :=
        update_residual_tile csf f model mult t (tile_vals t, snd st) in
      (<[tile := set_vals t res]> (fst st), myloss)) (pt csf, 0%Qc) in
  (Csf (nmodes csf) (dims csf) (dim_perm csf) (which_tile csf) (ntiles csf)
     (tile_dims csf) (fst r), snd r).

(** [p_process_root3] on [(numer, denom)]. *)
Definition p_process_root3 (csf : splatt_csf) (tile : nat) (f : nat) (model : tc_model)
    (nd : list val_t * list val_t) : list val_t * list val_t :=
  let t := pt csf !!! tile in
  let residual := tile_vals t in
  let avals := factor_col csf model f 0 in
  let bvals := factor_col csf model f 1 in
  let cvals := factor_col csf model f 2 in
  tile_walk3 t (fun a_id b_id c_id jj (nd : list val_t * list val_t) =>
    let bval := bvals b_id in
    let cval := cvals c_id in
    let sgrad := (bval * cval)%Qc in
    (<[a_id := (fst nd !!! a_id + residual !!! jj * bval * cval)%Qc]> (fst nd),
     <[a_id := (snd nd !!! a_id + sgrad * sgrad)%Qc]> (snd nd))) nd.

(** [p_process_intl3] *)
Definition p_process_intl3 (csf : splatt_csf) (tile : nat) (f : nat) (model : tc_model)
    (nd : list val_t * list val_t) : list val_t * list val_t :=
  let t := pt csf !!! tile in
  let residual := tile_vals t in
  let avals := factor_col csf model f 0 in
  let bvals := factor_col csf model f 1 in
  let cvals := factor_col csf model f 2 in
  tile_walk3 t (fun a_id b_id c_id jj (nd : list val_t * list val_t) =>
    let aval := avals a_id in
    let cval := cvals c_id in
    let sgrad := (aval * cval)%Qc in
    (<[b_id := (fst nd !!! b_id + residual !!! jj * sgrad)%Qc]> (fst nd),
     <[b_id := (snd nd !!! b_id + sgrad * sgrad)%Qc]> (snd nd))) nd.

(** [p_process_leaf3] *)
Definition p_process_leaf3 (csf : splatt_csf) (tile : nat) (f : nat) (model : tc_model)
    (nd : list val_t * list val_t) : list val_t * list val_t :=
  let t := pt csf !!! tile in
  let residual := tile_vals t in
  let avals := factor_col csf model f 0 in
  let bvals := factor_col csf model f 1 in
  let cvals := factor_col csf model f 2 in
  tile_walk3 t (fun a_id b_id c_id jj (nd : list val_t * list val_t) =>
    let aval := avals a_id in
    let bval := bvals b_id in
    let predict := (aval * bval)%Qc in
    let sgrad := (aval * bval)%Qc in
    (<[c_id := (fst nd !!! c_id + residual !!! jj * predict)%Qc]> (fst nd),
     <[c_id := (snd nd !!! c_id + sgrad * sgrad)%Qc]> (snd nd))) nd.

(** [p_init_residual]: the factors are read row by row here,
    [avals + (a_id * nfactors)], entry [f] of the row. *)
Definition p_init_residual (csf : splatt_csf) (model : tc_model) : splatt_csf :=
  let nfactors := model_rank model in
  let avals := factors model !!! (dim_perm csf !!! 0) in
  let bvals := factors model !!! (dim_perm csf !!! 1) in
  let cvals := factors model !!! (dim_perm csf !!! 2) in
  let tiles :=
    for_range 0 (ntiles csf) (fun tile (tiles : list csf_sparsity) =>
      let t := tiles !!! tile in
      let res :=
        tile_walk3 t (fun a_id b_id c_id jj (residual : list val_t) =>
          let arow := row_at avals (a_id * nfactors) in
          let brow := row_at bvals (b_id * nfactors) in
          let crow := row_at cvals (c_id * nfactors) in
          for_range 0 nfactors (fun f (residual : list val_t) =>
            (* predict_buf[f] = arow[f] * brow[f] *)
            <[jj := (residual !!! jj - (arow f * brow f) * crow f)%Qc]> residual)
            residual) (tile_vals t) in
      <[tile := set_vals t res]> tiles) (pt csf) in
  Csf (nmodes csf) (dims csf) (dim_perm csf) (which_tile csf) (ntiles csf)
    (tile_dims csf) tiles.

(** Modelled from the spec: the tile walker [get_next_tileid] (tile.c is not
    part of the sources at hand).  Tile ids number the Cartesian grid
    [tile_dims] row-major; for mode [m] and layer [t] the walker yields, in
    ascending order and once each, the tile ids whose mode-[m] coordinate is
    [t] (spec 4.2, P6, S5), then [TILE_END].  [plane_tiles] is the sequence
    the [while(tile != TILE_END)] loop of [splatt_tc_ccd] runs through. *)
Definition tile_stride (tdims : list nat) (nm m : nat) : nat :=
  fold_right Nat.mul 1 (drop (m + 1) (take nm tdims)).

Definition tile_coord (tdims : list nat) (nm m : nat) (id : nat) : nat :=
  (id / tile_stride tdims nm m) mod (tdims !!! m).

Definition plane_tiles (tdims : list nat) (nm m t : nat) : list nat :=
  List.filter (fun id => Nat.eqb (tile_coord tdims nm m id) t)
    (seq 0 (fold_right Nat.mul 1 (take nm tdims))).

Definition set_factor (model : tc_model) (m : nat) (col : list val_t) : tc_model :=
  TcModel (model_rank model) (model_dims model) (<[m := col]> (factors model)).

(** The [switch(which)] of [splatt_tc_ccd]. *)
Definition p_process (which : node_type) (csf : splatt_csf) (tile : nat) (f : nat)
    (model : tc_model) (nd : list val_t * list val_t) : list val_t * list val_t :=
  match which with
  | NODE_ROOT => p_process_root3 csf tile f model nd
  | NODE_INTL => p_process_intl3 csf tile f model nd
  | NODE_LEAF => p_process_leaf3 csf tile f model nd
  end.

(** The body of the loop over the modes in [splatt_tc_ccd]: numerator and
    denominator of column [f] of mode [m], then the new column.  The
    quotient is that of the rationals, which gives 0 for a zero denominator
    where the division of [val_t] gives an infinity or a NaN: the two agree
    where the denominator is not zero, which a positive regularisation
    ensures. *)
Definition ccd_mode_pass (csf : splatt_csf) (f : nat) (m : nat)
    (mw : tc_model * tc_ws) : tc_model * tc_ws :=
  let model := fst mw in
  let ws := snd mw in
  let dim := model_dims model !!! m in
  (* initialize numerator/denominator *)
  let nd :=
    for_range 0 dim (fun i (nd : list val_t * list val_t) =>
      (<[i := 0%Qc]> (fst nd), <[i := regularization ws !!! m]> (snd nd)))
      (numerator ws, denominator ws) in
  (* which routine to call? *)
  let which := which_depth csf m in
  let nd :=
    for_range 0 (tile_dims csf !!! m) (fun t (nd : list val_t * list val_t) =>
      fold_left (fun nd tile => p_process which csf tile f model nd)
        (plane_tiles (tile_dims csf) (nmodes csf) m t) nd) nd in
  (* numerator/denominator are now computed; update factor column *)
  let col :=
    for_range 0 dim (fun i (a : list val_t) =>
      <[f * dim + i := (fst nd !!! i / snd nd !!! i)%Qc]> a) (factors model !!! m) in
  (set_factor model m col, TcWs (regularization ws) (fst nd) (snd nd)).

(** The body of the loop over the columns [f] in one epoch. *)
Definition ccd_column (f : nat) (st : splatt_csf * tc_model * tc_ws * val_t)
    : splatt_csf * tc_model * tc_ws * val_t :=
  let '(csf, model, ws, loss) := st in
  (* add current component to residual *)
  let csf := fst (p_update_residual3 csf f model 1%Qc) in
  (* compute new column 'f' for each factor *)
  let mw := for_range 0 (nmodes csf) (ccd_mode_pass csf f) (model, ws) in
  (* subtract new rank-1 factor from residual *)
  let r := p_update_residual3 csf f (fst mw) (-1)%Qc in
  (fst r, fst mw, snd mw, snd r).

(** One epoch of [splatt_tc_ccd]. *)
Definition ccd_epoch (st : splatt_csf * tc_model * tc_ws) : splatt_csf * tc_model * tc_ws * val_t :=
  let '(csf, model, ws) := st in
  for_range 0 (model_rank model) ccd_column (csf, model, ws, 0%Qc).

(** ** Reference quantities the properties are stated against *)

Definition zsum (l : list Z) : Z := fold_right Z.add 0%Z l.

Definition zprod (l : list Z) : Z := fold_right Z.mul 1%Z l.

(** The modes [lo .. nm-1] other than [mode]. *)
Definition other_modes (lo nm mode : nat) : list nat :=
  List.filter (fun m => negb (Nat.eqb m mode)) (seq lo (nm - lo)).

(** The size of the Kronecker product of the factor rows of the modes
    [m'' >= m'], [m'' <> mode]. *)
Definition kron_cost (ncol : list Z) (nm mode m' : nat) : Z :=
  zprod (map (fun m'' => ncol !!! m'') (other_modes m' nm mode)).

(** The per-nonzero cost of the coordinate form: the sum of [kron_cost]
    over the modes [m' >= lo], [m' <> mode]. *)
Definition coord_cost (lo : nat) (ncol : list Z) (nm mode : nat) : Z :=
  zsum (map (kron_cost ncol nm mode) (other_modes lo nm mode)).

(** Two states [(out_size, flops)] of the counting loops, one in [idx_t]
    and one in unbounded integers, that agree modulo [2^64]. *)
Definition congr_pair (s s' : Z * Z) : Prop :=
  idx_wrap (fst s) = idx_wrap (fst s') /\ snd s = idx_wrap (snd s').

(** Two states of the unbounded counting loops, the first below the
    second. *)
Definition le_pair (s s' : Z * Z) : Prop :=
  (0 <= fst s <= fst s')%Z /\ (0 <= snd s <= snd s')%Z.

(** Every [nfibs] count of [csf] is at most that of [csf'], the shape
    being the same. *)
Definition nfibs_le (csf csf' : splatt_csf) : Prop :=
  nmodes csf = nmodes csf' /\ dim_perm csf = dim_perm csf' /\
  ntiles csf = ntiles csf' /\
  forall tile d, nfibs (pt csf !!! tile) !!! d <= nfibs (pt csf' !!! tile) !!! d.

(** Every column count is at most the corresponding one of [nf'];
    [idx_t] values are not negative. *)
Definition ncolumns_le (nf nf' : list Z) : Prop :=
  forall m, (0 <= nf !!! m <= nf' !!! m)%Z.

(** What a caller observes of an [outcome]. *)
Definition returned {S : Type} (o : outcome S) : option S :=
  match o with Returns s => Some s | Exits _ _ => None end.

Definition exit_code {S : Type} (o : outcome S) : option Z :=
  match o with Returns _ => None | Exits c _ => Some c end.

(** The representation [ttmc_csf] hands to a kernel, if [CSF_ALLOC] is one of
    the three flavors. *)
Definition ttmc_target (tensors : list splatt_csf) (mode : nat) (opts : splatt_opts)
    : option splatt_csf :=
  let t0 := tensors !!! 0 in
  match opt_csf_alloc opts with
  | SPLATT_CSF_ONEMODE => Some t0
  | SPLATT_CSF_TWOMODE =>
      if Nat.eqb mode (dim_perm t0 !!! (nmodes t0 - 1)) then Some (tensors !!! 1)
      else Some t0
  | SPLATT_CSF_ALLMODE => Some (tensors !!! mode)
  | SPLATT_CSF_INVALID _ => None
  end.

(** The requests [ttmc_csf] serves: a known flavor and an untiled target. *)
Definition ttmc_supported (tensors : list splatt_csf) (mode : nat) (opts : splatt_opts)
    : bool :=
  match ttmc_target tensors mode opts with
  | Some t => match which_tile t with SPLATT_NOTILE => true | _ => false end
  | None => false
  end.

(** The number of entries of the output slab of mode [mode]. *)
Definition ttmc_outsize (t0 : splatt_csf) (mats : list matrix_t) (mode : nat) : nat :=
  p_clear_outsize mats (nmodes t0) mode (dims t0).

(** The lock slots on which [omp_init_lock] has run contain [slot]. *)
Definition slot_initialized (st : ttmc_mem) (slot : Z) : bool :=
  existsb (Z.eqb slot) (lock_slots st).

(** ** Sample inputs *)

Definition qz (z : Z) : val_t := Qc_of_Z z.

(** The tensor of scenario S1, [{(0,0,0):1, (1,0,0):2, (0,1,2):3}] with
    [dims = (2,2,3)], in coordinate form and as an untiled CSF with
    [dim_perm = (0,1,2)]. *)
Definition coo_s1 : sptensor_t :=
  SpTensor 3 [2; 2; 3] 3 [[0; 1; 0]; [0; 0; 1]; [0; 0; 2]] [qz 1; qz 2; qz 3].

Definition tile_s1 : csf_sparsity :=
  CsfSparsity [2; 3; 3] [[0; 2; 3]; [0; 1; 2; 3]]
    [None; Some [0; 1; 0]; Some [0; 2; 0]] (Some [qz 1; qz 3; qz 2]).

Definition csf_s1 : splatt_csf :=
  Csf 3 [2; 2; 3] [0; 1; 2] SPLATT_NOTILE 1 [1; 1; 1] [tile_s1].

Definition csf_s1_tiled : splatt_csf :=
  Csf 3 [2; 2; 3] [0; 1; 2] SPLATT_DENSETILE 1 [1; 1; 1] [tile_s1].

(** Three factor matrices with two columns each. *)
Definition mats_s1 : list matrix_t :=
  [Matrix 2 2 (map qz [1; 2; 3; 4]%Z);
   Matrix 2 2 (map qz [1; 10; 100; 1000]%Z);
   Matrix 3 2 (map qz [1; 1; 1; 1; 5; 7]%Z)].

(** A call memory: an output buffer of twelve entries holding 9, scratch of
    four entries, locks not yet initialised. *)
Definition mem_s1 : ttmc_mem :=
  TtmcMem (replicate 12 (qz 9)) (replicate 4 (qz 0)) (replicate 4 (qz 0)) false [] [].

Definition opts_onemode : splatt_opts := Opts 1 SPLATT_CSF_ONEMODE.

(** Whether an entry is zero. *)
Definition is_zero (x : val_t) : bool := Qc_eq_bool x 0%Qc.

(** ** The TTMc output, as the specification defines it *)

Definition qsum (l : list val_t) : val_t := fold_right Qcplus 0%Qc l.

(** The Kronecker product of row vectors, the leftmost factor varying
    slowest. *)
Definition kron2 (a b : list val_t) : list val_t :=
  flat_map (fun x => map (Qcmult x) b) a.

Fixpoint kron (rows : list (list val_t)) : list val_t :=
  match rows with
  | [] => [1%Qc]
  | r :: rs => kron2 r (kron rs)
  end.

(** Row [i] of a row-major matrix. *)
Definition mat_row (M : matrix_t) (i : nat) : list val_t :=
  map (row_at (mat_vals M) (i * mat_J M)) (seq 0 (mat_J M)).

(** A nonzero: its coordinates, one per mode, and its value. *)
Definition entry : Type := list nat * val_t.

(** The nonzeros of a coordinate tensor. *)
Definition tt_entries (tt : sptensor_t) : list entry :=
  map (fun n =>
         (map (fun m => (tt_ind tt !!! m) !!! n) (seq 0 (tt_nmodes tt)),
          tt_vals tt !!! n))
    (seq 0 (tt_nnz tt)).

(** [x] times the Kronecker product of the rows [U^(p)[i_p, :]], [p] running
    through [order]. *)
Definition entry_kron (mats : list matrix_t) (order : list nat) (e : entry)
    : list val_t :=
  map (Qcmult (snd e))
    (kron (map (fun p => mat_row (mats !!! p) (fst e !!! p)) order)).

(** Entry [(i, c)] of the TTMc output of mode [mode]: the sum, over the
    nonzeros whose mode-[mode] coordinate is [i], of entry [c] of
    [entry_kron]. *)
Definition ttmc_ref (entries : list entry) (mats : list matrix_t) (mode : nat)
    (order : list nat) (i c : nat) : val_t :=
  qsum (map (fun e =>
               if Nat.eqb (fst e !!! mode) i then entry_kron mats order e !!! c
               else 0%Qc) entries).

(** The number of columns of the output of mode [mode]. *)
Definition ttmc_ncols (mats : list matrix_t) (order : list nat) : nat :=
  fold_right Nat.mul 1 (map (fun p => mat_J (mats !!! p)) order).

(** The root-to-leaf paths of a 3-mode tile, in storage order: the ids at
    the three levels and the position [jj] of the nonzero. *)
Definition tile_paths (t : csf_sparsity) : list (nat * nat * nat * nat) :=
  let sptr := tile_fptr t 0 in
  let fp := tile_fptr t 1 in
  flat_map (fun s =>
    flat_map (fun fib =>
      map (fun jj =>
             (fid_at (tile_fids t 0) s, ids_at (tile_fids t 1) fib,
              ids_at (tile_fids t 2) jj, jj))
        (seq (fp !!! fib) (fp !!! (fib + 1) - fp !!! fib)))
      (seq (sptr !!! s) (sptr !!! (s + 1) - sptr !!! s)))
    (seq 0 (nfibs t !!! 0)).

Definition path_id (p : nat * nat * nat * nat) (l : nat) : nat :=
  let '(a, b, c, _) := p in
  match l with
  | 0 => a
  | 1 => b
  | _ => c
  end.

Definition path_jj (p : nat * nat * nat * nat) : nat := snd p.

(** The nonzeros a 3-mode tile stores, with the coordinates put back in
    mode order: the coordinate of mode [m] is the id at level [depth(m)]. *)
Definition csf_tile_entries (csf : splatt_csf) (tile : nat) : list entry :=
  let t := pt csf !!! tile in
  map (fun p =>
         (map (fun m => path_id p (csf_mode_depth m (dim_perm csf) (nmodes csf)))
            (seq 0 (nmodes csf)),
          tile_vals t !!! path_jj p))
    (tile_paths t).

(** [dim_perm] with [mode] removed, root to leaf. *)
Definition kron_order_csf (csf : splatt_csf) (mode : nat) : list nat :=
  List.filter (fun p => negb (Nat.eqb p mode)) (take (nmodes csf) (dim_perm csf)).

(** What the 3-mode kernels need of a tile: every fiber holds a nonzero,
    every id is below the dimension of its level, every nonzero has a
    value. *)
Definition tile3_ok (csf : splatt_csf) (t : csf_sparsity) : bool :=
  let sptr := tile_fptr t 0 in
  let fp := tile_fptr t 1 in
  forallb (fun s =>
    forallb (fun fib => Nat.ltb (fp !!! fib) (fp !!! (fib + 1)))
      (seq (sptr !!! s) (sptr !!! (s + 1) - sptr !!! s)))
    (seq 0 (nfibs t !!! 0))
  && forallb (fun p =>
       Nat.ltb (path_id p 0) (dims csf !!! (dim_perm csf !!! 0))
       && Nat.ltb (path_id p 1) (dims csf !!! (dim_perm csf !!! 1))
       && Nat.ltb (path_id p 2) (dims csf !!! (dim_perm csf !!! 2))
       && Nat.ltb (path_jj p) (length (tile_vals t)))
     (tile_paths t).

(** Row [o] of a slab with [w] columns holds position [k]. *)
Definition in_row (o w k : nat) : bool := Nat.leb (o * w) k && Nat.ltb k (o * w + w).

(** What one stored nonzero adds to position [k] of the output of a 3-mode
    kernel: [v] times the outer product of row [idA] of the first matrix
    and row [idB] of the second, placed in row [o] of the slab. *)
Definition path_contrib (A B : matrix_t) (o : nat) (v : val_t) (idA idB : nat)
    (k : nat) : val_t :=
  let RA := mat_J A in
  let RB := mat_J B in
  if Nat.leb (o * RA * RB) k && Nat.ltb k (o * RA * RB + RA * RB) then
    (v * (row_at (mat_vals A) (idA * RA) ((k - o * RA * RB) / RB)
          * row_at (mat_vals B) (idB * RB) ((k - o * RA * RB) mod RB)))%Qc
  else 0%Qc.

(** The lengths of the buffers of a call. *)
Definition mem_lengths (st : ttmc_mem) : nat * nat * nat :=
  (length (tenout st), length (scratch0 st), length (scratch2 st)).

(** ** Quantities of the coordinate fallback *)

(** Row [tt->ind[m][n]] of matrix [m], as [ttmc_stream] addresses it. *)
Definition stream_row (tt : sptensor_t) (mats : list matrix_t) (n m : nat) : nat -> val_t :=
  row_at (mat_vals (mats !!! m)) ((tt_ind tt !!! m) !!! n * mat_J (mats !!! m)).

(** The value [ncols[m]] computed by the set-up loop: the product of the
    column counts of the modes [>= m] other than [mode]. *)
Definition stream_size (mats : list matrix_t) (mode nm m : nat) : nat :=
  fold_right (fun p acc => acc * mat_J (mats !!! p)) 1 (other_modes m nm mode).

(** The Kronecker product of the rows of nonzero [n] over the modes [>= m]
    other than [mode]. *)
Definition stream_kron (tt : sptensor_t) (mats : list matrix_t) (mode nm n m : nat)
    : list val_t :=
  kron (map (fun p => mat_row (mats !!! p) ((tt_ind tt !!! p) !!! n))
          (other_modes m nm mode)).

(** The buffers of a worker are allocated: one per mode, the one of mode
    [p <> mode] with at least [ncols[p]] entries. *)
Definition stream_buffers_ok (mats : list matrix_t) (mode nm : nat)
    (buffers : list (list val_t)) : Prop :=
  length buffers = nm
  /\ forall p, p < nm -> p <> mode -> stream_size mats mode nm p <= length (buffers !!! p).

(** The state of the Kronecker loop of nonzero [n] before index [m - 1] is
    visited: [curr_buff] is the buffer of the lowest mode [>= m] other than
    [mode] and holds [v] times the Kronecker product of the rows of the
    modes [>= m]. *)
Definition stream_kron_inv (tt : sptensor_t) (mats : list matrix_t) (mode nm n m : nat)
    (th : stream_thd) : Prop :=
  stream_buffers_ok mats mode nm (thd_buffers th)
  /\ thd_curr th < nm
  /\ thd_buff_size th = stream_size mats mode nm m
  /\ forall j, j < stream_size mats mode nm m ->
       (thd_buffers th !!! thd_curr th) !!! j
       = (tt_vals tt !!! n * stream_kron tt mats mode nm n m !!! j)%Qc.

(** Every nonzero of a coordinate tensor has its mode-[mode] index below
    [dims[mode]]. *)
Definition tt_mode_ok (tt : sptensor_t) (mode : nat) : bool :=
  forallb (fun n => Nat.ltb ((tt_ind tt !!! mode) !!! n) (tt_dims tt !!! mode))
    (seq 0 (tt_nnz tt)).

(** What nonzero [n] of a coordinate tensor adds to position [k] of the
    output. *)
Definition stream_contrib (tt : sptensor_t) (mats : list matrix_t) (mode : nat)
    (k n : nat) : val_t :=
  let W := stream_size mats mode (tt_nmodes tt) 0 in
  let outrow := (tt_ind tt !!! mode) !!! n * W in
  if Nat.leb outrow k && Nat.ltb k (outrow + W) then
    Qcmult (tt_vals tt !!! n)
      (stream_kron tt mats mode (tt_nmodes tt) n 0 !!! (k - outrow))
  else 0%Qc.

(** What a stored nonzero adds to position [k] of the output of the
    3-mode CSF kernel that serves [mode]: the internal kernel when [mode]
    is at depth 1, the leaf kernel otherwise. *)
Definition csf3_contrib (csf : splatt_csf) (mats : list matrix_t) (mode : nat) (k : nat)
    (p : nat * nat * nat * nat) : val_t :=
  let perm := dim_perm csf in
  let v := tile_vals (pt csf !!! 0) !!! path_jj p in
  if Nat.eqb (csf_mode_depth mode perm (nmodes csf)) 1 then
    path_contrib (mats !!! (perm !!! 0)) (mats !!! (perm !!! 2))
      (path_id p 1) v (path_id p 0) (path_id p 2) k
  else
    path_contrib (mats !!! (perm !!! 0)) (mats !!! (perm !!! 1))
      (path_id p 2) v (path_id p 0) (path_id p 1) k.

(** The buffers of a call are large enough for mode [mode] of the 3-mode
    representation [csf]: the output slab fits [tenout], [scratch[0]] holds
    a row of the leaf matrix and [scratch[2]] an outer product. *)
Definition mem3_ok (csf : splatt_csf) (mats : list matrix_t) (mode : nat)
    (st : ttmc_mem) : bool :=
  Nat.leb (ttmc_outsize csf mats mode) (length (tenout st))
  && Nat.leb (mat_J (mats !!! (dim_perm csf !!! 2))) (length (scratch0 st))
  && Nat.leb (mat_J (mats !!! (dim_perm csf !!! 0)) * mat_J (mats !!! (dim_perm csf !!! 1)))
       (length (scratch2 st)).

(** The memory [ttmc_csf] hands to the kernel it selects. *)
Definition ttmc_cleared (tensors : list splatt_csf) (mats : list matrix_t) (mode : nat)
    (st : ttmc_mem) : ttmc_mem :=
  p_init_locks
    (p_clear_tenout mats (nmodes (tensors !!! 0)) mode (dims (tensors !!! 0)) st).

(** A 4-mode tensor, [{(0,2,0,0):5}] with [dims = (1,3,1,1)], in coordinate
    form and as an untiled CSF with [dim_perm = (0,1,2,3)]; four factor
    matrices with two columns each; a call memory whose output buffer has
    the 24 entries [tenout_dim] asks for, holding 9. *)
Definition coo_4 : sptensor_t :=
  SpTensor 4 [1; 3; 1; 1] 1 [[0]; [2]; [0]; [0]] [qz 5].

Definition csf_4 : splatt_csf :=
  Csf 4 [1; 3; 1; 1] [0; 1; 2; 3] SPLATT_NOTILE 1 [1; 1; 1; 1]
    [CsfSparsity [1; 1; 1; 1] [[0; 1]; [0; 1]; [0; 1]]
       [None; Some [2]; Some [0]; Some [0]] (Some [qz 5])].

Definition mats_4 : list matrix_t :=
  [Matrix 1 2 (map qz [1; 2]%Z);
   Matrix 3 2 (map qz [1; 1; 1; 1; 1; 3]%Z);
   Matrix 1 2 (map qz [1; 5]%Z);
   Matrix 1 2 (map qz [1; 7]%Z)].

Definition mem_4 : ttmc_mem :=
  TtmcMem (replicate 24 (qz 9)) (replicate 8 (qz 0)) (replicate 8 (qz 0)) false [] [].




(** ** The CCD update, the factors addressed as the passes address them *)

(** [s_ijk] for the mode at depth [d] as [p_process_root3],
    [p_process_intl3] and [p_process_leaf3] form it: the product of the
    values they read for the two other factors, [factor_col] at the ids of
    the path, that is the entries [f * dim + id] of the factor arrays.  In
    the row-major data model these are the entries of column [f] for a
    model of rank 1 only; [ccd_sgrad_rows] below reads the factors as the
    data model stores them. *)
Definition ccd_sgrad (csf : splatt_csf) (model : tc_model) (f d : nat)
    (p : nat * nat * nat * nat) : val_t :=
  let aval := factor_col csf model f 0 (path_id p 0) in
  let bval := factor_col csf model f 1 (path_id p 1) in
  let cval := factor_col csf model f 2 (path_id p 2) in
  match d with
  | 0 => (bval * cval)%Qc
  | 1 => (aval * cval)%Qc
  | _ => (aval * bval)%Qc
  end.

(** The sum, over the nonzeros of all tiles whose id at depth [d] is [o],
    of [g tile path]. *)
Definition sum_touching (csf : splatt_csf) (d o : nat)
    (g : nat -> nat * nat * nat * nat -> val_t) : val_t :=
  qsum (map (fun tile =>
               qsum (map (fun p => if Nat.eqb (path_id p d) o then g tile p else 0%Qc)
                       (tile_paths (pt csf !!! tile))))
          (seq 0 (ntiles csf))).

(** The residual the tensor stores at a path. *)
Definition residual_at (csf : splatt_csf) (tile : nat) (p : nat * nat * nat * nat) : val_t :=
  tile_vals (pt csf !!! tile) !!! path_jj p.

Definition ccd_numer_ref (csf : splatt_csf) (model : tc_model) (f d o : nat) : val_t :=
  sum_touching csf d o (fun tile p => (residual_at csf tile p * ccd_sgrad csf model f d p)%Qc).

Definition ccd_denom_ref (csf : splatt_csf) (model : tc_model) (ws : tc_ws)
    (f m d o : nat) : val_t :=
  (regularization ws !!! m
   + sum_touching csf d o
       (fun tile p => (ccd_sgrad csf model f d p * ccd_sgrad csf model f d p)%Qc))%Qc.

(** What a CCD pass over mode [m], column [f], needs of its inputs: three
    modes, the model over the dimensions of the tensor, a tile grid that
    numbers the tiles, ids below their dimensions, and buffers that hold a
    row per index of the mode. *)
Definition ccd_pass_ok (csf : splatt_csf) (model : tc_model) (ws : tc_ws) (f m : nat)
    : bool :=
  Nat.eqb (nmodes csf) 3
  && Nat.ltb m 3
  && Nat.ltb m (length (factors model))
  && forallb (fun l => Nat.eqb (model_dims model !!! l) (dims csf !!! l)) [0; 1; 2]
  && Nat.eqb (ntiles csf) (fold_right Nat.mul 1 (take 3 (tile_dims csf)))
  && Nat.ltb 0 (tile_dims csf !!! m)
  && forallb (fun tile => tile3_ok csf (pt csf !!! tile)) (seq 0 (ntiles csf))
  && Nat.leb (model_dims model !!! m) (length (numerator ws))
  && Nat.leb (model_dims model !!! m) (length (denominator ws))
  && Nat.leb (f * (model_dims model !!! m) + model_dims model !!! m)
       (length (factors model !!! m)).

(** The tree level a node type stands for in a 3-mode tensor. *)
Definition node_depth (which : node_type) : nat :=
  match which with
  | NODE_ROOT => 0
  | NODE_INTL => 1
  | NODE_LEAF => 2
  end.

(** Modelled from the spec: [tc_loss_sq] (completion.c is not part of the
    sources at hand), "the squared loss of the model" on the nonzeros of
    [X]: the sum over the nonzeros of
    [(x - sum_f A[i,f] * B[j,f] * C[k,f])^2].  The data model has the factor
    matrices "I x J, row-major", so [A[i,f]] is entry [i * rank + f];
    [p_init_residual] reads them that way. *)
Definition tc_predict (model : tc_model) (coords : list nat) : val_t :=
  qsum (map (fun f =>
               fold_right Qcmult 1%Qc
                 (map (fun m => (factors model !!! m) !!! (coords !!! m * model_rank model + f))
                    (seq 0 (length coords))))
          (seq 0 (model_rank model))).

Definition tc_loss_sq (tt : sptensor_t) (model : tc_model) : val_t :=
  qsum (map (fun e => ((snd e - tc_predict model (fst e))
                       * (snd e - tc_predict model (fst e)))%Qc)
          (tt_entries tt)).

(** The same loss with the factors read column by column,
    [A[i,f] = factors[f * dims + i]], the way [p_update_residual3] and the
    column update of [splatt_tc_ccd] address them. *)
Definition tc_predict_colmajor (model : tc_model) (coords : list nat) : val_t :=
  qsum (map (fun f =>
               fold_right Qcmult 1%Qc
                 (map (fun m =>
                         (factors model !!! m) !!! (f * (model_dims model !!! m) + coords !!! m))
                    (seq 0 (length coords))))
          (seq 0 (model_rank model))).

Definition tc_loss_sq_colmajor (tt : sptensor_t) (model : tc_model) : val_t :=
  qsum (map (fun e => ((snd e - tc_predict_colmajor model (fst e))
                       * (snd e - tc_predict_colmajor model (fst e)))%Qc)
          (tt_entries tt)).

(** The sum over all tiles and leaves of [vals[]^2]. *)
Definition residual_sq (csf : splatt_csf) : val_t :=
  qsum (map (fun tile =>
               qsum (map (fun v => (v * v)%Qc) (tile_vals (pt csf !!! tile))))
          (seq 0 (ntiles csf))).

(** A rank-2 model over the dimensions of the S1 tensor, and a workspace
    with regularisation 1 for every mode. *)
Definition model_s1 : tc_model :=
  TcModel 2 [2; 2; 3]
    [map qz [1; 2; 3; 4]%Z; map qz [1; 1; 2; 2]%Z; map qz [1; 2; 3; 1; 1; 1]%Z].

Definition ws_s1 : tc_ws :=
  TcWs [qz 1; qz 1; qz 1] (replicate 3 (qz 0)) (replicate 3 (qz 0)).

(** [splatt_tc_ccd] up to the end of the first column of the first epoch:
    [p_init_residual], then the column step for [f = 0]. *)
Definition ccd_first_column (csf : splatt_csf) (model : tc_model) (ws : tc_ws)
    : splatt_csf * tc_model * tc_ws * val_t :=
  ccd_column 0 (p_init_residual csf model, model, ws, 0%Qc).

(** A rank-1 model over the same dimensions. *)
Definition model_r1 : tc_model :=
  TcModel 1 [2; 2; 3] [map qz [1; 2]%Z; map qz [1; 3]%Z; map qz [1; 2; 3]%Z].

(** ** Reference quantities for the lock pool *)

(** The fibers of a tile at level 1, in storage order. *)
Definition tile_fibers (t : csf_sparsity) : list nat :=
  flat_map (fun s => seq (tile_fptr t 0 !!! s) (tile_fptr t 0 !!! (s + 1) - tile_fptr t 0 !!! s))
    (seq 0 (nfibs t !!! 0)).

(** A lock taken on [slot] and released again. *)
Definition lock_pair (slot : Z) : list lock_op := [LockSet slot; LockUnset slot].

(** The offset into [locks] that [p_splatt_set_lock] and
    [p_splatt_unset_lock] compute for the [idx_t] value [id]. *)
Definition stream_slot (id : nat) : Z :=
  (Z.rem (int_of_idx (Z.of_nat id)) (Z.of_nat NLOCKS) * 16)%Z.

(** The pool before the first call: no lock initialised. *)
Definition pool_fresh (st : ttmc_mem) : Prop :=
  locks_initialized st = false /\ lock_slots st = [].


(** ** The 3-mode root kernel of ttm.c *)

(** [p_twovec_outer_prod_tiled], the branch compiled without
    [SPLATT_USE_BLAS]: the outer products of the rows [f] of [fids_buf] and
    [accums_buf], summed into [out] (the array with the destination
    starting at [base]). *)
Definition p_twovec_outer_prod_tiled (fids_buf : list val_t) (ncol_fids : nat)
    (accums_buf : list val_t) (ncol_accums : nat) (nfibers : nat) (base : nat)
    (out : list val_t) : list val_t :=
  for_range 0 nfibers (fun f (out : list val_t) =>
    let rowA := row_at fids_buf (f * ncol_fids) in
    let rowB := row_at accums_buf (f * ncol_accums) in
    p_twovec_outer_prod_accum rowA ncol_fids rowB ncol_accums base out) out.

(** The memory [p_csf_ttmc_root3] works on: that of the other kernels and
    the index array [thds[tid].scratch[1]], which it names [accum_fids]. *)
Record root3_mem : Type := Root3Mem {
  r3_mem : ttmc_mem;
  accum_fids : list nat
}.

(** The reduction of fiber [f] into [accum_nnz = accum_nnz_raw + base]. *)
Definition root3_accum_nnz (t : csf_sparsity) (B : matrix_t) (f : nat) (base : nat)
    (accum_nnz_raw : list val_t) : list val_t :=
  let rankB := mat_J B in
  let fp := tile_fptr t 1 in
  let inds := tile_fids t 2 in
  let vs := tile_vals t in
  (* first entry of the fiber is used to initialize accum_nnz *)
  let jjfirst := fp !!! f in
  let vfirst := vs !!! jjfirst in
  let bv := row_at (mat_vals B) (ids_at inds jjfirst * rankB) in
  let acc :=
    for_range 0 rankB (fun r (acc : list val_t) => <[base + r := (vfirst * bv r)%Qc]> acc)
      accum_nnz_raw in
  (* foreach nnz in fiber *)
  for_range (fp !!! f + 1) (fp !!! (f + 1)) (fun jj (acc : list val_t) =>
    let v := vs !!! jj in
    let bv := row_at (mat_vals B) (ids_at inds jj * rankB) in
    for_range 0 rankB (fun r (acc : list val_t) =>
      <[base + r := (acc !!! (base + r)%nat + v * bv r)%Qc]> acc) acc) acc.

(** [p_csf_ttmc_root3], as compiled with [TTM_TILED] set: per slice, the
    fibers are reduced into consecutive rows of [scratch[0]] and their ids
    kept in [accum_fids]; the rows of [A] are then gathered into
    [scratch[2]] and the outer products summed into the slice's row of
    [tenout].  No lock is taken. *)
Definition p_csf_ttmc_root3 (csf : splatt_csf) (tile_id : nat) (mats : list matrix_t)
    (ms : root3_mem) : root3_mem :=
  let A := mats !!! (dim_perm csf !!! 1) in
  let B := mats !!! (dim_perm csf !!! 2) in
  let rankA := mat_J A in
  let rankB := mat_J B in
  let t := pt csf !!! tile_id in
  let sptr := tile_fptr t 0 in
  let sids := tile_fids t 0 in
  let fids1 := tile_fids t 1 in
  let nslices := nfibs t !!! 0 in
  for_range 0 nslices (fun s ms =>
    let fid := fid_at sids s in
    let outv := fid * rankA * rankB in
    (* foreach fiber in slice, with naccum = 0 at the start *)
    let loc :=
      for_range (sptr !!! s) (sptr !!! (s + 1)) (fun f (loc : root3_mem * nat) =>
        let naccum := snd loc in
        let st :=
          set_scratch0 (root3_accum_nnz t B f (naccum * rankB)) (r3_mem (fst loc)) in
        (* accum_fids[naccum++] = fids[f] *)
        (Root3Mem st (<[naccum := ids_at fids1 f]> (accum_fids (fst loc))), naccum + 1))
        (ms, 0) in
    let naccum := snd loc in
    let fidsbuf := accum_fids (fst loc) in
    (* gather rows into accum_oprod *)
    let st :=
      for_range 0 naccum (fun r st =>
        set_scratch2 (fun o : list val_t =>
          for_range 0 rankA (fun i (o : list val_t) =>
            <[r * rankA + i := mat_vals A !!! (fidsbuf !!! r * rankA + i)]> o) o) st)
        (r3_mem (fst loc)) in
    (* tiled outer product *)
    Root3Mem
      (set_tenout
         (p_twovec_outer_prod_tiled (scratch2 st) rankA (scratch0 st) rankB naccum outv) st)
      fidsbuf) ms.

(** What the root kernel needs of the worker's scratch for a tile: for
    every slice, room for one reduced row, one fiber id and one gathered
    row per fiber of the slice. *)
Definition root3_scratch_ok (csf : splatt_csf) (tile_id : nat) (mats : list matrix_t)
    (ms : root3_mem) : bool :=
  let t := pt csf !!! tile_id in
  let rankA := mat_J (mats !!! (dim_perm csf !!! 1)) in
  let rankB := mat_J (mats !!! (dim_perm csf !!! 2)) in
  forallb (fun s =>
    let n := tile_fptr t 0 !!! (s + 1) - tile_fptr t 0 !!! s in
    Nat.leb (n * rankB) (length (scratch0 (r3_mem ms)))
    && Nat.leb n (length (accum_fids ms))
    && Nat.leb (n * rankA) (length (scratch2 (r3_mem ms))))
    (seq 0 (nfibs t !!! 0)).

(** The lengths of the four buffers of the root kernel. *)
Definition root3_lengths (ms : root3_mem) : nat * nat * nat * nat :=
  (length (tenout (r3_mem ms)), length (scratch0 (r3_mem ms)),
   length (scratch2 (r3_mem ms)), length (accum_fids ms)).

(** Entry [j] of the reduction of fiber [f] against the rows of [B]. *)
Definition fiber_sum (t : csf_sparsity) (B : matrix_t) (f j : nat) : val_t :=
  qsum (map (fun jj =>
               (tile_vals t !!! jj
                * row_at (mat_vals B) (ids_at (tile_fids t 2) jj * mat_J B) j)%Qc)
          (seq (tile_fptr t 1 !!! f) (tile_fptr t 1 !!! (f + 1) - tile_fptr t 1 !!! f))).

(** A worker memory for the sample tensor with room for two fibers per
    slice. *)
Definition mem3_s1 : root3_mem :=
  Root3Mem (TtmcMem (replicate 8 (qz 0)) (replicate 4 (qz 9)) (replicate 4 (qz 9)) false [] [])
    [7; 7].

(** ** Scratch sizing *)

(** [ttmc_largest_outer].  [csf_ntensors] is not part of the sources at
    hand: the number of representations it returns for [opts] is the
    argument [ntensors].  [outer_sizes] is an [idx_t] array, the fiber
    lengths [fptr[f+1] - fptr[f]] are computed in [idx_t].  The bound
    [nmodes - 2] of the loop over the levels is that of a tensor of two or
    more modes. *)
Definition ttmc_largest_outer (ntensors : nat) (tensors : list splatt_csf)
    (outer_sizes : list Z) : list Z :=
  let nm := nmodes (tensors !!! 0) in
  (* memset(outer_sizes, 0, nmodes * sizeof( *outer_sizes)) *)
  let outer_sizes := for_range 0 nm (fun m (o : list Z) => <[m := 0%Z]> o) outer_sizes in
  for_range 0 ntensors (fun t (o : list Z) =>
    let csf := tensors !!! t in
    for_range 0 (ntiles csf) (fun tile (o : list Z) =>
      (* don't count mode above nnz; they accumulate instead of oprod *)
      for_range 0 (nm - 2) (fun m (o : list Z) =>
        let madj := dim_perm csf !!! m in
        let fp := tile_fptr (pt csf !!! tile) m in
        for_range 0 (nfibs (pt csf !!! tile) !!! m) (fun f (o : list Z) =>
          <[madj := Z.max (o !!! madj)
                      (idx_wrap (Z.of_nat (fp !!! (f + 1)%nat) - Z.of_nat (fp !!! f)))]> o)
          o) o) o) outer_sizes.

(** A step on an [idx_t] array of length [L] that keeps its length and
    lowers no entry. *)
Definition raises (L : nat) (g : list Z -> list Z) : Prop :=
  forall o, length o = L -> length (g o) = L /\ forall j, (o !!! j <= g o !!! j)%Z.

(** ** The flop count in closed form *)

(** The product of the column counts of the levels [lo .. lo + n - 1]. *)
Definition level_prod (perm : list nat) (nf : list Z) (lo n : nat) : Z :=
  zprod (map (fun l => nf !!! (perm !!! l)) (seq lo n)).

(** The operations [ttmc_csf_count_flops] charges to one tile for the mode
    at depth [depth]: on the way down, a fiber at level [d] costs the
    product of the column counts of the levels [0 .. d]; on the way up, one
    at level [d] costs that of the levels [d .. nmodes - 1]; the join at
    [depth] costs the number of columns of the output. *)
Definition tile_flops (csf : splatt_csf) (mode : nat) (nf : list Z) (depth tile : nat)
    : Z :=
  let perm := dim_perm csf in
  let fibs := nfibs (pt csf !!! tile) in
  let nm := nmodes csf in
  (zsum (map (fun d => Z.of_nat (fibs !!! d) * level_prod perm nf 0 (d + 1))
           (seq 1 (depth - 1)))
   + zsum (map (fun d => Z.of_nat (fibs !!! d) * level_prod perm nf d (nm - d))
             (seq (depth + 1) (nm - (depth + 1))))
   + (if Nat.ltb 0 depth
      then Z.of_nat (fibs !!! depth) * kron_cost nf nm mode 0 else 0))%Z.

(** ** Reference quantities for the residual of ccd.c *)

(** The walk over the tile visits the leaves [0 .. nnz - 1], once each and
    in storage order, as the fiber pointers of a CSF tile make it. *)
Definition tile_walk_ok (t : csf_sparsity) : Prop :=
  map path_jj (tile_paths t) = seq 0 (length (tile_vals t)).

Definition csf_walk_ok (csf : splatt_csf) : Prop :=
  ntiles csf <= length (pt csf)
  /\ forall tile, tile < ntiles csf -> tile_walk_ok (pt csf !!! tile).

(** [csf'] is [csf] with other values at the leaves: the same shape, the
    same fiber pointers and ids, as many values per tile. *)
Definition same_tree (csf csf' : splatt_csf) : Prop :=
  nmodes csf' = nmodes csf /\ dims csf' = dims csf /\ dim_perm csf' = dim_perm csf
  /\ which_tile csf' = which_tile csf /\ ntiles csf' = ntiles csf
  /\ tile_dims csf' = tile_dims csf /\ length (pt csf') = length (pt csf)
  /\ forall tile,
       nfibs (pt csf' !!! tile) = nfibs (pt csf !!! tile)
       /\ fptr (pt csf' !!! tile) = fptr (pt csf !!! tile)
       /\ fids (pt csf' !!! tile) = fids (pt csf !!! tile)
       /\ length (tile_vals (pt csf' !!! tile)) = length (tile_vals (pt csf !!! tile)).

(** The rank-one term of column [f] at a path, the factors read column by
    column. *)
Definition rank1_term (csf : splatt_csf) (model : tc_model) (f : nat)
    (p : nat * nat * nat * nat) : val_t :=
  (factor_col csf model f 0 (path_id p 0) * factor_col csf model f 1 (path_id p 1)
   * factor_col csf model f 2 (path_id p 2))%Qc.

(** The prediction of the model at a path, the factors read row by row:
    the sum over the columns [f] of the products of the entries [f] of the
    three rows. *)
Definition predict_rows (csf : splatt_csf) (model : tc_model)
    (p : nat * nat * nat * nat) : val_t :=
  let R := model_rank model in
  let arow := row_at (factors model !!! (dim_perm csf !!! 0)) (path_id p 0 * R) in
  let brow := row_at (factors model !!! (dim_perm csf !!! 1)) (path_id p 1 * R) in
  let crow := row_at (factors model !!! (dim_perm csf !!! 2)) (path_id p 2 * R) in
  qsum (map (fun f => (arow f * brow f * crow f)%Qc) (seq 0 R)).

(** One step of a walk that changes the value at the leaf of a path. *)
Definition leaf_step (delta : nat * nat * nat * nat -> val_t) (res : list val_t)
    (p : nat * nat * nat * nat) : list val_t :=
  <[path_jj p := (res !!! path_jj p + delta p)%Qc]> res.

(** The values a walk of [leaf_step] leaves in a tile. *)
Definition residual_walk (delta : nat * nat * nat * nat -> val_t) (t : csf_sparsity)
    : list val_t :=
  fold_left (leaf_step delta) (tile_paths t) (tile_vals t).

(** The sum of the squares of a list of values. *)
Definition sum_sq (l : list val_t) : val_t := qsum (map (fun v => (v * v)%Qc) l).

(** [model'] is [model] with other entries in column [f] only. *)
Definition same_but_column (f : nat) (model model' : tc_model) : Prop :=
  model_rank model' = model_rank model
  /\ model_dims model' = model_dims model
  /\ length (factors model') = length (factors model)
  /\ forall m k,
       k < f * (model_dims model !!! m) \/ f * (model_dims model !!! m) + model_dims model !!! m <= k ->
       (factors model' !!! m) !!! k = (factors model !!! m) !!! k.

(** The components of the state of a column step. *)
Definition col_csf (st : splatt_csf * tc_model * tc_ws * val_t) : splatt_csf :=
  fst (fst (fst st)).

Definition col_model (st : splatt_csf * tc_model * tc_ws * val_t) : tc_model :=
  snd (fst (fst st)).

(** ** The tensor as a graph (convert.c) *)

(** [kvp_t]: a neighbour [v] and the count [cnt] of the nonzeros that
    join it. *)
Record kvp_t : Type := Kvp {
  kvp_v : nat;
  kvp_cnt : Z
}.

#[global] Instance kvp_t_inhabited : Inhabited kvp_t := populate (Kvp 0 0%Z).

(** The adjacency lists under construction: [adj[u]] is an array of
    [adjsize[u]] entries, the first [adjmkr[u]] of which are in use;
    [nedges] counts the entries in use, in [idx_t]. *)
Record adj_lists : Type := AdjLists {
  adj : list (list kvp_t);
  adjmkr : list nat;
  adjsize : list nat;
  nedges : Z
}.

(** The search loop of [__update_adj]: the first index [i' >= i] among the
    next [n] with [adj[u][i'].v == v]. *)
Fixpoint adj_search (row : list kvp_t) (v : nat) (i n : nat) : option nat :=
  match n with
  | 0 => None
  | S n' =>
      if Nat.eqb (kvp_v (row !!! i)) v then Some i else adj_search row v (S i) n'
  end.

(** [__update_adj] *)
Definition __update_adj (u v : nat) (g : adj_lists) : adj_lists :=
  let row := adj g !!! u in
  let mkr := adjmkr g !!! u in
  (* search u's adj for v *)
  match adj_search row v 0 mkr with
  | Some i =>
      let e := row !!! i in
      AdjLists (<[u := <[i := Kvp (kvp_v e) (idx_add (kvp_cnt e) 1)]> row]> (adj g))
        (adjmkr g) (adjsize g) (nedges g)
  | None =>
      (* not found, add vertex to adj list; resize if necessary *)
      let size :=
        if Nat.eqb mkr (adjsize g !!! u) then adjsize g !!! u * 2 else adjsize g !!! u in
      let row :=
        if Nat.eqb mkr (adjsize g !!! u) then resize size inhabitant row else row in
      AdjLists (<[u := <[mkr := Kvp v 1]> row]> (adj g))
        (<[u := mkr + 1]> (adjmkr g)) (<[u := size]> (adjsize g))
        (idx_add (nedges g) 1)
  end.

(** The loops of [__convert_ijk_graph] that build the adjacency lists:
    every nonzero joins each pair of its indices, an index [i] of mode [m]
    being the vertex [i + dims[0] + ... + dims[m-1]]. *)
Definition ijk_graph_adj (tt : sptensor_t) (nvtxs : nat) : adj_lists :=
  let nm := tt_nmodes tt in
  (* allocate adj list *)
  let g0 :=
    AdjLists (replicate nvtxs (replicate 2 inhabitant)) (replicate nvtxs 0)
      (replicate nvtxs 2) 0%Z in
  (* count edges in graph *)
  for_range 0 (tt_nnz tt) (fun n g =>
    (* update each adj list *)
    snd (for_range 0 nm (fun m (st : nat * adj_lists) =>
      let uoffset := fst st in
      let u := (tt_ind tt !!! m) !!! n + uoffset in
      (* emit triangle *)
      let st2 :=
        for_range 0 nm (fun m2 (st2 : nat * adj_lists) =>
          let voffset := fst st2 in
          let g :=
            if negb (Nat.eqb m m2)
            then __update_adj u ((tt_ind tt !!! m2) !!! n + voffset) (snd st2)
            else snd st2 in
          (voffset + tt_dims tt !!! m2, g)) (0, snd st) in
      (uoffset + tt_dims tt !!! m, snd st2)) (0, g))) g0.

(** What [__convert_ijk_graph] writes: the header, [nvtxs] and half of
    [nedges], and one line per vertex with the pairs [1 + v], [cnt] of its
    list. *)
Definition __convert_ijk_graph (tt : sptensor_t) : nat * Z * list (list (nat * Z)) :=
  let nvtxs := for_range 0 (tt_nmodes tt) (fun m nv => nv + tt_dims tt !!! m) 0 in
  let g := ijk_graph_adj tt nvtxs in
  (nvtxs, (nedges g / 2)%Z,
   map (fun u =>
          map (fun e => (1 + kvp_v e, kvp_cnt e)) (take (adjmkr g !!! u) (adj g !!! u)))
     (seq 0 nvtxs)).

(** *** Reference quantities for the graph *)

(** The entries of [adj[u]] in use. *)
Definition adj_valid (g : adj_lists) (u : nat) : list kvp_t :=
  take (adjmkr g !!! u) (adj g !!! u).

(** The count a list holds for [v]: that of its first entry with key [v],
    zero if there is none. *)
Fixpoint row_count (l : list kvp_t) (v : nat) : Z :=
  match l with
  | [] => 0%Z
  | e :: l' => if Nat.eqb (kvp_v e) v then kvp_cnt e else row_count l' v
  end.

Definition adj_count (g : adj_lists) (u v : nat) : Z := row_count (adj_valid g u) v.

(** A list with the count of [v] raised by one, [v] added at the end with
    count 1 if the list lacks it. *)
Fixpoint bump (l : list kvp_t) (v : nat) : list kvp_t :=
  match l with
  | [] => [Kvp v 1]
  | e :: l' =>
      if Nat.eqb (kvp_v e) v then Kvp (kvp_v e) (idx_add (kvp_cnt e) 1) :: l'
      else e :: bump l' v
  end.

(** The lists are well formed: one list, marker and size per vertex, the
    marker within the size, the size that of the array, and no key twice
    among the entries in use. *)
Definition adj_ok (g : adj_lists) : Prop :=
  length (adjmkr g) = length (adj g) /\ length (adjsize g) = length (adj g)
  /\ forall u, u < length (adj g) ->
       adjmkr g !!! u <= adjsize g !!! u
       /\ length (adj g !!! u) = adjsize g !!! u
       /\ 0 < adjsize g !!! u
       /\ List.NoDup (map kvp_v (adj_valid g u)).

(** The vertex of index [i] of mode [m]. *)
Definition mode_offset (tt : sptensor_t) (m : nat) : nat :=
  for_range 0 m (fun m' off => off + tt_dims tt !!! m') 0.

Definition vertex_of (tt : sptensor_t) (m n : nat) : nat :=
  (tt_ind tt !!! m) !!! n + mode_offset tt m.

(** The pairs of vertices a nonzero joins, in the order of the loops: one
    per pair of distinct modes. *)
Definition emitted (tt : sptensor_t) (n : nat) : list (nat * nat) :=
  flat_map (fun m =>
    flat_map (fun m2 =>
      if negb (Nat.eqb m m2) then [(vertex_of tt m n, vertex_of tt m2 n)] else [])
      (seq 0 (tt_nmodes tt)))
    (seq 0 (tt_nmodes tt)).

(** The number of pairs of a list equal to [(u, v)]. *)
Definition pair_count (l : list (nat * nat)) (u v : nat) : nat :=
  length (List.filter (fun p => Nat.eqb (fst p) u && Nat.eqb (snd p) v) l).

(** The number of times nonzero [n] joins [u] to [v]. *)
Definition joins (tt : sptensor_t) (u v n : nat) : nat := pair_count (emitted tt n) u v.

Definition nsum (l : list nat) : nat := fold_right Nat.add 0 l.

(** Every index of the tensor is below the dimension of its mode. *)
Definition tt_inds_ok (tt : sptensor_t) : Prop :=
  forall m n, m < tt_nmodes tt -> n < tt_nnz tt -> (tt_ind tt !!! m) !!! n < tt_dims tt !!! m.

(** The lists [g] over [nvtxs] vertices hold the counts of the pairs [L]. *)
Definition graph_of (nvtxs : nat) (g : adj_lists) (L : list (nat * nat)) : Prop :=
  adj_ok g /\ length (adj g) = nvtxs
  /\ forall u v, adj_count g u v = idx_wrap (Z.of_nat (pair_count L u v)).

(** ** The columns of the two TTMc layouts *)


(** ** The CCD update, the factors read as the data model stores them *)

(** The entry [A^(m)[i, f]] of a factor matrix as the specification has
    it.  The data model stores the factor of mode [m] "row-major", a row of
    [rank] values per index, so [A^(m)[i, f]] is entry [i * rank + f] of
    the array; [p_init_residual] reads the factors this way
    ([avals + a_id * nfactors], entry [f]), and so does [tc_predict]. *)
Definition factor_entry (model : tc_model) (m i f : nat) : val_t :=
  (factors model !!! m) !!! (i * model_rank model + f).

(** [s_ijk] for the mode at depth [d] in the words of the specification,
    "the product of the two other factors' column-[f] values at (i,j,k)",
    the factors read as the data model stores them. *)
Definition ccd_sgrad_rows (csf : splatt_csf) (model : tc_model) (f d : nat)
    (p : nat * nat * nat * nat) : val_t :=
  let aval := factor_entry model (dim_perm csf !!! 0) (path_id p 0) f in
  let bval := factor_entry model (dim_perm csf !!! 1) (path_id p 1) f in
  let cval := factor_entry model (dim_perm csf !!! 2) (path_id p 2) f in
  match d with
  | 0 => (bval * cval)%Qc
  | 1 => (aval * cval)%Qc
  | _ => (aval * bval)%Qc
  end.

(** [numerator[o]] and [denominator[o]] after the pass over the mode at
    depth [d], in the words of the specification: the sums over the
    nonzeros touching row [o] of [r_ijk * s_ijk] and of [s_ijk^2], the
    latter started at [lambda_m]. *)
Definition ccd_numer_rows (csf : splatt_csf) (model : tc_model) (f d o : nat) : val_t :=
  sum_touching csf d o
    (fun tile p => (residual_at csf tile p * ccd_sgrad_rows csf model f d p)%Qc).

Definition ccd_denom_rows (csf : splatt_csf) (model : tc_model) (ws : tc_ws)
    (f m d o : nat) : val_t :=
  (regularization ws !!! m
   + sum_touching csf d o
       (fun tile p => (ccd_sgrad_rows csf model f d p * ccd_sgrad_rows csf model f d p)%Qc))%Qc.

(** [splatt_tc_ccd] up to the end of the first pass of the first epoch:
    [p_init_residual], the rank-one term of column 0 added back, then the
    pass over mode 0 for column 0.  The tensor the pass reads, and what the
    pass leaves. *)
Definition ccd_first_pass (csf : splatt_csf) (model : tc_model) (ws : tc_ws)
    : splatt_csf * (tc_model * tc_ws) :=
  let csf1 := fst (p_update_residual3 (p_init_residual csf model) 0 model 1%Qc) in
  (csf1, ccd_mode_pass csf1 0 0 (model, ws)).

(** * Properties *)

(** ** Loops *)

Lemma for_range_nil {St : Type} (lo hi : nat) (body : nat -> St -> St) (s : St) :
  hi <= lo -> for_range lo hi body s = s.
Proof.
  intros H. unfold for_range. replace (hi - lo) with 0 by lia. reflexivity.
Qed.

Lemma for_range_S {St : Type} (lo hi : nat) (body : nat -> St -> St) (s : St) :
  lo <= hi -> for_range lo (S hi) body s = body hi (for_range lo hi body s).
Proof.
  intros H. unfold for_range.
  replace (S hi - lo) with (S (hi - lo)) by lia.
  rewrite seq_S, fold_left_app. simpl.
  replace (lo + (hi - lo)) with hi by lia. reflexivity.
Qed.

Lemma for_down_nil {St : Type} (hi lo : nat) (body : nat -> St -> St) (s : St) :
  hi <= lo -> for_down hi lo body s = s.
Proof.
  intros H. unfold for_down. replace (hi - lo) with 0 by lia. reflexivity.
Qed.

Lemma for_down_low {St : Type} (hi lo : nat) (body : nat -> St -> St) (s : St) :
  lo < hi -> for_down hi lo body s = body lo (for_down hi (S lo) body s).
Proof.
  intros H. unfold for_down.
  replace (hi - lo) with (S (hi - S lo)) by lia.
  simpl. rewrite fold_left_app. reflexivity.
Qed.

Lemma for_down_high {St : Type} (hi lo : nat) (body : nat -> St -> St) (s : St) :
  lo <= hi -> for_down (S hi) lo body s = for_down hi lo body (body hi s).
Proof.
  intros H. unfold for_down.
  replace (S hi - lo) with (S (hi - lo)) by lia.
  rewrite seq_S, rev_app_distr. simpl.
  replace (lo + (hi - lo)) with hi by lia. reflexivity.
Qed.

(** Two runs of a loop, step by step in a relation. *)
Lemma fold_left_rel {St St' X : Type} (R : St -> St' -> Prop)
    (step : St -> X -> St) (step' : St' -> X -> St') (l : list X) :
  (forall x s s', R s s' -> R (step s x) (step' s' x)) ->
  forall s s', R s s' -> R (fold_left step l s) (fold_left step' l s').
Proof.
  intros Hstep. induction l as [|x l IH]; intros s s' H; simpl; auto.
Qed.

Lemma for_range_rel {St St' : Type} (R : St -> St' -> Prop) (lo hi : nat)
    (body : nat -> St -> St) (body' : nat -> St' -> St') :
  (forall i s s', R s s' -> R (body i s) (body' i s')) ->
  forall s s', R s s' -> R (for_range lo hi body s) (for_range lo hi body' s').
Proof.
  intros Hb s s' H. unfold for_range. apply fold_left_rel; auto.
Qed.

Lemma for_down_rel {St St' : Type} (R : St -> St' -> Prop) (hi lo : nat)
    (body : nat -> St -> St) (body' : nat -> St' -> St') :
  (forall i s s', R s s' -> R (body i s) (body' i s')) ->
  forall s s', R s s' -> R (for_down hi lo body s) (for_down hi lo body' s').
Proof.
  intros Hb s s' H. unfold for_down. apply fold_left_rel; auto.
Qed.

(** ** [idx_t] arithmetic *)

Lemma idx_wrap_idem (z : Z) : idx_wrap (idx_wrap z) = idx_wrap z.
Proof. unfold idx_wrap. apply Z.mod_mod. vm_compute. discriminate. Qed.

Lemma idx_wrap_small (z : Z) : (0 <= z < 2 ^ idx_bits)%Z -> idx_wrap z = z.
Proof. intros H. unfold idx_wrap. apply Z.mod_small. exact H. Qed.

Lemma idx_mul_wrap_l (a b : Z) : idx_mul (idx_wrap a) b = idx_wrap (a * b).
Proof. unfold idx_mul, idx_wrap. apply Z.mul_mod_idemp_l. vm_compute. discriminate. Qed.

Lemma idx_mul_wrap_r (a b : Z) : idx_mul a (idx_wrap b) = idx_wrap (a * b).
Proof. unfold idx_mul, idx_wrap. apply Z.mul_mod_idemp_r. vm_compute. discriminate. Qed.

Lemma idx_add_wrap (a b : Z) : idx_add (idx_wrap a) (idx_wrap b) = idx_wrap (a + b).
Proof.
  unfold idx_add, idx_wrap. symmetry. apply Z.add_mod. vm_compute. discriminate.
Qed.

(** Congruent operands give congruent products. *)
Lemma idx_mul_congr (a a' b : Z) :
  idx_wrap a = idx_wrap a' -> idx_wrap (idx_mul a b) = idx_wrap (a' * b).
Proof.
  intros H. unfold idx_mul. rewrite idx_wrap_idem.
  rewrite <- (idx_mul_wrap_l a b), <- (idx_mul_wrap_l a' b), H. reflexivity.
Qed.

(** ** The coordinate-form flop count *)

Lemma other_modes_nil (nm mode : nat) : other_modes nm nm mode = [].
Proof. unfold other_modes. rewrite Nat.sub_diag. reflexivity. Qed.

Lemma other_modes_skip (lo nm : nat) :
  lo < nm -> other_modes lo nm lo = other_modes (S lo) nm lo.
Proof.
  intros H. unfold other_modes.
  replace (nm - lo) with (S (nm - S lo)) by lia.
  simpl. rewrite Nat.eqb_refl. reflexivity.
Qed.

Lemma other_modes_cons (lo nm mode : nat) :
  lo < nm -> lo <> mode -> other_modes lo nm mode = lo :: other_modes (S lo) nm mode.
Proof.
  intros H Hne. unfold other_modes.
  replace (nm - lo) with (S (nm - S lo)) by lia.
  simpl. apply Nat.eqb_neq in Hne. rewrite Hne. reflexivity.
Qed.

Lemma coord_flops_loop (nf : list Z) (nm mode : nat) (n : nat) :
  forall lo, lo + n = nm ->
    for_down nm lo (coord_flops_step mode nf) (0%Z, 1%Z)
    = (idx_wrap (coord_cost lo nf nm mode), idx_wrap (kron_cost nf nm mode lo)).
Proof.
  induction n as [|n IH]; intros lo Hlo.
  - assert (lo = nm) as -> by lia.
    rewrite for_down_nil by lia.
    unfold coord_cost, kron_cost. rewrite other_modes_nil. reflexivity.
  - rewrite for_down_low by lia. rewrite (IH (S lo)) by lia.
    unfold coord_flops_step. destruct (Nat.eqb lo mode) eqn:E.
    + apply Nat.eqb_eq in E. subst mode.
      unfold coord_cost, kron_cost. rewrite other_modes_skip by lia. reflexivity.
    + apply Nat.eqb_neq in E. cbn [fst snd].
      assert (kron_cost nf nm mode lo
              = (kron_cost nf nm mode (S lo) * nf !!! lo)%Z) as Hk.
      { unfold kron_cost. rewrite (other_modes_cons lo) by (lia || assumption).
        simpl. lia. }
      assert (coord_cost lo nf nm mode
              = (coord_cost (S lo) nf nm mode + kron_cost nf nm mode lo)%Z) as Hc.
      { unfold coord_cost. rewrite (other_modes_cons lo) by (lia || assumption).
        simpl. lia. }
      rewrite idx_mul_wrap_l, idx_add_wrap, <- Hk, <- Hc. reflexivity.
Qed.

(** C7 (as amended).  [ttmc_coord_count_flops] returns [nnz] times the sum,
    over every mode [m'] from 0 on other than [mode], of the product of
    [ncol[m'']] over the modes [m'' >= m'] other than [mode], reduced modulo
    [2^64] as [idx_t] arithmetic does. *)
Theorem ttmc_coord_count_flops_all_modes (tt : sptensor_t) (mode : nat) (ncol : list Z) :
  ttmc_coord_count_flops tt mode ncol
  = ((Z.of_nat (tt_nnz tt) * coord_cost 0 ncol (tt_nmodes tt) mode) mod 2 ^ 64)%Z.
Proof.
  unfold ttmc_coord_count_flops.
  rewrite (coord_flops_loop ncol (tt_nmodes tt) mode (tt_nmodes tt) 0) by lia.
  cbn [fst]. rewrite idx_mul_wrap_r. reflexivity.
Qed.

(** C7 (as stated) fails: with three modes, [mode = 1] and column counts
    [2, 3, 5] the code charges [5 + 10 = 15] per nonzero, the term of
    [m' = 0] included; the sum over [m' > 0] is [5]. *)
Lemma ttmc_coord_count_flops_counts_mode0 :
  ttmc_coord_count_flops (SpTensor 3 [2; 2; 2] 1 [[0]; [0]; [0]] [1%Qc]) 1 [2; 3; 5]%Z
  <> (Z.of_nat 1 * coord_cost 1 [2; 3; 5]%Z 3 1)%Z.
Proof. vm_compute. discriminate. Qed.

(** ** The CSF flop count *)

Lemma flops_level_congr (perm : list nat) (nf : list Z) (fibs : list nat) (d : nat)
    (s s' : Z * Z) :
  congr_pair s s' ->
  congr_pair (flops_level idx_mul idx_add perm nf fibs d s)
             (flops_level Z.mul Z.add perm nf fibs d s').
Proof.
  intros [H1 H2]. unfold congr_pair, flops_level. cbn [fst snd].
  set (n := nf !!! (perm !!! d)). set (k := Z.of_nat (fibs !!! d)).
  assert (idx_mul (fst s) n = idx_wrap (fst s' * n)) as Ho.
  { unfold idx_mul. rewrite <- (idx_mul_wrap_l (fst s)), <- (idx_mul_wrap_l (fst s')), H1.
    reflexivity. }
  split.
  - rewrite Ho. apply idx_wrap_idem.
  - rewrite Ho, H2, idx_mul_wrap_r. apply idx_add_wrap.
Qed.

Lemma outncols_congr (nf : list Z) (nm mode : nat) :
  outncols_with idx_mul nf nm mode = idx_wrap (outncols_with Z.mul nf nm mode).
Proof.
  unfold outncols_with.
  apply (for_range_rel (fun z z' => z = idx_wrap z')); [|reflexivity].
  intros i s s' ->. destruct (Nat.eqb i mode); [reflexivity|].
  apply idx_mul_wrap_l.
Qed.

Lemma flops_tile_congr (csf : splatt_csf) (mode : nat) (nf : list Z) (depth tile : nat)
    (z z' : Z) :
  z = idx_wrap z' ->
  flops_tile idx_mul idx_add csf mode nf depth tile z
  = idx_wrap (flops_tile Z.mul Z.add csf mode nf depth tile z').
Proof.
  intros Hz. unfold flops_tile.
  set (perm := dim_perm csf). set (fibs := nfibs (pt csf !!! tile)).
  assert (congr_pair
    (for_range 1 depth (flops_level idx_mul idx_add perm nf fibs) (nf !!! (perm !!! 0), z))
    (for_range 1 depth (flops_level Z.mul Z.add perm nf fibs) (nf !!! (perm !!! 0), z')))
    as H1.
  { apply (for_range_rel congr_pair).
    - intros i s s'. apply flops_level_congr.
    - split; [reflexivity | exact Hz]. }
  assert (congr_pair
    (for_down (nmodes csf) (depth + 1) (flops_level idx_mul idx_add perm nf fibs)
       (1%Z, snd (for_range 1 depth (flops_level idx_mul idx_add perm nf fibs)
                    (nf !!! (perm !!! 0), z))))
    (for_down (nmodes csf) (depth + 1) (flops_level Z.mul Z.add perm nf fibs)
       (1%Z, snd (for_range 1 depth (flops_level Z.mul Z.add perm nf fibs)
                    (nf !!! (perm !!! 0), z')))))
    as H2.
  { apply (for_down_rel congr_pair).
    - intros i s s'. apply flops_level_congr.
    - split; [reflexivity | exact (proj2 H1)]. }
  destruct (Nat.ltb 0 depth).
  - rewrite (proj2 H2), outncols_congr, idx_mul_wrap_r. apply idx_add_wrap.
  - exact (proj2 H2).
Qed.

(** The compiled counter is the unbounded count reduced modulo [2^64]. *)
Lemma count_flops_wrap (csf : splatt_csf) (mode : nat) (nf : list Z) :
  ttmc_csf_count_flops csf mode nf = idx_wrap (count_flops_unbounded csf mode nf).
Proof.
  unfold ttmc_csf_count_flops, count_flops_unbounded, count_flops_with.
  apply (for_range_rel (fun z z' => z = idx_wrap z')); [|reflexivity].
  intros i s s' H. apply flops_tile_congr. exact H.
Qed.

Lemma flops_level_mono (perm : list nat) (nf nf' : list Z) (fibs fibs' : list nat)
    (d : nat) (s s' : Z * Z) :
  ncolumns_le nf nf' -> fibs !!! d <= fibs' !!! d -> le_pair s s' ->
  le_pair (flops_level Z.mul Z.add perm nf fibs d s)
          (flops_level Z.mul Z.add perm nf' fibs' d s').
Proof.
  intros Hnf Hf [H1 H2]. unfold le_pair, flops_level. cbn [fst snd].
  specialize (Hnf (perm !!! d)).
  assert (0 <= fst s * nf !!! (perm !!! d) <= fst s' * nf' !!! (perm !!! d))%Z as Ho by nia.
  split; [exact Ho | nia].
Qed.

Lemma outncols_mono (nf nf' : list Z) (nm mode : nat) :
  ncolumns_le nf nf' ->
  (0 <= outncols_with Z.mul nf nm mode <= outncols_with Z.mul nf' nm mode)%Z.
Proof.
  intros Hnf. unfold outncols_with.
  apply (for_range_rel (fun z z' => (0 <= z <= z')%Z)); [|lia].
  intros i s s' H. destruct (Nat.eqb i mode); [exact H|].
  specialize (Hnf i). nia.
Qed.

Lemma flops_tile_mono (csf csf' : splatt_csf) (mode : nat) (nf nf' : list Z)
    (depth tile : nat) (z z' : Z) :
  nfibs_le csf csf' -> ncolumns_le nf nf' -> (0 <= z <= z')%Z ->
  (0 <= flops_tile Z.mul Z.add csf mode nf depth tile z
     <= flops_tile Z.mul Z.add csf' mode nf' depth tile z')%Z.
Proof.
  intros (Hnm & Hperm & Hnt & Hfib) Hnf Hz. unfold flops_tile.
  rewrite <- Hnm, <- Hperm.
  set (perm := dim_perm csf).
  set (fibs := nfibs (pt csf !!! tile)). set (fibs' := nfibs (pt csf' !!! tile)).
  assert (forall d, fibs !!! d <= fibs' !!! d) as Hf by (intros d; apply Hfib).
  assert (le_pair
    (for_range 1 depth (flops_level Z.mul Z.add perm nf fibs) (nf !!! (perm !!! 0), z))
    (for_range 1 depth (flops_level Z.mul Z.add perm nf' fibs') (nf' !!! (perm !!! 0), z')))
    as H1.
  { apply (for_range_rel le_pair).
    - intros i s s'. apply flops_level_mono; auto.
    - split; [apply Hnf | exact Hz]. }
  assert (le_pair
    (for_down (nmodes csf) (depth + 1) (flops_level Z.mul Z.add perm nf fibs)
       (1%Z, snd (for_range 1 depth (flops_level Z.mul Z.add perm nf fibs)
                    (nf !!! (perm !!! 0), z))))
    (for_down (nmodes csf) (depth + 1) (flops_level Z.mul Z.add perm nf' fibs')
       (1%Z, snd (for_range 1 depth (flops_level Z.mul Z.add perm nf' fibs')
                    (nf' !!! (perm !!! 0), z')))))
    as H2.
  { apply (for_down_rel le_pair).
    - intros i s s'. apply flops_level_mono; auto.
    - split; [cbn; lia | exact (proj2 H1)]. }
  destruct (Nat.ltb 0 depth); [|exact (proj2 H2)].
  pose proof (outncols_mono nf nf' (nmodes csf) mode Hnf) as Ho.
  pose proof (Hf depth) as Hd. destruct H2 as [_ H2]. nia.
Qed.

Lemma count_flops_unbounded_mono (csf csf' : splatt_csf) (mode : nat) (nf nf' : list Z) :
  nfibs_le csf csf' -> ncolumns_le nf nf' ->
  (0 <= count_flops_unbounded csf mode nf <= count_flops_unbounded csf' mode nf')%Z.
Proof.
  intros Hc Hnf. unfold count_flops_unbounded, count_flops_with.
  destruct Hc as (Hnm & Hperm & Hnt & Hfib). rewrite <- Hnm, <- Hperm, <- Hnt.
  apply (for_range_rel (fun z z' => (0 <= z <= z')%Z)); [|lia].
  intros i s s' H. apply flops_tile_mono; auto. repeat split; auto.
Qed.

(** C8 (as amended).  For a mode of the tensor, raising [nfibs] counts or
    entries of [ncolumns] does not lower the count returned by
    [ttmc_csf_count_flops], as long as the count of the larger input, taken
    in unbounded integers, is below [2^64], that is, as long as [idx_t]
    does not wrap. *)
Theorem ttmc_csf_count_flops_monotone (csf csf' : splatt_csf) (mode : nat)
    (nf nf' : list Z) :
  csf_mode_depth mode (dim_perm csf) (nmodes csf) < nmodes csf ->
  nfibs_le csf csf' ->
  ncolumns_le nf nf' ->
  (count_flops_unbounded csf' mode nf' < 2 ^ 64)%Z ->
  (ttmc_csf_count_flops csf mode nf <= ttmc_csf_count_flops csf' mode nf')%Z.
Proof.
  intros _ Hc Hnf Hb.
  pose proof (count_flops_unbounded_mono csf csf' mode nf nf' Hc Hnf) as Hm.
  rewrite !count_flops_wrap, !idx_wrap_small; [lia | |]; unfold idx_bits; lia.
Qed.

Lemma ttmc_csf_count_flops_monotone_witness :
  Z.le
    (ttmc_csf_count_flops
       (Csf 3 [2; 2; 3] [0; 1; 2] SPLATT_NOTILE 1 [1; 1; 1]
          [CsfSparsity [2; 3; 3] [] [] None]) 1 [2; 2; 2]%Z)
    (ttmc_csf_count_flops
       (Csf 3 [2; 2; 3] [0; 1; 2] SPLATT_NOTILE 1 [1; 1; 1]
          [CsfSparsity [2; 4; 5] [] [] None]) 1 [2; 3; 2]%Z).
Proof.
  apply ttmc_csf_count_flops_monotone.
  - vm_compute. lia.
  - repeat split; try reflexivity.
    intros tile d. destruct tile as [|tile]; [|vm_compute; lia].
    do 3 (destruct d as [|d]; [vm_compute; lia|]). vm_compute. lia.
  - intros m. do 3 (destruct m as [|m]; [vm_compute; split; congruence|]).
    vm_compute. split; congruence.
  - vm_compute. reflexivity.
Defined.

(** C8 (as stated) fails once [idx_t] wraps: with [nfibs = (1,1,1)] and
    column counts [(1, 2^32, 2^31)] the count for the root mode is
    [2^31 + 2^63]; raising [nfibs[1]] to 2 gives [2^31], and raising the
    last column count to [2^32] gives [2^32]. *)
Lemma ttmc_csf_count_flops_wraps :
  let c1 := Csf 3 [2; 2; 2] [0; 1; 2] SPLATT_NOTILE 1 [1; 1; 1]
              [CsfSparsity [1; 1; 1] [] [] None] in
  let c2 := Csf 3 [2; 2; 2] [0; 1; 2] SPLATT_NOTILE 1 [1; 1; 1]
              [CsfSparsity [1; 2; 1] [] [] None] in
  let nf := [1; 2 ^ 32; 2 ^ 31]%Z in
  let nf' := [1; 2 ^ 32; 2 ^ 32]%Z in
  (nfibs_le c1 c2 /\ ncolumns_le nf nf
   /\ (ttmc_csf_count_flops c2 0 nf < ttmc_csf_count_flops c1 0 nf)%Z)
  /\ (nfibs_le c1 c1 /\ ncolumns_le nf nf'
      /\ (ttmc_csf_count_flops c1 0 nf' < ttmc_csf_count_flops c1 0 nf)%Z).
Proof.
  intros c1 c2 nf nf'.
  assert (forall l l' : list Z, Forall2 (fun z z' => (0 <= z <= z')%Z) l l' ->
            ncolumns_le l l') as Hcol.
  { intros l l' Hl. induction Hl as [|z z' l l' Hz Hl IH]; intros [|m]; cbn; auto; lia. }
  assert (forall c c' : splatt_csf,
            nmodes c = nmodes c' -> dim_perm c = dim_perm c' -> ntiles c = ntiles c' ->
            Forall2 (fun t t' => Forall2 le (nfibs t) (nfibs t')) (pt c) (pt c') ->
            nfibs_le c c') as Hfib.
  { intros c c' Hn Hp Ht Hl. repeat split; auto.
    induction Hl as [|t t' l l' Hz Hl IH]; intros [|tile] d; cbn; auto.
    clear IH Hl. revert d.
    induction Hz as [|x x' k k' Hx Hk IH]; intros [|d]; cbn; auto. }
  split; (split; [|split]).
  - apply Hfib; try reflexivity. repeat constructor.
  - apply Hcol. subst nf. repeat constructor; lia.
  - vm_compute. reflexivity.
  - apply Hfib; try reflexivity. repeat constructor.
  - apply Hcol. subst nf nf'. repeat constructor; lia.
  - vm_compute. reflexivity.
Qed.

(** ** Array writes *)

Lemma for_range_ind {St : Type} (P : nat -> St -> Prop) (lo hi : nat)
    (body : nat -> St -> St) (s : St) :
  lo <= hi -> P lo s ->
  (forall i s, lo <= i < hi -> P i s -> P (S i) (body i s)) ->
  P hi (for_range lo hi body s).
Proof.
  intros Hle H0 Hstep. induction hi as [|hi IH].
  - assert (lo = 0) as -> by lia. rewrite for_range_nil by lia. exact H0.
  - destruct (decide (lo = S hi)) as [->|Hne].
    + rewrite for_range_nil by lia. exact H0.
    + rewrite for_range_S by lia. apply Hstep; [lia|].
      apply IH; [lia|]. intros i s' Hi. apply Hstep. lia.
Qed.

Lemma upd_get (l : list val_t) (i j : nat) (x : val_t) :
  i < length l -> <[i := x]> l !!! j = if decide (j = i) then x else l !!! j.
Proof.
  intros H. destruct (decide (j = i)) as [->|Hne].
  - apply list_lookup_total_insert_eq. exact H.
  - apply list_lookup_total_insert_ne. congruence.
Qed.

Lemma par_memset_zero_length (n : nat) (a : list val_t) :
  length (par_memset_zero n a) = length a.
Proof.
  unfold par_memset_zero.
  apply (for_range_ind (fun _ a' => length a' = length a)); [lia|reflexivity|].
  intros i a' _ H. rewrite length_insert. exact H.
Qed.

Lemma par_memset_zero_get (n : nat) (a : list val_t) (k : nat) :
  n <= length a ->
  par_memset_zero n a !!! k = if Nat.ltb k n then 0%Qc else a !!! k.
Proof.
  intros Hn. unfold par_memset_zero.
  enough (length (for_range 0 n (fun k (a : list val_t) => <[k := 0%Qc]> a) a) = length a
          /\ for_range 0 n (fun k (a : list val_t) => <[k := 0%Qc]> a) a !!! k
             = if Nat.ltb k n then 0%Qc else a !!! k) as H by apply H.
  apply (for_range_ind (fun i a' =>
    length a' = length a /\ a' !!! k = if Nat.ltb k i then 0%Qc else a !!! k));
    [lia| |].
  - split; reflexivity.
  - intros i a' Hi [Hlen Hget].
    split; [rewrite length_insert; exact Hlen|].
    rewrite upd_get by lia. rewrite Hget.
    case_decide; destruct (Nat.ltb_spec k i), (Nat.ltb_spec k (S i)); try reflexivity; lia.
Qed.

(** ** Dispatch of [ttmc_csf]: where it returns and where it exits *)


Lemma ttmc_csf_unsupported (tensors : list splatt_csf) (mats : list matrix_t)
    (mode : nat) (opts : splatt_opts) (st : ttmc_mem) :
  ttmc_supported tensors mode opts = false ->
  ttmc_csf tensors mats mode opts st
  = Exits 1 (p_init_locks
               (p_clear_tenout mats (nmodes (tensors !!! 0)) mode
                  (dims (tensors !!! 0)) st)).
Proof.
  unfold ttmc_supported, ttmc_target, ttmc_csf.
  unfold p_root_decide, p_leaf_decide, p_intl_decide.
  destruct (opt_csf_alloc opts); intros H.
  - destruct (which_tile (tensors !!! 0)); [discriminate| |];
      repeat (destruct (Nat.eqb _ _)); reflexivity.
  - destruct (Nat.eqb mode _).
    + destruct (which_tile (tensors !!! 1)); [discriminate| |]; reflexivity.
    + destruct (which_tile (tensors !!! 0)); [discriminate| |];
        repeat (destruct (Nat.eqb _ _)); reflexivity.
  - destruct (which_tile (tensors !!! mode)); [discriminate| |]; reflexivity.
  - reflexivity.
Qed.

Lemma p_init_locks_tenout (st : ttmc_mem) : tenout (p_init_locks st) = tenout st.
Proof. unfold p_init_locks. destruct (locks_initialized st); reflexivity. Qed.

(** C5 (as amended).  On a request it does not serve (a tiled
    representation, or a [CSF_ALLOC] value that is none of the three
    flavors) [ttmc_csf] returns nothing: it ends the process with [exit(1)].
    By then [p_clear_tenout] has run: the first
    [dims[mode] * prod_{p <> mode} ncolumns[p]] entries of [tenout] are zero
    and the entries after them are as the caller left them. *)
Theorem ttmc_csf_unsupported_exits_after_clear (tensors : list splatt_csf)
    (mats : list matrix_t) (mode : nat) (opts : splatt_opts) (st : ttmc_mem) :
  ttmc_supported tensors mode opts = false ->
  ttmc_outsize (tensors !!! 0) mats mode <= length (tenout st) ->
  exists st',
    ttmc_csf tensors mats mode opts st = Exits 1 st'
    /\ forall k,
         tenout st' !!! k
         = if Nat.ltb k (ttmc_outsize (tensors !!! 0) mats mode) then 0%Qc
           else tenout st !!! k.
Proof.
  intros Hun Hlen. eexists. split.
  - apply ttmc_csf_unsupported. exact Hun.
  - intros k. rewrite p_init_locks_tenout. unfold p_clear_tenout. cbn [tenout set_tenout].
    apply par_memset_zero_get. exact Hlen.
Qed.

Lemma ttmc_csf_unsupported_exits_after_clear_witness :
  exists st',
    ttmc_csf [csf_s1_tiled] mats_s1 0 opts_onemode mem_s1 = Exits 1 st'
    /\ forall k,
         tenout st' !!! k
         = if Nat.ltb k (ttmc_outsize ([csf_s1_tiled] !!! 0) mats_s1 0) then 0%Qc
           else tenout mem_s1 !!! k.
Proof.
  apply ttmc_csf_unsupported_exits_after_clear.
  - reflexivity.
  - vm_compute. lia.
Defined.

(** C5 (as stated) fails: asked for mode 0 of a tiled representation,
    [ttmc_csf] returns no status (the process exits) and the caller's
    buffer, which held 9 everywhere, has been zeroed in its first eight
    entries. *)
Lemma ttmc_csf_tiled_exits_with_cleared_output :
  returned (ttmc_csf [csf_s1_tiled] mats_s1 0 opts_onemode mem_s1) = None
  /\ exit_code (ttmc_csf [csf_s1_tiled] mats_s1 0 opts_onemode mem_s1) = Some 1%Z
  /\ map is_zero
       (tenout (outcome_mem (ttmc_csf [csf_s1_tiled] mats_s1 0 opts_onemode mem_s1)))
     = [true; true; true; true; true; true; true; true; false; false; false; false]
  /\ map is_zero (tenout mem_s1) = replicate 12 false.
Proof. repeat split; vm_compute; reflexivity. Qed.

(** C9 (as stated) fails: on the tiled representation [splatt_ttmc] returns
    nothing; the process exits with status 1. *)
Lemma splatt_ttmc_tiled_exits :
  returned (splatt_ttmc 0 [2; 2; 2] [csf_s1_tiled]
              [map qz [1; 2; 3; 4]%Z; map qz [1; 10; 100; 1000]%Z;
               map qz [1; 1; 1; 1; 5; 7]%Z] opts_onemode mem_s1) = None
  /\ exit_code (splatt_ttmc 0 [2; 2; 2] [csf_s1_tiled]
                  [map qz [1; 2; 3; 4]%Z; map qz [1; 10; 100; 1000]%Z;
                   map qz [1; 1; 1; 1; 5; 7]%Z] opts_onemode mem_s1) = Some 1%Z.
Proof. split; vm_compute; reflexivity. Qed.

(** ** Lock slots *)

(** C6, evaluated.  On the S1 tensor the internal kernel (mode 1) takes
    the locks at offsets 0, 1, 0 and the leaf kernel (mode 2) those at
    offsets 0, 2, 0: the offset is [id mod NLOCKS], without the factor 16.
    [p_init_locks] has initialised the offsets [16 * i] only, so the slots
    1 and 2 are not initialised.  The coordinate fallback, through
    [p_splatt_set_lock], takes offsets 0 and 16 on the same tensor. *)
Theorem ttmc_csf_locks_without_stride :
  let intl := outcome_mem (ttmc_csf [csf_s1] mats_s1 1 opts_onemode mem_s1) in
  let leaf := outcome_mem (ttmc_csf [csf_s1] mats_s1 2 opts_onemode mem_s1) in
  let strm := ttmc_stream coo_s1 mats_s1 0 mem_s1 in
  lock_log intl
  = [LockSet 0; LockUnset 0; LockSet 1; LockUnset 1; LockSet 0; LockUnset 0]
  /\ slot_initialized intl 1 = false
  /\ lock_log leaf
     = [LockSet 0; LockUnset 0; LockSet 2; LockUnset 2; LockSet 0; LockUnset 0]
  /\ slot_initialized leaf 2 = false
  /\ lock_log strm
     = [LockSet 0; LockUnset 0; LockSet 16; LockUnset 16; LockSet 0; LockUnset 0]
  /\ forallb (fun op => slot_initialized strm (lock_slot op)) (lock_log strm) = true.
Proof. repeat split; vm_compute; reflexivity. Qed.

(** ** Sums *)

Lemma qsum_app (l1 l2 : list val_t) : qsum (l1 ++ l2) = (qsum l1 + qsum l2)%Qc.
Proof.
  induction l1 as [|x l1 IH]; simpl.
  - ring.
  - rewrite IH. ring.
Qed.

Lemma qsum_flat_map {X : Type} (f : X -> list val_t) (l : list X) :
  qsum (flat_map f l) = qsum (map (fun x => qsum (f x)) l).
Proof.
  induction l as [|x l IH]; simpl; [reflexivity|].
  rewrite qsum_app, IH. reflexivity.
Qed.

Lemma qsum_map_ext {X : Type} (f g : X -> val_t) (l : list X) :
  (forall x, In x l -> f x = g x) -> qsum (map f l) = qsum (map g l).
Proof.
  induction l as [|x l IH]; intros H; simpl; [reflexivity|].
  rewrite (H x) by (left; reflexivity). rewrite IH; [reflexivity|].
  intros y Hy. apply H. right. exact Hy.
Qed.

Lemma qsum_map_zero {X : Type} (l : list X) : qsum (map (fun _ => 0%Qc) l) = 0%Qc.
Proof. induction l as [|x l IH]; simpl; [reflexivity|]. rewrite IH. ring. Qed.

Lemma qsum_map_scale {X : Type} (a : val_t) (f : X -> val_t) (l : list X) :
  qsum (map (fun x => (a * f x)%Qc) l) = (a * qsum (map f l))%Qc.
Proof. induction l as [|x l IH]; simpl; [ring|]. rewrite IH. ring. Qed.

Lemma qsum_map_if {X : Type} (b : bool) (f : X -> val_t) (l : list X) :
  qsum (map (fun x => if b then f x else 0%Qc) l)
  = if b then qsum (map f l) else 0%Qc.
Proof. destruct b; [reflexivity | apply qsum_map_zero]. Qed.

Lemma qsum_map_map {X Y : Type} (f : Y -> val_t) (g : X -> Y) (l : list X) :
  qsum (map f (map g l)) = qsum (map (fun x => f (g x)) l).
Proof. rewrite map_map. reflexivity. Qed.


(** A loop that adds [c x] to the observed quantity at every step adds the
    sum of the [c x]. *)
Lemma fold_left_sum {St X : Type} (get : St -> val_t) (Inv : St -> Prop)
    (step : St -> X -> St) (c : X -> val_t) (l : list X) :
  (forall x s, In x l -> Inv s -> Inv (step s x) /\ get (step s x) = (get s + c x)%Qc) ->
  forall s, Inv s ->
    Inv (fold_left step l s) /\ get (fold_left step l s) = (get s + qsum (map c l))%Qc.
Proof.
  induction l as [|x l IH]; intros Hstep s Hs; simpl.
  - split; [exact Hs | ring].
  - destruct (Hstep x s (or_introl eq_refl) Hs) as [Hi Hg].
    destruct (IH (fun y s' Hy => Hstep y s' (or_intror Hy)) (step s x) Hi) as [Hi' Hg'].
    split; [exact Hi'|]. rewrite Hg', Hg. ring.
Qed.

Lemma for_range_sum {St : Type} (get : St -> val_t) (Inv : St -> Prop) (lo hi : nat)
    (body : nat -> St -> St) (c : nat -> val_t) :
  (forall i s, lo <= i < hi -> Inv s ->
     Inv (body i s) /\ get (body i s) = (get s + c i)%Qc) ->
  forall s, Inv s ->
    Inv (for_range lo hi body s)
    /\ get (for_range lo hi body s) = (get s + qsum (map c (seq lo (hi - lo))))%Qc.
Proof.
  intros Hstep s Hs. unfold for_range.
  apply (fold_left_sum get Inv (fun s i => body i s) c); [|exact Hs].
  intros x s' Hx. apply Hstep. apply in_seq in Hx. lia.
Qed.

Lemma for_range0_sum {St : Type} (get : St -> val_t) (Inv : St -> Prop) (hi : nat)
    (body : nat -> St -> St) (c : nat -> val_t) :
  (forall i s, i < hi -> Inv s -> Inv (body i s) /\ get (body i s) = (get s + c i)%Qc) ->
  forall s, Inv s ->
    Inv (for_range 0 hi body s)
    /\ get (for_range 0 hi body s) = (get s + qsum (map c (seq 0 hi)))%Qc.
Proof.
  intros Hstep s Hs.
  destruct (for_range_sum get Inv 0 hi body c) with (s := s) as [H1 H2];
    [intros i s' Hi; apply Hstep; lia | exact Hs |].
  rewrite Nat.sub_0_r in H2. split; assumption.
Qed.

(** A loop whose steps keep an invariant keeps it. *)
Lemma for_range_keeps {St : Type} (Inv : St -> Prop) (lo hi : nat)
    (body : nat -> St -> St) :
  (forall i s, lo <= i < hi -> Inv s -> Inv (body i s)) ->
  forall s, Inv s -> Inv (for_range lo hi body s).
Proof.
  intros Hstep s Hs. unfold for_range.
  assert (forall l, (forall x, In x l -> lo <= x < hi) ->
          forall s, Inv s -> Inv (fold_left (fun s i => body i s) l s)) as H.
  { induction l as [|x l IH]; intros Hl s' Hs'; simpl; [exact Hs'|].
    apply IH; [intros y Hy; apply Hl; right; exact Hy|].
    apply Hstep; [apply Hl; left; reflexivity | exact Hs']. }
  apply H; [|exact Hs]. intros x Hx. apply in_seq in Hx. lia.
Qed.

(** ** Writing a block of an array *)

(** [out[base + r] = g r] for [r < n]. *)
Lemma set_block_get (n base : nat) (g : nat -> val_t) (out : list val_t) (k : nat) :
  base + n <= length out ->
  let out' := for_range 0 n (fun r (o : list val_t) => <[base + r := g r]> o) out in
  length out' = length out
  /\ out' !!! k
     = if Nat.leb base k && Nat.ltb k (base + n) then g (k - base) else out !!! k.
Proof.
  intros Hlen out'. subst out'.
  apply (for_range_ind (fun i o =>
    length o = length out
    /\ o !!! k = if Nat.leb base k && Nat.ltb k (base + i) then g (k - base)
                 else out !!! k)); [lia| |].
  - split; [reflexivity|].
    destruct (Nat.leb_spec base k), (Nat.ltb_spec k (base + 0)); simpl; try reflexivity; lia.
  - intros i o Hi [Hl Hg]. split; [rewrite length_insert; exact Hl|].
    rewrite upd_get by lia. rewrite Hg.
    case_decide as Hk.
    + subst k. replace (base + i - base) with i by lia.
      destruct (Nat.leb_spec base (base + i)), (Nat.ltb_spec (base + i) (base + S i));
        simpl; try reflexivity; lia.
    + destruct (Nat.leb_spec base k), (Nat.ltb_spec k (base + i)),
        (Nat.ltb_spec k (base + S i)); simpl; try reflexivity; lia.
Qed.

(** [out[base + r] += g r] for [r < n]. *)
Lemma add_block_get (n base : nat) (g : nat -> val_t) (out : list val_t) (k : nat) :
  base + n <= length out ->
  let out' :=
    for_range 0 n (fun r (o : list val_t) => <[base + r := (o !!! (base + r)%nat + g r)%Qc]> o)
      out in
  length out' = length out
  /\ out' !!! k
     = Qcplus (out !!! k)
         (if Nat.leb base k && Nat.ltb k (base + n) then g (k - base) else 0%Qc).
Proof.
  intros Hlen out'. subst out'.
  apply (for_range_ind (fun i o =>
    length o = length out
    /\ o !!! k = Qcplus (out !!! k)
                   (if Nat.leb base k && Nat.ltb k (base + i) then g (k - base)
                    else 0%Qc))); [lia| |].
  - split; [reflexivity|].
    destruct (Nat.leb_spec base k), (Nat.ltb_spec k (base + 0)); simpl; try ring; lia.
  - intros i o Hi [Hl Hg]. split; [rewrite length_insert; exact Hl|].
    rewrite upd_get by lia.
    case_decide as Hk.
    + subst k. rewrite Hg. replace (base + i - base) with i by lia.
      destruct (Nat.leb_spec base (base + i)), (Nat.ltb_spec (base + i) (base + i)),
        (Nat.ltb_spec (base + i) (base + S i)); simpl; try ring; lia.
    + rewrite Hg.
      destruct (Nat.leb_spec base k), (Nat.ltb_spec k (base + i)),
        (Nat.ltb_spec k (base + S i)); simpl; try reflexivity; lia.
Qed.

Lemma block_index (base nB i k : nat) :
  base + i * nB <= k < base + i * nB + nB ->
  (k - base) / nB = i /\ (k - base) mod nB = k - (base + i * nB).
Proof.
  intros H. split.
  - symmetry. apply (Nat.div_unique _ _ _ (k - (base + i * nB))); lia.
  - symmetry. apply (Nat.mod_unique _ _ i); lia.
Qed.

(** [p_twovec_outer_prod] fills the block at [base] with the outer product
    and leaves the rest of the array alone. *)
Lemma p_twovec_outer_prod_get (rowA : nat -> val_t) (nA : nat) (rowB : nat -> val_t)
    (nB : nat) (base : nat) (out : list val_t) (k : nat) :
  base + nA * nB <= length out ->
  length (p_twovec_outer_prod rowA nA rowB nB base out) = length out
  /\ p_twovec_outer_prod rowA nA rowB nB base out !!! k
     = if Nat.leb base k && Nat.ltb k (base + nA * nB)
       then Qcmult (rowA ((k - base) / nB)) (rowB ((k - base) mod nB))
       else out !!! k.
Proof.
  intros Hlen. unfold p_twovec_outer_prod.
  apply (for_range_ind (fun i o =>
    length o = length out
    /\ o !!! k = if Nat.leb base k && Nat.ltb k (base + i * nB)
                 then Qcmult (rowA ((k - base) / nB)) (rowB ((k - base) mod nB))
                 else out !!! k)); [lia| |].
  - split; [reflexivity|].
    destruct (Nat.leb_spec base k), (Nat.ltb_spec k (base + 0 * nB));
      simpl; try reflexivity; lia.
  - intros i o Hi [Hl Hg].
    assert (base + i * nB + nB <= length o) as Hb by nia.
    destruct (set_block_get nB (base + i * nB) (fun j => Qcmult (rowA i) (rowB j)) o k Hb)
      as [Hl' Hg'].
    split; [rewrite Hl'; exact Hl|].
    rewrite Hg', Hg.
    destruct (Nat.leb_spec (base + i * nB) k), (Nat.ltb_spec k (base + i * nB + nB)),
      (Nat.leb_spec base k), (Nat.ltb_spec k (base + i * nB)),
      (Nat.ltb_spec k (base + S i * nB)); simpl; try reflexivity; try lia.
    destruct (block_index base nB i k) as [-> ->]; [lia|]. reflexivity.
Qed.

(** [p_twovec_outer_prod_accum] adds the outer product to the block at
    [base]. *)
Lemma p_twovec_outer_prod_accum_get (rowA : nat -> val_t) (nA : nat)
    (rowB : nat -> val_t) (nB : nat) (base : nat) (out : list val_t) (k : nat) :
  base + nA * nB <= length out ->
  length (p_twovec_outer_prod_accum rowA nA rowB nB base out) = length out
  /\ p_twovec_outer_prod_accum rowA nA rowB nB base out !!! k
     = Qcplus (out !!! k)
         (if Nat.leb base k && Nat.ltb k (base + nA * nB)
          then Qcmult (rowA ((k - base) / nB)) (rowB ((k - base) mod nB))
          else 0%Qc).
Proof.
  intros Hlen. unfold p_twovec_outer_prod_accum.
  apply (for_range_ind (fun i o =>
    length o = length out
    /\ o !!! k = Qcplus (out !!! k)
                   (if Nat.leb base k && Nat.ltb k (base + i * nB)
                    then Qcmult (rowA ((k - base) / nB)) (rowB ((k - base) mod nB))
                    else 0%Qc))); [lia| |].
  - split; [reflexivity|].
    destruct (Nat.leb_spec base k), (Nat.ltb_spec k (base + 0 * nB));
      simpl; try ring; lia.
  - intros i o Hi [Hl Hg].
    assert (base + i * nB + nB <= length o) as Hb by nia.
    destruct (add_block_get nB (base + i * nB) (fun j => Qcmult (rowA i) (rowB j)) o k Hb)
      as [Hl' Hg'].
    split; [rewrite Hl'; exact Hl|].
    rewrite Hg', Hg.
    destruct (Nat.leb_spec (base + i * nB) k), (Nat.ltb_spec k (base + i * nB + nB)),
      (Nat.leb_spec base k), (Nat.ltb_spec k (base + i * nB)),
      (Nat.ltb_spec k (base + S i * nB)); simpl; try ring; try lia.
    destruct (block_index base nB i k) as [-> ->]; [lia|]. ring.
Qed.

(** ** Kronecker products, entry by entry *)

Lemma map_get {X : Type} `{!Inhabited X} (f : X -> val_t) (l : list X) (i : nat) :
  i < length l -> map f l !!! i = f (l !!! i).
Proof.
  revert i. induction l as [|x l IH]; intros [|i] H; simpl in *; try lia.
  - reflexivity.
  - apply IH. lia.
Qed.

Lemma kron2_length (a b : list val_t) : length (kron2 a b) = length a * length b.
Proof.
  unfold kron2. induction a as [|x a IH]; simpl; [reflexivity|].
  rewrite length_app, length_map, IH. reflexivity.
Qed.

Lemma kron2_get (a b : list val_t) (k : nat) :
  k < length a * length b ->
  kron2 a b !!! k = Qcmult (a !!! (k / length b)) (b !!! (k mod length b)).
Proof.
  unfold kron2. revert k. induction a as [|x a IH]; intros k Hk; simpl in *; [lia|].
  destruct (decide (k < length b)) as [Hlt|Hge].
  - rewrite lookup_total_app_l by (rewrite length_map; exact Hlt).
    rewrite Nat.div_small, Nat.mod_small by exact Hlt.
    rewrite map_get by exact Hlt. reflexivity.
  - rewrite lookup_total_app_r by (rewrite length_map; lia).
    rewrite length_map. rewrite IH by lia.
    assert (length b <> 0) as Hb by lia.
    replace k with ((k - length b) + 1 * length b) at 3 4 by lia.
    rewrite Nat.div_add, Nat.Div0.mod_add by exact Hb.
    replace ((k - length b) / length b + 1) with (S ((k - length b) / length b)) by lia.
    reflexivity.
Qed.

Lemma kron_length (rows : list (list val_t)) :
  length (kron rows) = fold_right Nat.mul 1 (map length rows).
Proof.
  induction rows as [|r rows IH]; simpl; [reflexivity|].
  rewrite kron2_length, IH. reflexivity.
Qed.

Lemma mat_row_length (M : matrix_t) (i : nat) : length (mat_row M i) = mat_J M.
Proof. unfold mat_row. rewrite length_map, length_seq. reflexivity. Qed.

Lemma mat_row_get (M : matrix_t) (i r : nat) :
  r < mat_J M -> mat_row M i !!! r = row_at (mat_vals M) (i * mat_J M) r.
Proof.
  intros H. unfold mat_row.
  rewrite map_get by (rewrite length_seq; exact H).
  rewrite lookup_total_seq_lt by exact H. reflexivity.
Qed.

(** ** The 3-mode CSF kernels, position by position *)

Lemma qsum_map_flat_map {X Y : Type} (F : Y -> val_t) (g : X -> list Y) (l : list X) :
  qsum (map F (flat_map g l)) = qsum (map (fun x => qsum (map F (g x))) l).
Proof.
  induction l as [|x l IH]; simpl; [reflexivity|].
  rewrite map_app, qsum_app, IH. reflexivity.
Qed.

Lemma tile_paths_in (t : csf_sparsity) (s fib jj : nat) :
  s < nfibs t !!! 0 ->
  tile_fptr t 0 !!! s <= fib < tile_fptr t 0 !!! (s + 1) ->
  tile_fptr t 1 !!! fib <= jj < tile_fptr t 1 !!! (fib + 1) ->
  In (fid_at (tile_fids t 0) s, ids_at (tile_fids t 1) fib, ids_at (tile_fids t 2) jj, jj)
     (tile_paths t).
Proof.
  intros Hs Hf Hj. unfold tile_paths.
  apply in_flat_map. exists s. split; [apply in_seq; lia|].
  apply in_flat_map. exists fib. split; [apply in_seq; lia|].
  apply in_map_iff. exists jj. split; [reflexivity | apply in_seq; lia].
Qed.

Lemma tile3_ok_fiber (csf : splatt_csf) (t : csf_sparsity) (s fib : nat) :
  tile3_ok csf t = true ->
  s < nfibs t !!! 0 ->
  tile_fptr t 0 !!! s <= fib < tile_fptr t 0 !!! (s + 1) ->
  tile_fptr t 1 !!! fib < tile_fptr t 1 !!! (fib + 1).
Proof.
  unfold tile3_ok. intros H Hs Hf.
  apply andb_true_iff in H. destruct H as [H _].
  rewrite forallb_forall in H. specialize (H s).
  rewrite forallb_forall in H.
  apply Nat.ltb_lt. apply H; apply in_seq; lia.
Qed.

Lemma tile3_ok_path (csf : splatt_csf) (t : csf_sparsity) (p : nat * nat * nat * nat) :
  tile3_ok csf t = true ->
  In p (tile_paths t) ->
  path_id p 0 < dims csf !!! (dim_perm csf !!! 0)
  /\ path_id p 1 < dims csf !!! (dim_perm csf !!! 1)
  /\ path_id p 2 < dims csf !!! (dim_perm csf !!! 2)
  /\ path_jj p < length (tile_vals t).
Proof.
  unfold tile3_ok. intros H Hp.
  apply andb_true_iff in H. destruct H as [_ H].
  rewrite forallb_forall in H. specialize (H p Hp).
  repeat (apply andb_true_iff in H; destruct H as [H ?]).
  repeat split; apply Nat.ltb_lt; assumption.
Qed.

(** The reduction of a fiber: entry [r] of [accum_nnz] ends up as the sum
    over the nonzeros of the fiber of [v * bv[r]]. *)
Lemma fiber_accum_nnz_get (t : csf_sparsity) (B : matrix_t) (f : nat)
    (acc : list val_t) (r : nat) :
  tile_fptr t 1 !!! f < tile_fptr t 1 !!! (f + 1) ->
  mat_J B <= length acc ->
  r < mat_J B ->
  length (fiber_accum_nnz t B f acc) = length acc
  /\ fiber_accum_nnz t B f acc !!! r
     = qsum (map (fun jj =>
                    (tile_vals t !!! jj
                     * row_at (mat_vals B) (ids_at (tile_fids t 2) jj * mat_J B) r)%Qc)
               (seq (tile_fptr t 1 !!! f)
                    (tile_fptr t 1 !!! (f + 1) - tile_fptr t 1 !!! f))).
Proof.
  intros Hne Hlen Hr. unfold fiber_accum_nnz.
  set (fp := tile_fptr t 1) in *. set (lo := fp !!! f) in *.
  set (hi := fp !!! (f + 1)) in *.
  set (c := fun jj =>
              (tile_vals t !!! jj
               * row_at (mat_vals B) (ids_at (tile_fids t 2) jj * mat_J B) r)%Qc).
  set (acc0 := for_range 0 (mat_J B) _ acc).
  assert (length acc0 = length acc /\ acc0 !!! r = c lo) as [Hl0 Hg0].
  { subst acc0.
    destruct (set_block_get (mat_J B) 0
                (fun r => (tile_vals t !!! lo
                           * row_at (mat_vals B) (ids_at (tile_fids t 2) lo * mat_J B) r)%Qc)
                acc r) as [Hl Hg]; [simpl; lia|].
    split; [exact Hl|]. etransitivity; [exact Hg|]. simpl.
    destruct (Nat.ltb_spec r (mat_J B)); [|lia].
    rewrite Nat.sub_0_r. reflexivity. }
  destruct (for_range_sum (fun a : list val_t => a !!! r)
              (fun a => length a = length acc) (lo + 1) hi
              (fun jj (acc : list val_t) =>
                 for_range 0 (mat_J B)
                   (fun r (acc : list val_t) =>
                      <[r := (acc !!! r
                              + tile_vals t !!! jj
                                * row_at (mat_vals B)
                                    (ids_at (tile_fids t 2) jj * mat_J B) r)%Qc]> acc) acc)
              c) with (s := acc0) as [Hl Hg].
  - intros jj a Hjj Ha.
    destruct (add_block_get (mat_J B) 0
                (fun r => (tile_vals t !!! jj
                           * row_at (mat_vals B) (ids_at (tile_fids t 2) jj * mat_J B) r)%Qc)
                a r) as [Hl Hg]; [simpl; lia|].
    split; [rewrite <- Ha; exact Hl|]. etransitivity; [exact Hg|]. simpl.
    destruct (Nat.ltb_spec r (mat_J B)); [|lia].
    rewrite Nat.sub_0_r. reflexivity.
  - exact Hl0.
  - split; [exact Hl|]. rewrite Hg, Hg0.
    replace (hi - lo) with (S (hi - (lo + 1))) by lia.
    simpl. replace (S lo) with (lo + 1) by lia. reflexivity.
Qed.

Lemma row_block_bound (o d w len : nat) : o < d -> d * w <= len -> o * w + w <= len.
Proof. intros Ho Hd. nia. Qed.

(** [p_csf_ttmc_intl3]: every stored nonzero adds its [path_contrib] to the
    row of its middle id; the first matrix is that of the root level, the
    second that of the leaf level. *)
Lemma p_csf_ttmc_intl3_get (csf : splatt_csf) (mats : list matrix_t) (st : ttmc_mem)
    (k : nat) :
  let t := pt csf !!! 0 in
  let A := mats !!! (dim_perm csf !!! 0) in
  let B := mats !!! (dim_perm csf !!! 2) in
  tile3_ok csf t = true ->
  dims csf !!! (dim_perm csf !!! 1) * (mat_J A * mat_J B) <= length (tenout st) ->
  mat_J B <= length (scratch0 st) ->
  let st' := p_csf_ttmc_intl3 csf 0 mats st in
  mem_lengths st' = mem_lengths st
  /\ tenout st' !!! k
     = Qcplus (tenout st !!! k)
         (qsum (map (fun p =>
                       path_contrib A B (path_id p 1) (tile_vals t !!! path_jj p)
                         (path_id p 0) (path_id p 2) k)
                  (tile_paths t))).
Proof.
  intros t A B Hok Hout Hs0 st'. subst st'. unfold p_csf_ttmc_intl3.
  fold t. fold A. fold B.
  set (Inv := fun s : ttmc_mem => mem_lengths s = mem_lengths st).
  unfold tile_paths. rewrite qsum_map_flat_map.
  apply (for_range0_sum (fun s => tenout s !!! k) Inv); [|reflexivity].
  intros s st1 Hs Hst1. rewrite qsum_map_flat_map.
  apply (for_range_sum (fun s => tenout s !!! k) Inv); [|exact Hst1].
  intros fib st2 Hfib Hst2.
  pose proof (tile3_ok_fiber csf t s fib Hok ltac:(lia) Hfib) as Hne.
  pose proof (tile_paths_in t s fib (tile_fptr t 1 !!! fib) ltac:(lia) Hfib ltac:(lia)) as Hin.
  destruct (tile3_ok_path csf t _ Hok Hin) as (_ & Ho & _ & _). cbn [path_id] in Ho.
  unfold Inv, mem_lengths in Hst2. injection Hst2 as Hlt Hl0 Hl2.
  set (o := ids_at (tile_fids t 1) fib) in *.
  set (acc := fiber_accum_nnz t B fib (scratch0 st2)).
  assert (length acc = length (scratch0 st2)) as Hacc.
  { destruct (decide (0 < mat_J B)) as [Hpos|Hz].
    - apply (fiber_accum_nnz_get t B fib (scratch0 st2) 0 Hne); lia.
    - subst acc. unfold fiber_accum_nnz.
      replace (mat_J B) with 0 by lia.
      apply (for_range_keeps (fun a : list val_t => length a = length (scratch0 st2)));
        [|reflexivity].
      intros i a _ Ha. exact Ha. }
  cbn [set_scratch0 log_lock set_tenout tenout scratch0 scratch2].
  assert (o * mat_J A * mat_J B + mat_J A * mat_J B <= length (tenout st2)) as Hb.
  { rewrite Hlt. rewrite <- Nat.mul_assoc.
    apply (row_block_bound o (dims csf !!! (dim_perm csf !!! 1))); assumption. }
  destruct (p_twovec_outer_prod_accum_get
              (row_at (mat_vals A) (fid_at (tile_fids t 0) s * mat_J A)) (mat_J A)
              (row_at acc 0) (mat_J B) (o * mat_J A * mat_J B) (tenout st2) k Hb)
    as [Hl Hg].
  split.
  - unfold Inv, mem_lengths.
    cbn [set_scratch0 log_lock set_tenout tenout scratch0 scratch2].
    fold acc. rewrite Hl, Hacc, Hlt, Hl0, Hl2. reflexivity.
  - fold acc. rewrite Hg. f_equal.
    rewrite qsum_map_map. unfold path_contrib. cbn [path_id path_jj snd].
    fold o.
    destruct (Nat.leb (o * mat_J A * mat_J B) k
              && Nat.ltb k (o * mat_J A * mat_J B + mat_J A * mat_J B)) eqn:E.
    + assert (0 < mat_J B) as Hpos.
      { apply andb_true_iff in E. destruct E as [E1 E2].
        apply Nat.leb_le in E1. apply Nat.ltb_lt in E2.
        destruct (mat_J B); [lia|lia]. }
      unfold row_at at 2. simpl (0 + _).
      destruct (fiber_accum_nnz_get t B fib (scratch0 st2)
                  ((k - o * mat_J A * mat_J B) mod mat_J B) Hne) as [_ Hq];
        [lia | apply Nat.mod_upper_bound; lia |].
      fold acc in Hq. rewrite Hq.
      rewrite <- qsum_map_scale. apply qsum_map_ext. intros jj _. ring.
    + rewrite qsum_map_zero. reflexivity.
Qed.

(** [p_csf_ttmc_leaf3]: every stored nonzero adds its [path_contrib] to the
    row of its leaf id; the first matrix is that of the root level, the
    second that of the middle level. *)
Lemma p_csf_ttmc_leaf3_get (csf : splatt_csf) (mats : list matrix_t) (st : ttmc_mem)
    (k : nat) :
  let t := pt csf !!! 0 in
  let A := mats !!! (dim_perm csf !!! 0) in
  let B := mats !!! (dim_perm csf !!! 1) in
  tile3_ok csf t = true ->
  dims csf !!! (dim_perm csf !!! 2) * (mat_J A * mat_J B) <= length (tenout st) ->
  mat_J A * mat_J B <= length (scratch2 st) ->
  let st' := p_csf_ttmc_leaf3 csf 0 mats st in
  mem_lengths st' = mem_lengths st
  /\ tenout st' !!! k
     = Qcplus (tenout st !!! k)
         (qsum (map (fun p =>
                       path_contrib A B (path_id p 2) (tile_vals t !!! path_jj p)
                         (path_id p 0) (path_id p 1) k)
                  (tile_paths t))).
Proof.
  intros t A B Hok Hout Hs2 st'. subst st'. unfold p_csf_ttmc_leaf3.
  fold t. fold A. fold B.
  set (Inv := fun s : ttmc_mem => mem_lengths s = mem_lengths st).
  unfold tile_paths. rewrite qsum_map_flat_map.
  apply (for_range0_sum (fun s => tenout s !!! k) Inv); [|reflexivity].
  intros s st1 Hs Hst1. rewrite qsum_map_flat_map.
  apply (for_range_sum (fun s => tenout s !!! k) Inv); [|exact Hst1].
  intros fib st2 Hfib Hst2.
  unfold Inv, mem_lengths in Hst2. injection Hst2 as Hlt Hl0 Hl2.
  set (av := row_at (mat_vals A) (fid_at (tile_fids t 0) s * mat_J A)).
  set (bv := row_at (mat_vals B) (ids_at (tile_fids t 1) fib * mat_J B)).
  set (sc := p_twovec_outer_prod av (mat_J A) bv (mat_J B) 0 (scratch2 st2)).
  assert (length sc = length (scratch2 st2)) as Hsc.
  { apply (p_twovec_outer_prod_get av (mat_J A) bv (mat_J B) 0 (scratch2 st2) 0).
    simpl. lia. }
  assert (forall r, r < mat_J A * mat_J B ->
            sc !!! r = Qcmult (av (r / mat_J B)) (bv (r mod mat_J B))) as Hscr.
  { intros r Hr.
    destruct (p_twovec_outer_prod_get av (mat_J A) bv (mat_J B) 0 (scratch2 st2) r)
      as [_ Hg]; [simpl; lia|].
    fold sc in Hg. rewrite Hg. simpl.
    destruct (Nat.ltb_spec r (mat_J A * mat_J B)); [|lia].
    rewrite Nat.sub_0_r. reflexivity. }
  set (Inv2 := fun s : ttmc_mem => mem_lengths s = mem_lengths st /\ scratch2 s = sc).
  rewrite qsum_map_map.
  match goal with |- Inv (for_range ?lo ?hi ?body ?s0) /\ _ =>
    destruct (for_range_sum (fun s => tenout s !!! k) Inv2 lo hi body
                (fun jj =>
                   path_contrib A B (ids_at (tile_fids t 2) jj) (tile_vals t !!! jj)
                     (fid_at (tile_fids t 0) s) (ids_at (tile_fids t 1) fib) k))
      with (s := s0) as [[Hi _] Hg]
  end.
  - intros jj st3 Hjj [Hst3 Hsc3].
    pose proof (tile_paths_in t s fib jj ltac:(lia) Hfib Hjj) as Hin.
    destruct (tile3_ok_path csf t _ Hok Hin) as (_ & _ & Ho & _). cbn [path_id] in Ho.
    unfold mem_lengths in Hst3. injection Hst3 as Hlt3 Hl03 Hl23.
    set (o := ids_at (tile_fids t 2) jj) in *.
    cbn [set_scratch2 log_lock set_tenout tenout scratch0 scratch2].
    assert (o * mat_J A * mat_J B + mat_J A * mat_J B <= length (tenout st3)) as Hb.
    { rewrite Hlt3. rewrite <- Nat.mul_assoc.
      apply (row_block_bound o (dims csf !!! (dim_perm csf !!! 2))); assumption. }
    destruct (add_block_get (mat_J A * mat_J B) (o * mat_J A * mat_J B)
                (fun r => (tile_vals t !!! jj * scratch2 st3 !!! r)%Qc)
                (tenout st3) k Hb) as [Hl Hg].
    split; [split|].
    + unfold mem_lengths.
      cbn [set_scratch2 log_lock set_tenout tenout scratch0 scratch2].
      rewrite Hl, Hlt3, Hl03, Hl23. reflexivity.
    + cbn [set_scratch2 log_lock set_tenout tenout scratch0 scratch2]. exact Hsc3.
    + rewrite Hg. f_equal. unfold path_contrib.
      destruct (Nat.leb (o * mat_J A * mat_J B) k
                && Nat.ltb k (o * mat_J A * mat_J B + mat_J A * mat_J B)) eqn:E;
        [|reflexivity].
      apply andb_true_iff in E. destruct E as [E1 E2].
      apply Nat.leb_le in E1. apply Nat.ltb_lt in E2.
      rewrite Hsc3, Hscr by lia. reflexivity.
  - split; [|reflexivity]. unfold mem_lengths.
    cbn [set_scratch2 tenout scratch0 scratch2]. fold sc.
    rewrite Hsc, Hlt, Hl0, Hl2. reflexivity.
  - split; [exact Hi|]. rewrite Hg. reflexivity.
Qed.

(** ** The coordinate fallback *)

Lemma stream_size_top (mats : list matrix_t) (mode nm : nat) :
  stream_size mats mode nm nm = 1.
Proof. unfold stream_size. rewrite other_modes_nil. reflexivity. Qed.

Lemma stream_size_skip (mats : list matrix_t) (nm m : nat) :
  m < nm -> stream_size mats m nm m = stream_size mats m nm (S m).
Proof. intros H. unfold stream_size. rewrite other_modes_skip by exact H. reflexivity. Qed.

Lemma stream_size_cons (mats : list matrix_t) (mode nm m : nat) :
  m < nm -> m <> mode ->
  stream_size mats mode nm m = stream_size mats mode nm (S m) * mat_J (mats !!! m).
Proof.
  intros H Hne. unfold stream_size. rewrite other_modes_cons by assumption. reflexivity.
Qed.

Lemma stream_kron_skip (tt : sptensor_t) (mats : list matrix_t) (nm n m : nat) :
  m < nm -> stream_kron tt mats m nm n m = stream_kron tt mats m nm n (S m).
Proof. intros H. unfold stream_kron. rewrite other_modes_skip by exact H. reflexivity. Qed.

Lemma stream_kron_cons (tt : sptensor_t) (mats : list matrix_t) (mode nm n m : nat) :
  m < nm -> m <> mode ->
  stream_kron tt mats mode nm n m
  = kron2 (mat_row (mats !!! m) ((tt_ind tt !!! m) !!! n))
      (stream_kron tt mats mode nm n (S m)).
Proof.
  intros H Hne. unfold stream_kron. rewrite other_modes_cons by assumption. reflexivity.
Qed.

Lemma stream_kron_length (tt : sptensor_t) (mats : list matrix_t) (mode nm n : nat) (k : nat) :
  forall m, m + k = nm ->
    length (stream_kron tt mats mode nm n m) = stream_size mats mode nm m.
Proof.
  induction k as [|k IH]; intros m Hm.
  - assert (m = nm) as -> by lia.
    unfold stream_kron, stream_size. rewrite other_modes_nil. reflexivity.
  - destruct (decide (m = mode)) as [->|Hne].
    + rewrite stream_kron_skip, stream_size_skip by lia. apply IH. lia.
    + rewrite stream_kron_cons, stream_size_cons by (lia || assumption).
      rewrite kron2_length, mat_row_length, IH by lia. lia.
Qed.

(** The set-up loop: [total_cols] is [ncols[0]] and every buffer has the
    size the Kronecker loop needs. *)
Lemma stream_setup_spec (nm : nat) (mats : list matrix_t) (mode : nat) :
  exists ncols buffers,
    stream_setup nm mats mode = (stream_size mats mode nm 0, ncols, buffers)
    /\ stream_buffers_ok mats mode nm buffers.
Proof.
  unfold stream_setup.
  assert (forall k lo, lo + k = nm ->
    exists ncols buffers,
      for_down nm lo (stream_setup_step mats mode)
        (1, <[nm := 1]> (replicate (nm + 1) 0), replicate nm [])
      = (stream_size mats mode nm lo, ncols, buffers)
      /\ length ncols = nm + 1
      /\ (forall m, lo <= m <= nm -> ncols !!! m = stream_size mats mode nm m)
      /\ length buffers = nm
      /\ (forall p, lo <= p < nm -> p <> mode ->
            stream_size mats mode nm p <= length (buffers !!! p))) as H.
  { induction k as [|k IH]; intros lo Hlo.
    - assert (lo = nm) as -> by lia. rewrite for_down_nil by lia.
      eexists _, _. split; [rewrite stream_size_top; reflexivity|].
      split; [rewrite length_insert, length_replicate; reflexivity|].
      split; [|split; [apply length_replicate | intros p Hp; lia]].
      intros m Hm. assert (m = nm) as -> by lia.
      rewrite stream_size_top.
      apply list_lookup_total_insert_eq. rewrite length_replicate. lia.
    - rewrite for_down_low by lia.
      destruct (IH (S lo) ltac:(lia)) as (ncols & buffers & -> & Hln & Hnc & Hlb & Hb).
      unfold stream_setup_step at 1. destruct (Nat.eqb_spec lo mode) as [->|Hne].
      + eexists _, _. split; [rewrite (stream_size_skip mats nm mode) by lia; reflexivity|].
        split; [rewrite length_insert; exact Hln|].
        split; [|split; [rewrite length_insert; exact Hlb|]].
        * intros m Hm. destruct (decide (m = mode)) as [->|Hm'].
          -- rewrite list_lookup_total_insert_eq by lia.
             replace (mode + 1) with (S mode) by lia.
             rewrite Hnc by lia. rewrite (stream_size_skip mats nm mode) by lia.
             reflexivity.
          -- rewrite list_lookup_total_insert_ne by congruence. apply Hnc. lia.
        * intros p Hp Hpm. rewrite list_lookup_total_insert_ne by congruence.
          apply Hb; [lia | exact Hpm].
      + eexists _, _.
        split; [rewrite (stream_size_cons mats mode nm lo) by (lia || assumption); reflexivity|].
        split; [rewrite length_insert; exact Hln|].
        split; [|split; [rewrite length_insert; exact Hlb|]].
        * intros m Hm. destruct (decide (m = lo)) as [->|Hm'].
          -- rewrite list_lookup_total_insert_eq by lia.
             replace (lo + 1) with (S lo) by lia.
             rewrite Hnc by lia.
             rewrite (stream_size_cons mats mode nm lo) by (lia || assumption).
             reflexivity.
          -- rewrite list_lookup_total_insert_ne by congruence. apply Hnc. lia.
        * intros p Hp Hpm. destruct (decide (p = lo)) as [->|Hp'].
          -- rewrite list_lookup_total_insert_eq by lia.
             rewrite length_replicate.
             replace (lo + 1) with (S lo) by lia.
             rewrite Hnc by lia.
             rewrite (stream_size_cons mats mode nm lo) by (lia || assumption). lia.
          -- rewrite list_lookup_total_insert_ne by congruence. apply Hb; [lia|exact Hpm]. }
  destruct (H nm 0 ltac:(lia)) as (ncols & buffers & Heq & _ & _ & Hlb & Hb).
  exists ncols, buffers. split; [exact Heq|]. split; [exact Hlb|].
  intros p Hp Hpm. apply Hb; [lia | exact Hpm].
Qed.

Lemma stream_kron_step_skip (tt : sptensor_t) (mats : list matrix_t)
    (mode first_mode outrow n : nat) (th : stream_thd) :
  stream_kron_step tt mats mode first_mode outrow n mode th = th.
Proof. unfold stream_kron_step. rewrite Nat.eqb_refl. reflexivity. Qed.

(** Below the first mode nothing is left to do. *)
Lemma stream_kron_loop_done (tt : sptensor_t) (mats : list matrix_t)
    (mode outrow n : nat) (th : stream_thd) :
  let first_mode := if Nat.eqb mode 0 then 1 else 0 in
  for_down first_mode 0 (stream_kron_step tt mats mode first_mode outrow n) th = th.
Proof.
  intros first_mode. subst first_mode. destruct (Nat.eqb_spec mode 0) as [->|Hne].
  - rewrite for_down_high by lia. rewrite for_down_nil by lia.
    apply stream_kron_step_skip.
  - apply for_down_nil. lia.
Qed.

Lemma first_mode_size (mats : list matrix_t) (mode nm : nat) :
  1 < nm ->
  let first_mode := if Nat.eqb mode 0 then 1 else 0 in
  stream_size mats mode nm first_mode = stream_size mats mode nm 0.
Proof.
  intros Hnm first_mode. subst first_mode. destruct (Nat.eqb_spec mode 0) as [->|Hne].
  - rewrite (stream_size_skip mats nm 0) by lia. reflexivity.
  - reflexivity.
Qed.

Lemma first_mode_kron (tt : sptensor_t) (mats : list matrix_t) (mode nm n : nat) :
  1 < nm ->
  let first_mode := if Nat.eqb mode 0 then 1 else 0 in
  stream_kron tt mats mode nm n first_mode = stream_kron tt mats mode nm n 0.
Proof.
  intros Hnm first_mode. subst first_mode. destruct (Nat.eqb_spec mode 0) as [->|Hne].
  - rewrite (stream_kron_skip tt mats nm n 0) by lia. reflexivity.
  - reflexivity.
Qed.

(** One step of the Kronecker loop at a mode above the first: the next
    buffer receives the outer product. *)
Lemma stream_kron_step_inv (tt : sptensor_t) (mats : list matrix_t)
    (mode nm first_mode outrow n m : nat) (th : stream_thd) :
  m < nm -> m <> mode -> m <> first_mode ->
  stream_kron_inv tt mats mode nm n (S m) th ->
  let th' := stream_kron_step tt mats mode first_mode outrow n m th in
  stream_kron_inv tt mats mode nm n m th' /\ thd_mem th' = thd_mem th.
Proof.
  intros Hm Hne Hnf (Hok & Hcurr & Hbs & Hbuf) th'. subst th'.
  unfold stream_kron_step.
  destruct (Nat.eqb_spec m mode) as [|_]; [contradiction|].
  destruct (Nat.eqb_spec m first_mode) as [|_]; [contradiction|].
  cbn [negb thd_mem thd_buffers thd_curr thd_buff_size].
  split; [|reflexivity].
  destruct Hok as [Hlb Hsz].
  set (row := row_at (mat_vals (mats !!! m)) ((tt_ind tt !!! m) !!! n * mat_J (mats !!! m))).
  set (cb := row_at (thd_buffers th !!! thd_curr th) 0).
  assert (0 + mat_J (mats !!! m) * thd_buff_size th <= length (thd_buffers th !!! m)) as Hb.
  { rewrite Hbs. specialize (Hsz m Hm Hne).
    rewrite (stream_size_cons mats mode nm m) in Hsz by assumption. lia. }
  unfold stream_kron_inv. cbn [thd_mem thd_buffers thd_curr thd_buff_size].
  split; [split|split; [exact Hm|split]].
  - rewrite length_insert. exact Hlb.
  - intros p Hp Hpm. destruct (decide (p = m)) as [->|Hp'].
    + rewrite list_lookup_total_insert_eq by lia.
      destruct (p_twovec_outer_prod_get row (mat_J (mats !!! m)) cb (thd_buff_size th) 0
                  (thd_buffers th !!! m) 0 Hb) as [Hl _].
      rewrite Hl. apply Hsz; assumption.
    + rewrite list_lookup_total_insert_ne by congruence. apply Hsz; assumption.
  - rewrite Hbs. rewrite (stream_size_cons mats mode nm m) by assumption. reflexivity.
  - intros j Hj. rewrite list_lookup_total_insert_eq by lia.
    destruct (p_twovec_outer_prod_get row (mat_J (mats !!! m)) cb (thd_buff_size th) 0
                (thd_buffers th !!! m) j Hb) as [_ Hg].
    rewrite Hg. clear Hg.
    rewrite (stream_size_cons mats mode nm m) in Hj by assumption.
    rewrite Hbs. simpl (Nat.leb 0 j). simpl (0 + _).
    destruct (Nat.ltb_spec j (mat_J (mats !!! m) * stream_size mats mode nm (S m))); [|lia].
    simpl andb. cbv iota. rewrite Nat.sub_0_r.
    set (BS := stream_size mats mode nm (S m)) in *.
    assert (0 < BS) as Hpos by (destruct BS; lia).
    unfold cb, row_at. simpl (0 + _).
    rewrite Hbuf by (apply Nat.mod_upper_bound; lia).
    rewrite (stream_kron_cons tt mats mode nm n m) by assumption.
    rewrite kron2_get
      by (rewrite mat_row_length, (stream_kron_length tt mats mode nm n (nm - S m)) by lia;
          fold BS; lia).
    rewrite (stream_kron_length tt mats mode nm n (nm - S m)) by lia. fold BS.
    rewrite mat_row_get by (apply Nat.Div0.div_lt_upper_bound; lia).
    fold row. unfold row_at. ring.
Qed.

(** The step at the first mode adds [v] times the whole Kronecker product
    to the output row. *)
Lemma stream_kron_step_first (tt : sptensor_t) (mats : list matrix_t)
    (mode nm outrow n k : nat) (th : stream_thd) :
  let first_mode := if Nat.eqb mode 0 then 1 else 0 in
  1 < nm -> first_mode < nm ->
  stream_kron_inv tt mats mode nm n (S first_mode) th ->
  outrow + stream_size mats mode nm 0 <= length (tenout (thd_mem th)) ->
  let th' := stream_kron_step tt mats mode first_mode outrow n first_mode th in
  thd_buffers th' = thd_buffers th
  /\ mem_lengths (thd_mem th') = mem_lengths (thd_mem th)
  /\ tenout (thd_mem th') !!! k
     = Qcplus (tenout (thd_mem th) !!! k)
         (if Nat.leb outrow k && Nat.ltb k (outrow + stream_size mats mode nm 0)
          then Qcmult (tt_vals tt !!! n) (stream_kron tt mats mode nm n 0 !!! (k - outrow))
          else 0%Qc).
Proof.
  intros first_mode Hnm Hfm (Hok & Hcurr & Hbs & Hbuf) Hlen th'. subst th'.
  assert (first_mode <> mode) as Hne.
  { subst first_mode. destruct (Nat.eqb_spec mode 0); lia. }
  pose proof (first_mode_size mats mode nm Hnm) as Hsz0.
  pose proof (first_mode_kron tt mats mode nm n Hnm) as Hk0.
  cbv zeta in Hsz0, Hk0. fold first_mode in Hsz0, Hk0.
  unfold stream_kron_step.
  destruct (Nat.eqb_spec first_mode mode) as [|_]; [contradiction|].
  rewrite Nat.eqb_refl.
  cbn [negb thd_mem thd_buffers thd_curr thd_buff_size].
  unfold p_splatt_set_lock, p_splatt_unset_lock.
  cbn [log_lock set_tenout tenout scratch0 scratch2].
  split; [reflexivity|].
  set (row := row_at (mat_vals (mats !!! first_mode))
                ((tt_ind tt !!! first_mode) !!! n * mat_J (mats !!! first_mode))).
  set (cb := row_at (thd_buffers th !!! thd_curr th) 0).
  set (BS := stream_size mats mode nm (S first_mode)) in *.
  assert (stream_size mats mode nm 0 = BS * mat_J (mats !!! first_mode)) as Hsz.
  { rewrite <- Hsz0. apply stream_size_cons; assumption. }
  assert (outrow + mat_J (mats !!! first_mode) * thd_buff_size th
          <= length (tenout (thd_mem th))) as Hb by (rewrite Hbs; lia).
  destruct (p_twovec_outer_prod_accum_get row (mat_J (mats !!! first_mode)) cb
              (thd_buff_size th) outrow (tenout (thd_mem th)) k Hb) as [Hl Hg].
  split.
  - unfold mem_lengths. cbn [log_lock set_tenout tenout scratch0 scratch2].
    rewrite Hl. reflexivity.
  - rewrite Hg. clear Hg. f_equal. rewrite Hbs, Hsz.
    replace (BS * mat_J (mats !!! first_mode)) with (mat_J (mats !!! first_mode) * BS) by lia.
    destruct (Nat.leb outrow k && Nat.ltb k (outrow + mat_J (mats !!! first_mode) * BS))
      eqn:E; [|reflexivity].
    apply andb_true_iff in E. destruct E as [E1 E2].
    apply Nat.leb_le in E1. apply Nat.ltb_lt in E2.
    assert (0 < BS) as Hpos by (destruct BS; lia).
    unfold cb, row_at. simpl (0 + _).
    rewrite Hbuf by (apply Nat.mod_upper_bound; lia).
    rewrite <- Hk0.
    rewrite (stream_kron_cons tt mats mode nm n first_mode) by assumption.
    rewrite kron2_get
      by (rewrite mat_row_length,
            (stream_kron_length tt mats mode nm n (nm - S first_mode)) by lia;
          fold BS; lia).
    rewrite (stream_kron_length tt mats mode nm n (nm - S first_mode)) by lia. fold BS.
    rewrite mat_row_get by (apply Nat.Div0.div_lt_upper_bound; lia).
    fold row. unfold row_at. ring.
Qed.

(** The Kronecker loop of one nonzero, from any index above the first
    mode down to 0. *)
Lemma stream_kron_loop (tt : sptensor_t) (mats : list matrix_t)
    (mode nm outrow n k : nat) :
  let first_mode := if Nat.eqb mode 0 then 1 else 0 in
  1 < nm ->
  forall m th,
    first_mode < m -> m <= nm ->
    stream_kron_inv tt mats mode nm n m th ->
    outrow + stream_size mats mode nm 0 <= length (tenout (thd_mem th)) ->
    let th' := for_down m 0 (stream_kron_step tt mats mode first_mode outrow n) th in
    stream_buffers_ok mats mode nm (thd_buffers th')
    /\ mem_lengths (thd_mem th') = mem_lengths (thd_mem th)
    /\ tenout (thd_mem th') !!! k
       = Qcplus (tenout (thd_mem th) !!! k)
           (if Nat.leb outrow k && Nat.ltb k (outrow + stream_size mats mode nm 0)
            then Qcmult (tt_vals tt !!! n) (stream_kron tt mats mode nm n 0 !!! (k - outrow))
            else 0%Qc).
Proof.
  intros first_mode Hnm. induction m as [|m IH]; intros th Hfm Hm Hinv Hlen; [lia|].
  cbv zeta. rewrite for_down_high by lia.
  destruct (decide (m = mode)) as [->|Hne].
  - rewrite stream_kron_step_skip.
    assert (first_mode <> mode) as Hfne.
    { subst first_mode. destruct (Nat.eqb_spec mode 0); lia. }
    apply IH; [lia | lia | | exact Hlen].
    destruct Hinv as (Hok & Hcurr & Hbs & Hbuf).
    unfold stream_kron_inv.
    rewrite (stream_size_skip mats nm mode), (stream_kron_skip tt mats nm n mode) by lia.
    repeat split; try assumption; apply Hok.
  - destruct (decide (m = first_mode)) as [->|Hnf].
    + fold first_mode.
      destruct (stream_kron_step_first tt mats mode nm outrow n k th Hnm ltac:(fold first_mode; lia)
                  Hinv Hlen) as (Hb & Hl & Hg).
      fold first_mode in Hb, Hl, Hg.
      pose proof (stream_kron_loop_done tt mats mode outrow n
                    (stream_kron_step tt mats mode first_mode outrow n first_mode th)) as Hd.
      cbv zeta in Hd. fold first_mode in Hd. rewrite Hd.
      split; [rewrite Hb; apply Hinv|]. split; [exact Hl | exact Hg].
    + destruct (stream_kron_step_inv tt mats mode nm first_mode outrow n m th
                  ltac:(lia) Hne Hnf Hinv) as [Hinv' Hmem].
      destruct (IH _ ltac:(lia) ltac:(lia) Hinv' ltac:(rewrite Hmem; exact Hlen))
        as (Hok & Hl & Hg).
      rewrite Hmem in Hl, Hg. split; [exact Hok|]. split; [exact Hl | exact Hg].
Qed.

Lemma block_row_eqb (o i w c : nat) :
  c < w -> Nat.leb (o * w) (i * w + c) && Nat.ltb (i * w + c) (o * w + w) = Nat.eqb o i.
Proof.
  intros Hc.
  destruct (Nat.eqb_spec o i) as [->|Hne].
  - apply andb_true_iff. split; [apply Nat.leb_le | apply Nat.ltb_lt]; lia.
  - apply andb_false_iff.
    destruct (Nat.leb_spec (o * w) (i * w + c)); [|left; reflexivity].
    right. apply Nat.ltb_ge. nia.
Qed.

Lemma block_row_out (o d w k : nat) :
  o < d -> d * w <= k -> Nat.leb (o * w) k && Nat.ltb k (o * w + w) = false.
Proof.
  intros Ho Hk. apply andb_false_iff. right. apply Nat.ltb_ge. nia.
Qed.

Lemma map_lookup {X Y : Type} `{!Inhabited X} `{!Inhabited Y} (f : X -> Y)
    (l : list X) (i : nat) :
  i < length l -> map f l !!! i = f (l !!! i).
Proof.
  revert i. induction l as [|x l IH]; intros [|i] H; simpl in *; try lia.
  - reflexivity.
  - apply IH. lia.
Qed.

Lemma other_modes_lt (lo nm mode p : nat) : In p (other_modes lo nm mode) -> p < nm /\ p <> mode.
Proof.
  unfold other_modes. intros H. apply filter_In in H. destruct H as [H1 H2].
  apply in_seq in H1. apply negb_true_iff in H2. apply Nat.eqb_neq in H2. lia.
Qed.

Lemma stream_size_ncols (mats : list matrix_t) (mode nm m : nat) :
  stream_size mats mode nm m = ttmc_ncols mats (other_modes m nm mode).
Proof.
  unfold stream_size, ttmc_ncols.
  induction (other_modes m nm mode) as [|p l IH]; simpl; [reflexivity|].
  rewrite IH. lia.
Qed.

Lemma p_clear_outsize_eq (mats : list matrix_t) (nm mode : nat) (dms : list nat) :
  p_clear_outsize mats nm mode dms = dms !!! mode * stream_size mats mode nm 0.
Proof.
  unfold p_clear_outsize.
  assert (forall m, m <= nm ->
    for_range 0 m
      (fun m0 outsize => if Nat.eqb m0 mode then outsize else outsize * mat_J (mats !!! m0))
      (dms !!! mode) * stream_size mats mode nm m
    = dms !!! mode * stream_size mats mode nm 0) as H.
  { induction m as [|m IH]; intros Hm.
    - rewrite for_range_nil by lia. reflexivity.
    - rewrite for_range_S by lia. rewrite <- IH by lia.
      destruct (Nat.eqb_spec m mode) as [->|Hne].
      + rewrite (stream_size_skip mats nm mode) by lia. reflexivity.
      + rewrite (stream_size_cons mats mode nm m) by (lia || assumption). lia. }
  specialize (H nm ltac:(lia)). rewrite stream_size_top in H. lia.
Qed.

(** The last mode: its successor begins an empty product. *)
Lemma last_mode_facts (tt : sptensor_t) (mats : list matrix_t) (mode nm n : nat) :
  3 <= nm -> mode < nm ->
  let first_mode := if Nat.eqb mode 0 then 1 else 0 in
  let last_mode := if Nat.eqb mode (nm - 1) then nm - 2 else nm - 1 in
  last_mode < nm /\ last_mode <> mode /\ first_mode < last_mode
  /\ stream_size mats mode nm (S last_mode) = 1
  /\ stream_kron tt mats mode nm n (S last_mode) = [1%Qc].
Proof.
  intros Hnm Hmode first_mode last_mode. subst first_mode last_mode.
  destruct (Nat.eqb_spec mode (nm - 1)) as [He|Hne];
    destruct (Nat.eqb_spec mode 0) as [H0|H0]; try lia.
  - replace (S (nm - 2)) with mode by lia.
    repeat split; try lia.
    + rewrite (stream_size_skip mats nm mode) by lia.
      replace (S mode) with nm by lia. apply stream_size_top.
    + rewrite (stream_kron_skip tt mats nm n mode) by lia.
      replace (S mode) with nm by lia.
      unfold stream_kron. rewrite other_modes_nil. reflexivity.
  - replace (S (nm - 1)) with nm by lia. repeat split; try lia.
    + apply stream_size_top.
    + unfold stream_kron. rewrite other_modes_nil. reflexivity.
  - replace (S (nm - 1)) with nm by lia. repeat split; try lia.
    + apply stream_size_top.
    + unfold stream_kron. rewrite other_modes_nil. reflexivity.
Qed.

(** One nonzero of [ttmc_stream]: [v] times the Kronecker product of its
    rows is added to the output row of its mode-[mode] index. *)
Lemma stream_nnz_step_get (tt : sptensor_t) (mats : list matrix_t)
    (mode nm n k : nat) (th : stream_thd) :
  let first_mode := if Nat.eqb mode 0 then 1 else 0 in
  let last_mode := if Nat.eqb mode (nm - 1) then nm - 2 else nm - 1 in
  let W := stream_size mats mode nm 0 in
  let outrow := (tt_ind tt !!! mode) !!! n * W in
  3 <= nm -> mode < nm ->
  stream_buffers_ok mats mode nm (thd_buffers th) ->
  outrow + W <= length (tenout (thd_mem th)) ->
  let th' := stream_nnz_step tt mats mode W first_mode last_mode n th in
  stream_buffers_ok mats mode nm (thd_buffers th')
  /\ mem_lengths (thd_mem th') = mem_lengths (thd_mem th)
  /\ tenout (thd_mem th') !!! k
     = Qcplus (tenout (thd_mem th) !!! k)
         (if Nat.leb outrow k && Nat.ltb k (outrow + W)
          then Qcmult (tt_vals tt !!! n) (stream_kron tt mats mode nm n 0 !!! (k - outrow))
          else 0%Qc).
Proof.
  intros first_mode last_mode W outrow Hnm Hmode Hok Hlen th'. subst th'.
  destruct (last_mode_facts tt mats mode nm n Hnm Hmode)
    as (Hl & Hlne & Hfl & Hs1 & Hk1).
  fold first_mode last_mode in Hl, Hlne, Hfl, Hs1, Hk1.
  unfold stream_nnz_step. fold outrow.
  set (nfl := mat_J (mats !!! last_mode)).
  set (last_row := row_at (mat_vals (mats !!! last_mode))
                     ((tt_ind tt !!! last_mode) !!! n * nfl)).
  set (v := tt_vals tt !!! n).
  set (buf := for_range 0 nfl _ (thd_buffers th !!! last_mode)).
  assert (stream_size mats mode nm last_mode = nfl) as Hsl.
  { rewrite (stream_size_cons mats mode nm last_mode) by assumption.
    rewrite Hs1. subst nfl. lia. }
  destruct Hok as [Hlb Hsz].
  assert (0 + nfl <= length (thd_buffers th !!! last_mode)) as Hb.
  { specialize (Hsz last_mode Hl Hlne). rewrite Hsl in Hsz. lia. }
  pose proof (fun j => set_block_get nfl 0 (fun f => Qcmult v (last_row f))
                         (thd_buffers th !!! last_mode) j Hb) as Hbuf.
  cbv zeta in Hbuf. change (for_range 0 nfl _ (thd_buffers th !!! last_mode)) with buf in Hbuf.
  pose proof (stream_kron_loop tt mats mode nm outrow n k ltac:(lia) last_mode
                (StreamThd (thd_mem th) (<[last_mode := buf]> (thd_buffers th)) last_mode nfl))
    as Hloop.
  cbv zeta in Hloop. fold first_mode in Hloop. fold W in Hloop.
  apply Hloop; [exact Hfl | lia | | exact Hlen].
  unfold stream_kron_inv. cbn [thd_mem thd_buffers thd_curr thd_buff_size].
  split; [split|split; [exact Hl|split; [symmetry; exact Hsl|]]].
  - rewrite length_insert. exact Hlb.
  - intros p Hp Hpm. destruct (decide (p = last_mode)) as [->|Hp'].
    + rewrite list_lookup_total_insert_eq by lia.
      rewrite (proj1 (Hbuf 0)). apply Hsz; assumption.
    + rewrite list_lookup_total_insert_ne by congruence. apply Hsz; assumption.
  - intros j Hj. rewrite Hsl in Hj.
    rewrite list_lookup_total_insert_eq by lia.
    rewrite (proj2 (Hbuf j)). simpl (Nat.leb 0 j). simpl (0 + _).
    destruct (Nat.ltb_spec j nfl); [|lia]. simpl andb. cbv iota.
    rewrite Nat.sub_0_r.
    rewrite (stream_kron_cons tt mats mode nm n last_mode) by assumption.
    rewrite Hk1.
    rewrite kron2_get by (rewrite mat_row_length; simpl; fold nfl; lia).
    simpl (length [1%Qc]). rewrite Nat.div_1_r, Nat.mod_1_r.
    rewrite mat_row_get by (fold nfl; lia).
    fold nfl. fold last_row. subst v.
    change ([1%Qc] !!! 0) with 1%Qc. ring.
Qed.

(** [ttmc_stream], position by position: the cleared buffer plus the
    contributions of the nonzeros. *)
Lemma ttmc_stream_get (tt : sptensor_t) (mats : list matrix_t) (mode : nat)
    (st : ttmc_mem) (k : nat) :
  let nm := tt_nmodes tt in
  let outsize := tt_dims tt !!! mode * stream_size mats mode nm 0 in
  3 <= nm -> mode < nm ->
  tt_mode_ok tt mode = true ->
  outsize <= length (tenout st) ->
  tenout (ttmc_stream tt mats mode st) !!! k
  = Qcplus (if Nat.ltb k outsize then 0%Qc else tenout st !!! k)
      (qsum (map (stream_contrib tt mats mode k) (seq 0 (tt_nnz tt)))).
Proof.
  intros nm outsize Hnm Hmode Hok Hlen. unfold ttmc_stream. fold nm.
  destruct (stream_setup_spec nm mats mode) as (ncols & buffers & -> & Hbuf).
  set (W := stream_size mats mode nm 0) in *.
  set (st2 := p_clear_tenout mats nm mode (tt_dims tt) (p_init_locks st)).
  assert (length (tenout st2) = length (tenout st)
          /\ tenout st2 !!! k = if Nat.ltb k outsize then 0%Qc else tenout st !!! k)
    as [Hl2 Hg2].
  { subst st2. unfold p_clear_tenout. cbn [set_tenout tenout].
    rewrite p_clear_outsize_eq. fold W. fold outsize.
    rewrite par_memset_zero_length, par_memset_zero_get, p_init_locks_tenout
      by (rewrite p_init_locks_tenout; exact Hlen).
    split; reflexivity. }
  rewrite <- Hg2.
  set (Inv := fun th : stream_thd =>
                stream_buffers_ok mats mode nm (thd_buffers th)
                /\ length (tenout (thd_mem th)) = length (tenout st)).
  apply (for_range0_sum (fun th => tenout (thd_mem th) !!! k) Inv).
  - intros n th Hn [Hb Hl].
    assert ((tt_ind tt !!! mode) !!! n < tt_dims tt !!! mode) as Hin.
    { unfold tt_mode_ok in Hok. rewrite forallb_forall in Hok.
      apply Nat.ltb_lt. apply Hok. apply in_seq. lia. }
    destruct (stream_nnz_step_get tt mats mode nm n k th Hnm Hmode Hb) as (Hb' & Hl' & Hg').
    { fold W. rewrite Hl.
      apply (row_block_bound _ (tt_dims tt !!! mode)); [exact Hin | exact Hlen]. }
    fold W in Hb', Hl', Hg'.
    split; [split; [exact Hb'|]|].
    + unfold mem_lengths in Hl'. injection Hl' as Hl' _ _. rewrite Hl'. exact Hl.
    + rewrite Hg'. reflexivity.
  - split; [exact Hbuf | exact Hl2].
Qed.

Lemma tt_entries_coord (tt : sptensor_t) (n p : nat) :
  p < tt_nmodes tt ->
  map (fun m => (tt_ind tt !!! m) !!! n) (seq 0 (tt_nmodes tt)) !!! p
  = (tt_ind tt !!! p) !!! n.
Proof.
  intros Hp. rewrite map_lookup by (rewrite length_seq; exact Hp).
  rewrite lookup_total_seq_lt by exact Hp. reflexivity.
Qed.

(** The contributions, read at entry [(i, c)], are the terms of
    [ttmc_ref] over the nonzeros of the tensor. *)
Lemma stream_contrib_ref (tt : sptensor_t) (mats : list matrix_t) (mode i c : nat) :
  let nm := tt_nmodes tt in
  let W := stream_size mats mode nm 0 in
  mode < nm -> c < W ->
  qsum (map (stream_contrib tt mats mode (i * W + c)) (seq 0 (tt_nnz tt)))
  = ttmc_ref (tt_entries tt) mats mode (other_modes 0 nm mode) i c.
Proof.
  intros nm W Hmode Hc. unfold ttmc_ref, tt_entries. rewrite qsum_map_map.
  apply qsum_map_ext. intros n _. cbn [fst snd].
  unfold stream_contrib. fold nm. fold W.
  rewrite block_row_eqb by exact Hc.
  rewrite tt_entries_coord by exact Hmode.
  destruct (Nat.eqb_spec ((tt_ind tt !!! mode) !!! n) i) as [->|Hne]; [|reflexivity].
  replace (i * W + c - i * W) with c by lia.
  unfold entry_kron. cbn [fst snd].
  assert (map (fun p => mat_row (mats !!! p)
                 (map (fun m => (tt_ind tt !!! m) !!! n) (seq 0 nm) !!! p))
            (other_modes 0 nm mode)
          = map (fun p => mat_row (mats !!! p) ((tt_ind tt !!! p) !!! n))
              (other_modes 0 nm mode)) as ->.
  { apply map_ext_in. intros p Hp. apply other_modes_lt in Hp.
    rewrite tt_entries_coord by lia. reflexivity. }
  fold (stream_kron tt mats mode nm n 0).
  rewrite map_get; [reflexivity|].
  rewrite (stream_kron_length tt mats mode nm n nm) by lia. exact Hc.
Qed.

(** The coordinate fallback computes the TTMc output, the Kronecker
    factors in ascending mode order. *)
Lemma ttmc_stream_ref (tt : sptensor_t) (mats : list matrix_t) (mode : nat)
    (st : ttmc_mem) (i c : nat) :
  let nm := tt_nmodes tt in
  let W := ttmc_ncols mats (other_modes 0 nm mode) in
  3 <= nm -> mode < nm ->
  tt_mode_ok tt mode = true ->
  tt_dims tt !!! mode * W <= length (tenout st) ->
  i < tt_dims tt !!! mode -> c < W ->
  tenout (ttmc_stream tt mats mode st) !!! (i * W + c)
  = ttmc_ref (tt_entries tt) mats mode (other_modes 0 nm mode) i c.
Proof.
  intros nm W Hnm Hmode Hok Hlen Hi Hc. subst W nm.
  rewrite <- stream_size_ncols in *.
  rewrite ttmc_stream_get by assumption.
  destruct (Nat.ltb_spec (i * stream_size mats mode (tt_nmodes tt) 0 + c)
              (tt_dims tt !!! mode * stream_size mats mode (tt_nmodes tt) 0))
    as [_|Hge]; [|nia].
  rewrite (stream_contrib_ref tt mats mode i c) by assumption. ring.
Qed.

(** The coordinate fallback leaves the entries past the output extent as
    they were. *)
Lemma ttmc_stream_frame (tt : sptensor_t) (mats : list matrix_t) (mode : nat)
    (st : ttmc_mem) (k : nat) :
  let nm := tt_nmodes tt in
  let W := ttmc_ncols mats (other_modes 0 nm mode) in
  3 <= nm -> mode < nm ->
  tt_mode_ok tt mode = true ->
  tt_dims tt !!! mode * W <= length (tenout st) ->
  tt_dims tt !!! mode * W <= k ->
  tenout (ttmc_stream tt mats mode st) !!! k = tenout st !!! k.
Proof.
  intros nm W Hnm Hmode Hok Hlen Hk. subst W nm.
  rewrite <- stream_size_ncols in *.
  rewrite ttmc_stream_get by assumption.
  destruct (Nat.ltb_spec k (tt_dims tt !!! mode * stream_size mats mode (tt_nmodes tt) 0))
    as [Hlt|_]; [lia|].
  rewrite (qsum_map_ext _ (fun _ => 0%Qc)), qsum_map_zero; [ring|].
  intros n Hn. apply in_seq in Hn. unfold stream_contrib.
  rewrite (block_row_out _ (tt_dims tt !!! mode)); [reflexivity| |exact Hk].
  unfold tt_mode_ok in Hok. rewrite forallb_forall in Hok.
  apply Nat.ltb_lt. apply Hok. apply in_seq. lia.
Qed.

(** ** [ttmc_csf] on a 3-mode representation *)

Lemma perm3_cases (l : list nat) :
  Permutation l [0; 1; 2] ->
  l = [0; 1; 2] \/ l = [0; 2; 1] \/ l = [1; 0; 2]
  \/ l = [1; 2; 0] \/ l = [2; 0; 1] \/ l = [2; 1; 0].
Proof.
  intros H.
  pose proof (Permutation_length H) as Hlen.
  destruct l as [|a [|b [|c [|d l]]]]; simpl in Hlen; try lia.
  assert (forall x, In x [a; b; c] -> x = 0 \/ x = 1 \/ x = 2) as Hin.
  { intros x Hx. apply (Permutation_in _ H) in Hx. simpl in Hx. intuition lia. }
  assert (forall x, In x [0; 1; 2] -> x = a \/ x = b \/ x = c) as Hrev.
  { intros x Hx. apply (Permutation_in _ (Permutation_sym H)) in Hx.
    simpl in Hx. intuition lia. }
  pose proof (Hrev 0 ltac:(simpl; auto)) as H0.
  pose proof (Hrev 1 ltac:(simpl; auto)) as H1.
  pose proof (Hrev 2 ltac:(simpl; auto)) as H2.
  destruct (Hin a ltac:(simpl; auto)) as [-> | [-> | ->]];
    destruct (Hin b ltac:(simpl; auto)) as [-> | [-> | ->]];
    destruct (Hin c ltac:(simpl; auto)) as [-> | [-> | ->]];
    try (exfalso; lia); auto 10.
Qed.

Lemma ttmc_cleared_get (tensors : list splatt_csf) (mats : list matrix_t) (mode : nat)
    (st : ttmc_mem) (k : nat) :
  ttmc_outsize (tensors !!! 0) mats mode <= length (tenout st) ->
  mem_lengths (ttmc_cleared tensors mats mode st) = mem_lengths st
  /\ tenout (ttmc_cleared tensors mats mode st) !!! k
     = if Nat.ltb k (ttmc_outsize (tensors !!! 0) mats mode) then 0%Qc
       else tenout st !!! k.
Proof.
  intros Hlen. unfold ttmc_cleared. split.
  - unfold mem_lengths, p_init_locks, p_clear_tenout.
    destruct (locks_initialized _); cbn [set_tenout tenout scratch0 scratch2];
      rewrite par_memset_zero_length; reflexivity.
  - rewrite p_init_locks_tenout. unfold p_clear_tenout. cbn [set_tenout tenout].
    apply par_memset_zero_get. exact Hlen.
Qed.

(** With three modes, a mode at depth 1 goes to the internal kernel and a
    mode at depth 2 to the leaf kernel of the first representation, under
    [CSF_ONEMODE]. *)
Lemma ttmc_csf_onemode_dispatch (tensors : list splatt_csf) (mats : list matrix_t)
    (mode : nat) (opts : splatt_opts) (st : ttmc_mem) :
  let csf := tensors !!! 0 in
  nmodes csf = 3 ->
  Permutation (dim_perm csf) [0; 1; 2] ->
  which_tile csf = SPLATT_NOTILE ->
  opt_csf_alloc opts = SPLATT_CSF_ONEMODE ->
  (mode = dim_perm csf !!! 1 ->
     csf_mode_depth mode (dim_perm csf) 3 = 1
     /\ ttmc_csf tensors mats mode opts st
        = Returns (p_csf_ttmc_intl3 csf 0 mats (ttmc_cleared tensors mats mode st)))
  /\ (mode = dim_perm csf !!! 2 ->
        csf_mode_depth mode (dim_perm csf) 3 = 2
        /\ ttmc_csf tensors mats mode opts st
           = Returns (p_csf_ttmc_leaf3 csf 0 mats (ttmc_cleared tensors mats mode st))).
Proof.
  intros csf Hnm Hperm Htile Hopt.
  unfold ttmc_csf, ttmc_cleared. fold csf. rewrite Hopt, Hnm.
  unfold p_intl_decide, p_leaf_decide, p_root_decide. rewrite Htile.
  destruct (perm3_cases _ Hperm) as [H|[H|[H|[H|[H|H]]]]]; rewrite H;
    split; intros ->; split; reflexivity.
Qed.

Lemma kron_two_get (A B : matrix_t) (a b c : nat) :
  c < mat_J A * mat_J B ->
  kron [mat_row A a; mat_row B b] !!! c
  = Qcmult (row_at (mat_vals A) (a * mat_J A) (c / mat_J B))
      (row_at (mat_vals B) (b * mat_J B) (c mod mat_J B)).
Proof.
  intros Hc. assert (0 < mat_J B) as Hpos by (destruct (mat_J B); lia).
  cbn [kron].
  assert (length (kron2 (mat_row B b) [1%Qc]) = mat_J B) as Hl.
  { rewrite kron2_length, mat_row_length. simpl. lia. }
  rewrite kron2_get by (rewrite Hl, mat_row_length; exact Hc).
  rewrite Hl.
  rewrite mat_row_get by (apply Nat.Div0.div_lt_upper_bound; lia).
  rewrite kron2_get
    by (rewrite mat_row_length; simpl; pose proof (Nat.mod_upper_bound c (mat_J B)); lia).
  simpl (length [1%Qc]). rewrite Nat.div_1_r, Nat.mod_1_r.
  rewrite mat_row_get by (apply Nat.mod_upper_bound; lia).
  change ([1%Qc] !!! 0) with 1%Qc. ring.
Qed.

Lemma kron_two_length (A B : matrix_t) (a b : nat) :
  length (kron [mat_row A a; mat_row B b]) = mat_J A * mat_J B.
Proof.
  cbn [kron]. rewrite !kron2_length, !mat_row_length. simpl. lia.
Qed.

(** Read at entry [(i, c)] of the slab, a path contributes its scaled
    Kronecker product if its output id is [i], and nothing otherwise. *)
Lemma path_contrib_row (A B : matrix_t) (o : nat) (v : val_t) (idA idB i c : nat) :
  c < mat_J A * mat_J B ->
  path_contrib A B o v idA idB (i * (mat_J A * mat_J B) + c)
  = if Nat.eqb o i
    then map (Qcmult v) (kron [mat_row A idA; mat_row B idB]) !!! c
    else 0%Qc.
Proof.
  intros Hc. unfold path_contrib.
  rewrite <- !Nat.mul_assoc. rewrite block_row_eqb by exact Hc.
  destruct (Nat.eqb_spec o i) as [->|Hne]; [|reflexivity].
  replace (i * (mat_J A * mat_J B) + c - i * (mat_J A * mat_J B)) with c by lia.
  rewrite map_get by (rewrite kron_two_length; exact Hc).
  rewrite kron_two_get by exact Hc. reflexivity.
Qed.

(** The widths of the slab of a 3-mode representation. *)
Lemma csf3_widths (csf : splatt_csf) (mats : list matrix_t) (mode : nat) :
  nmodes csf = 3 ->
  Permutation (dim_perm csf) [0; 1; 2] ->
  (mode = dim_perm csf !!! 1 ->
     ttmc_ncols mats (kron_order_csf csf mode)
     = mat_J (mats !!! (dim_perm csf !!! 0)) * mat_J (mats !!! (dim_perm csf !!! 2)))
  /\ (mode = dim_perm csf !!! 2 ->
        ttmc_ncols mats (kron_order_csf csf mode)
        = mat_J (mats !!! (dim_perm csf !!! 0)) * mat_J (mats !!! (dim_perm csf !!! 1)))
  /\ (In mode (dim_perm csf) ->
        ttmc_outsize csf mats mode
        = dims csf !!! mode * ttmc_ncols mats (kron_order_csf csf mode)).
Proof.
  intros Hnm Hperm. unfold ttmc_outsize. rewrite p_clear_outsize_eq.
  unfold kron_order_csf, ttmc_ncols, stream_size, other_modes. rewrite Hnm.
  destruct (perm3_cases _ Hperm) as [H|[H|[H|[H|[H|H]]]]]; rewrite H;
    (split; [intros ->; simpl; lia|]); (split; [intros ->; simpl; lia|]);
    simpl; intros [<-|[<-|[<-|[]]]]; simpl; lia.
Qed.

Lemma mem3_ok_unpack (csf : splatt_csf) (mats : list matrix_t) (mode : nat)
    (st : ttmc_mem) :
  mem3_ok csf mats mode st = true ->
  ttmc_outsize csf mats mode <= length (tenout st)
  /\ mat_J (mats !!! (dim_perm csf !!! 2)) <= length (scratch0 st)
  /\ mat_J (mats !!! (dim_perm csf !!! 0)) * mat_J (mats !!! (dim_perm csf !!! 1))
     <= length (scratch2 st).
Proof.
  unfold mem3_ok. intros H.
  apply andb_true_iff in H. destruct H as [H H3].
  apply andb_true_iff in H. destruct H as [H1 H2].
  apply Nat.leb_le in H1, H2, H3. auto.
Qed.

(** [ttmc_csf] under [CSF_ONEMODE] on an untiled 3-mode representation, for
    a mode below the root, position by position: the cleared buffer plus
    the contributions of the stored nonzeros. *)
Lemma ttmc_csf_onemode_get (tensors : list splatt_csf) (mats : list matrix_t)
    (mode : nat) (opts : splatt_opts) (st : ttmc_mem) :
  let csf := tensors !!! 0 in
  nmodes csf = 3 ->
  Permutation (dim_perm csf) [0; 1; 2] ->
  which_tile csf = SPLATT_NOTILE ->
  opt_csf_alloc opts = SPLATT_CSF_ONEMODE ->
  mode = dim_perm csf !!! 1 \/ mode = dim_perm csf !!! 2 ->
  tile3_ok csf (pt csf !!! 0) = true ->
  mem3_ok csf mats mode st = true ->
  exists st',
    ttmc_csf tensors mats mode opts st = Returns st'
    /\ forall k,
         tenout st' !!! k
         = Qcplus (if Nat.ltb k (ttmc_outsize csf mats mode) then 0%Qc
                   else tenout st !!! k)
             (qsum (map (csf3_contrib csf mats mode k) (tile_paths (pt csf !!! 0)))).
Proof.
  intros csf Hnm Hperm Htile Hopt Hmode Hok Hmem.
  destruct (mem3_ok_unpack csf mats mode st Hmem) as (Hout & Hs0 & Hs2).
  destruct (ttmc_csf_onemode_dispatch tensors mats mode opts st Hnm Hperm Htile Hopt)
    as [Hintl Hleaf]. fold csf in Hintl, Hleaf.
  destruct (csf3_widths csf mats mode Hnm Hperm) as (Hw1 & Hw2 & Hos).
  assert (In mode (dim_perm csf)) as Hin.
  { destruct (perm3_cases _ Hperm) as [H|[H|[H|[H|[H|H]]]]]; rewrite H in *;
      destruct Hmode as [->| ->]; simpl; auto. }
  specialize (Hos Hin).
  destruct Hmode as [Hm|Hm].
  - destruct (Hintl Hm) as [Hd ->]. specialize (Hw1 Hm).
    eexists. split; [reflexivity|]. intros k.
    destruct (ttmc_cleared_get tensors mats mode st k Hout) as [Hlen Hclr].
    fold csf in Hclr.
    unfold mem_lengths in Hlen. injection Hlen as Hlt Hl0 Hl2.
    destruct (p_csf_ttmc_intl3_get csf mats (ttmc_cleared tensors mats mode st) k Hok)
      as [_ Hg].
    + rewrite Hlt, <- Hw1, <- Hm, <- Hos. exact Hout.
    + rewrite Hl0. exact Hs0.
    + rewrite Hg, Hclr. f_equal. apply qsum_map_ext. intros p _.
      unfold csf3_contrib. rewrite Hnm, Hd. reflexivity.
  - destruct (Hleaf Hm) as [Hd ->]. specialize (Hw2 Hm).
    eexists. split; [reflexivity|]. intros k.
    destruct (ttmc_cleared_get tensors mats mode st k Hout) as [Hlen Hclr].
    fold csf in Hclr.
    unfold mem_lengths in Hlen. injection Hlen as Hlt Hl0 Hl2.
    destruct (p_csf_ttmc_leaf3_get csf mats (ttmc_cleared tensors mats mode st) k Hok)
      as [_ Hg].
    + rewrite Hlt, <- Hw2, <- Hm, <- Hos. exact Hout.
    + rewrite Hl2. exact Hs2.
    + rewrite Hg, Hclr. f_equal. apply qsum_map_ext. intros p _.
      unfold csf3_contrib. rewrite Hnm, Hd. reflexivity.
Qed.

(** Read at entry [(i, c)], the contributions of the stored nonzeros are
    the terms of [ttmc_ref] over the nonzeros the tile stores, the
    Kronecker factors in the order of [dim_perm] without [mode]. *)
Lemma csf3_contrib_ref (csf : splatt_csf) (mats : list matrix_t) (mode i c : nat) :
  let W := ttmc_ncols mats (kron_order_csf csf mode) in
  nmodes csf = 3 ->
  Permutation (dim_perm csf) [0; 1; 2] ->
  mode = dim_perm csf !!! 1 \/ mode = dim_perm csf !!! 2 ->
  c < W ->
  qsum (map (csf3_contrib csf mats mode (i * W + c)) (tile_paths (pt csf !!! 0)))
  = ttmc_ref (csf_tile_entries csf 0) mats mode (kron_order_csf csf mode) i c.
Proof.
  intros W Hnm Hperm Hmode Hc. subst W.
  destruct (csf3_widths csf mats mode Hnm Hperm) as (Hw1 & Hw2 & _).
  unfold ttmc_ref, csf_tile_entries. rewrite qsum_map_map.
  apply qsum_map_ext. intros [[[a b] d] jj] _.
  unfold csf3_contrib, entry_kron. cbn [fst snd path_jj path_id].
  destruct Hmode as [Hm|Hm].
  - specialize (Hw1 Hm). rewrite Hw1 in *. rewrite path_contrib_row by exact Hc.
    clear Hw1 Hw2 Hc. unfold kron_order_csf. rewrite Hnm. revert Hm.
    destruct (perm3_cases _ Hperm) as [H|[H|[H|[H|[H|H]]]]]; rewrite H;
      intros ->; reflexivity.
  - specialize (Hw2 Hm). rewrite Hw2 in *.
    assert (csf_mode_depth mode (dim_perm csf) 3 = 2) as Hd.
    { revert Hm. destruct (perm3_cases _ Hperm) as [H|[H|[H|[H|[H|H]]]]]; rewrite H;
        intros ->; reflexivity. }
    rewrite Hnm, Hd. cbn [Nat.eqb].
    rewrite path_contrib_row by exact Hc.
    clear Hw1 Hw2 Hc Hd. unfold kron_order_csf. rewrite Hnm. revert Hm.
    destruct (perm3_cases _ Hperm) as [H|[H|[H|[H|[H|H]]]]]; rewrite H;
      intros ->; reflexivity.
Qed.

(** [ttmc_csf] under [CSF_ONEMODE], entry by entry, against the
    specification. *)
Lemma ttmc_csf_onemode_ref (tensors : list splatt_csf) (mats : list matrix_t)
    (mode : nat) (opts : splatt_opts) (st : ttmc_mem) :
  let csf := tensors !!! 0 in
  let W := ttmc_ncols mats (kron_order_csf csf mode) in
  nmodes csf = 3 ->
  Permutation (dim_perm csf) [0; 1; 2] ->
  which_tile csf = SPLATT_NOTILE ->
  opt_csf_alloc opts = SPLATT_CSF_ONEMODE ->
  mode = dim_perm csf !!! 1 \/ mode = dim_perm csf !!! 2 ->
  tile3_ok csf (pt csf !!! 0) = true ->
  mem3_ok csf mats mode st = true ->
  exists st',
    ttmc_csf tensors mats mode opts st = Returns st'
    /\ forall i c, i < dims csf !!! mode -> c < W ->
         tenout st' !!! (i * W + c)
         = ttmc_ref (csf_tile_entries csf 0) mats mode (kron_order_csf csf mode) i c.
Proof.
  intros csf W Hnm Hperm Htile Hopt Hmode Hok Hmem.
  destruct (ttmc_csf_onemode_get tensors mats mode opts st Hnm Hperm Htile Hopt Hmode
              Hok Hmem) as (st' & Hret & Hget).
  fold csf in Hget. exists st'. split; [exact Hret|]. intros i c Hi Hc.
  destruct (csf3_widths csf mats mode Hnm Hperm) as (_ & _ & Hos).
  assert (In mode (dim_perm csf)) as Hin.
  { destruct (perm3_cases _ Hperm) as [H|[H|[H|[H|[H|H]]]]]; rewrite H in *;
      destruct Hmode as [->| ->]; simpl; auto. }
  subst W. rewrite Hget, (Hos Hin).
  set (W := ttmc_ncols mats (kron_order_csf csf mode)) in *.
  destruct (Nat.ltb_spec (i * W + c) (dims csf !!! mode * W)) as [_|Hge]; [|nia].
  subst W. rewrite (csf3_contrib_ref csf mats mode i c Hnm Hperm Hmode Hc). ring.
Qed.

(** C1 (as amended).  For an untiled 3-mode CSF and a mode at internal or
    leaf depth, [ttmc_csf] under [CSF_ONEMODE] returns with
    [Y[i, :] = sum over the stored nonzeros with i_m = i of
      x * kron_{p <> m} U^(p)[i_p, :]],
    [Y] row-major with [dims[m]] rows, the Kronecker factors in the order
    of [dim_perm] without [m], root to leaf.  For a coordinate tensor of at
    least three modes [ttmc_stream] computes the same sums over its
    nonzeros, the Kronecker factors in ascending mode order. *)
Theorem ttmc_kernels_compute_kron_sums :
  (forall (tensors : list splatt_csf) (mats : list matrix_t) (mode : nat)
          (opts : splatt_opts) (st : ttmc_mem),
     let csf := tensors !!! 0 in
     let W := ttmc_ncols mats (kron_order_csf csf mode) in
     nmodes csf = 3 ->
     Permutation (dim_perm csf) [0; 1; 2] ->
     which_tile csf = SPLATT_NOTILE ->
     opt_csf_alloc opts = SPLATT_CSF_ONEMODE ->
     mode = dim_perm csf !!! 1 \/ mode = dim_perm csf !!! 2 ->
     tile3_ok csf (pt csf !!! 0) = true ->
     mem3_ok csf mats mode st = true ->
     exists st',
       ttmc_csf tensors mats mode opts st = Returns st'
       /\ forall i c, i < dims csf !!! mode -> c < W ->
            tenout st' !!! (i * W + c)
            = ttmc_ref (csf_tile_entries csf 0) mats mode (kron_order_csf csf mode) i c)
  /\ (forall (tt : sptensor_t) (mats : list matrix_t) (mode : nat) (st : ttmc_mem),
        let nm := tt_nmodes tt in
        let W := ttmc_ncols mats (other_modes 0 nm mode) in
        3 <= nm -> mode < nm ->
        tt_mode_ok tt mode = true ->
        tt_dims tt !!! mode * W <= length (tenout st) ->
        forall i c, i < tt_dims tt !!! mode -> c < W ->
          tenout (ttmc_stream tt mats mode st) !!! (i * W + c)
          = ttmc_ref (tt_entries tt) mats mode (other_modes 0 nm mode) i c).
Proof.
  split.
  - intros tensors mats mode opts st. apply ttmc_csf_onemode_ref.
  - intros tt mats mode st nm W Hnm Hmode Hok Hlen i c Hi Hc.
    apply ttmc_stream_ref; assumption.
Qed.

Lemma ttmc_kernels_compute_kron_sums_witness :
  (exists st',
     ttmc_csf [csf_s1] mats_s1 1 opts_onemode mem_s1 = Returns st'
     /\ forall i c, i < 2 -> c < 4 ->
          tenout st' !!! (i * 4 + c)
          = ttmc_ref (csf_tile_entries csf_s1 0) mats_s1 1 [0; 2] i c)
  /\ (forall i c, i < 2 -> c < 4 ->
        tenout (ttmc_stream coo_s1 mats_s1 0 mem_s1) !!! (i * 4 + c)
        = ttmc_ref (tt_entries coo_s1) mats_s1 0 [1; 2] i c).
Proof.
  split.
  - apply (proj1 ttmc_kernels_compute_kron_sums [csf_s1] mats_s1 1 opts_onemode mem_s1).
    + reflexivity.
    + reflexivity.
    + reflexivity.
    + reflexivity.
    + left. reflexivity.
    + reflexivity.
    + reflexivity.
  - apply (proj2 ttmc_kernels_compute_kron_sums coo_s1 mats_s1 0 mem_s1).
    + simpl. lia.
    + simpl. lia.
    + reflexivity.
    + simpl. lia.
Defined.

(** C1 (as stated) fails on inputs the kernels are not written for.  Asked
    for mode 1 of a tiled representation of the S1 tensor, [ttmc_csf] exits
    and leaves [Y[0,0] = 0] where the sum is 7.  On the 4-mode tensor
    [{(0,2,0,0):5}], mode 1 is served by the 3-mode internal kernel, which
    leaves [Y[2,0] = 0] where the sum is 5. *)
Lemma ttmc_csf_tiled_or_4mode_misses_sum :
  tenout (outcome_mem (ttmc_csf [csf_s1_tiled] mats_s1 1 opts_onemode mem_s1)) !!! 0
  <> ttmc_ref (tt_entries coo_s1) mats_s1 1 (kron_order_csf csf_s1_tiled 1) 0 0
  /\ tenout (outcome_mem (ttmc_csf [csf_4] mats_4 1 opts_onemode mem_4)) !!! (2 * 8 + 0)
     <> ttmc_ref (tt_entries coo_4) mats_4 1 (kron_order_csf csf_4 1) 2 0.
Proof.
  split; intros H; apply (f_equal this) in H; vm_compute in H; discriminate.
Qed.

(** ** What [ttmc_csf] and [ttmc_stream] leave untouched *)

Lemma path_contrib_out (A B : matrix_t) (o : nat) (v : val_t) (idA idB d k : nat) :
  o < d -> d * (mat_J A * mat_J B) <= k -> path_contrib A B o v idA idB k = 0%Qc.
Proof.
  intros Ho Hk. unfold path_contrib. rewrite <- !Nat.mul_assoc.
  rewrite (block_row_out o d) by assumption. reflexivity.
Qed.

(** With three modes the memory [ttmc_csf] ends with is the cleared one,
    or the cleared one after the internal or the leaf kernel of the first
    representation. *)
Lemma ttmc_csf_mem_cases (tensors : list splatt_csf) (mats : list matrix_t)
    (mode : nat) (opts : splatt_opts) (st : ttmc_mem) :
  let csf := tensors !!! 0 in
  let st2 := ttmc_cleared tensors mats mode st in
  let st' := outcome_mem (ttmc_csf tensors mats mode opts st) in
  nmodes csf = 3 ->
  Permutation (dim_perm csf) [0; 1; 2] ->
  In mode (dim_perm csf) ->
  st' = st2
  \/ (mode = dim_perm csf !!! 1 /\ st' = p_csf_ttmc_intl3 csf 0 mats st2)
  \/ (mode = dim_perm csf !!! 2 /\ st' = p_csf_ttmc_leaf3 csf 0 mats st2).
Proof.
  intros csf st2 st' Hnm Hperm Hin. subst st' st2.
  unfold ttmc_csf, ttmc_cleared. fold csf. rewrite Hnm.
  unfold p_root_decide, p_intl_decide, p_leaf_decide, p_csf_ttmc_root.
  destruct (opt_csf_alloc opts);
    destruct (perm3_cases _ Hperm) as [H|[H|[H|[H|[H|H]]]]]; rewrite H in *;
    simpl in Hin; destruct Hin as [<-|[<-|[<-|[]]]]; cbn;
    repeat match goal with
           | |- context [which_tile ?t] => destruct (which_tile t)
           end; cbn; auto.
Qed.

Lemma ttmc_csf_frame (tensors : list splatt_csf) (mats : list matrix_t)
    (mode : nat) (opts : splatt_opts) (st : ttmc_mem) (k : nat) :
  let csf := tensors !!! 0 in
  nmodes csf = 3 ->
  Permutation (dim_perm csf) [0; 1; 2] ->
  In mode (dim_perm csf) ->
  tile3_ok csf (pt csf !!! 0) = true ->
  mem3_ok csf mats mode st = true ->
  ttmc_outsize csf mats mode <= k ->
  tenout (outcome_mem (ttmc_csf tensors mats mode opts st)) !!! k = tenout st !!! k.
Proof.
  intros csf Hnm Hperm Hin Hok Hmem Hk.
  destruct (mem3_ok_unpack csf mats mode st Hmem) as (Hout & Hs0 & Hs2).
  destruct (csf3_widths csf mats mode Hnm Hperm) as (Hw1 & Hw2 & Hos).
  specialize (Hos Hin).
  destruct (ttmc_cleared_get tensors mats mode st k Hout) as [Hlen Hclr].
  fold csf in Hclr.
  destruct (Nat.ltb_spec k (ttmc_outsize csf mats mode)) as [Hlt|_]; [lia|].
  unfold mem_lengths in Hlen. injection Hlen as Hlt Hl0 Hl2.
  destruct (ttmc_csf_mem_cases tensors mats mode opts st Hnm Hperm Hin)
    as [->|[[Hm ->]|[Hm ->]]]; fold csf.
  - exact Hclr.
  - fold csf in Hm. specialize (Hw1 Hm).
    destruct (p_csf_ttmc_intl3_get csf mats (ttmc_cleared tensors mats mode st) k Hok)
      as [_ Hg].
    + rewrite Hlt, <- Hw1, <- Hm, <- Hos. exact Hout.
    + rewrite Hl0. exact Hs0.
    + rewrite Hg, Hclr.
      rewrite (qsum_map_ext _ (fun _ => 0%Qc)), qsum_map_zero; [ring|].
      intros p Hp. destruct (tile3_ok_path csf _ p Hok Hp) as (_ & Ho & _ & _).
      apply (path_contrib_out _ _ _ _ _ _ (dims csf !!! (dim_perm csf !!! 1)));
        [exact Ho|]. rewrite <- Hw1, <- Hm, <- Hos. exact Hk.
  - fold csf in Hm. specialize (Hw2 Hm).
    destruct (p_csf_ttmc_leaf3_get csf mats (ttmc_cleared tensors mats mode st) k Hok)
      as [_ Hg].
    + rewrite Hlt, <- Hw2, <- Hm, <- Hos. exact Hout.
    + rewrite Hl2. exact Hs2.
    + rewrite Hg, Hclr.
      rewrite (qsum_map_ext _ (fun _ => 0%Qc)), qsum_map_zero; [ring|].
      intros p Hp. destruct (tile3_ok_path csf _ p Hok Hp) as (_ & _ & Ho & _).
      apply (path_contrib_out _ _ _ _ _ _ (dims csf !!! (dim_perm csf !!! 2)));
        [exact Ho|]. rewrite <- Hw2, <- Hm, <- Hos. exact Hk.
Qed.

(** C10 (as amended).  For a 3-mode CSF, whatever the flavor and the
    tiling, and for a coordinate tensor of three or more modes, with the
    ids below their dimensions: a call of [ttmc_csf] or [ttmc_stream] for
    mode [m] leaves every entry of [tenout] at or beyond
    [dims[m] * prod_{p <> m} ncolumns[p]] as it was. *)
Theorem ttmc_leaves_slack_untouched :
  (forall (tensors : list splatt_csf) (mats : list matrix_t) (mode : nat)
          (opts : splatt_opts) (st : ttmc_mem) (k : nat),
     let csf := tensors !!! 0 in
     nmodes csf = 3 ->
     Permutation (dim_perm csf) [0; 1; 2] ->
     In mode (dim_perm csf) ->
     tile3_ok csf (pt csf !!! 0) = true ->
     mem3_ok csf mats mode st = true ->
     dims csf !!! mode * ttmc_ncols mats (kron_order_csf csf mode) <= k ->
     tenout (outcome_mem (ttmc_csf tensors mats mode opts st)) !!! k = tenout st !!! k)
  /\ (forall (tt : sptensor_t) (mats : list matrix_t) (mode : nat) (st : ttmc_mem)
             (k : nat),
        let nm := tt_nmodes tt in
        let W := ttmc_ncols mats (other_modes 0 nm mode) in
        3 <= nm -> mode < nm ->
        tt_mode_ok tt mode = true ->
        tt_dims tt !!! mode * W <= length (tenout st) ->
        tt_dims tt !!! mode * W <= k ->
        tenout (ttmc_stream tt mats mode st) !!! k = tenout st !!! k).
Proof.
  split.
  - intros tensors mats mode opts st k csf Hnm Hperm Hin Hok Hmem Hk.
    apply ttmc_csf_frame; try assumption. fold csf.
    destruct (csf3_widths csf mats mode Hnm Hperm) as (_ & _ & Hos).
    rewrite (Hos Hin). exact Hk.
  - intros tt mats mode st k nm W. apply ttmc_stream_frame.
Qed.

Lemma ttmc_leaves_slack_untouched_witness :
  tenout (outcome_mem (ttmc_csf [csf_s1] mats_s1 1 opts_onemode mem_s1)) !!! 9
  = tenout mem_s1 !!! 9
  /\ tenout (ttmc_stream coo_s1 mats_s1 0 mem_s1) !!! 9 = tenout mem_s1 !!! 9.
Proof.
  split.
  - apply (proj1 ttmc_leaves_slack_untouched [csf_s1] mats_s1 1 opts_onemode mem_s1 9).
    + reflexivity.
    + reflexivity.
    + simpl. auto.
    + reflexivity.
    + reflexivity.
    + simpl. lia.
  - apply (proj2 ttmc_leaves_slack_untouched coo_s1 mats_s1 0 mem_s1 9).
    + simpl. lia.
    + simpl. lia.
    + reflexivity.
    + simpl. lia.
    + simpl. lia.
Defined.

(** C10 (as stated) fails beyond three modes.  On the 4-mode tensor
    [{(0,2,0,0):5}] the output of mode 2 has 8 entries; the call goes to the
    3-mode internal kernel, which indexes the rows by the level-1 id and
    adds to the entries 8 to 11 of the 24-entry buffer. *)
Lemma ttmc_csf_4mode_writes_past_extent :
  ttmc_outsize csf_4 mats_4 2 = 8
  /\ tenout (outcome_mem (ttmc_csf [csf_4] mats_4 2 opts_onemode mem_4)) !!! 8
     <> tenout mem_4 !!! 8.
Proof.
  split; [reflexivity|].
  intros H; apply (f_equal this) in H; vm_compute in H; discriminate.
Qed.

(** ** CSF against the coordinate fallback *)


(** Under [CSF_TWOMODE] a mode at depth 1 is served as under [CSF_ONEMODE]. *)
Lemma ttmc_csf_twomode_internal (tensors : list splatt_csf) (mats : list matrix_t)
    (mode : nat) (opts opts1 : splatt_opts) (st : ttmc_mem) :
  let csf := tensors !!! 0 in
  nmodes csf = 3 ->
  Permutation (dim_perm csf) [0; 1; 2] ->
  mode = dim_perm csf !!! 1 ->
  opt_csf_alloc opts = SPLATT_CSF_TWOMODE ->
  opt_csf_alloc opts1 = SPLATT_CSF_ONEMODE ->
  ttmc_csf tensors mats mode opts st = ttmc_csf tensors mats mode opts1 st.
Proof.
  intros csf Hnm Hperm Hm H2 H1. unfold ttmc_csf. fold csf. rewrite H1, H2, Hnm.
  revert Hm. destruct (perm3_cases _ Hperm) as [H|[H|[H|[H|[H|H]]]]]; rewrite H;
    intros ->; reflexivity.
Qed.










(** ** CCD: numerator, denominator and the column update *)

Lemma fold_left_flat_map {St X Y : Type} (step : St -> Y -> St) (g : X -> list Y)
    (l : list X) (s : St) :
  fold_left step (flat_map g l) s = fold_left (fun s x => fold_left step (g x) s) l s.
Proof.
  revert s. induction l as [|x l IH]; intros s; simpl; [reflexivity|].
  rewrite fold_left_app. apply IH.
Qed.

Lemma fold_left_map {St X Y : Type} (step : St -> Y -> St) (g : X -> Y)
    (l : list X) (s : St) :
  fold_left step (map g l) s = fold_left (fun s x => step s (g x)) l s.
Proof. revert s. induction l as [|x l IH]; intros s; simpl; [reflexivity|]. apply IH. Qed.

Lemma fold_left_same {St X : Type} (step step' : St -> X -> St) (l : list X) (s : St) :
  (forall s x, step s x = step' s x) -> fold_left step l s = fold_left step' l s.
Proof.
  intros H. revert s. induction l as [|x l IH]; intros s; simpl; [reflexivity|].
  rewrite H. apply IH.
Qed.

(** The loop nest of the 3-mode routines visits the paths of the tile in
    storage order. *)
Lemma tile_walk3_paths {St : Type} (t : csf_sparsity)
    (body : nat -> nat -> nat -> nat -> St -> St) (s : St) :
  tile_walk3 t body s
  = fold_left (fun s p => body (path_id p 0) (path_id p 1) (path_id p 2) (path_jj p) s)
      (tile_paths t) s.
Proof.
  unfold tile_walk3, tile_paths, for_range.
  rewrite fold_left_flat_map, Nat.sub_0_r.
  apply fold_left_same. intros s1 i.
  rewrite fold_left_flat_map.
  apply fold_left_same. intros s2 fib.
  rewrite fold_left_map. reflexivity.
Qed.

Lemma insert_get_eqb (l : list val_t) (a o : nat) (x : val_t) :
  o < length l -> <[a := x]> l !!! o = if Nat.eqb a o then x else l !!! o.
Proof.
  intros Ho. destruct (Nat.eqb_spec a o) as [->|Hne].
  - apply list_lookup_total_insert_eq. exact Ho.
  - apply list_lookup_total_insert_ne. exact Hne.
Qed.

(** A walk that adds [N] to a numerator row and [D] to a denominator row
    selected per path. *)
Lemma tile_walk3_accum (t : csf_sparsity) (sel : nat * nat * nat * nat -> nat)
    (N D : nat * nat * nat * nat -> val_t) (nd : list val_t * list val_t) (o : nat) :
  o < length (fst nd) -> o < length (snd nd) ->
  let nd' :=
    fold_left (fun (nd : list val_t * list val_t) p =>
                 (<[sel p := (fst nd !!! sel p + N p)%Qc]> (fst nd),
                  <[sel p := (snd nd !!! sel p + D p)%Qc]> (snd nd)))
      (tile_paths t) nd in
  length (fst nd') = length (fst nd) /\ length (snd nd') = length (snd nd)
  /\ fst nd' !!! o
     = Qcplus (fst nd !!! o)
         (qsum (map (fun p => if Nat.eqb (sel p) o then N p else 0%Qc) (tile_paths t)))
  /\ snd nd' !!! o
     = Qcplus (snd nd !!! o)
         (qsum (map (fun p => if Nat.eqb (sel p) o then D p else 0%Qc) (tile_paths t))).
Proof.
  intros Ho1 Ho2 nd'. subst nd'.
  set (Inv := fun s : list val_t * list val_t =>
                length (fst s) = length (fst nd) /\ length (snd s) = length (snd nd)).
  set (step := fun (nd : list val_t * list val_t) p =>
                 (<[sel p := (fst nd !!! sel p + N p)%Qc]> (fst nd),
                  <[sel p := (snd nd !!! sel p + D p)%Qc]> (snd nd))).
  destruct (fold_left_sum (fun s => fst s !!! o) Inv step
              (fun p => if Nat.eqb (sel p) o then N p else 0%Qc) (tile_paths t))
    with (s := nd) as [[Hl1 Hl2] Hg1].
  { intros p s _ [H1 H2]. unfold step, Inv. cbn [fst snd].
    rewrite !length_insert. split; [split; assumption|].
    rewrite insert_get_eqb by lia.
    destruct (Nat.eqb_spec (sel p) o) as [->|_]; ring. }
  { split; reflexivity. }
  destruct (fold_left_sum (fun s => snd s !!! o) Inv step
              (fun p => if Nat.eqb (sel p) o then D p else 0%Qc) (tile_paths t))
    with (s := nd) as [_ Hg2].
  { intros p s _ [H1 H2]. unfold step, Inv. cbn [fst snd].
    rewrite !length_insert. split; [split; assumption|].
    rewrite insert_get_eqb by lia.
    destruct (Nat.eqb_spec (sel p) o) as [->|_]; ring. }
  { split; reflexivity. }
  auto.
Qed.

(** One tile of a pass: every path adds [r * s] to the numerator and
    [s * s] to the denominator of the row of its id at the depth of the
    mode. *)
Lemma p_process_get (which : node_type) (csf : splatt_csf) (tile f : nat)
    (model : tc_model) (nd : list val_t * list val_t) (o : nat) :
  o < length (fst nd) -> o < length (snd nd) ->
  let d := node_depth which in
  let nd' := p_process which csf tile f model nd in
  length (fst nd') = length (fst nd) /\ length (snd nd') = length (snd nd)
  /\ fst nd' !!! o
     = Qcplus (fst nd !!! o)
         (qsum (map (fun p => if Nat.eqb (path_id p d) o
                              then (residual_at csf tile p * ccd_sgrad csf model f d p)%Qc
                              else 0%Qc)
                  (tile_paths (pt csf !!! tile))))
  /\ snd nd' !!! o
     = Qcplus (snd nd !!! o)
         (qsum (map (fun p => if Nat.eqb (path_id p d) o
                              then (ccd_sgrad csf model f d p * ccd_sgrad csf model f d p)%Qc
                              else 0%Qc)
                  (tile_paths (pt csf !!! tile)))).
Proof.
  intros Ho1 Ho2 d nd'. subst d nd'.
  set (t := pt csf !!! tile).
  destruct which; cbn [p_process node_depth].
  - unfold p_process_root3. fold t. rewrite tile_walk3_paths.
    destruct (tile_walk3_accum t (fun p => path_id p 0)
                (fun p => (tile_vals t !!! path_jj p
                           * factor_col csf model f 1 (path_id p 1)
                           * factor_col csf model f 2 (path_id p 2))%Qc)
                (fun p => (factor_col csf model f 1 (path_id p 1)
                           * factor_col csf model f 2 (path_id p 2)
                           * (factor_col csf model f 1 (path_id p 1)
                              * factor_col csf model f 2 (path_id p 2)))%Qc)
                nd o Ho1 Ho2) as (H1 & H2 & H3 & H4).
    split; [exact H1|]. split; [exact H2|].
    split; [etransitivity; [exact H3|] | etransitivity; [exact H4|]];
      f_equal; apply qsum_map_ext; intros p _;
      destruct (Nat.eqb (path_id p 0) o); try reflexivity;
      unfold residual_at, ccd_sgrad; fold t; ring.
  - unfold p_process_intl3. fold t. rewrite tile_walk3_paths.
    destruct (tile_walk3_accum t (fun p => path_id p 1)
                (fun p => (tile_vals t !!! path_jj p
                           * (factor_col csf model f 0 (path_id p 0)
                              * factor_col csf model f 2 (path_id p 2)))%Qc)
                (fun p => (factor_col csf model f 0 (path_id p 0)
                           * factor_col csf model f 2 (path_id p 2)
                           * (factor_col csf model f 0 (path_id p 0)
                              * factor_col csf model f 2 (path_id p 2)))%Qc)
                nd o Ho1 Ho2) as (H1 & H2 & H3 & H4).
    split; [exact H1|]. split; [exact H2|].
    split; [etransitivity; [exact H3|] | etransitivity; [exact H4|]];
      f_equal; apply qsum_map_ext; intros p _;
      destruct (Nat.eqb (path_id p 1) o); try reflexivity;
      unfold residual_at, ccd_sgrad; fold t; ring.
  - unfold p_process_leaf3. fold t. rewrite tile_walk3_paths.
    destruct (tile_walk3_accum t (fun p => path_id p 2)
                (fun p => (tile_vals t !!! path_jj p
                           * (factor_col csf model f 0 (path_id p 0)
                              * factor_col csf model f 1 (path_id p 1)))%Qc)
                (fun p => (factor_col csf model f 0 (path_id p 0)
                           * factor_col csf model f 1 (path_id p 1)
                           * (factor_col csf model f 0 (path_id p 0)
                              * factor_col csf model f 1 (path_id p 1)))%Qc)
                nd o Ho1 Ho2) as (H1 & H2 & H3 & H4).
    split; [exact H1|]. split; [exact H2|].
    split; [etransitivity; [exact H3|] | etransitivity; [exact H4|]];
      f_equal; apply qsum_map_ext; intros p _;
      destruct (Nat.eqb (path_id p 2) o); try reflexivity;
      unfold residual_at, ccd_sgrad; fold t; ring.
Qed.

Lemma qsum_select (T c : nat) (y : val_t) :
  c < T -> qsum (map (fun t => if Nat.eqb c t then y else 0%Qc) (seq 0 T)) = y.
Proof.
  revert c. induction T as [|T IH]; intros c Hc; [lia|].
  rewrite seq_S, map_app, qsum_app. simpl.
  destruct (Nat.eqb_spec c T) as [->|Hne].
  - rewrite (qsum_map_ext _ (fun _ => 0%Qc)), qsum_map_zero; [ring|].
    intros t Ht. apply in_seq in Ht.
    destruct (Nat.eqb_spec T t); [lia | reflexivity].
  - rewrite IH by lia. ring.
Qed.

(** Summing plane by plane sums over every tile once. *)
Lemma qsum_planes (T : nat) (coord : nat -> nat) (g : nat -> val_t) (l : list nat) :
  (forall x, In x l -> coord x < T) ->
  qsum (map (fun t => qsum (map g (List.filter (fun x => Nat.eqb (coord x) t) l)))
          (seq 0 T))
  = qsum (map g l).
Proof.
  induction l as [|x l IH]; intros Hc.
  - simpl. apply qsum_map_zero.
  - assert (forall (u v : nat -> val_t) (k : list nat),
              qsum (map (fun t => (u t + v t)%Qc) k)
              = (qsum (map u k) + qsum (map v k))%Qc) as Hadd.
    { intros u v k. induction k as [|z k IHk]; simpl; [ring|]. rewrite IHk. ring. }
    transitivity
      (qsum (map (fun t =>
                    ((if Nat.eqb (coord x) t then g x else 0%Qc)
                     + qsum (map g (List.filter (fun y => Nat.eqb (coord y) t) l)))%Qc)
               (seq 0 T))).
    + apply qsum_map_ext. intros t _. simpl.
      destruct (Nat.eqb (coord x) t); simpl; ring.
    + rewrite Hadd, IH by (intros y Hy; apply Hc; right; exact Hy).
      rewrite qsum_select by (apply Hc; left; reflexivity). reflexivity.
Qed.

Lemma tile_coord_lt (tdims : list nat) (nm m id : nat) :
  0 < tdims !!! m -> tile_coord tdims nm m id < tdims !!! m.
Proof. intros H. unfold tile_coord. apply Nat.mod_upper_bound. lia. Qed.

(** The initialisation of [numer] and [denom]. *)
Lemma ccd_init_nd (dim : nat) (lam : val_t) (nd : list val_t * list val_t) (o : nat) :
  dim <= length (fst nd) -> dim <= length (snd nd) -> o < dim ->
  let nd' :=
    for_range 0 dim (fun i (nd : list val_t * list val_t) =>
      (<[i := 0%Qc]> (fst nd), <[i := lam]> (snd nd))) nd in
  length (fst nd') = length (fst nd) /\ length (snd nd') = length (snd nd)
  /\ fst nd' !!! o = 0%Qc /\ snd nd' !!! o = lam.
Proof.
  intros H1 H2 Ho nd'. subst nd'.
  enough (length (fst (for_range 0 dim (fun i (nd : list val_t * list val_t) =>
                    (<[i := 0%Qc]> (fst nd), <[i := lam]> (snd nd))) nd))
          = length (fst nd)
          /\ length (snd (for_range 0 dim (fun i (nd : list val_t * list val_t) =>
                    (<[i := 0%Qc]> (fst nd), <[i := lam]> (snd nd))) nd))
             = length (snd nd)
          /\ (o < dim ->
              fst (for_range 0 dim (fun i (nd : list val_t * list val_t) =>
                    (<[i := 0%Qc]> (fst nd), <[i := lam]> (snd nd))) nd) !!! o = 0%Qc
              /\ snd (for_range 0 dim (fun i (nd : list val_t * list val_t) =>
                    (<[i := 0%Qc]> (fst nd), <[i := lam]> (snd nd))) nd) !!! o = lam))
    as (Ha & Hb & Hc) by (destruct (Hc Ho); auto).
  apply (for_range_ind (fun i (s : list val_t * list val_t) =>
    length (fst s) = length (fst nd) /\ length (snd s) = length (snd nd)
    /\ (o < i -> fst s !!! o = 0%Qc /\ snd s !!! o = lam))); [lia| |].
  - repeat split; lia.
  - intros i s Hi (Ha & Hb & Hc). cbn [fst snd]. rewrite !length_insert.
    split; [exact Ha|]. split; [exact Hb|]. intros Hoi.
    rewrite !insert_get_eqb by lia.
    destruct (Nat.eqb_spec i o) as [->|Hne]; [split; reflexivity|].
    apply Hc. lia.
Qed.

Lemma which_depth_3 (csf : splatt_csf) (m : nat) :
  nmodes csf = 3 ->
  Permutation (dim_perm csf) [0; 1; 2] ->
  m < 3 ->
  node_depth (which_depth csf m) = csf_mode_depth m (dim_perm csf) 3.
Proof.
  intros Hnm Hperm Hm. unfold which_depth. rewrite Hnm.
  destruct (perm3_cases _ Hperm) as [H|[H|[H|[H|[H|H]]]]]; rewrite H;
    destruct m as [|[|[|m]]]; try lia; reflexivity.
Qed.

(** The loop over the tile planes of mode [m]: every tile of the grid is
    processed once. *)
Lemma ccd_tiles_sum (which : node_type) (csf : splatt_csf) (f m : nat)
    (model : tc_model) (nd : list val_t * list val_t) (o : nat) :
  o < length (fst nd) -> o < length (snd nd) ->
  0 < tile_dims csf !!! m ->
  let d := node_depth which in
  let N := fold_right Nat.mul 1 (take (nmodes csf) (tile_dims csf)) in
  let nd' :=
    for_range 0 (tile_dims csf !!! m) (fun t (nd : list val_t * list val_t) =>
      fold_left (fun nd tile => p_process which csf tile f model nd)
        (plane_tiles (tile_dims csf) (nmodes csf) m t) nd) nd in
  fst nd' !!! o
  = Qcplus (fst nd !!! o)
      (qsum (map (fun tile =>
                    qsum (map (fun p =>
                                 if Nat.eqb (path_id p d) o
                                 then (residual_at csf tile p
                                       * ccd_sgrad csf model f d p)%Qc
                                 else 0%Qc)
                            (tile_paths (pt csf !!! tile))))
               (seq 0 N)))
  /\ snd nd' !!! o
     = Qcplus (snd nd !!! o)
         (qsum (map (fun tile =>
                       qsum (map (fun p =>
                                    if Nat.eqb (path_id p d) o
                                    then (ccd_sgrad csf model f d p
                                          * ccd_sgrad csf model f d p)%Qc
                                    else 0%Qc)
                               (tile_paths (pt csf !!! tile))))
                  (seq 0 N))).
Proof.
  intros Ho1 Ho2 HT d N nd'. subst nd'.
  set (Inv := fun s : list val_t * list val_t =>
                length (fst s) = length (fst nd) /\ length (snd s) = length (snd nd)).
  set (Gn := fun tile =>
               qsum (map (fun p =>
                            if Nat.eqb (path_id p d) o
                            then (residual_at csf tile p * ccd_sgrad csf model f d p)%Qc
                            else 0%Qc)
                       (tile_paths (pt csf !!! tile)))).
  set (Gd := fun tile =>
               qsum (map (fun p =>
                            if Nat.eqb (path_id p d) o
                            then (ccd_sgrad csf model f d p * ccd_sgrad csf model f d p)%Qc
                            else 0%Qc)
                       (tile_paths (pt csf !!! tile)))).
  set (body := fun t (nd : list val_t * list val_t) =>
                 fold_left (fun nd tile => p_process which csf tile f model nd)
                   (plane_tiles (tile_dims csf) (nmodes csf) m t) nd).
  assert (forall tile s, Inv s ->
            Inv (p_process which csf tile f model s)
            /\ fst (p_process which csf tile f model s) !!! o = (fst s !!! o + Gn tile)%Qc
            /\ snd (p_process which csf tile f model s) !!! o = (snd s !!! o + Gd tile)%Qc)
    as Hstep.
  { intros tile s [H1 H2].
    destruct (p_process_get which csf tile f model s o) as (A1 & A2 & A3 & A4); [lia|lia|].
    split; [split; lia|]. split; assumption. }
  assert (forall t s, Inv s ->
            Inv (body t s)
            /\ fst (body t s) !!! o
               = (fst s !!! o
                  + qsum (map Gn (plane_tiles (tile_dims csf) (nmodes csf) m t)))%Qc
            /\ snd (body t s) !!! o
               = (snd s !!! o
                  + qsum (map Gd (plane_tiles (tile_dims csf) (nmodes csf) m t)))%Qc)
    as Hplane.
  { intros t s Hs. unfold body.
    destruct (fold_left_sum (fun s => fst s !!! o) Inv
                (fun nd tile => p_process which csf tile f model nd) Gn
                (plane_tiles (tile_dims csf) (nmodes csf) m t)) with (s := s) as [Hi Hg1];
      [intros tile s' _ Hs'; destruct (Hstep tile s' Hs') as (? & ? & ?); auto | exact Hs |].
    destruct (fold_left_sum (fun s => snd s !!! o) Inv
                (fun nd tile => p_process which csf tile f model nd) Gd
                (plane_tiles (tile_dims csf) (nmodes csf) m t)) with (s := s) as [_ Hg2];
      [intros tile s' _ Hs'; destruct (Hstep tile s' Hs') as (? & ? & ?); auto | exact Hs |].
    auto. }
  assert (forall G : nat -> val_t,
            qsum (map (fun t => qsum (map G (plane_tiles (tile_dims csf) (nmodes csf) m t)))
                    (seq 0 (tile_dims csf !!! m)))
            = qsum (map G (seq 0 N))) as Hall.
  { intros G. unfold plane_tiles. fold N.
    apply (qsum_planes (tile_dims csf !!! m) (tile_coord (tile_dims csf) (nmodes csf) m)).
    intros x _. apply tile_coord_lt. exact HT. }
  destruct (for_range0_sum (fun s => fst s !!! o) Inv (tile_dims csf !!! m) body
              (fun t => qsum (map Gn (plane_tiles (tile_dims csf) (nmodes csf) m t))))
    with (s := nd) as [_ Hg1];
    [intros t s _ Hs; destruct (Hplane t s Hs) as (? & ? & ?); auto | split; reflexivity |].
  destruct (for_range0_sum (fun s => snd s !!! o) Inv (tile_dims csf !!! m) body
              (fun t => qsum (map Gd (plane_tiles (tile_dims csf) (nmodes csf) m t))))
    with (s := nd) as [_ Hg2];
    [intros t s _ Hs; destruct (Hplane t s Hs) as (? & ? & ?); auto | split; reflexivity |].
  rewrite Hall in Hg1, Hg2. split; assumption.
Qed.

Lemma ccd_pass_ok_unpack (csf : splatt_csf) (model : tc_model) (ws : tc_ws) (f m : nat) :
  ccd_pass_ok csf model ws f m = true ->
  nmodes csf = 3 /\ m < 3 /\ m < length (factors model)
  /\ ntiles csf = fold_right Nat.mul 1 (take 3 (tile_dims csf))
  /\ 0 < tile_dims csf !!! m
  /\ model_dims model !!! m <= length (numerator ws)
  /\ model_dims model !!! m <= length (denominator ws)
  /\ f * (model_dims model !!! m) + model_dims model !!! m <= length (factors model !!! m).
Proof.
  unfold ccd_pass_ok. intros H.
  repeat match type of H with
         | (_ && _) = true => apply andb_true_iff in H; destruct H as [H ?]
         end.
  repeat match goal with
         | H : Nat.eqb _ _ = true |- _ => apply Nat.eqb_eq in H
         | H : Nat.ltb _ _ = true |- _ => apply Nat.ltb_lt in H
         | H : Nat.leb _ _ = true |- _ => apply Nat.leb_le in H
         end.
  repeat split; assumption.
Qed.

(** What the mode-[m] pass of a CCD epoch computes over a 3-mode CSF, in
    the addresses of the code.  It dispatches to [p_process_root3],
    [p_process_intl3] or [p_process_leaf3] by the depth of [m], and every
    row [o] gets [numerator[o] = sum of r_ijk * s_ijk] and
    [denominator[o] = lambda_m + sum of s_ijk^2], the sums over the nonzeros
    whose index at that depth is [o], with [s_ijk] the product of the
    entries [f * dim + id] of the two other factor arrays ([ccd_sgrad]);
    the quotient goes to entry [f * dim + o] of the array of factor [m].
    The regularisation is positive, so the denominators are not zero. *)
Theorem ccd_mode_pass_update (csf : splatt_csf) (model : tc_model) (ws : tc_ws)
    (f m : nat) :
  Permutation (dim_perm csf) [0; 1; 2] ->
  ccd_pass_ok csf model ws f m = true ->
  Qclt 0%Qc (regularization ws !!! m) ->
  let d := csf_mode_depth m (dim_perm csf) 3 in
  let dim := model_dims model !!! m in
  let r := ccd_mode_pass csf f m (model, ws) in
  node_depth (which_depth csf m) = d
  /\ forall o, o < dim ->
       numerator (snd r) !!! o = ccd_numer_ref csf model f d o
       /\ denominator (snd r) !!! o = ccd_denom_ref csf model ws f m d o
       /\ (factors (fst r) !!! m) !!! (f * dim + o)
          = (numerator (snd r) !!! o / denominator (snd r) !!! o)%Qc.
Proof.
  intros Hperm Hok _ d dim r.
  destruct (ccd_pass_ok_unpack csf model ws f m Hok)
    as (Hnm & Hm & Hmf & Hnt & HT & Hln & Hld & Hlf).
  pose proof (which_depth_3 csf m Hnm Hperm Hm) as Hd. fold d in Hd.
  split; [exact Hd|]. intros o Ho.
  subst r. unfold ccd_mode_pass. cbn [fst snd]. fold dim. rewrite Hnm.
  set (nd0 := for_range 0 dim _ (numerator ws, denominator ws)).
  destruct (ccd_init_nd dim (regularization ws !!! m) (numerator ws, denominator ws) o
              Hln Hld Ho) as (Hl1 & Hl2 & Hn0 & Hd0).
  fold nd0 in Hl1, Hl2, Hn0, Hd0. cbn [fst snd] in Hl1, Hl2.
  destruct (ccd_tiles_sum (which_depth csf m) csf f m model nd0 o) as [Hn Hdn];
    [fold dim in Hln; lia | fold dim in Hld; lia | exact HT |].
  rewrite Hd, Hnm, <- Hnt in Hn, Hdn.
  set (nd1 := for_range 0 (tile_dims csf !!! m) _ nd0) in *.
  cbn [numerator denominator factors set_factor].
  assert (fst nd1 !!! o = ccd_numer_ref csf model f d o) as Hnum.
  { rewrite Hn, Hn0. unfold ccd_numer_ref, sum_touching. ring. }
  assert (snd nd1 !!! o = ccd_denom_ref csf model ws f m d o) as Hden.
  { rewrite Hdn, Hd0. unfold ccd_denom_ref, sum_touching. reflexivity. }
  split; [exact Hnum|]. split; [exact Hden|].
  rewrite list_lookup_total_insert_eq by exact Hmf.
  destruct (set_block_get dim (f * dim) (fun i => (fst nd1 !!! i / snd nd1 !!! i)%Qc)
              (factors model !!! m) (f * dim + o) Hlf) as [_ Hg].
  rewrite Hg.
  destruct (Nat.leb_spec (f * dim) (f * dim + o)); [|lia].
  destruct (Nat.ltb_spec (f * dim + o) (f * dim + dim)); [|lia].
  simpl. replace (f * dim + o - f * dim) with o by lia. reflexivity.
Qed.

(** With positive regularisation the denominators are positive, so the
    quotient of the column update is a division by a nonzero number. *)
Lemma Qc_square_nonneg (x : val_t) : (0 <= x * x)%Qc.
Proof.
  destruct (Qclt_le_dec x 0) as [Hneg|Hpos].
  - replace (x * x)%Qc with ((- x) * (- x))%Qc by ring.
    assert (0 <= - x)%Qc as H.
    { apply Qclt_le_weak in Hneg. apply Qcopp_le_compat in Hneg.
      replace (- 0)%Qc with 0%Qc in Hneg by ring. exact Hneg. }
    apply Qcmult_nonneg_nonneg; exact H.
  - apply Qcmult_nonneg_nonneg; exact Hpos.
Qed.

Lemma qsum_nonneg {X : Type} (g : X -> val_t) (l : list X) :
  (forall x, (0 <= g x)%Qc) -> (0 <= qsum (map g l))%Qc.
Proof.
  intros H. induction l as [|x l IH]; simpl.
  - apply Qcle_refl.
  - apply Qcplus_nonneg_nonneg; [apply H | exact IH].
Qed.

Lemma ccd_denom_ref_pos (csf : splatt_csf) (model : tc_model) (ws : tc_ws)
    (f m d o : nat) :
  (0 < regularization ws !!! m)%Qc -> (0 < ccd_denom_ref csf model ws f m d o)%Qc.
Proof.
  intros H. unfold ccd_denom_ref, sum_touching.
  apply Qcplus_pos_nonneg; [exact H|].
  apply qsum_nonneg. intros tile. apply qsum_nonneg. intros p.
  destruct (Nat.eqb (path_id p d) o); [apply Qc_square_nonneg | apply Qcle_refl].
Qed.

Lemma ccd_mode_pass_update_witness :
  let r := ccd_mode_pass csf_s1_tiled 0 1 (model_s1, ws_s1) in
  numerator (snd r) !!! 0 = ccd_numer_ref csf_s1_tiled model_s1 0 1 0
  /\ denominator (snd r) !!! 0 = ccd_denom_ref csf_s1_tiled model_s1 ws_s1 0 1 1 0
  /\ (factors (fst r) !!! 1) !!! (0 * 2 + 0)
     = Qcdiv (numerator (snd r) !!! 0) (denominator (snd r) !!! 0).
Proof.
  refine (proj2 (ccd_mode_pass_update csf_s1_tiled model_s1 ws_s1 0 1 _ _ _) 0 _).
  - reflexivity.
  - reflexivity.
  - reflexivity.
  - simpl. lia.
Defined.

(** C3, evaluated.  [splatt_tc_ccd] on the S1 tensor with a rank-2 model,
    up to the end of the first pass of the first epoch (mode 0, at root
    depth, column 0).  The pass reads the values of the two other factors
    at [f * dim + id], where the data model has entry [id] of column 1 or
    of another row, not [B[j, 0]] and [C[k, 0]]: the denominator of row 0
    is 11, where the sum of [s_ijk^2] over the nonzeros of row 0, started
    at [lambda = 1], is 6.  It then stores the two quotients at the
    entries 0 and 1 of the factor, which the data model reads as [A[0, 0]]
    and [A[0, 1]]: [A[1, 0]] keeps its value and [A[0, 1]], an entry of
    column 1, is overwritten.  With a rank-1 model, for which the two
    readings coincide, the pass leaves the sums and the quotients the
    specification states. *)
Theorem ccd_first_pass_reads_columns :
  let run := ccd_first_pass csf_s1_tiled model_s1 ws_s1 in
  let csf1 := fst run in
  let model' := fst (snd run) in
  let ws' := snd (snd run) in
  let run1 := ccd_first_pass csf_s1_tiled model_r1 ws_s1 in
  which_depth csf1 0 = NODE_ROOT
  /\ denominator ws' !!! 0 = qz 11
  /\ ccd_denom_rows csf1 model_s1 ws_s1 0 0 0 0 = qz 6
  /\ numerator ws' !!! 0 = qz (-3)
  /\ ccd_numer_rows csf1 model_s1 0 0 0 = qz (-3)
  /\ factor_entry model' 0 0 0 = Qcdiv (qz (-3)) (qz 11)
  /\ factor_entry model' 0 1 0 = factor_entry model_s1 0 1 0
  /\ factor_entry model_s1 0 0 1 = qz 2
  /\ factor_entry model' 0 0 1 = Qcdiv (qz (-7)) (qz 2)
  /\ forall o, o < 2 ->
       numerator (snd (snd run1)) !!! o = ccd_numer_rows (fst run1) model_r1 0 0 o
       /\ denominator (snd (snd run1)) !!! o
          = ccd_denom_rows (fst run1) model_r1 ws_s1 0 0 0 o
       /\ factor_entry (fst (snd run1)) 0 o 0
          = Qcdiv (numerator (snd (snd run1)) !!! o) (denominator (snd (snd run1)) !!! o).
Proof.
  cbv zeta. split; [vm_compute; reflexivity|].
  do 8 (split; [apply Qc_is_canon; vm_compute; reflexivity|]).
  intros o Ho. destruct o as [|[|o]]; [| |lia];
    (split; [|split]; apply Qc_is_canon; vm_compute; reflexivity).
Qed.

(** ** The CCD column invariant *)

(** C4, evaluated.  [splatt_tc_ccd] on the S1 tensor with a rank-2 model,
    up to the end of column 0 of the first epoch.  The loss the subtract
    step returns is the sum of [vals[]^2], but that sum is not the squared
    loss of the updated model, whether the factors are read row by row (as
    [p_init_residual] does) or column by column (as [p_update_residual3]
    and the column update do).  With a rank-1 model, for which the two
    readings coincide, the sum is the squared loss. *)
Theorem ccd_column_loss_mismatch :
  let r := ccd_first_column csf_s1_tiled model_s1 ws_s1 in
  let csf' := fst (fst (fst r)) in
  let model' := snd (fst (fst r)) in
  let r1 := ccd_first_column csf_s1_tiled model_r1 ws_s1 in
  Permutation (csf_tile_entries csf_s1_tiled 0) (tt_entries coo_s1)
  /\ snd r = residual_sq csf'
  /\ residual_sq csf' <> tc_loss_sq coo_s1 model'
  /\ residual_sq csf' <> tc_loss_sq_colmajor coo_s1 model'
  /\ residual_sq (fst (fst (fst r1))) = tc_loss_sq coo_s1 (snd (fst (fst r1))).
Proof.
  cbv zeta. split; [|split; [|split; [|split]]].
  - vm_compute. apply perm_skip. apply perm_swap.
  - apply Qc_is_canon. vm_compute. reflexivity.
  - intros H. apply (f_equal this) in H. vm_compute in H. discriminate.
  - intros H. apply (f_equal this) in H. vm_compute in H. discriminate.
  - apply Qc_is_canon. vm_compute. reflexivity.
Qed.

(** ** The column count and the size of the output *)

Lemma other_modes_snoc (lo hi mode : nat) :
  lo <= hi ->
  other_modes lo (S hi) mode
  = other_modes lo hi mode ++ (if Nat.eqb hi mode then [] else [hi]).
Proof.
  intros H. unfold other_modes.
  replace (S hi - lo) with ((hi - lo) + 1) by lia.
  rewrite List.seq_app, List.filter_app. simpl.
  replace (lo + (hi - lo)) with hi by lia.
  destruct (Nat.eqb hi mode); reflexivity.
Qed.

Lemma zprod_app (l1 l2 : list Z) : zprod (l1 ++ l2) = (zprod l1 * zprod l2)%Z.
Proof.
  induction l1 as [|x l1 IH]; simpl.
  - destruct (zprod l2); reflexivity.
  - rewrite IH. ring.
Qed.

Lemma outncols_unbounded (nf : list Z) (nm mode : nat) :
  outncols_with Z.mul nf nm mode = kron_cost nf nm mode 0.
Proof.
  unfold kron_cost. induction nm as [|nm IH].
  - reflexivity.
  - unfold outncols_with. rewrite for_range_S by lia.
    fold (outncols_with Z.mul nf nm mode). rewrite IH.
    rewrite other_modes_snoc by lia. rewrite map_app, zprod_app.
    destruct (Nat.eqb nm mode); simpl; ring.
Qed.

Lemma zprod_split_mode (g : nat -> Z) (nm mode : nat) :
  zprod (map g (seq 0 nm))
  = (zprod (map g (other_modes 0 nm mode)) * (if Nat.ltb mode nm then g mode else 1))%Z.
Proof.
  induction nm as [|nm IH].
  - reflexivity.
  - rewrite List.seq_S, map_app, zprod_app, IH. simpl.
    rewrite other_modes_snoc by lia. rewrite map_app, zprod_app.
    destruct (Nat.eqb_spec nm mode) as [->|Hne].
    + rewrite Nat.ltb_irrefl. replace (Nat.ltb mode (S mode)) with true
        by (symmetry; apply Nat.ltb_lt; lia).
      simpl. ring.
    + replace (Nat.ltb mode (S nm)) with (Nat.ltb mode nm).
      * simpl. ring.
      * destruct (Nat.ltb_spec mode nm), (Nat.ltb_spec mode (S nm)); try reflexivity; lia.
Qed.

(** X1.  [p_ttmc_outncols] returns, modulo [2^64], the product of the
    column counts of the modes other than [mode]: multiplied by
    [nfactors[mode]] it is the product over all the modes, which is the
    "prod(nfactors[:]) / nfactors[mode]" of its header. *)
Theorem p_ttmc_outncols_product (nfactors : list Z) (nm mode : nat) :
  mode < nm ->
  p_ttmc_outncols nfactors nm mode = (kron_cost nfactors nm mode 0 mod 2 ^ 64)%Z
  /\ (kron_cost nfactors nm mode 0 * nfactors !!! mode
      = zprod (map (fun m => nfactors !!! m) (seq 0 nm)))%Z.
Proof.
  intros Hm. split.
  - unfold p_ttmc_outncols. rewrite outncols_congr, outncols_unbounded. reflexivity.
  - unfold kron_cost. rewrite (zprod_split_mode (fun m => nfactors !!! m) nm mode).
    replace (Nat.ltb mode nm) with true by (symmetry; apply Nat.ltb_lt; exact Hm).
    reflexivity.
Qed.

Lemma p_ttmc_outncols_product_witness :
  p_ttmc_outncols [2; 3; 5]%Z 3 1 = (kron_cost [2; 3; 5]%Z 3 1 0 mod 2 ^ 64)%Z
  /\ (kron_cost [2; 3; 5]%Z 3 1 0 * [2; 3; 5]%Z !!! 1%nat
      = zprod (map (fun m => [2; 3; 5]%Z !!! m) (seq 0 3)))%Z.
Proof. apply (p_ttmc_outncols_product [2; 3; 5]%Z 3 1). lia. Defined.

Lemma max_loop (g : nat -> Z) (n : nat) :
  let r := for_range 0 n (fun m maxdim => Z.max maxdim (g m)) 0%Z in
  (forall m, m < n -> (g m <= r)%Z)
  /\ (r = 0%Z \/ exists m, m < n /\ r = g m).
Proof.
  cbv zeta.
  apply (for_range_ind
           (fun i r => (forall m, m < i -> (g m <= r)%Z)
                       /\ (r = 0%Z \/ exists m, m < i /\ r = g m))).
  - lia.
  - split; [intros m Hm; lia | left; reflexivity].
  - intros i r Hi [Hle Hat]. split.
    + intros m Hm. destruct (Nat.eq_dec m i) as [->|Hne]; [lia|].
      specialize (Hle m ltac:(lia)). lia.
    + destruct (Z.max_spec r (g i)) as [[_ ->]|[_ ->]].
      * right. exists i. split; [lia | reflexivity].
      * destruct Hat as [Hz | [m [Hm Hr]]]; [left; exact Hz|].
        right. exists m. split; [lia | exact Hr].
Qed.

(** X2.  [tenout_dim] is the largest of the sizes
    [dims[m] * p_ttmc_outncols(nfactors, nmodes, m)], each computed in
    [idx_t]: it bounds the size of every mode, and it is the size of one
    of them (or zero). *)
Theorem tenout_dim_is_max (nm : nat) (nfactors dms : list Z) :
  (forall m, m < nm ->
     (idx_mul (dms !!! m) (p_ttmc_outncols nfactors nm m)
      <= tenout_dim nm nfactors dms)%Z)
  /\ (tenout_dim nm nfactors dms = 0%Z
      \/ exists m, m < nm
           /\ tenout_dim nm nfactors dms
              = idx_mul (dms !!! m) (p_ttmc_outncols nfactors nm m)).
Proof.
  exact (max_loop (fun m => idx_mul (dms !!! m) (p_ttmc_outncols nfactors nm m)) nm).
Qed.

Lemma tenout_dim_is_max_witness :
  (idx_mul ([2; 2; 3]%Z !!! 2%nat) (p_ttmc_outncols [2; 2; 2]%Z 3 2)
   <= tenout_dim 3 [2; 2; 2]%Z [2; 2; 3]%Z)%Z.
Proof.
  apply (proj1 (tenout_dim_is_max 3 [2; 2; 2]%Z [2; 2; 3]%Z) 2). lia.
Defined.

Lemma stream_size_kron_cost (mats : list matrix_t) (l : list nat) :
  Forall (fun p => p < length mats) l ->
  zprod (map (fun m => map (fun M => Z.of_nat (mat_J M)) mats !!! m) l)
  = Z.of_nat (fold_right (fun p acc => acc * mat_J (mats !!! p)) 1 l).
Proof.
  induction 1 as [|p l Hp Hl IH]; simpl.
  - reflexivity.
  - rewrite IH. rewrite (map_lookup (fun M => Z.of_nat (mat_J M)) mats p Hp). lia.
Qed.

(** X3.  A buffer of [tenout_dim] entries holds the slab [p_clear_tenout]
    zeroes, whatever the mode, provided the size of that slab fits
    [idx_t]. *)
Theorem tenout_dim_covers_clear (mats : list matrix_t) (dms : list nat) (nm mode : nat) :
  nm <= length mats -> nm <= length dms -> mode < nm ->
  (Z.of_nat (p_clear_outsize mats nm mode dms) < 2 ^ 64)%Z ->
  (Z.of_nat (p_clear_outsize mats nm mode dms)
   <= tenout_dim nm (map (fun M => Z.of_nat (mat_J M)) mats) (map Z.of_nat dms))%Z.
Proof.
  intros Hmats Hdms Hmode Hfit.
  set (nf := map (fun M => Z.of_nat (mat_J M)) mats).
  set (dz := map Z.of_nat dms).
  pose proof (proj1 (max_loop (fun m => idx_mul (dz !!! m) (p_ttmc_outncols nf nm m)) nm)
                mode Hmode) as Hle.
  fold (tenout_dim nm nf dz) in Hle.
  assert (Heq : idx_mul (dz !!! mode) (p_ttmc_outncols nf nm mode)
                = Z.of_nat (p_clear_outsize mats nm mode dms)).
  { unfold p_ttmc_outncols. rewrite outncols_congr, idx_mul_wrap_r, outncols_unbounded.
    unfold kron_cost, nf. rewrite stream_size_kron_cost.
    - fold (stream_size mats mode nm 0).
      unfold dz. rewrite (map_lookup Z.of_nat dms mode) by lia.
      rewrite <- Nat2Z.inj_mul, <- p_clear_outsize_eq.
      apply idx_wrap_small. split; [lia | exact Hfit].
    - apply List.Forall_forall. intros p Hp. apply other_modes_lt in Hp. lia. }
  rewrite <- Heq. exact Hle.
Qed.

Lemma tenout_dim_covers_clear_witness :
  Z.le (Z.of_nat (p_clear_outsize mats_s1 3 0 [2; 2; 3]))
    (tenout_dim 3 (map (fun M => Z.of_nat (mat_J M)) mats_s1) (map Z.of_nat [2; 2; 3])).
Proof.
  apply (tenout_dim_covers_clear mats_s1 [2; 2; 3] 3 0).
  - simpl. lia.
  - simpl. lia.
  - lia.
  - vm_compute. reflexivity.
Defined.

(** ** The lock pool *)

Lemma init_slots_loop (n : nat) (l : list Z) :
  for_range 0 n (fun i slots => slots ++ [Z.of_nat (i * 16)]) l
  = l ++ map (fun i => Z.of_nat (i * 16)) (seq 0 n).
Proof.
  induction n as [|n IH].
  - simpl. rewrite app_nil_r. reflexivity.
  - rewrite for_range_S by lia. rewrite IH, List.seq_S, map_app, <- app_assoc. reflexivity.
Qed.

Lemma p_init_locks_fresh (st : ttmc_mem) (s : Z) :
  pool_fresh st ->
  slot_initialized (p_init_locks st) s = true
  <-> exists i, i < NLOCKS /\ s = Z.of_nat (i * 16).
Proof.
  intros [Hf Hs]. unfold p_init_locks, slot_initialized. rewrite Hf. cbn [lock_slots].
  rewrite init_slots_loop, Hs. cbn [app]. rewrite existsb_exists. split.
  - intros [x [Hin Hx]]. apply in_map_iff in Hin. destruct Hin as [i [<- Hi]].
    apply in_seq in Hi. exists i. split; [lia|]. apply Z.eqb_eq. exact Hx.
  - intros [i [Hi ->]]. exists (Z.of_nat (i * 16)). split; [|apply Z.eqb_refl].
    apply in_map_iff. exists i. split; [reflexivity|]. apply in_seq. lia.
Qed.

(** X4.  [p_init_locks], run on the pool as it is before the first call,
    initialises exactly the locks at the offsets [16 * i], [i < NLOCKS]; it
    leaves the buffers and the lock trace alone, and a second run changes
    nothing. *)
Theorem p_init_locks_strided_slots (st : ttmc_mem) :
  pool_fresh st ->
  (forall s, slot_initialized (p_init_locks st) s = true
             <-> exists i, i < NLOCKS /\ s = Z.of_nat (i * 16))
  /\ p_init_locks (p_init_locks st) = p_init_locks st
  /\ tenout (p_init_locks st) = tenout st
  /\ lock_log (p_init_locks st) = lock_log st.
Proof.
  intros Hfresh. split; [|split; [|split]].
  - intros s. apply p_init_locks_fresh. exact Hfresh.
  - unfold p_init_locks. destruct (locks_initialized st) eqn:E; [rewrite E|]; reflexivity.
  - apply p_init_locks_tenout.
  - unfold p_init_locks. destruct (locks_initialized st); reflexivity.
Qed.

Lemma p_init_locks_strided_slots_witness :
  (forall s, slot_initialized (p_init_locks mem_s1) s = true
             <-> exists i, i < NLOCKS /\ s = Z.of_nat (i * 16))
  /\ p_init_locks (p_init_locks mem_s1) = p_init_locks mem_s1
  /\ tenout (p_init_locks mem_s1) = tenout mem_s1
  /\ lock_log (p_init_locks mem_s1) = lock_log mem_s1.
Proof. apply (p_init_locks_strided_slots mem_s1). split; reflexivity. Defined.

(** The lock trace of a loop whose body appends to it. *)
Lemma fold_left_log {St X : Type} (log : St -> list lock_op) (step : St -> X -> St)
    (c : X -> list lock_op) (l : list X) :
  (forall x s, log (step s x) = log s ++ c x) ->
  forall s, log (fold_left step l s) = log s ++ flat_map c l.
Proof.
  intros Hstep. induction l as [|x l IH]; intros s; simpl.
  - rewrite app_nil_r. reflexivity.
  - rewrite IH, Hstep, <- app_assoc. reflexivity.
Qed.

Lemma for_range_log {St : Type} (log : St -> list lock_op) (lo hi : nat)
    (body : nat -> St -> St) (c : nat -> list lock_op) :
  (forall i s, log (body i s) = log s ++ c i) ->
  forall s, log (for_range lo hi body s) = log s ++ flat_map c (seq lo (hi - lo)).
Proof.
  intros Hb s. unfold for_range.
  apply (fold_left_log log (fun s i => body i s) c). intros x s'. apply Hb.
Qed.

Lemma flat_map_flat_map {X Y W : Type} (c : Y -> list W) (g : X -> list Y) (l : list X) :
  flat_map c (flat_map g l) = flat_map (fun x => flat_map c (g x)) l.
Proof.
  induction l as [|x l IH]; simpl; [reflexivity|].
  rewrite List.flat_map_app, IH. reflexivity.
Qed.

Lemma flat_map_map {X Y W : Type} (c : Y -> list W) (g : X -> Y) (l : list X) :
  flat_map c (map g l) = flat_map (fun x => c (g x)) l.
Proof. induction l as [|x l IH]; simpl; [reflexivity|]. rewrite IH. reflexivity. Qed.

Lemma p_csf_ttmc_intl3_log (csf : splatt_csf) (tile_id : nat) (mats : list matrix_t)
    (st : ttmc_mem) :
  let t := pt csf !!! tile_id in
  lock_log (p_csf_ttmc_intl3 csf tile_id mats st)
  = lock_log st
    ++ flat_map (fun f => lock_pair (Z.of_nat (ids_at (tile_fids t 1) f mod NLOCKS)))
         (tile_fibers t).
Proof.
  cbv zeta. unfold p_csf_ttmc_intl3, tile_fibers. rewrite flat_map_flat_map.
  rewrite (for_range_log lock_log 0 _ _
             (fun s => flat_map
                (fun f => lock_pair (Z.of_nat (ids_at (tile_fids (pt csf !!! tile_id) 1) f
                                                 mod NLOCKS)))
                (seq (tile_fptr (pt csf !!! tile_id) 0 !!! s)
                   (tile_fptr (pt csf !!! tile_id) 0 !!! (s + 1)
                    - tile_fptr (pt csf !!! tile_id) 0 !!! s)))).
  - rewrite Nat.sub_0_r. reflexivity.
  - intros s st1. apply for_range_log. intros f st2.
    unfold log_lock, set_tenout, set_scratch0, lock_pair. cbn [lock_log].
    rewrite <- app_assoc. reflexivity.
Qed.

Lemma p_csf_ttmc_leaf3_log (csf : splatt_csf) (tile_id : nat) (mats : list matrix_t)
    (st : ttmc_mem) :
  let t := pt csf !!! tile_id in
  lock_log (p_csf_ttmc_leaf3 csf tile_id mats st)
  = lock_log st
    ++ flat_map (fun p => lock_pair (Z.of_nat (path_id p 2 mod NLOCKS))) (tile_paths t).
Proof.
  cbv zeta. unfold p_csf_ttmc_leaf3, tile_paths.
  set (t := pt csf !!! tile_id).
  rewrite flat_map_flat_map.
  rewrite (for_range_log lock_log 0 _ _
             (fun s => flat_map (fun p => lock_pair (Z.of_nat (path_id p 2 mod NLOCKS)))
                (flat_map (fun fib =>
                   map (fun jj => (fid_at (tile_fids t 0) s, ids_at (tile_fids t 1) fib,
                                   ids_at (tile_fids t 2) jj, jj))
                     (seq (tile_fptr t 1 !!! fib)
                        (tile_fptr t 1 !!! (fib + 1) - tile_fptr t 1 !!! fib)))
                   (seq (tile_fptr t 0 !!! s)
                      (tile_fptr t 0 !!! (s + 1) - tile_fptr t 0 !!! s))))).
  - rewrite Nat.sub_0_r. reflexivity.
  - intros s st1. rewrite flat_map_flat_map.
    apply (for_range_log lock_log _ _ _
             (fun fib => flat_map (fun p => lock_pair (Z.of_nat (path_id p 2 mod NLOCKS)))
                (map (fun jj => (fid_at (tile_fids t 0) s, ids_at (tile_fids t 1) fib,
                                 ids_at (tile_fids t 2) jj, jj))
                   (seq (tile_fptr t 1 !!! fib)
                      (tile_fptr t 1 !!! (fib + 1) - tile_fptr t 1 !!! fib))))).
    intros fib st2. rewrite flat_map_map.
    rewrite (for_range_log lock_log _ _ _
               (fun jj => lock_pair (Z.of_nat (ids_at (tile_fids t 2) jj mod NLOCKS)))).
    + reflexivity.
    + intros jj st3. unfold log_lock, set_tenout, lock_pair. cbn [lock_log].
      rewrite <- app_assoc. reflexivity.
Qed.

(** X5.  The lock traces of the two 3-mode kernels.  The internal kernel
    takes one lock per fiber, the leaf kernel one per nonzero; each is
    released before the next is taken, and the lock is the one at offset
    [id mod NLOCKS] of the pool, [id] being the fiber id, respectively the
    leaf index: the stride of 16 is not applied. *)
Theorem csf3_kernels_lock_trace (csf : splatt_csf) (tile_id : nat) (mats : list matrix_t)
    (st : ttmc_mem) :
  let t := pt csf !!! tile_id in
  lock_log (p_csf_ttmc_intl3 csf tile_id mats st)
  = lock_log st
    ++ flat_map (fun f => lock_pair (Z.of_nat (ids_at (tile_fids t 1) f mod NLOCKS)))
         (tile_fibers t)
  /\ lock_log (p_csf_ttmc_leaf3 csf tile_id mats st)
     = lock_log st
       ++ flat_map (fun p => lock_pair (Z.of_nat (path_id p 2 mod NLOCKS))) (tile_paths t).
Proof.
  split; [apply p_csf_ttmc_intl3_log | apply p_csf_ttmc_leaf3_log].
Qed.

(** X6.  A lock the 3-mode kernels take for the id [o] is one that
    [p_init_locks] initialised if and only if [o mod NLOCKS] is a multiple
    of 16. *)
Theorem csf3_lock_initialised_iff (st : ttmc_mem) (o : nat) :
  pool_fresh st ->
  slot_initialized (p_init_locks st) (Z.of_nat (o mod NLOCKS)) = true
  <-> (o mod NLOCKS) mod 16 = 0.
Proof.
  intros Hfresh. rewrite (p_init_locks_fresh st _ Hfresh). split.
  - intros [i [Hi Heq]]. apply Nat2Z.inj in Heq. rewrite Heq.
    apply Nat.Div0.mod_mul.
  - intros Hmod. exists ((o mod NLOCKS) / 16). split.
    + assert (o mod NLOCKS < NLOCKS) by (apply Nat.mod_upper_bound; discriminate).
      assert ((o mod NLOCKS) / 16 <= o mod NLOCKS) by (apply Nat.Div0.div_le_upper_bound; lia).
      lia.
    + f_equal. pose proof (Nat.div_mod_eq (o mod NLOCKS) 16). lia.
Qed.

Lemma csf3_lock_initialised_iff_witness :
  slot_initialized (p_init_locks mem_s1) (Z.of_nat (5 mod NLOCKS)) = true
  <-> (5 mod NLOCKS) mod 16 = 0.
Proof. apply (csf3_lock_initialised_iff mem_s1 5). split; reflexivity. Defined.

(** ** The locks of the coordinate fallback *)

Lemma stream_kron_step_log (tt : sptensor_t) (mats : list matrix_t)
    (mode first_mode outrow n m : nat) (th : stream_thd) :
  lock_log (thd_mem (stream_kron_step tt mats mode first_mode outrow n m th))
  = lock_log (thd_mem th)
    ++ (if Nat.eqb m mode then []
        else if Nat.eqb m first_mode
             then lock_pair (stream_slot ((tt_ind tt !!! mode) !!! n))
             else []).
Proof.
  unfold stream_kron_step.
  destruct (Nat.eqb m mode); [rewrite app_nil_r; reflexivity|].
  destruct (Nat.eqb m first_mode); cbn [negb thd_mem].
  - unfold p_splatt_unset_lock, p_splatt_set_lock, log_lock, set_tenout, lock_pair, stream_slot.
    cbn [lock_log]. rewrite <- app_assoc. reflexivity.
  - rewrite app_nil_r. reflexivity.
Qed.

Lemma once_in_down (X : list lock_op) (mode first_mode k : nat) :
  first_mode <> mode ->
  flat_map (fun m => if Nat.eqb m mode then []
                     else if Nat.eqb m first_mode then X else [])
    (rev (seq 0 k))
  = if Nat.ltb first_mode k then X else [].
Proof.
  intros Hne. induction k as [|k IH].
  - reflexivity.
  - rewrite List.seq_S, rev_app_distr. simpl. rewrite IH.
    destruct (Nat.eqb_spec k mode) as [->|Hkm].
    + destruct (Nat.ltb_spec first_mode mode), (Nat.ltb_spec first_mode (S mode));
        try reflexivity; lia.
    + destruct (Nat.eqb_spec k first_mode) as [->|Hkf].
      * rewrite Nat.ltb_irrefl, app_nil_r.
        replace (Nat.ltb first_mode (S first_mode)) with true
          by (symmetry; apply Nat.ltb_lt; lia).
        reflexivity.
      * destruct (Nat.ltb_spec first_mode k), (Nat.ltb_spec first_mode (S k));
          try reflexivity; lia.
Qed.

Lemma stream_nnz_step_log (tt : sptensor_t) (mats : list matrix_t)
    (mode total_cols first_mode last_mode n : nat) (th : stream_thd) :
  first_mode <> mode ->
  lock_log (thd_mem (stream_nnz_step tt mats mode total_cols first_mode last_mode n th))
  = lock_log (thd_mem th)
    ++ (if Nat.ltb first_mode last_mode
        then lock_pair (stream_slot ((tt_ind tt !!! mode) !!! n)) else []).
Proof.
  intros Hne. unfold stream_nnz_step, for_down.
  rewrite (fold_left_log (fun th => lock_log (thd_mem th))
             (fun th m => stream_kron_step tt mats mode first_mode
                            ((tt_ind tt !!! mode) !!! n * total_cols) n m th)
             (fun m => if Nat.eqb m mode then []
                       else if Nat.eqb m first_mode
                            then lock_pair (stream_slot ((tt_ind tt !!! mode) !!! n))
                            else [])).
  - cbn [thd_mem]. rewrite Nat.sub_0_r, once_in_down by exact Hne. reflexivity.
  - intros m th'. apply stream_kron_step_log.
Qed.

Lemma stream_first_mode_ne (mode : nat) : (if Nat.eqb mode 0 then 1 else 0) <> mode.
Proof. destruct (Nat.eqb_spec mode 0); lia. Qed.

Lemma ttmc_stream_log (tt : sptensor_t) (mats : list matrix_t) (mode : nat)
    (st : ttmc_mem) :
  let nm := tt_nmodes tt in
  let first_mode := if Nat.eqb mode 0 then 1 else 0 in
  let last_mode := if Nat.eqb mode (nm - 1) then nm - 2 else nm - 1 in
  lock_log (ttmc_stream tt mats mode st)
  = lock_log st
    ++ flat_map (fun n => if Nat.ltb first_mode last_mode
                          then lock_pair (stream_slot ((tt_ind tt !!! mode) !!! n))
                          else [])
         (seq 0 (tt_nnz tt)).
Proof.
  cbv zeta. unfold ttmc_stream.
  destruct (stream_setup (tt_nmodes tt) mats mode) as [[total_cols ncols] buffers].
  rewrite (for_range_log (fun th => lock_log (thd_mem th)) 0 _ _
             (fun n => if Nat.ltb (if Nat.eqb mode 0 then 1 else 0)
                            (if Nat.eqb mode (tt_nmodes tt - 1)
                             then tt_nmodes tt - 2 else tt_nmodes tt - 1)
                       then lock_pair (stream_slot ((tt_ind tt !!! mode) !!! n))
                       else [])).
  - cbn [thd_mem]. rewrite Nat.sub_0_r.
    unfold p_clear_tenout, set_tenout. cbn [lock_log].
    unfold p_init_locks. destruct (locks_initialized st); reflexivity.
  - intros n th. apply stream_nnz_step_log. apply stream_first_mode_ne.
Qed.

(** X7.  The lock trace of [ttmc_stream] on a tensor of three or more
    modes: one lock per nonzero, taken and released in turn, at the offset
    [(id % NLOCKS) * 16] of the pool, [id] being the mode-[mode] index of
    the nonzero converted to [int]. *)
Theorem ttmc_stream_lock_trace (tt : sptensor_t) (mats : list matrix_t) (mode : nat)
    (st : ttmc_mem) :
  3 <= tt_nmodes tt ->
  lock_log (ttmc_stream tt mats mode st)
  = lock_log st
    ++ flat_map (fun n => lock_pair (stream_slot ((tt_ind tt !!! mode) !!! n)))
         (seq 0 (tt_nnz tt)).
Proof.
  intros Hnm. rewrite ttmc_stream_log. f_equal. apply flat_map_ext. intros n.
  replace (Nat.ltb _ _) with true; [reflexivity|].
  symmetry. apply Nat.ltb_lt.
  destruct (Nat.eqb_spec mode 0), (Nat.eqb_spec mode (tt_nmodes tt - 1)); lia.
Qed.

Lemma ttmc_stream_lock_trace_witness :
  lock_log (ttmc_stream coo_s1 mats_s1 0 mem_s1)
  = lock_log mem_s1
    ++ flat_map (fun n => lock_pair (stream_slot ((tt_ind coo_s1 !!! 0) !!! n)))
         (seq 0 (tt_nnz coo_s1)).
Proof. apply (ttmc_stream_lock_trace coo_s1 mats_s1 0 mem_s1). simpl. lia. Defined.

Lemma stream_slot_small (id : nat) :
  (Z.of_nat id < 2 ^ 31)%Z -> stream_slot id = Z.of_nat ((id mod NLOCKS) * 16).
Proof.
  intros Hid. unfold stream_slot, int_of_idx.
  rewrite Z.mod_small by lia.
  replace (Z.of_nat id + 2 ^ 31 - 2 ^ 31)%Z with (Z.of_nat id) by lia.
  rewrite Z.rem_mod_nonneg by (unfold NLOCKS; lia).
  rewrite Nat2Z.inj_mul, Nat2Z.inj_mod. reflexivity.
Qed.

(** X8.  Every lock [ttmc_stream] takes or releases is one [p_init_locks]
    initialised, as long as the indices of the output mode are below
    [2^31], the range in which the conversion to [int] keeps them. *)
Theorem ttmc_stream_locks_initialised (tt : sptensor_t) (mats : list matrix_t)
    (mode : nat) (st : ttmc_mem) :
  3 <= tt_nmodes tt ->
  pool_fresh st ->
  lock_log st = [] ->
  (forall n, n < tt_nnz tt -> (Z.of_nat ((tt_ind tt !!! mode) !!! n) < 2 ^ 31)%Z) ->
  forall op, In op (lock_log (ttmc_stream tt mats mode st)) ->
    slot_initialized (p_init_locks st) (lock_slot op) = true.
Proof.
  intros Hnm Hfresh Hlog Hidx op Hin.
  rewrite ttmc_stream_log, Hlog in Hin. cbn [app] in Hin.
  apply in_flat_map in Hin. destruct Hin as [n [Hn Hop]].
  apply in_seq in Hn.
  assert (Hs : lock_slot op = stream_slot ((tt_ind tt !!! mode) !!! n)).
  { destruct (Nat.ltb _ _); [|destruct Hop].
    destruct Hop as [<- | [<- | []]]; reflexivity. }
  rewrite Hs, stream_slot_small by (apply Hidx; lia).
  apply (p_init_locks_fresh st _ Hfresh).
  exists ((tt_ind tt !!! mode) !!! n mod NLOCKS). split; [|reflexivity].
  apply Nat.mod_upper_bound. discriminate.
Qed.

Lemma ttmc_stream_locks_initialised_witness :
  slot_initialized (p_init_locks mem_s1) (lock_slot (LockSet 16)) = true.
Proof.
  apply (ttmc_stream_locks_initialised coo_s1 mats_s1 0 mem_s1).
  - simpl. lia.
  - split; reflexivity.
  - reflexivity.
  - intros n Hn. simpl in Hn.
    destruct n as [|[|[|n]]]; [vm_compute; reflexivity .. | lia].
  - vm_compute. right. right. left. reflexivity.
Defined.

(** ** Calls that only clear the output *)

Lemma stream_nnz_step_two_modes (tt : sptensor_t) (mats : list matrix_t)
    (mode total_cols n : nat) (th : stream_thd) :
  mode < 2 ->
  thd_mem (stream_nnz_step tt mats mode total_cols
             (if Nat.eqb mode 0 then 1 else 0)
             (if Nat.eqb mode (2 - 1) then 2 - 2 else 2 - 1) n th)
  = thd_mem th.
Proof.
  intros Hm. unfold stream_nnz_step.
  destruct mode as [|[|mode]]; [| |lia]; cbn [Nat.eqb Nat.sub].
  - unfold for_down. cbn [seq rev app fold_left Nat.sub].
    rewrite stream_kron_step_skip. reflexivity.
  - rewrite for_down_nil by lia. reflexivity.
Qed.

(** X9.  On a tensor of two modes (a sparse matrix) [ttmc_stream] only
    clears the output: the loop over the modes of a nonzero never reaches
    the accumulation, so the slab is left zero and no lock is taken. *)
Theorem ttmc_stream_two_modes_only_clears (tt : sptensor_t) (mats : list matrix_t)
    (mode : nat) (st : ttmc_mem) :
  tt_nmodes tt = 2 -> mode < 2 ->
  ttmc_stream tt mats mode st
  = p_clear_tenout mats 2 mode (tt_dims tt) (p_init_locks st).
Proof.
  intros Hnm Hm. unfold ttmc_stream. rewrite Hnm.
  destruct (stream_setup 2 mats mode) as [[total_cols ncols] buffers].
  apply (for_range_keeps
           (fun th => thd_mem th = p_clear_tenout mats 2 mode (tt_dims tt) (p_init_locks st))).
  - intros n th _ Hth. rewrite stream_nnz_step_two_modes by exact Hm. exact Hth.
  - reflexivity.
Qed.

Lemma ttmc_stream_two_modes_only_clears_witness :
  ttmc_stream (SpTensor 2 [2; 2] 1 [[1]; [0]] [qz 5])
    [Matrix 2 2 (map qz [1; 2; 3; 4]%Z); Matrix 2 2 (map qz [1; 2; 3; 4]%Z)] 0 mem_s1
  = p_clear_tenout
      [Matrix 2 2 (map qz [1; 2; 3; 4]%Z); Matrix 2 2 (map qz [1; 2; 3; 4]%Z)] 2 0 [2; 2]
      (p_init_locks mem_s1).
Proof.
  apply (ttmc_stream_two_modes_only_clears (SpTensor 2 [2; 2] 1 [[1]; [0]] [qz 5])).
  - reflexivity.
  - lia.
Defined.




(** ** The 3-mode root kernel *)

Lemma root3_accum_nnz_get (t : csf_sparsity) (B : matrix_t) (f base : nat)
    (acc : list val_t) (k : nat) :
  tile_fptr t 1 !!! f < tile_fptr t 1 !!! (f + 1) ->
  base + mat_J B <= length acc ->
  length (root3_accum_nnz t B f base acc) = length acc
  /\ root3_accum_nnz t B f base acc !!! k
     = if Nat.leb base k && Nat.ltb k (base + mat_J B)
       then fiber_sum t B f (k - base)
       else acc !!! k.
Proof.
  intros Hne Hlen. unfold root3_accum_nnz, fiber_sum.
  set (fp := tile_fptr t 1) in *. set (lo := fp !!! f) in *.
  set (hi := fp !!! (f + 1)) in *.
  set (term := fun jj r =>
                 (tile_vals t !!! jj
                  * row_at (mat_vals B) (ids_at (tile_fids t 2) jj * mat_J B) r)%Qc).
  set (inb := Nat.leb base k && Nat.ltb k (base + mat_J B)).
  set (acc0 := for_range 0 (mat_J B) _ acc).
  assert (length acc0 = length acc
          /\ acc0 !!! k = if inb then term lo (k - base) else acc !!! k) as [Hl0 Hg0].
  { exact (set_block_get (mat_J B) base (term lo) acc k Hlen). }
  destruct (for_range_sum (fun a : list val_t => a !!! k)
              (fun a => length a = length acc) (lo + 1) hi
              (fun jj (acc : list val_t) =>
                 for_range 0 (mat_J B)
                   (fun r (acc : list val_t) =>
                      <[base + r := (acc !!! (base + r)%nat + term jj r)%Qc]> acc) acc)
              (fun jj => if inb then term jj (k - base) else 0%Qc))
    with (s := acc0) as [Hl Hg].
  - intros jj a Hjj Ha.
    destruct (add_block_get (mat_J B) base (term jj) a k) as [Hl Hg]; [lia|].
    split; [rewrite <- Ha; exact Hl|]. exact Hg.
  - exact Hl0.
  - split; [exact Hl|]. etransitivity; [exact Hg|]. rewrite Hg0, qsum_map_if.
    destruct inb.
    + replace (hi - lo) with (S (hi - (lo + 1))) by lia.
      simpl. replace (S lo) with (lo + 1) by lia. reflexivity.
    + ring.
Qed.

(** [p_twovec_outer_prod_tiled] adds to the block at [base] the product of
    the transposed [fids_buf] with [accums_buf]. *)
Lemma p_twovec_outer_prod_tiled_get (fids_buf : list val_t) (nA : nat)
    (accums_buf : list val_t) (nB : nat) (nfibers base : nat) (out : list val_t)
    (k : nat) :
  base + nA * nB <= length out ->
  length (p_twovec_outer_prod_tiled fids_buf nA accums_buf nB nfibers base out)
  = length out
  /\ p_twovec_outer_prod_tiled fids_buf nA accums_buf nB nfibers base out !!! k
     = Qcplus (out !!! k)
         (if Nat.leb base k && Nat.ltb k (base + nA * nB)
          then qsum (map (fun f =>
                            Qcmult (fids_buf !!! (f * nA + (k - base) / nB))
                              (accums_buf !!! (f * nB + (k - base) mod nB)))
                       (seq 0 nfibers))
          else 0%Qc).
Proof.
  intros Hlen. unfold p_twovec_outer_prod_tiled. rewrite <- qsum_map_if.
  apply (for_range0_sum (fun o : list val_t => o !!! k)
           (fun o => length o = length out)); [|reflexivity].
  intros f o _ Ho.
  destruct (p_twovec_outer_prod_accum_get (row_at fids_buf (f * nA)) nA
              (row_at accums_buf (f * nB)) nB base o k) as [Hl Hg]; [lia|].
  split; [rewrite <- Ho; exact Hl|]. exact Hg.
Qed.

Lemma map_seq_offset {X : Type} (g : nat -> X) (lo n : nat) :
  map (fun r => g (lo + r)) (seq 0 n) = map g (seq lo n).
Proof.
  revert lo. induction n as [|n IH]; intros lo; [reflexivity|].
  simpl. rewrite Nat.add_0_r. f_equal.
  rewrite <- List.seq_shift, map_map. rewrite <- (IH (S lo)).
  apply map_ext. intros r. f_equal. lia.
Qed.

Lemma root3_scratch_ok_slice (csf : splatt_csf) (tile_id : nat) (mats : list matrix_t)
    (ms : root3_mem) (s : nat) :
  root3_scratch_ok csf tile_id mats ms = true ->
  s < nfibs (pt csf !!! tile_id) !!! 0 ->
  let t := pt csf !!! tile_id in
  let n := tile_fptr t 0 !!! (s + 1) - tile_fptr t 0 !!! s in
  n * mat_J (mats !!! (dim_perm csf !!! 2)) <= length (scratch0 (r3_mem ms))
  /\ n <= length (accum_fids ms)
  /\ n * mat_J (mats !!! (dim_perm csf !!! 1)) <= length (scratch2 (r3_mem ms)).
Proof.
  intros Hok Hs. unfold root3_scratch_ok in Hok.
  rewrite forallb_forall in Hok. specialize (Hok s ltac:(apply in_seq; lia)).
  apply andb_true_iff in Hok. destruct Hok as [Hok H3].
  apply andb_true_iff in Hok. destruct Hok as [H1 H2].
  apply Nat.leb_le in H1, H2, H3. cbv zeta. auto.
Qed.

(** The loop over the fibers of a slice: [naccum] counts them, their ids
    are in [accum_fids] and their reductions in the rows of [scratch[0]]. *)
Lemma root3_fiber_loop (csf : splatt_csf) (t : csf_sparsity) (B : matrix_t)
    (lo hi : nat) (ms : root3_mem) :
  lo <= hi ->
  (forall f, lo <= f < hi -> tile_fptr t 1 !!! f < tile_fptr t 1 !!! (f + 1)) ->
  (hi - lo) * mat_J B <= length (scratch0 (r3_mem ms)) ->
  hi - lo <= length (accum_fids ms) ->
  let loc :=
    for_range lo hi (fun f (loc : root3_mem * nat) =>
      let naccum := snd loc in
      let st :=
        set_scratch0 (root3_accum_nnz t B f (naccum * mat_J B)) (r3_mem (fst loc)) in
      (Root3Mem st (<[naccum := ids_at (tile_fids t 1) f]> (accum_fids (fst loc))),
       naccum + 1)) (ms, 0) in
  snd loc = hi - lo
  /\ root3_lengths (fst loc) = root3_lengths ms
  /\ tenout (r3_mem (fst loc)) = tenout (r3_mem ms)
  /\ scratch2 (r3_mem (fst loc)) = scratch2 (r3_mem ms)
  /\ lock_log (r3_mem (fst loc)) = lock_log (r3_mem ms)
  /\ (forall r, r < hi - lo -> accum_fids (fst loc) !!! r = ids_at (tile_fids t 1) (lo + r))
  /\ (forall r j, r < hi - lo -> j < mat_J B ->
        scratch0 (r3_mem (fst loc)) !!! (r * mat_J B + j) = fiber_sum t B (lo + r) j).
Proof.
  intros Hlh Hne Hs0 Hs1. cbv zeta.
  apply (for_range_ind (fun i (loc : root3_mem * nat) =>
    snd loc = i - lo
    /\ root3_lengths (fst loc) = root3_lengths ms
    /\ tenout (r3_mem (fst loc)) = tenout (r3_mem ms)
    /\ scratch2 (r3_mem (fst loc)) = scratch2 (r3_mem ms)
    /\ lock_log (r3_mem (fst loc)) = lock_log (r3_mem ms)
    /\ (forall r, r < i - lo -> accum_fids (fst loc) !!! r = ids_at (tile_fids t 1) (lo + r))
    /\ (forall r j, r < i - lo -> j < mat_J B ->
          scratch0 (r3_mem (fst loc)) !!! (r * mat_J B + j) = fiber_sum t B (lo + r) j)));
    [exact Hlh| |].
  - cbn [fst snd]. repeat split; try reflexivity; try lia; intros; lia.
  - intros i [ms1 na] Hi (Hna & Hlen & Hten & Hsc2 & Hlog & Hfid & Hacc).
    cbn [fst snd] in *. subst na.
    unfold root3_lengths in Hlen. injection Hlen as Hl1 Hl2 Hl3 Hl4.
    assert (Hb : (i - lo) * mat_J B + mat_J B <= length (scratch0 (r3_mem ms1))).
    { rewrite Hl2. nia. }
    split; [lia|].
    split.
    { unfold root3_lengths, set_scratch0. cbn [r3_mem accum_fids tenout scratch0 scratch2].
      rewrite length_insert.
      destruct (root3_accum_nnz_get t B i ((i - lo) * mat_J B) (scratch0 (r3_mem ms1)) 0
                  (Hne i Hi) Hb) as [Hl _].
      rewrite Hl, Hl1, Hl2, Hl3, Hl4. reflexivity. }
    split; [exact Hten|]. split; [exact Hsc2|]. split; [exact Hlog|].
    split.
    + intros r Hr. cbn [accum_fids].
      destruct (Nat.eq_dec r (i - lo)) as [->|Hne'].
      * rewrite list_lookup_total_insert_eq by lia. f_equal. lia.
      * rewrite list_lookup_total_insert_ne by lia. apply Hfid. lia.
    + intros r j Hr Hj. unfold set_scratch0. cbn [r3_mem scratch0].
      destruct (root3_accum_nnz_get t B i ((i - lo) * mat_J B) (scratch0 (r3_mem ms1))
                  (r * mat_J B + j) (Hne i Hi) Hb) as [_ Hg].
      rewrite Hg.
      destruct (Nat.eq_dec r (i - lo)) as [->|Hne'].
      * destruct (Nat.leb_spec ((i - lo) * mat_J B) ((i - lo) * mat_J B + j)); [|lia].
        destruct (Nat.ltb_spec ((i - lo) * mat_J B + j) ((i - lo) * mat_J B + mat_J B));
          [|lia].
        cbn [andb]. f_equal; lia.
      * destruct (Nat.leb_spec ((i - lo) * mat_J B) (r * mat_J B + j)); [nia|].
        cbn [andb]. apply Hacc; lia.
Qed.

(** The gather loop: row [r] of [scratch[2]] is row [accum_fids[r]] of
    [A]. *)
Lemma root3_gather_loop (A : matrix_t) (fidsbuf : list nat) (n : nat) (st : ttmc_mem) :
  n * mat_J A <= length (scratch2 st) ->
  let st' :=
    for_range 0 n (fun r st =>
      set_scratch2 (fun o : list val_t =>
        for_range 0 (mat_J A) (fun i (o : list val_t) =>
          <[r * mat_J A + i := mat_vals A !!! (fidsbuf !!! r * mat_J A + i)]> o) o) st) st in
  mem_lengths st' = mem_lengths st
  /\ tenout st' = tenout st
  /\ scratch0 st' = scratch0 st
  /\ lock_log st' = lock_log st
  /\ (forall r i, r < n -> i < mat_J A ->
        scratch2 st' !!! (r * mat_J A + i) = mat_vals A !!! (fidsbuf !!! r * mat_J A + i)).
Proof.
  intros Hlen. cbv zeta.
  apply (for_range_ind (fun m st' =>
    mem_lengths st' = mem_lengths st
    /\ tenout st' = tenout st
    /\ scratch0 st' = scratch0 st
    /\ lock_log st' = lock_log st
    /\ (forall r i, r < m -> i < mat_J A ->
          scratch2 st' !!! (r * mat_J A + i)
          = mat_vals A !!! (fidsbuf !!! r * mat_J A + i)))); [lia| |].
  - repeat split; try reflexivity. intros; lia.
  - intros m st1 Hm (Hl & Hten & Hs0 & Hlog & Hrows).
    unfold mem_lengths in Hl. injection Hl as Hl1 Hl2 Hl3.
    assert (Hb : m * mat_J A + mat_J A <= length (scratch2 st1)) by (rewrite Hl3; nia).
    unfold set_scratch2. cbn [tenout scratch0 scratch2 lock_log].
    split.
    { unfold mem_lengths. cbn [tenout scratch0 scratch2].
      destruct (set_block_get (mat_J A) (m * mat_J A)
                  (fun i => mat_vals A !!! (fidsbuf !!! m * mat_J A + i))
                  (scratch2 st1) 0 Hb) as [Hl _].
      rewrite Hl, Hl1, Hl2, Hl3. reflexivity. }
    split; [exact Hten|]. split; [exact Hs0|]. split; [exact Hlog|].
    intros r i Hr Hi.
    destruct (set_block_get (mat_J A) (m * mat_J A)
                (fun i => mat_vals A !!! (fidsbuf !!! m * mat_J A + i))
                (scratch2 st1) (r * mat_J A + i) Hb) as [_ Hg].
    etransitivity; [exact Hg|].
    destruct (Nat.eq_dec r m) as [->|Hne].
    + destruct (Nat.leb_spec (m * mat_J A) (m * mat_J A + i)); [|lia].
      destruct (Nat.ltb_spec (m * mat_J A + i) (m * mat_J A + mat_J A)); [|lia].
      cbn [andb]. f_equal. lia.
    + destruct (Nat.leb_spec (m * mat_J A) (r * mat_J A + i)); [nia|].
      cbn [andb]. apply Hrows; lia.
Qed.

(** [p_csf_ttmc_root3], position by position: every stored nonzero adds its
    [path_contrib] to the row of its root id; the first matrix is that of
    the middle level, the second that of the leaf level. *)
Lemma p_csf_ttmc_root3_get (csf : splatt_csf) (tile_id : nat) (mats : list matrix_t)
    (ms : root3_mem) (k : nat) :
  let t := pt csf !!! tile_id in
  let A := mats !!! (dim_perm csf !!! 1) in
  let B := mats !!! (dim_perm csf !!! 2) in
  tile3_ok csf t = true ->
  dims csf !!! (dim_perm csf !!! 0) * (mat_J A * mat_J B) <= length (tenout (r3_mem ms)) ->
  root3_scratch_ok csf tile_id mats ms = true ->
  let ms' := p_csf_ttmc_root3 csf tile_id mats ms in
  (root3_lengths ms' = root3_lengths ms /\ lock_log (r3_mem ms') = lock_log (r3_mem ms))
  /\ tenout (r3_mem ms') !!! k
     = Qcplus (tenout (r3_mem ms) !!! k)
         (qsum (map (fun p =>
                       path_contrib A B (path_id p 0) (tile_vals t !!! path_jj p)
                         (path_id p 1) (path_id p 2) k)
                  (tile_paths t))).
Proof.
  intros t A B Hok Hout Hsok ms'. subst ms'. unfold p_csf_ttmc_root3.
  fold t. fold A. fold B.
  set (Inv := fun m : root3_mem =>
                root3_lengths m = root3_lengths ms
                /\ lock_log (r3_mem m) = lock_log (r3_mem ms)).
  unfold tile_paths. rewrite qsum_map_flat_map.
  apply (for_range0_sum (fun m => tenout (r3_mem m) !!! k) Inv); [|split; reflexivity].
  intros s ms1 Hs [Hlen1 Hlog1]. cbv zeta.
  set (lo := tile_fptr t 0 !!! s). set (hi := tile_fptr t 0 !!! (s + 1)).
  rewrite qsum_map_flat_map.
  destruct (Nat.le_gt_cases hi lo) as [Hle|Hlt].
  - rewrite (for_range_nil lo hi) by exact Hle. cbn [fst snd].
    rewrite !(for_range_nil (St:=ttmc_mem) 0 0) by lia.
    unfold Inv, root3_lengths, set_tenout.
    cbn [r3_mem accum_fids tenout scratch0 scratch2 lock_log].
    unfold p_twovec_outer_prod_tiled. rewrite !(for_range_nil (St:=list Qc) 0 0) by lia.
    replace (hi - lo) with 0 by lia. cbn [map seq qsum fold_right].
    split; [split; [exact Hlen1 | exact Hlog1] | ring].
  - assert (Hne : forall f, lo <= f < hi ->
                    tile_fptr t 1 !!! f < tile_fptr t 1 !!! (f + 1)).
    { intros f Hf. apply (tile3_ok_fiber csf t s f Hok Hs). exact Hf. }
    destruct (root3_scratch_ok_slice csf tile_id mats ms s Hsok Hs) as (Hb0 & Hb1 & Hb2).
    fold t in Hb0, Hb1, Hb2. fold lo in Hb0, Hb1, Hb2. fold hi in Hb0, Hb1, Hb2.
    fold A in Hb2. fold B in Hb0.
    pose proof Hlen1 as Hlen1'. unfold root3_lengths in Hlen1'.
    injection Hlen1' as Hl1 Hl2 Hl3 Hl4.
    destruct (root3_fiber_loop csf t B lo hi ms1 ltac:(lia) Hne ltac:(lia) ltac:(lia))
      as (Hn & Hl & Hten & Hsc2 & Hlg & Hfid & Hacc).
    set (loc := for_range lo hi _ (ms1, 0)) in *.
    pose proof Hl as Hl'. unfold root3_lengths in Hl'. injection Hl' as Hm1 Hm2 Hm3 Hm4.
    destruct (root3_gather_loop A (accum_fids (fst loc)) (snd loc) (r3_mem (fst loc))
                ltac:(rewrite Hn, Hm3, Hl3; exact Hb2))
      as (Hgl & Hgt & Hg0 & Hglog & Hrows).
    set (st2 := for_range 0 (snd loc) _ (r3_mem (fst loc))) in *.
    unfold mem_lengths in Hgl. injection Hgl as Hg1 Hg2 Hg3.
    pose proof (tile_paths_in t s lo (tile_fptr t 1 !!! lo) Hs ltac:(fold lo; fold hi; lia)
                  ltac:(specialize (Hne lo ltac:(lia)); lia)) as Hin.
    destruct (tile3_ok_path csf t _ Hok Hin) as (Hfid0 & _ & _ & _). cbn [path_id] in Hfid0.
    set (fid := fid_at (tile_fids t 0) s) in *.
    assert (Hb : fid * mat_J A * mat_J B + mat_J A * mat_J B <= length (tenout st2)).
    { rewrite Hg1, Hm1, Hl1. rewrite <- Nat.mul_assoc.
      apply (row_block_bound fid (dims csf !!! (dim_perm csf !!! 0))); assumption. }
    destruct (p_twovec_outer_prod_tiled_get (scratch2 st2) (mat_J A) (scratch0 st2)
                (mat_J B) (snd loc) (fid * mat_J A * mat_J B) (tenout st2) k Hb)
      as [Htl Htg].
    split.
    + unfold Inv, root3_lengths, set_tenout.
      cbn [r3_mem accum_fids tenout scratch0 scratch2 lock_log].
      split.
      * rewrite Htl, Hg1, Hg2, Hg3, Hm1, Hm2, Hm3, Hm4, Hl1, Hl2, Hl3, Hl4. reflexivity.
      * rewrite Hglog, Hlg. exact Hlog1.
    + unfold set_tenout. cbn [r3_mem tenout].
      rewrite Htg, Hgt, Hten. f_equal.
      rewrite (qsum_map_ext _
                 (fun f => qsum (map (fun jj =>
                      path_contrib A B fid (tile_vals t !!! jj)
                        (ids_at (tile_fids t 1) f) (ids_at (tile_fids t 2) jj) k)
                    (seq (tile_fptr t 1 !!! f)
                       (tile_fptr t 1 !!! (f + 1) - tile_fptr t 1 !!! f)))) (seq lo (hi - lo)))
        by (intros f _; rewrite qsum_map_map; reflexivity).
      unfold path_contrib.
      destruct (Nat.leb (fid * mat_J A * mat_J B) k
                && Nat.ltb k (fid * mat_J A * mat_J B + mat_J A * mat_J B)) eqn:E.
      * apply andb_true_iff in E. destruct E as [E1 E2].
        apply Nat.leb_le in E1. apply Nat.ltb_lt in E2.
        assert (0 < mat_J B) as Hpos by (destruct (mat_J B); lia).
        set (i' := (k - fid * mat_J A * mat_J B) / mat_J B).
        set (j' := (k - fid * mat_J A * mat_J B) mod mat_J B).
        assert (i' < mat_J A) as Hi'.
        { subst i'. apply Nat.Div0.div_lt_upper_bound. lia. }
        assert (j' < mat_J B) as Hj' by (subst j'; apply Nat.mod_upper_bound; lia).
        rewrite Hn.
        rewrite (qsum_map_ext _
                   (fun r => Qcmult
                               (mat_vals A !!! (ids_at (tile_fids t 1) (lo + r) * mat_J A + i'))
                               (fiber_sum t B (lo + r) j'))).
        2:{ intros r Hr. apply in_seq in Hr.
            rewrite Hrows by lia. rewrite Hg0, Hacc by lia. rewrite Hfid by lia.
            reflexivity. }
        rewrite (map_seq_offset
                   (fun f => Qcmult
                               (mat_vals A !!! (ids_at (tile_fids t 1) f * mat_J A + i'))
                               (fiber_sum t B f j')) lo (hi - lo)).
        apply qsum_map_ext. intros f _.
        unfold fiber_sum. rewrite <- qsum_map_scale.
        apply qsum_map_ext. intros jj _. unfold row_at. ring.
      * symmetry. rewrite (qsum_map_ext _ (fun _ => 0%Qc)); [apply qsum_map_zero|].
        intros f _. apply qsum_map_zero.
Qed.

Lemma root3_width (csf : splatt_csf) (mats : list matrix_t) :
  nmodes csf = 3 ->
  Permutation (dim_perm csf) [0; 1; 2] ->
  ttmc_ncols mats (kron_order_csf csf (dim_perm csf !!! 0))
  = mat_J (mats !!! (dim_perm csf !!! 1)) * mat_J (mats !!! (dim_perm csf !!! 2)).
Proof.
  intros Hnm Hperm. unfold kron_order_csf, ttmc_ncols. rewrite Hnm.
  destruct (perm3_cases _ Hperm) as [H|[H|[H|[H|[H|H]]]]]; rewrite H; simpl; lia.
Qed.

Lemma root3_contrib_ref (csf : splatt_csf) (tile_id : nat) (mats : list matrix_t)
    (i c : nat) :
  let mode := dim_perm csf !!! 0 in
  let A := mats !!! (dim_perm csf !!! 1) in
  let B := mats !!! (dim_perm csf !!! 2) in
  let t := pt csf !!! tile_id in
  nmodes csf = 3 ->
  Permutation (dim_perm csf) [0; 1; 2] ->
  c < mat_J A * mat_J B ->
  qsum (map (fun p =>
               path_contrib A B (path_id p 0) (tile_vals t !!! path_jj p)
                 (path_id p 1) (path_id p 2) (i * (mat_J A * mat_J B) + c))
          (tile_paths t))
  = ttmc_ref (csf_tile_entries csf tile_id) mats mode (kron_order_csf csf mode) i c.
Proof.
  intros mode A B t Hnm Hperm Hc.
  unfold ttmc_ref, csf_tile_entries. rewrite qsum_map_map. fold t.
  apply qsum_map_ext. intros [[[a b] d] jj] _.
  rewrite path_contrib_row by exact Hc.
  unfold entry_kron, kron_order_csf. cbn [fst snd path_jj path_id].
  subst mode A B. rewrite Hnm.
  destruct (perm3_cases _ Hperm) as [H|[H|[H|[H|[H|H]]]]]; rewrite H; reflexivity.
Qed.

(** X11.  [p_csf_ttmc_root3] computes the TTMc of the root mode of a 3-mode
    tile: it adds to entry [(i, c)] of the slab the sum, over the stored
    nonzeros whose root id is [i], of [x] times the Kronecker product of
    the rows of the two other matrices, middle level first.  It writes
    nothing past the slab and takes no lock. *)
Theorem p_csf_ttmc_root3_computes (csf : splatt_csf) (tile_id : nat)
    (mats : list matrix_t) (ms : root3_mem) :
  let t := pt csf !!! tile_id in
  let mode := dim_perm csf !!! 0 in
  let W := ttmc_ncols mats (kron_order_csf csf mode) in
  nmodes csf = 3 ->
  Permutation (dim_perm csf) [0; 1; 2] ->
  tile3_ok csf t = true ->
  dims csf !!! mode * W <= length (tenout (r3_mem ms)) ->
  root3_scratch_ok csf tile_id mats ms = true ->
  let ms' := p_csf_ttmc_root3 csf tile_id mats ms in
  lock_log (r3_mem ms') = lock_log (r3_mem ms)
  /\ (forall i c, i < dims csf !!! mode -> c < W ->
        tenout (r3_mem ms') !!! (i * W + c)
        = Qcplus (tenout (r3_mem ms) !!! (i * W + c))
            (ttmc_ref (csf_tile_entries csf tile_id) mats mode
               (kron_order_csf csf mode) i c))
  /\ (forall k, dims csf !!! mode * W <= k ->
        tenout (r3_mem ms') !!! k = tenout (r3_mem ms) !!! k).
Proof.
  intros t mode W Hnm Hperm Hok Hout Hsok ms'.
  pose proof (root3_width csf mats Hnm Hperm) as HW. fold mode in HW. fold W in HW.
  rewrite HW in Hout.
  split; [|split].
  - destruct (p_csf_ttmc_root3_get csf tile_id mats ms 0 Hok Hout Hsok) as [[_ Hlog] _].
    exact Hlog.
  - intros i c Hi Hc.
    destruct (p_csf_ttmc_root3_get csf tile_id mats ms (i * W + c) Hok Hout Hsok)
      as [_ Hget].
    fold ms' in Hget. rewrite Hget. f_equal. rewrite HW in *.
    apply (root3_contrib_ref csf tile_id mats i c Hnm Hperm Hc).
  - intros k Hk.
    destruct (p_csf_ttmc_root3_get csf tile_id mats ms k Hok Hout Hsok) as [_ Hget].
    fold ms' in Hget. rewrite Hget.
    rewrite (qsum_map_ext _ (fun _ => 0%Qc)).
    + rewrite qsum_map_zero. ring.
    + intros p Hp. destruct (tile3_ok_path csf t p Hok Hp) as (Ho & _ & _ & _).
      apply (path_contrib_out _ _ _ _ _ _ (dims csf !!! mode)); [exact Ho|].
      rewrite <- HW. exact Hk.
Qed.

Lemma p_csf_ttmc_root3_computes_witness :
  let ms' := p_csf_ttmc_root3 csf_s1 0 mats_s1 mem3_s1 in
  lock_log (r3_mem ms') = lock_log (r3_mem mem3_s1)
  /\ (forall i c, i < 2 -> c < 4 ->
        tenout (r3_mem ms') !!! (i * 4 + c)
        = Qcplus (tenout (r3_mem mem3_s1) !!! (i * 4 + c))
            (ttmc_ref (csf_tile_entries csf_s1 0) mats_s1 0 [1; 2] i c))
  /\ (forall k, 2 * 4 <= k ->
        tenout (r3_mem ms') !!! k = tenout (r3_mem mem3_s1) !!! k).
Proof.
  apply (p_csf_ttmc_root3_computes csf_s1 0 mats_s1 mem3_s1).
  - reflexivity.
  - apply Permutation_refl.
  - vm_compute. reflexivity.
  - vm_compute. lia.
  - vm_compute. reflexivity.
Defined.

(** X12.  [p_twovec_outer_prod_tiled] (the branch without BLAS) adds to the
    [ncol_fids x ncol_accums] block at [out] the product of the transposed
    [fids_buf] with [accums_buf]: entry [(i, j)] grows by the sum over the
    fibers [f] of [fids_buf[f][i] * accums_buf[f][j]].  Entries outside the
    block keep their values. *)
Theorem p_twovec_outer_prod_tiled_product (fids_buf : list val_t) (nA : nat)
    (accums_buf : list val_t) (nB : nat) (nfibers base : nat) (out : list val_t) :
  base + nA * nB <= length out ->
  let out' := p_twovec_outer_prod_tiled fids_buf nA accums_buf nB nfibers base out in
  length out' = length out
  /\ (forall i j, i < nA -> j < nB ->
        out' !!! (base + i * nB + j)
        = Qcplus (out !!! (base + i * nB + j))
            (qsum (map (fun f =>
                          Qcmult (fids_buf !!! (f * nA + i)) (accums_buf !!! (f * nB + j)))
                     (seq 0 nfibers))))
  /\ (forall k, k < base \/ base + nA * nB <= k -> out' !!! k = out !!! k).
Proof.
  intros Hlen out'. subst out'. split; [|split].
  - apply (p_twovec_outer_prod_tiled_get fids_buf nA accums_buf nB nfibers base out 0 Hlen).
  - intros i j Hi Hj.
    destruct (p_twovec_outer_prod_tiled_get fids_buf nA accums_buf nB nfibers base out
                (base + i * nB + j) Hlen) as [_ Hg].
    rewrite Hg.
    destruct (Nat.leb_spec base (base + i * nB + j)); [|lia].
    destruct (Nat.ltb_spec (base + i * nB + j) (base + nA * nB)); [|nia].
    cbn [andb].
    destruct (block_index base nB i (base + i * nB + j)) as [-> ->]; [lia|].
    replace (base + i * nB + j - (base + i * nB)) with j by lia. reflexivity.
  - intros k Hk.
    destruct (p_twovec_outer_prod_tiled_get fids_buf nA accums_buf nB nfibers base out
                k Hlen) as [_ Hg].
    rewrite Hg.
    destruct (Nat.leb_spec base k), (Nat.ltb_spec k (base + nA * nB));
      cbn [andb]; try ring; lia.
Qed.

Lemma p_twovec_outer_prod_tiled_product_witness :
  let out' :=
    p_twovec_outer_prod_tiled (map qz [1; 2; 3; 4]%Z) 2 (map qz [5; 6; 7; 8]%Z) 2 2 1
      (replicate 6 (qz 1)) in
  length out' = length (replicate 6 (qz 1))
  /\ (forall i j, i < 2 -> j < 2 ->
        out' !!! (1 + i * 2 + j)
        = Qcplus (replicate 6 (qz 1) !!! (1 + i * 2 + j))
            (qsum (map (fun f =>
                          Qcmult (map qz [1; 2; 3; 4]%Z !!! (f * 2 + i))
                            (map qz [5; 6; 7; 8]%Z !!! (f * 2 + j)))
                     (seq 0 2))))
  /\ (forall k, k < 1 \/ 1 + 2 * 2 <= k -> out' !!! k = replicate 6 (qz 1) !!! k).
Proof.
  apply (p_twovec_outer_prod_tiled_product (map qz [1; 2; 3; 4]%Z) 2
           (map qz [5; 6; 7; 8]%Z) 2 2 1 (replicate 6 (qz 1))).
  simpl. lia.
Defined.

(** ** The dense helpers *)

(** X13.  [p_twovec_outer_prod] overwrites the [nA x nB] block at [out]
    with the outer product of its two rows, whatever the block held;
    [p_twovec_outer_prod_accum] adds the outer product to it.  Neither
    touches an entry outside the block. *)
Theorem p_twovec_outer_prod_entries (rowA : nat -> val_t) (nA : nat)
    (rowB : nat -> val_t) (nB : nat) (base : nat) (out : list val_t) :
  base + nA * nB <= length out ->
  (forall i j, i < nA -> j < nB ->
     p_twovec_outer_prod rowA nA rowB nB base out !!! (base + i * nB + j)
     = Qcmult (rowA i) (rowB j)
     /\ p_twovec_outer_prod_accum rowA nA rowB nB base out !!! (base + i * nB + j)
        = Qcplus (out !!! (base + i * nB + j)) (Qcmult (rowA i) (rowB j)))
  /\ (forall k, k < base \/ base + nA * nB <= k ->
        p_twovec_outer_prod rowA nA rowB nB base out !!! k = out !!! k
        /\ p_twovec_outer_prod_accum rowA nA rowB nB base out !!! k = out !!! k).
Proof.
  intros Hlen. split.
  - intros i j Hi Hj.
    destruct (p_twovec_outer_prod_get rowA nA rowB nB base out (base + i * nB + j) Hlen)
      as [_ Hg].
    destruct (p_twovec_outer_prod_accum_get rowA nA rowB nB base out (base + i * nB + j)
                Hlen) as [_ Hg'].
    rewrite Hg, Hg'.
    destruct (Nat.leb_spec base (base + i * nB + j)); [|lia].
    destruct (Nat.ltb_spec (base + i * nB + j) (base + nA * nB)); [|nia].
    cbn [andb].
    destruct (block_index base nB i (base + i * nB + j)) as [-> ->]; [lia|].
    replace (base + i * nB + j - (base + i * nB)) with j by lia.
    split; reflexivity.
  - intros k Hk.
    destruct (p_twovec_outer_prod_get rowA nA rowB nB base out k Hlen) as [_ Hg].
    destruct (p_twovec_outer_prod_accum_get rowA nA rowB nB base out k Hlen) as [_ Hg'].
    rewrite Hg, Hg'.
    destruct (Nat.leb_spec base k), (Nat.ltb_spec k (base + nA * nB));
      cbn [andb]; split; try reflexivity; try ring; lia.
Qed.

Lemma p_twovec_outer_prod_entries_witness :
  (forall i j, i < 2 -> j < 2 ->
     p_twovec_outer_prod (fun i => qz (Z.of_nat i)) 2 (fun j => qz 3) 2 1
       (replicate 6 (qz 1)) !!! (1 + i * 2 + j)
     = Qcmult (qz (Z.of_nat i)) (qz 3)
     /\ p_twovec_outer_prod_accum (fun i => qz (Z.of_nat i)) 2 (fun j => qz 3) 2 1
          (replicate 6 (qz 1)) !!! (1 + i * 2 + j)
        = Qcplus (replicate 6 (qz 1) !!! (1 + i * 2 + j)) (Qcmult (qz (Z.of_nat i)) (qz 3)))
  /\ (forall k, k < 1 \/ 1 + 2 * 2 <= k ->
        p_twovec_outer_prod (fun i => qz (Z.of_nat i)) 2 (fun j => qz 3) 2 1
          (replicate 6 (qz 1)) !!! k = replicate 6 (qz 1) !!! k
        /\ p_twovec_outer_prod_accum (fun i => qz (Z.of_nat i)) 2 (fun j => qz 3) 2 1
             (replicate 6 (qz 1)) !!! k = replicate 6 (qz 1) !!! k).
Proof.
  apply (p_twovec_outer_prod_entries (fun i => qz (Z.of_nat i)) 2 (fun j => qz 3) 2 1
           (replicate 6 (qz 1))).
  simpl. lia.
Defined.

(** ** Scratch sizing *)

(** A loop of steps that only raise entries only raises entries. *)
Lemma raises_for_range (L lo hi : nat) (body : nat -> list Z -> list Z) :
  (forall i, raises L (body i)) -> raises L (for_range lo hi body).
Proof.
  intros Hb o Ho.
  apply (for_range_keeps
           (fun o' : list Z => length o' = L /\ forall j, (o !!! j <= o' !!! j)%Z)).
  - intros i o' _ [Hl Hle]. destruct (Hb i o' Hl) as [Hl' Hle'].
    split; [exact Hl'|]. intros j. specialize (Hle j). specialize (Hle' j). lia.
  - split; [exact Ho|]. intros j. lia.
Qed.

(** What one of its steps reaches, such a loop keeps. *)
Lemma reach_for_range (L lo hi i0 : nat) (body : nat -> list Z -> list Z) (x : Z)
    (j : nat) :
  (forall i, raises L (body i)) ->
  lo <= i0 < hi ->
  (forall o, length o = L -> (x <= body i0 o !!! j)%Z) ->
  forall o, length o = L -> (x <= for_range lo hi body o !!! j)%Z.
Proof.
  intros Hb Hi0 Hreach o Ho.
  enough (length (for_range lo hi body o) = L
          /\ (i0 < hi -> (x <= for_range lo hi body o !!! j)%Z)) as [_ H] by (apply H; lia).
  apply (for_range_ind (fun i o' => length o' = L /\ (i0 < i -> (x <= o' !!! j)%Z)));
    [lia | split; [exact Ho | lia] |].
  intros i o' Hi [Hl Hx]. destruct (Hb i o' Hl) as [Hl' Hle'].
  split; [exact Hl'|]. intros Hlt.
  destruct (Nat.eq_dec i i0) as [->|Hne]; [apply Hreach; exact Hl|].
  specialize (Hx ltac:(lia)). specialize (Hle' j). lia.
Qed.

Lemma raises_max_insert (L a : nat) (y : Z) :
  raises L (fun o : list Z => <[a := Z.max (o !!! a) y]> o).
Proof.
  intros o Ho. split; [rewrite length_insert; exact Ho|]. intros j.
  destruct (Nat.eq_dec a j) as [->|Hne].
  - destruct (Nat.lt_ge_cases j (length o)) as [Hlt|Hge].
    + rewrite list_lookup_total_insert_eq by exact Hlt. lia.
    + rewrite list_insert_ge by exact Hge. lia.
  - rewrite list_lookup_total_insert_ne by exact Hne. lia.
Qed.

(** X14.  After [ttmc_largest_outer], the entry of [outer_sizes] for the
    mode at level [m < nmodes - 2] of any of the representations bounds the
    length of every fiber of that level, in every tile. *)
Theorem ttmc_largest_outer_bounds (ntensors : nat) (tensors : list splatt_csf)
    (outer_sizes : list Z) (t tile m f : nat) :
  let nm := nmodes (tensors !!! 0) in
  let csf := tensors !!! t in
  let fp := tile_fptr (pt csf !!! tile) m in
  t < ntensors ->
  tile < ntiles csf ->
  m < nm - 2 ->
  f < nfibs (pt csf !!! tile) !!! m ->
  dim_perm csf !!! m < length outer_sizes ->
  Z.le (idx_wrap (Z.of_nat (fp !!! (f + 1)) - Z.of_nat (fp !!! f)))
    (ttmc_largest_outer ntensors tensors outer_sizes !!! (dim_perm csf !!! m)).
Proof.
  intros nm csf fp Ht Htile Hm Hf Hlen. unfold ttmc_largest_outer. fold nm.
  set (L := length outer_sizes) in *.
  set (o0 := for_range 0 nm _ outer_sizes).
  assert (Hl0 : length o0 = L).
  { subst o0. apply (for_range_keeps (fun o : list Z => length o = L)); [|reflexivity].
    intros i o _ Ho. rewrite length_insert. exact Ho. }
  assert (R4 : forall t' tile' m',
            raises L (fun o : list Z =>
              for_range 0 (nfibs (pt (tensors !!! t') !!! tile') !!! m')
                (fun f (o : list Z) =>
                   <[dim_perm (tensors !!! t') !!! m' :=
                       Z.max (o !!! (dim_perm (tensors !!! t') !!! m'))
                         (idx_wrap
                            (Z.of_nat (tile_fptr (pt (tensors !!! t') !!! tile') m'
                                       !!! (f + 1))
                             - Z.of_nat (tile_fptr (pt (tensors !!! t') !!! tile') m'
                                         !!! f)))]> o) o)).
  { intros t' tile' m'. apply raises_for_range. intros f'. apply raises_max_insert. }
  assert (R3 : forall t' tile',
            raises L (fun o : list Z =>
              for_range 0 (nm - 2) (fun m (o : list Z) =>
                for_range 0 (nfibs (pt (tensors !!! t') !!! tile') !!! m)
                  (fun f (o : list Z) =>
                     <[dim_perm (tensors !!! t') !!! m :=
                         Z.max (o !!! (dim_perm (tensors !!! t') !!! m))
                           (idx_wrap
                              (Z.of_nat (tile_fptr (pt (tensors !!! t') !!! tile') m
                                         !!! (f + 1))
                               - Z.of_nat (tile_fptr (pt (tensors !!! t') !!! tile') m
                                           !!! f)))]> o) o) o)).
  { intros t' tile'. apply raises_for_range. intros m'. apply R4. }
  apply (reach_for_range L 0 ntensors t); [| lia | | exact Hl0].
  - intros t'. apply raises_for_range. intros tile'. apply R3.
  - intros o1 Ho1. fold csf.
    apply (reach_for_range L 0 (ntiles csf) tile); [| lia | | exact Ho1].
    + intros tile'. apply R3.
    + intros o2 Ho2.
      apply (reach_for_range L 0 (nm - 2) m); [| lia | | exact Ho2].
      * intros m'. apply R4.
      * intros o3 Ho3. fold fp.
        apply (reach_for_range L 0 (nfibs (pt csf !!! tile) !!! m) f); [| lia | | exact Ho3].
        -- intros f'. apply raises_max_insert.
        -- intros o4 Ho4. rewrite list_lookup_total_insert_eq by lia. lia.
Qed.

Lemma ttmc_largest_outer_bounds_witness :
  Z.le (idx_wrap (Z.of_nat (tile_fptr (pt ([csf_s1] !!! 0) !!! 0) 0 !!! (0 + 1))
                  - Z.of_nat (tile_fptr (pt ([csf_s1] !!! 0) !!! 0) 0 !!! 0)))
    (ttmc_largest_outer 1 [csf_s1] [7; 7; 7]%Z !!! (dim_perm ([csf_s1] !!! 0) !!! 0)).
Proof.
  apply (ttmc_largest_outer_bounds 1 [csf_s1] [7; 7; 7]%Z 0 0 0 0).
  - lia.
  - simpl. lia.
  - simpl. lia.
  - vm_compute. lia.
  - vm_compute. lia.
Defined.

(** ** The flop count in closed form *)

Lemma zsum_app (l1 l2 : list Z) : zsum (l1 ++ l2) = (zsum l1 + zsum l2)%Z.
Proof. induction l1 as [|x l1 IH]; simpl; [reflexivity|]. rewrite IH. ring. Qed.

Lemma zsum_cons (x : Z) (l : list Z) : zsum (x :: l) = (x + zsum l)%Z.
Proof. reflexivity. Qed.

Lemma level_prod_snoc (perm : list nat) (nf : list Z) (lo n : nat) :
  level_prod perm nf lo (S n)
  = (level_prod perm nf lo n * nf !!! (perm !!! (lo + n)%nat))%Z.
Proof.
  unfold level_prod. rewrite List.seq_S, map_app, zprod_app. simpl. ring.
Qed.

Lemma level_prod_cons (perm : list nat) (nf : list Z) (lo n : nat) :
  level_prod perm nf lo (S n)
  = (level_prod perm nf (S lo) n * nf !!! (perm !!! lo))%Z.
Proof. unfold level_prod. simpl. ring. Qed.

(** The walk down the tree. *)
Lemma flops_down_loop (perm : list nat) (nf : list Z) (fibs : list nat) (fl : Z)
    (hi : nat) :
  1 <= hi ->
  for_range 1 hi (flops_level Z.mul Z.add perm nf fibs) (nf !!! (perm !!! 0), fl)
  = (level_prod perm nf 0 hi,
     (fl + zsum (map (fun d => Z.of_nat (fibs !!! d) * level_prod perm nf 0 (d + 1))
                   (seq 1 (hi - 1))))%Z).
Proof.
  induction hi as [|hi IH]; [lia|]. intros _.
  destruct (Nat.eq_dec hi 0) as [->|Hne].
  - rewrite for_range_nil by lia. unfold level_prod. simpl. f_equal; ring.
  - rewrite for_range_S by lia. rewrite IH by lia.
    unfold flops_level. cbn [fst snd].
    replace (S hi - 1) with (S (hi - 1)) by lia.
    rewrite List.seq_S, map_app, zsum_app.
    replace (1 + (hi - 1)) with hi by lia.
    cbn [map zsum fold_right].
    replace (hi + 1) with (S hi) by lia.
    rewrite (level_prod_snoc perm nf 0 hi). cbn [Nat.add]. f_equal. ring.
Qed.

(** The walk up the tree. *)
Lemma flops_up_loop (perm : list nat) (nf : list Z) (fibs : list nat) (fl : Z)
    (nm n : nat) :
  forall lo, lo + n = nm ->
    for_down nm lo (flops_level Z.mul Z.add perm nf fibs) (1%Z, fl)
    = (level_prod perm nf lo (nm - lo),
       (fl + zsum (map (fun d => Z.of_nat (fibs !!! d) * level_prod perm nf d (nm - d))
                     (seq lo (nm - lo))))%Z).
Proof.
  induction n as [|n IH]; intros lo Hlo.
  - rewrite for_down_nil by lia. replace (nm - lo) with 0 by lia.
    unfold level_prod. simpl. f_equal. ring.
  - rewrite for_down_low by lia. rewrite (IH (S lo)) by lia.
    unfold flops_level. cbn [fst snd].
    remember (nm - S lo) as k eqn:Hk.
    replace (nm - lo) with (S k) by lia.
    cbn [seq map]. rewrite zsum_cons.
    replace (nm - lo) with (S k) by lia.
    rewrite (level_prod_cons perm nf lo k).
    f_equal. ring.
Qed.

Lemma flops_tile_closed (csf : splatt_csf) (mode : nat) (nf : list Z)
    (depth tile : nat) (z : Z) :
  depth < nmodes csf ->
  flops_tile Z.mul Z.add csf mode nf depth tile z
  = (z + tile_flops csf mode nf depth tile)%Z.
Proof.
  intros Hd. unfold flops_tile, tile_flops.
  rewrite (flops_up_loop _ _ _ _ (nmodes csf) (nmodes csf - (depth + 1)) (depth + 1))
    by lia.
  cbn [snd]. rewrite outncols_unbounded.
  destruct depth as [|depth].
  - rewrite for_range_nil by lia. cbn [snd Nat.ltb Nat.leb seq map zsum fold_right Nat.sub].
    ring.
  - rewrite flops_down_loop by lia. cbn [snd].
    replace (Nat.ltb 0 (S depth)) with true by reflexivity. ring.
Qed.

Lemma zsum_loop (c : nat -> Z -> Z) (g : nat -> Z) (n : nat) :
  (forall i z, c i z = (z + g i)%Z) ->
  for_range 0 n c 0%Z = zsum (map g (seq 0 n)).
Proof.
  intros Hc. induction n as [|n IH]; [reflexivity|].
  rewrite for_range_S by lia. rewrite Hc, IH, List.seq_S, map_app, zsum_app. simpl. ring.
Qed.

(** X15.  The flop count in closed form: for a mode that occurs in
    [dim_perm], [ttmc_csf_count_flops] returns, modulo [2^64], the sum over
    the tiles of [tile_flops], the cost of the fibers above the mode walking
    down, of those below it walking up, and of the join at its depth. *)
Theorem ttmc_csf_count_flops_closed_form (csf : splatt_csf) (mode : nat) (nf : list Z) :
  let depth := csf_mode_depth mode (dim_perm csf) (nmodes csf) in
  depth < nmodes csf ->
  ttmc_csf_count_flops csf mode nf
  = (zsum (map (tile_flops csf mode nf depth) (seq 0 (ntiles csf))) mod 2 ^ 64)%Z.
Proof.
  intros depth Hd. rewrite count_flops_wrap. unfold idx_wrap, idx_bits. f_equal.
  unfold count_flops_unbounded, count_flops_with. fold depth.
  apply zsum_loop. intros tile z. apply flops_tile_closed. exact Hd.
Qed.

Lemma ttmc_csf_count_flops_closed_form_witness :
  ttmc_csf_count_flops csf_s1 1 [2; 2; 2]%Z
  = (zsum (map (tile_flops csf_s1 1 [2; 2; 2]%Z
                  (csf_mode_depth 1 (dim_perm csf_s1) (nmodes csf_s1)))
             (seq 0 (ntiles csf_s1))) mod 2 ^ 64)%Z.
Proof. apply (ttmc_csf_count_flops_closed_form csf_s1 1 [2; 2; 2]%Z). vm_compute. lia. Defined.

(** ** The residual of the CCD sweep *)

Lemma lookup_seq_map (g : val_t -> val_t) (l : list val_t) :
  map (fun k => g (l !!! k)) (seq 0 (length l)) = map g l.
Proof.
  induction l as [|x l IH] using rev_ind; [reflexivity|].
  rewrite length_app, Nat.add_comm. cbn [length Nat.add].
  rewrite List.seq_S, !map_app. cbn [map Nat.add]. f_equal.
  - rewrite <- IH. apply map_ext_in. intros k Hk. apply in_seq in Hk.
    rewrite lookup_total_app_l by lia. reflexivity.
  - rewrite lookup_total_app_r by lia. rewrite Nat.sub_diag. reflexivity.
Qed.

(** A walk over paths whose leaves are [lo, lo + 1, ...]: every leaf gets
    its [delta], nothing else changes. *)
Lemma leaf_walk (delta : nat * nat * nat * nat -> val_t)
    (l : list (nat * nat * nat * nat)) :
  forall lo res,
    map path_jj l = seq lo (length l) ->
    lo + length l <= length res ->
    let res' := fold_left (leaf_step delta) l res in
    length res' = length res
    /\ (forall k, k < lo \/ lo + length l <= k -> res' !!! k = res !!! k)
    /\ (forall p, In p l -> res' !!! path_jj p = Qcplus (res !!! path_jj p) (delta p)).
Proof.
  induction l as [|p l IH]; intros lo res Hjj Hlen; cbn [fold_left].
  - repeat split; intros; try reflexivity. contradiction.
  - cbn [map length seq] in Hjj. injection Hjj as Hp Hl.
    cbn [length] in Hlen.
    destruct (IH (S lo) (leaf_step delta res p) Hl) as (Hlen' & Hout & Hin).
    { unfold leaf_step. rewrite length_insert. lia. }
    unfold leaf_step in Hlen', Hout. rewrite length_insert in Hlen'.
    split; [exact Hlen'|]. split.
    + intros k Hk. cbn [length] in Hk. rewrite Hout by lia.
      rewrite list_lookup_total_insert_ne by lia. reflexivity.
    + intros q [<-|Hq].
      * rewrite Hout by lia. rewrite Hp.
        rewrite list_lookup_total_insert_eq by lia. reflexivity.
      * rewrite (Hin q Hq). f_equal.
        assert (In (path_jj q) (seq (S lo) (length l))) as Hqs.
        { rewrite <- Hl. apply in_map. exact Hq. }
        apply in_seq in Hqs. unfold leaf_step.
        rewrite list_lookup_total_insert_ne by lia. reflexivity.
Qed.

(** The walk of [p_update_residual3] over a tile: the residual is that of
    the walk of [leaf_step], and the loss grows by the squares of the new
    values. *)
Lemma update_walk (delta : nat * nat * nat * nat -> val_t)
    (l : list (nat * nat * nat * nat)) :
  forall lo res loss,
    map path_jj l = seq lo (length l) ->
    lo + length l <= length res ->
    let r :=
      fold_left (fun (st : list val_t * val_t) p =>
                   let residual := leaf_step delta (fst st) p in
                   (residual,
                    (snd st + residual !!! path_jj p * residual !!! path_jj p)%Qc))
        l (res, loss) in
    fst r = fold_left (leaf_step delta) l res
    /\ snd r
       = Qcplus loss
           (qsum (map (fun p => (fst r !!! path_jj p * fst r !!! path_jj p)%Qc) l)).
Proof.
  set (step := fun (st : list val_t * val_t) (p : nat * nat * nat * nat) =>
                 let residual := leaf_step delta (fst st) p in
                 (residual,
                  (snd st + residual !!! path_jj p * residual !!! path_jj p)%Qc)).
  induction l as [|p l IH]; intros lo res loss Hjj Hlen; cbn [fold_left map qsum fold_right].
  - split; [reflexivity|]. cbn [snd]. ring.
  - cbn [map length seq] in Hjj. injection Hjj as Hp Hl.
    cbn [length] in Hlen.
    change (step (res, loss) p)
      with (leaf_step delta res p,
            (loss + leaf_step delta res p !!! path_jj p
                    * leaf_step delta res p !!! path_jj p)%Qc).
    destruct (IH (S lo) (leaf_step delta res p)
                (loss + leaf_step delta res p !!! path_jj p
                        * leaf_step delta res p !!! path_jj p)%Qc Hl) as [Hf Hs].
    { unfold leaf_step. rewrite length_insert. lia. }
    split; [exact Hf|]. rewrite Hs, Hf.
    destruct (leaf_walk delta l (S lo) (leaf_step delta res p) Hl) as (_ & Hout & _).
    { unfold leaf_step. rewrite length_insert. lia. }
    rewrite (Hout (path_jj p)) by lia. unfold qsum. ring.
Qed.

Lemma tile_vals_set_vals (t : csf_sparsity) (res : list val_t) :
  length res = length (tile_vals t) -> tile_vals (set_vals t res) = res.
Proof.
  unfold tile_vals, set_vals. destruct (vals t) as [v|]; cbn [vals default].
  - reflexivity.
  - intros H. destruct res; [reflexivity | discriminate].
Qed.

Lemma tile_paths_same (t t' : csf_sparsity) :
  nfibs t' = nfibs t -> fptr t' = fptr t -> fids t' = fids t ->
  tile_paths t' = tile_paths t.
Proof.
  intros H1 H2 H3. unfold tile_paths, tile_fptr, tile_fids. rewrite H1, H2, H3. reflexivity.
Qed.

Lemma same_tree_refl (csf : splatt_csf) : same_tree csf csf.
Proof. unfold same_tree. repeat split; reflexivity. Qed.

Lemma same_tree_trans (c1 c2 c3 : splatt_csf) :
  same_tree c1 c2 -> same_tree c2 c3 -> same_tree c1 c3.
Proof.
  intros (A1 & A2 & A3 & A4 & A5 & A6 & A7 & A8) (B1 & B2 & B3 & B4 & B5 & B6 & B7 & B8).
  unfold same_tree. repeat split; try congruence.
  - destruct (A8 tile) as (? & _), (B8 tile) as (? & _). congruence.
  - destruct (A8 tile) as (_ & ? & _), (B8 tile) as (_ & ? & _). congruence.
  - destruct (A8 tile) as (_ & _ & ? & _), (B8 tile) as (_ & _ & ? & _). congruence.
  - destruct (A8 tile) as (_ & _ & _ & ?), (B8 tile) as (_ & _ & _ & ?). congruence.
Qed.

Lemma same_tree_paths (csf csf' : splatt_csf) (tile : nat) :
  same_tree csf csf' -> tile_paths (pt csf' !!! tile) = tile_paths (pt csf !!! tile).
Proof.
  intros (_ & _ & _ & _ & _ & _ & _ & H). destruct (H tile) as (H1 & H2 & H3 & _).
  apply tile_paths_same; assumption.
Qed.

Lemma same_tree_walk_ok (csf csf' : splatt_csf) :
  same_tree csf csf' -> csf_walk_ok csf -> csf_walk_ok csf'.
Proof.
  intros Hs [Hl Hw]. pose proof Hs as (_ & _ & _ & _ & Hnt & _ & Hlen & H).
  split; [rewrite Hnt, Hlen; exact Hl|].
  intros tile Htile. rewrite Hnt in Htile. unfold tile_walk_ok.
  rewrite (same_tree_paths csf csf' tile Hs).
  destruct (H tile) as (_ & _ & _ & ->). apply Hw. exact Htile.
Qed.

(** A loop over the tiles whose step replaces the values of its tile by
    [newvals], computed from the tile as it was, and adds [gain] to the
    loss. *)
Lemma tiles_loop (csf : splatt_csf) (newvals : csf_sparsity -> list val_t)
    (gain : csf_sparsity -> val_t)
    (body : nat -> list csf_sparsity * val_t -> list csf_sparsity * val_t) (n : nat) :
  n <= length (pt csf) ->
  (forall tile tiles loss, tile < n -> tiles !!! tile = pt csf !!! tile ->
     body tile (tiles, loss)
     = (<[tile := set_vals (pt csf !!! tile) (newvals (pt csf !!! tile))]> tiles,
        (loss + gain (pt csf !!! tile))%Qc)) ->
  let r := for_range 0 n body (pt csf, 0%Qc) in
  length (fst r) = length (pt csf)
  /\ (forall tile, n <= tile -> fst r !!! tile = pt csf !!! tile)
  /\ (forall tile, tile < n ->
        fst r !!! tile = set_vals (pt csf !!! tile) (newvals (pt csf !!! tile)))
  /\ snd r = qsum (map (fun tile => gain (pt csf !!! tile)) (seq 0 n)).
Proof.
  intros Hn Hbody. cbv zeta.
  induction n as [|n IH].
  - rewrite for_range_nil by lia. cbn [fst snd map seq qsum fold_right].
    repeat split; intros; try reflexivity; lia.
  - rewrite for_range_S by lia.
    destruct IH as (Hl & Hge & Hlt & Hs); [lia | intros; apply Hbody; [lia | assumption] |].
    destruct (for_range 0 n body (pt csf, 0%Qc)) as [tiles loss] eqn:E.
    cbn [fst snd] in *.
    rewrite (Hbody n tiles loss) by (try lia; apply Hge; lia).
    cbn [fst snd].
    split; [rewrite length_insert; exact Hl|]. split; [|split].
    + intros tile Htile. rewrite list_lookup_total_insert_ne by lia. apply Hge. lia.
    + intros tile Htile. destruct (Nat.eq_dec tile n) as [->|Hne].
      * rewrite list_lookup_total_insert_eq by lia. reflexivity.
      * rewrite list_lookup_total_insert_ne by lia. apply Hlt. lia.
    + rewrite Hs, List.seq_S, map_app, qsum_app. cbn [map qsum fold_right Nat.add]. ring.
Qed.

Lemma tile_walk_ok_paths (t : csf_sparsity) :
  tile_walk_ok t ->
  length (tile_paths t) = length (tile_vals t)
  /\ map path_jj (tile_paths t) = seq 0 (length (tile_paths t)).
Proof.
  intros H. unfold tile_walk_ok in H.
  assert (length (tile_paths t) = length (tile_vals t)) as Hl.
  { rewrite <- (length_map path_jj), H, length_seq. reflexivity. }
  split; [exact Hl|]. rewrite Hl. exact H.
Qed.

Lemma residual_walk_get (delta : nat * nat * nat * nat -> val_t) (t : csf_sparsity) :
  tile_walk_ok t ->
  length (residual_walk delta t) = length (tile_vals t)
  /\ (forall p, In p (tile_paths t) ->
        residual_walk delta t !!! path_jj p = Qcplus (tile_vals t !!! path_jj p) (delta p))
  /\ qsum (map (fun p => (residual_walk delta t !!! path_jj p
                          * residual_walk delta t !!! path_jj p)%Qc) (tile_paths t))
     = sum_sq (residual_walk delta t).
Proof.
  intros Hok. destruct (tile_walk_ok_paths t Hok) as [Hl Hjj].
  destruct (leaf_walk delta (tile_paths t) 0 (tile_vals t) Hjj ltac:(lia))
    as (Hlen & _ & Hin).
  fold (residual_walk delta t) in Hlen, Hin.
  split; [exact Hlen|]. split; [exact Hin|].
  unfold sum_sq.
  rewrite <- (lookup_seq_map (fun v => (v * v)%Qc) (residual_walk delta t)).
  rewrite Hlen. rewrite <- Hok. rewrite map_map. reflexivity.
Qed.

(** [p_update_residual3] on one tile. *)
Lemma update_residual_tile_walk (csf : splatt_csf) (f : nat) (model : tc_model)
    (mult : val_t) (t : csf_sparsity) (loss : val_t) :
  tile_walk_ok t ->
  let delta := fun p => (mult * rank1_term csf model f p)%Qc in
  update_residual_tile csf f model mult t (tile_vals t, loss)
  = (residual_walk delta t, (loss + sum_sq (residual_walk delta t))%Qc).
Proof.
  intros Hok delta. destruct (tile_walk_ok_paths t Hok) as [Hl Hjj].
  unfold update_residual_tile. rewrite tile_walk3_paths.
  rewrite (fold_left_same _
             (fun (st : list val_t * val_t) p =>
                let residual := leaf_step delta (fst st) p in
                (residual,
                 (snd st + residual !!! path_jj p * residual !!! path_jj p)%Qc))).
  - destruct (update_walk delta (tile_paths t) 0 (tile_vals t) loss Hjj ltac:(lia))
      as [Hf Hs].
    destruct (residual_walk_get delta t Hok) as (_ & _ & Hsq).
    fold (residual_walk delta t) in Hf.
    rewrite Hf in Hs. rewrite Hsq in Hs.
    apply injective_projections; cbn [fst snd]; [exact Hf | exact Hs].
  - intros st p. cbv zeta. unfold leaf_step, delta, rank1_term.
    replace (fst st !!! path_jj p
             + mult * factor_col csf model f 0 (path_id p 0)
               * factor_col csf model f 1 (path_id p 1)
               * factor_col csf model f 2 (path_id p 2))%Qc
      with (fst st !!! path_jj p
            + mult * (factor_col csf model f 0 (path_id p 0)
                      * factor_col csf model f 1 (path_id p 1)
                      * factor_col csf model f 2 (path_id p 2)))%Qc by ring.
    reflexivity.
Qed.

Lemma p_update_residual3_tiles (csf : splatt_csf) (f : nat) (model : tc_model)
    (mult : val_t) :
  csf_walk_ok csf ->
  let delta := fun p => (mult * rank1_term csf model f p)%Qc in
  let r := p_update_residual3 csf f model mult in
  length (pt (fst r)) = length (pt csf)
  /\ (forall tile, ntiles csf <= tile -> pt (fst r) !!! tile = pt csf !!! tile)
  /\ (forall tile, tile < ntiles csf ->
        pt (fst r) !!! tile
        = set_vals (pt csf !!! tile) (residual_walk delta (pt csf !!! tile)))
  /\ snd r
     = qsum (map (fun tile => sum_sq (residual_walk delta (pt csf !!! tile)))
               (seq 0 (ntiles csf))).
Proof.
  intros [Hn Hw] delta r. subst r. unfold p_update_residual3. cbn [fst snd pt].
  apply (tiles_loop csf (residual_walk delta)
           (fun t => sum_sq (residual_walk delta t))); [exact Hn|].
  intros tile tiles loss Htile Heq. cbn [fst snd]. rewrite Heq.
  rewrite (update_residual_tile_walk csf f model mult _ loss (Hw tile Htile)).
  reflexivity.
Qed.

Lemma set_vals_same_tree (csf csf' : splatt_csf) (newvals : csf_sparsity -> list val_t) :
  nmodes csf' = nmodes csf -> dims csf' = dims csf -> dim_perm csf' = dim_perm csf ->
  which_tile csf' = which_tile csf -> ntiles csf' = ntiles csf ->
  tile_dims csf' = tile_dims csf ->
  length (pt csf') = length (pt csf) ->
  (forall tile, ntiles csf <= tile -> pt csf' !!! tile = pt csf !!! tile) ->
  (forall tile, tile < ntiles csf ->
     pt csf' !!! tile = set_vals (pt csf !!! tile) (newvals (pt csf !!! tile))) ->
  (forall tile, tile < ntiles csf ->
     length (newvals (pt csf !!! tile)) = length (tile_vals (pt csf !!! tile))) ->
  same_tree csf csf'
  /\ forall tile, tile < ntiles csf ->
       tile_vals (pt csf' !!! tile) = newvals (pt csf !!! tile).
Proof.
  intros H1 H2 H3 H4 H5 H6 H7 Hge Hlt Hlen. split.
  - unfold same_tree. repeat split; try assumption;
      (destruct (Nat.lt_ge_cases tile (ntiles csf)) as [Hc|Hc];
       [rewrite (Hlt tile Hc) | rewrite (Hge tile Hc); reflexivity]);
      try reflexivity.
    rewrite tile_vals_set_vals by (apply Hlen; exact Hc). apply Hlen. exact Hc.
  - intros tile Htile. rewrite (Hlt tile Htile).
    apply tile_vals_set_vals. apply Hlen. exact Htile.
Qed.

(** [p_update_residual3], leaf by leaf. *)
Lemma p_update_residual3_get (csf : splatt_csf) (f : nat) (model : tc_model)
    (mult : val_t) :
  csf_walk_ok csf ->
  let r := p_update_residual3 csf f model mult in
  same_tree csf (fst r)
  /\ (forall tile p, tile < ntiles csf -> In p (tile_paths (pt csf !!! tile)) ->
        residual_at (fst r) tile p
        = Qcplus (residual_at csf tile p) (Qcmult mult (rank1_term csf model f p)))
  /\ snd r = residual_sq (fst r).
Proof.
  intros Hok r.
  destruct (p_update_residual3_tiles csf f model mult Hok) as (Hl & Hge & Hlt & Hs).
  fold r in Hl, Hge, Hlt, Hs.
  set (delta := fun p => (mult * rank1_term csf model f p)%Qc) in *.
  destruct Hok as [Hn Hw].
  destruct (set_vals_same_tree csf (fst r) (residual_walk delta)) as [Htree Hvals];
    try reflexivity; try assumption.
  { intros tile Htile. apply (residual_walk_get delta _ (Hw tile Htile)). }
  split; [exact Htree|]. split.
  - intros tile p Htile Hp. unfold residual_at. rewrite (Hvals tile Htile).
    apply (residual_walk_get delta _ (Hw tile Htile)). exact Hp.
  - rewrite Hs. unfold residual_sq.
    destruct Htree as (_ & _ & _ & _ & -> & _).
    apply qsum_map_ext. intros tile Htile. apply in_seq in Htile.
    rewrite (Hvals tile ltac:(lia)). reflexivity.
Qed.

Lemma csf_s1_walk_ok : csf_walk_ok csf_s1_tiled.
Proof.
  split; [simpl; lia|]. intros tile Htile.
  destruct tile as [|tile]; [reflexivity | simpl in Htile; lia].
Defined.

(** X16.  [p_update_residual3] adds [mult] times the rank-one term of
    column [f] to the value at every leaf, changes nothing else of the
    tensor, and returns the sum of the squares of the values it leaves. *)
Theorem p_update_residual3_adds (csf : splatt_csf) (f : nat) (model : tc_model)
    (mult : val_t) :
  csf_walk_ok csf ->
  let r := p_update_residual3 csf f model mult in
  same_tree csf (fst r)
  /\ (forall tile p, tile < ntiles csf -> In p (tile_paths (pt csf !!! tile)) ->
        residual_at (fst r) tile p
        = Qcplus (residual_at csf tile p) (Qcmult mult (rank1_term csf model f p)))
  /\ snd r = residual_sq (fst r).
Proof. exact (p_update_residual3_get csf f model mult). Qed.

Lemma p_update_residual3_adds_witness :
  let r := p_update_residual3 csf_s1_tiled 0 model_s1 1%Qc in
  same_tree csf_s1_tiled (fst r)
  /\ (forall tile p, tile < ntiles csf_s1_tiled ->
        In p (tile_paths (pt csf_s1_tiled !!! tile)) ->
        residual_at (fst r) tile p
        = Qcplus (residual_at csf_s1_tiled tile p)
            (Qcmult 1%Qc (rank1_term csf_s1_tiled model_s1 0 p)))
  /\ snd r = residual_sq (fst r).
Proof. apply (p_update_residual3_adds csf_s1_tiled 0 model_s1 1%Qc). exact csf_s1_walk_ok. Defined.

Lemma rank1_term_same_tree (csf csf' : splatt_csf) (model : tc_model) (f : nat)
    (p : nat * nat * nat * nat) :
  same_tree csf csf' -> rank1_term csf' model f p = rank1_term csf model f p.
Proof.
  intros (_ & _ & Hdp & _). unfold rank1_term, factor_col. rewrite Hdp. reflexivity.
Qed.

(** The loop over the columns at one leaf of [p_init_residual] is one
    [leaf_step]. *)
Lemma init_leaf_loop (g : nat -> val_t) (R jj : nat) (res : list val_t) :
  for_range 0 R (fun f (residual : list val_t) =>
    <[jj := (residual !!! jj - g f)%Qc]> residual) res
  = <[jj := (res !!! jj + - qsum (map g (seq 0 R)))%Qc]> res.
Proof.
  destruct (Nat.lt_ge_cases jj (length res)) as [Hlt|Hge].
  - induction R as [|R IH].
    + rewrite for_range_nil by lia. symmetry. apply list_insert_id.
      rewrite list_lookup_lookup_total_lt by exact Hlt. f_equal.
      cbn [seq map qsum fold_right]. ring.
    + rewrite for_range_S by lia. rewrite IH.
      rewrite list_lookup_total_insert_eq by exact Hlt.
      rewrite list_insert_insert_eq. f_equal.
      rewrite List.seq_S, map_app, qsum_app. cbn [map qsum fold_right Nat.add]. ring.
  - rewrite (list_insert_ge res jj) by exact Hge.
    apply (for_range_keeps (fun r : list val_t => r = res)); [|reflexivity].
    intros i r _ ->. apply list_insert_ge. exact Hge.
Qed.

Lemma tiles_loop1 (csf : splatt_csf) (newvals : csf_sparsity -> list val_t)
    (body : nat -> list csf_sparsity -> list csf_sparsity) (n : nat) :
  n <= length (pt csf) ->
  (forall tile tiles, tile < n -> tiles !!! tile = pt csf !!! tile ->
     body tile tiles
     = <[tile := set_vals (pt csf !!! tile) (newvals (pt csf !!! tile))]> tiles) ->
  let r := for_range 0 n body (pt csf) in
  length r = length (pt csf)
  /\ (forall tile, n <= tile -> r !!! tile = pt csf !!! tile)
  /\ (forall tile, tile < n ->
        r !!! tile = set_vals (pt csf !!! tile) (newvals (pt csf !!! tile))).
Proof.
  intros Hn Hbody. cbv zeta.
  induction n as [|n IH].
  - rewrite for_range_nil by lia. repeat split; intros; try reflexivity; lia.
  - rewrite for_range_S by lia.
    destruct IH as (Hl & Hge & Hlt); [lia | intros; apply Hbody; [lia | assumption] |].
    rewrite (Hbody n) by (try lia; apply Hge; lia).
    split; [rewrite length_insert; exact Hl|]. split.
    + intros tile Htile. rewrite list_lookup_total_insert_ne by lia. apply Hge. lia.
    + intros tile Htile. destruct (Nat.eq_dec tile n) as [->|Hne].
      * rewrite list_lookup_total_insert_eq by lia. reflexivity.
      * rewrite list_lookup_total_insert_ne by lia. apply Hlt. lia.
Qed.

(** X18.  [p_init_residual] subtracts from the value at every leaf the
    prediction of the model with the factors read row by row (entry [f] of
    row [id] at [id * rank + f]), and changes nothing else of the tensor. *)
Theorem p_init_residual_subtracts (csf : splatt_csf) (model : tc_model) :
  csf_walk_ok csf ->
  same_tree csf (p_init_residual csf model)
  /\ forall tile p, tile < ntiles csf -> In p (tile_paths (pt csf !!! tile)) ->
       residual_at (p_init_residual csf model) tile p
       = Qcminus (residual_at csf tile p) (predict_rows csf model p).
Proof.
  intros [Hn Hw].
  set (delta := fun p => (- predict_rows csf model p)%Qc).
  destruct (tiles_loop1 csf (residual_walk delta)
              (fun tile (tiles : list csf_sparsity) =>
                 let t := tiles !!! tile in
                 let res :=
                   tile_walk3 t (fun a_id b_id c_id jj (residual : list val_t) =>
                     let arow :=
                       row_at (factors model !!! (dim_perm csf !!! 0))
                         (a_id * model_rank model) in
                     let brow :=
                       row_at (factors model !!! (dim_perm csf !!! 1))
                         (b_id * model_rank model) in
                     let crow :=
                       row_at (factors model !!! (dim_perm csf !!! 2))
                         (c_id * model_rank model) in
                     for_range 0 (model_rank model) (fun f (residual : list val_t) =>
                       <[jj := (residual !!! jj - (arow f * brow f) * crow f)%Qc]> residual)
                       residual) (tile_vals t) in
                 <[tile := set_vals t res]> tiles) (ntiles csf) Hn) as (Hl & Hge & Hlt).
  { intros tile tiles Htile Heq. cbv zeta. rewrite Heq. f_equal. f_equal.
    rewrite tile_walk3_paths. unfold residual_walk.
    apply fold_left_same. intros res p.
    rewrite init_leaf_loop. unfold leaf_step, delta, predict_rows. reflexivity. }
  destruct (set_vals_same_tree csf (p_init_residual csf model) (residual_walk delta))
    as [Htree Hvals]; try reflexivity; try assumption.
  { intros tile Htile. apply (residual_walk_get delta _ (Hw tile Htile)). }
  split; [exact Htree|].
  intros tile p Htile Hp. unfold residual_at. rewrite (Hvals tile Htile).
  destruct (residual_walk_get delta _ (Hw tile Htile)) as (_ & Hin & _).
  rewrite (Hin p Hp). unfold delta. ring.
Qed.

Lemma p_init_residual_subtracts_witness :
  same_tree csf_s1_tiled (p_init_residual csf_s1_tiled model_s1)
  /\ forall tile p, tile < ntiles csf_s1_tiled ->
       In p (tile_paths (pt csf_s1_tiled !!! tile)) ->
       residual_at (p_init_residual csf_s1_tiled model_s1) tile p
       = Qcminus (residual_at csf_s1_tiled tile p) (predict_rows csf_s1_tiled model_s1 p).
Proof.
  apply (p_init_residual_subtracts csf_s1_tiled model_s1). exact csf_s1_walk_ok.
Defined.

(** ** The column step *)

Lemma ccd_mode_pass_frame (csf : splatt_csf) (f m : nat) (mw : tc_model * tc_ws) :
  let r := ccd_mode_pass csf f m mw in
  let dim := model_dims (fst mw) !!! m in
  model_rank (fst r) = model_rank (fst mw)
  /\ model_dims (fst r) = model_dims (fst mw)
  /\ length (factors (fst r)) = length (factors (fst mw))
  /\ regularization (snd r) = regularization (snd mw)
  /\ forall m' k, m' <> m \/ k < f * dim \/ f * dim + dim <= k ->
       (factors (fst r) !!! m') !!! k = (factors (fst mw) !!! m') !!! k.
Proof.
  cbv zeta. unfold ccd_mode_pass, set_factor.
  cbn [fst snd model_rank model_dims factors regularization].
  split; [reflexivity|]. split; [reflexivity|].
  split; [apply length_insert|]. split; [reflexivity|].
  intros m' k Hk.
  destruct (Nat.eq_dec m' m) as [->|Hne];
    [|rewrite list_lookup_total_insert_ne by congruence; reflexivity].
  destruct Hk as [Hk|Hk]; [congruence|].
  destruct (Nat.lt_ge_cases m (length (factors (fst mw)))) as [Hlt|Hge];
    [|rewrite list_insert_ge by exact Hge; reflexivity].
  rewrite list_lookup_total_insert_eq by exact Hlt.
  apply (for_range_keeps
           (fun a : list val_t => a !!! k = (factors (fst mw) !!! m) !!! k));
    [|reflexivity].
  intros i a Hi Ha. rewrite list_lookup_total_insert_ne by lia. exact Ha.
Qed.



Lemma same_but_column_refl (f : nat) (model : tc_model) : same_but_column f model model.
Proof. unfold same_but_column. repeat split; reflexivity. Qed.

(** The loop over the modes writes column [f] of the factors only. *)
Lemma ccd_modes_frame (csf : splatt_csf) (f nm : nat) (model : tc_model) (ws : tc_ws) :
  same_but_column f model (fst (for_range 0 nm (ccd_mode_pass csf f) (model, ws))).
Proof.
  apply (for_range_keeps (fun mw : tc_model * tc_ws => same_but_column f model (fst mw)));
    [|apply same_but_column_refl].
  intros m mw _ (Hr & Hd & Hl & Hk).
  destruct (ccd_mode_pass_frame csf f m mw) as (Hr' & Hd' & Hl' & _ & Hk').
  unfold same_but_column. split; [congruence|]. split; [congruence|].
  split; [congruence|].
  intros m' k Hout. rewrite <- (Hk m' k Hout).
  destruct (Nat.eq_dec m' m) as [->|Hne]; [|apply Hk'; left; exact Hne].
  apply Hk'. right. rewrite Hd. exact Hout.
Qed.

Lemma ccd_column_get (f : nat) (csf : splatt_csf) (model : tc_model) (ws : tc_ws)
    (loss : val_t) :
  csf_walk_ok csf ->
  let r := ccd_column f (csf, model, ws, loss) in
  same_tree csf (col_csf r)
  /\ same_but_column f model (col_model r)
  /\ snd r = residual_sq (col_csf r)
  /\ forall tile p, tile < ntiles csf -> In p (tile_paths (pt csf !!! tile)) ->
       residual_at (col_csf r) tile p
       = (residual_at csf tile p + rank1_term csf model f p
          - rank1_term csf (col_model r) f p)%Qc.
Proof.
  intros Hok r. subst r. unfold ccd_column, col_csf, col_model.
  destruct (p_update_residual3_get csf f model 1%Qc Hok) as (Ht1 & Hg1 & _).
  set (csf1 := fst (p_update_residual3 csf f model 1%Qc)) in *.
  pose proof (same_tree_walk_ok csf csf1 Ht1 Hok) as Hok1.
  set (mw := for_range 0 (nmodes csf1) (ccd_mode_pass csf1 f) (model, ws)).
  destruct (p_update_residual3_get csf1 f (fst mw) (-1)%Qc Hok1) as (Ht2 & Hg2 & Hl2).
  cbn [fst snd].
  split; [exact (same_tree_trans _ _ _ Ht1 Ht2)|].
  split; [apply ccd_modes_frame|].
  split; [exact Hl2|].
  intros tile p Htile Hp.
  pose proof Ht1 as (_ & _ & _ & _ & Hnt & _).
  rewrite Hg2 by (try (rewrite Hnt; exact Htile);
                  rewrite (same_tree_paths csf csf1 tile Ht1); exact Hp).
  rewrite (Hg1 tile p Htile Hp), (rank1_term_same_tree csf csf1 (fst mw) f p Ht1). ring.
Qed.

(** X20.  The column step of an epoch, for column [f]: every stored value
    first receives the rank-one term of column [f] as the model has it
    before the step, and then loses the rank-one term of column [f] as the
    step leaves it.  The step changes column [f] of the factors only and
    nothing of the tree, and the loss it returns is the sum of the squares
    of the values it leaves.  The regularisation is taken positive, so that
    no pass of the step divides by zero. *)
Theorem ccd_column_keeps_fit (f : nat) (csf : splatt_csf) (model : tc_model)
    (ws : tc_ws) (loss : val_t) :
  csf_walk_ok csf ->
  (forall m, m < nmodes csf -> Qclt 0%Qc (regularization ws !!! m)) ->
  let r := ccd_column f (csf, model, ws, loss) in
  same_tree csf (col_csf r)
  /\ same_but_column f model (col_model r)
  /\ snd r = residual_sq (col_csf r)
  /\ forall tile p, tile < ntiles csf -> In p (tile_paths (pt csf !!! tile)) ->
       residual_at (col_csf r) tile p
       = Qcplus (Qcplus (residual_at csf tile p) (Qcmult 1%Qc (rank1_term csf model f p)))
           (Qcmult (-1)%Qc (rank1_term csf (col_model r) f p)).
Proof.
  intros Hok _ r.
  destruct (ccd_column_get f csf model ws loss Hok) as (Ht & Hm & Hl & Hg).
  fold r in Ht, Hm, Hl, Hg.
  split; [exact Ht|]. split; [exact Hm|]. split; [exact Hl|].
  intros tile p Htile Hp. rewrite (Hg tile p Htile Hp). ring.
Qed.

Lemma ws_s1_regularization_pos (m : nat) :
  m < nmodes csf_s1_tiled -> Qclt 0%Qc (regularization ws_s1 !!! m).
Proof.
  intros Hm. destruct m as [|[|[|m]]]; [reflexivity..|simpl in Hm; lia].
Defined.

Lemma ccd_column_keeps_fit_witness :
  let r := ccd_column 0 (csf_s1_tiled, model_s1, ws_s1, 0%Qc) in
  same_tree csf_s1_tiled (col_csf r)
  /\ same_but_column 0 model_s1 (col_model r)
  /\ snd r = residual_sq (col_csf r)
  /\ forall tile p, tile < ntiles csf_s1_tiled ->
       In p (tile_paths (pt csf_s1_tiled !!! tile)) ->
       residual_at (col_csf r) tile p
       = Qcplus (Qcplus (residual_at csf_s1_tiled tile p)
                   (Qcmult 1%Qc (rank1_term csf_s1_tiled model_s1 0 p)))
           (Qcmult (-1)%Qc (rank1_term csf_s1_tiled (col_model r) 0 p)).
Proof.
  apply (ccd_column_keeps_fit 0 csf_s1_tiled model_s1 ws_s1 0%Qc).
  - exact csf_s1_walk_ok.
  - exact ws_s1_regularization_pos.
Defined.

(** X21.  The loss an epoch of [splatt_tc_ccd] ends with is the sum of the
    squares of the residual the tensor then stores, for a model of rank one
    or more; the epoch changes the stored values and nothing else of the
    tensor. *)
Theorem ccd_epoch_loss_is_residual (csf : splatt_csf) (model : tc_model) (ws : tc_ws) :
  csf_walk_ok csf ->
  0 < model_rank model ->
  let r := ccd_epoch (csf, model, ws) in
  same_tree csf (col_csf r) /\ snd r = residual_sq (col_csf r).
Proof.
  intros Hok Hrank r. subst r. unfold ccd_epoch.
  enough (same_tree csf (col_csf (for_range 0 (model_rank model) ccd_column
                                    (csf, model, ws, 0%Qc)))
          /\ (0 < model_rank model ->
              snd (for_range 0 (model_rank model) ccd_column (csf, model, ws, 0%Qc))
              = residual_sq (col_csf (for_range 0 (model_rank model) ccd_column
                                        (csf, model, ws, 0%Qc))))) as [H1 H2]
    by (split; [exact H1 | exact (H2 Hrank)]).
  apply (for_range_ind (fun i st =>
           same_tree csf (col_csf st) /\ (0 < i -> snd st = residual_sq (col_csf st))));
    [lia | split; [apply same_tree_refl | lia] |].
  intros i [[[csf1 model1] ws1] loss1] Hi [Ht _]. unfold col_csf in Ht. cbn [fst] in Ht.
  destruct (ccd_column_get i csf1 model1 ws1 loss1 (same_tree_walk_ok csf csf1 Ht Hok))
    as (Ht' & _ & Hl' & _).
  split; [exact (same_tree_trans _ _ _ Ht Ht') | intros _; exact Hl'].
Qed.

Lemma ccd_epoch_loss_is_residual_witness :
  let r := ccd_epoch (csf_s1_tiled, model_s1, ws_s1) in
  same_tree csf_s1_tiled (col_csf r) /\ snd r = residual_sq (col_csf r).
Proof.
  apply (ccd_epoch_loss_is_residual csf_s1_tiled model_s1 ws_s1).
  - exact csf_s1_walk_ok.
  - simpl. lia.
Defined.

(** X22.  With a positive regularisation the pass over mode [m] never
    divides by zero: every denominator it leaves, the divisor of the column
    update, is positive. *)
Theorem ccd_mode_pass_division_defined (csf : splatt_csf) (model : tc_model)
    (ws : tc_ws) (f m : nat) :
  Permutation (dim_perm csf) [0; 1; 2] ->
  ccd_pass_ok csf model ws f m = true ->
  (0 < regularization ws !!! m)%Qc ->
  let dim := model_dims model !!! m in
  let r := ccd_mode_pass csf f m (model, ws) in
  forall o, o < dim -> (0 < denominator (snd r) !!! o)%Qc.
Proof.
  intros Hperm Hok Hreg dim r o Ho.
  destruct (ccd_pass_ok_unpack csf model ws f m Hok)
    as (Hnm & Hm & Hmf & Hnt & HT & Hln & Hld & Hlf).
  pose proof (which_depth_3 csf m Hnm Hperm Hm) as Hd.
  subst r. unfold ccd_mode_pass. cbn [fst snd]. fold dim. rewrite Hnm.
  set (nd0 := for_range 0 dim _ (numerator ws, denominator ws)).
  destruct (ccd_init_nd dim (regularization ws !!! m) (numerator ws, denominator ws) o
              Hln Hld Ho) as (Hl1 & Hl2 & Hn0 & Hd0).
  fold nd0 in Hl1, Hl2, Hn0, Hd0. cbn [fst snd] in Hl1, Hl2.
  destruct (ccd_tiles_sum (which_depth csf m) csf f m model nd0 o) as [Hn Hdn];
    [fold dim in Hln; lia | fold dim in Hld; lia | exact HT |].
  rewrite Hd, Hnm, <- Hnt in Hn, Hdn.
  set (nd1 := for_range 0 (tile_dims csf !!! m) _ nd0) in *.
  cbn [numerator denominator factors set_factor].
  assert (snd nd1 !!! o
          = ccd_denom_ref csf model ws f m (csf_mode_depth m (dim_perm csf) 3) o) as Hden.
  { rewrite Hdn, Hd0. unfold ccd_denom_ref, sum_touching. reflexivity. }
  rewrite Hden. apply ccd_denom_ref_pos. exact Hreg.
Qed.

Lemma ccd_mode_pass_division_defined_witness :
  let r := ccd_mode_pass csf_s1_tiled 0 1 (model_s1, ws_s1) in
  Qclt 0%Qc (denominator (snd r) !!! 0).
Proof.
  apply (ccd_mode_pass_division_defined csf_s1_tiled model_s1 ws_s1 0 1).
  - apply Permutation_refl.
  - vm_compute. reflexivity.
  - vm_compute. reflexivity.
  - vm_compute. lia.
Defined.

(** ** The public entry point on an internal mode *)

(** [ttmc_csf] under [CSF_ONEMODE] for the mode at depth 1 needs of the
    worker's scratch only a row of the leaf matrix. *)
Lemma ttmc_csf_internal_ref (tensors : list splatt_csf) (mats : list matrix_t)
    (mode : nat) (opts : splatt_opts) (st : ttmc_mem) :
  let csf := tensors !!! 0 in
  let W := ttmc_ncols mats (kron_order_csf csf mode) in
  nmodes csf = 3 ->
  Permutation (dim_perm csf) [0; 1; 2] ->
  which_tile csf = SPLATT_NOTILE ->
  opt_csf_alloc opts = SPLATT_CSF_ONEMODE ->
  mode = dim_perm csf !!! 1 ->
  tile3_ok csf (pt csf !!! 0) = true ->
  ttmc_outsize csf mats mode <= length (tenout st) ->
  mat_J (mats !!! (dim_perm csf !!! 2)) <= length (scratch0 st) ->
  exists st',
    ttmc_csf tensors mats mode opts st = Returns st'
    /\ forall i c, i < dims csf !!! mode -> c < W ->
         tenout st' !!! (i * W + c)
         = ttmc_ref (csf_tile_entries csf 0) mats mode (kron_order_csf csf mode) i c.
Proof.
  intros csf W Hnm Hperm Htile Hopt Hm Hok Hout Hs0.
  destruct (ttmc_csf_onemode_dispatch tensors mats mode opts st Hnm Hperm Htile Hopt)
    as [Hintl _]. fold csf in Hintl.
  destruct (csf3_widths csf mats mode Hnm Hperm) as (Hw1 & _ & Hos).
  assert (In mode (dim_perm csf)) as Hin.
  { destruct (perm3_cases _ Hperm) as [H|[H|[H|[H|[H|H]]]]]; rewrite H in *;
      rewrite Hm; simpl; auto. }
  specialize (Hos Hin). specialize (Hw1 Hm). destruct (Hintl Hm) as [Hd ->].
  eexists. split; [reflexivity|]. intros i c Hi Hc.
  destruct (ttmc_cleared_get tensors mats mode st (i * W + c) Hout) as [Hlen Hclr].
  fold csf in Hclr.
  unfold mem_lengths in Hlen. injection Hlen as Hlt Hl0 Hl2.
  destruct (p_csf_ttmc_intl3_get csf mats (ttmc_cleared tensors mats mode st)
              (i * W + c) Hok) as [_ Hg].
  - rewrite Hlt, <- Hw1, <- Hm, <- Hos. exact Hout.
  - rewrite Hl0. exact Hs0.
  - rewrite Hg, Hclr, Hos. fold W.
    destruct (Nat.ltb_spec (i * W + c) (dims csf !!! mode * W)) as [_|Hge]; [|nia].
    rewrite <- (csf3_contrib_ref csf mats mode i c Hnm Hperm (or_introl Hm) Hc).
    fold W. rewrite Qcplus_0_l. apply qsum_map_ext. intros p _.
    unfold csf3_contrib. rewrite Hnm, Hd. reflexivity.
Qed.

(** X23.  The public entry point on the mode at depth 1 of an untiled
    3-mode representation under [CSF_ONEMODE]: [splatt_ttmc] returns
    [SPLATT_SUCCESS] with [Y[i, :]] the sum, over the stored nonzeros whose
    mode-[mode] index is [i], of [x] times the Kronecker product of the
    rows of the two other matrices, root level first.  The scratch it
    allocates, [maxcols] values and 64 bytes, holds the row the internal
    kernel reduces into. *)
Theorem splatt_ttmc_internal_mode (mode : nat) (ncolumns : list nat)
    (tensors : list splatt_csf) (matrices : list (list val_t)) (opts : splatt_opts)
    (st : ttmc_mem) :
  let csf := tensors !!! 0 in
  let mats :=
    map (fun m => Matrix (dims csf !!! m) (ncolumns !!! m) (matrices !!! m)) [0; 1; 2] in
  let W := ttmc_ncols mats (kron_order_csf csf mode) in
  nmodes csf = 3 ->
  Permutation (dim_perm csf) [0; 1; 2] ->
  which_tile csf = SPLATT_NOTILE ->
  opt_csf_alloc opts = SPLATT_CSF_ONEMODE ->
  mode = dim_perm csf !!! 1 ->
  tile3_ok csf (pt csf !!! 0) = true ->
  ttmc_outsize csf mats mode <= length (tenout st) ->
  exists st',
    splatt_ttmc mode ncolumns tensors matrices opts st = Returns (Some SPLATT_SUCCESS, st')
    /\ forall i c, i < dims csf !!! mode -> c < W ->
         tenout st' !!! (i * W + c)
         = ttmc_ref (csf_tile_entries csf 0) mats mode (kron_order_csf csf mode) i c.
Proof.
  intros csf mats W Hnm Hperm Htile Hopt Hm Hok Hout.
  unfold splatt_ttmc. fold csf. rewrite Hnm.
  unfold for_range. cbn [Nat.sub seq fold_left fst snd app].
  change [Matrix (dims csf !!! 0) (ncolumns !!! 0) (matrices !!! 0);
          Matrix (dims csf !!! 1) (ncolumns !!! 1) (matrices !!! 1);
          Matrix (dims csf !!! 2) (ncolumns !!! 2) (matrices !!! 2)] with mats.
  set (maxcols := Nat.max (Nat.max (Nat.max 0 (ncolumns !!! 0)) (ncolumns !!! 1))
                    (ncolumns !!! 2)).
  set (st0 := TtmcMem (tenout st) (replicate (maxcols + 8) 0%Qc) []
                (locks_initialized st) (lock_slots st) (lock_log st)).
  destruct (ttmc_csf_internal_ref tensors mats mode opts st0 Hnm Hperm Htile Hopt Hm Hok)
    as (st' & Hret & Hget).
  - exact Hout.
  - subst st0. cbn [scratch0]. rewrite length_replicate. fold csf.
    assert (Hj : forall m, m < 3 -> mat_J (mats !!! m) <= maxcols).
    { intros m Hlt. destruct m as [|[|[|m]]]; [| | |lia]; subst mats maxcols;
        cbn [map lookup_total list_lookup_total mat_J]; lia. }
    assert (dim_perm csf !!! 2 < 3) as Hp.
    { destruct (perm3_cases _ Hperm) as [H|[H|[H|[H|[H|H]]]]]; rewrite H; simpl; lia. }
    specialize (Hj _ Hp). lia.
  - rewrite Hret. exists st'. split; [reflexivity | exact Hget].
Qed.

Lemma splatt_ttmc_internal_mode_witness :
  exists st',
    splatt_ttmc 1 [2; 2; 2] [csf_s1]
      [map qz [1; 2; 3; 4]%Z; map qz [1; 10; 100; 1000]%Z; map qz [1; 1; 1; 1; 5; 7]%Z]
      opts_onemode mem_s1
    = Returns (Some SPLATT_SUCCESS, st')
    /\ forall i c, i < 2 -> c < 4 ->
         tenout st' !!! (i * 4 + c)
         = ttmc_ref (csf_tile_entries csf_s1 0) mats_s1 1 [0; 2] i c.
Proof.
  apply (splatt_ttmc_internal_mode 1 [2; 2; 2] [csf_s1]
           [map qz [1; 2; 3; 4]%Z; map qz [1; 10; 100; 1000]%Z;
            map qz [1; 1; 1; 1; 5; 7]%Z] opts_onemode mem_s1).
  - reflexivity.
  - apply Permutation_refl.
  - reflexivity.
  - reflexivity.
  - reflexivity.
  - vm_compute. reflexivity.
  - vm_compute. lia.
Defined.

(** ** The status of the public entry point *)

(** C9 (as amended).  Whatever [splatt_ttmc] returns is [SPLATT_SUCCESS]:
    no error is reported through the status.  It does not return on every
    request: where [ttmc_csf] rejects the request (a tiled representation,
    an unknown [CSF_ALLOC]) the process ends with [exit(1)] and no status
    is returned.  It does return, with [SPLATT_SUCCESS], for the mode at
    internal depth of an untiled 3-mode representation under [CSF_ONEMODE]
    or [CSF_TWOMODE].  The requests that end in the leaf kernel or in the
    root kernel are not part of the statement. *)
Theorem splatt_ttmc_success_or_exit (mode : nat) (ncolumns : list nat)
    (tensors : list splatt_csf) (matrices : list (list val_t)) (opts : splatt_opts)
    (st : ttmc_mem) :
  let csf := tensors !!! 0 in
  let mats :=
    map (fun m => Matrix (dims csf !!! m) (ncolumns !!! m) (matrices !!! m)) [0; 1; 2] in
  let call := splatt_ttmc mode ncolumns tensors matrices opts st in
  (forall r st', call = Returns (r, st') -> r = Some SPLATT_SUCCESS)
  /\ (ttmc_supported tensors mode opts = false ->
      exists st', call = Exits 1 (None, st'))
  /\ (nmodes csf = 3 ->
      Permutation (dim_perm csf) [0; 1; 2] ->
      which_tile csf = SPLATT_NOTILE ->
      opt_csf_alloc opts = SPLATT_CSF_ONEMODE \/ opt_csf_alloc opts = SPLATT_CSF_TWOMODE ->
      mode = dim_perm csf !!! 1 ->
      tile3_ok csf (pt csf !!! 0) = true ->
      ttmc_outsize csf mats mode <= length (tenout st) ->
      exists st', call = Returns (Some SPLATT_SUCCESS, st')).
Proof.
  intros csf mats call. split; [|split].
  - intros r st' H. subst call. unfold splatt_ttmc in H.
    destruct (ttmc_csf _ _ _ _ _) in H; [|discriminate].
    injection H as <- _. reflexivity.
  - intros Hun. subst call. unfold splatt_ttmc.
    rewrite ttmc_csf_unsupported by exact Hun. eexists. reflexivity.
  - intros Hnm Hperm Htile Hopt Hm Hok Hout. subst call.
    unfold splatt_ttmc. fold csf. rewrite Hnm.
    unfold for_range. cbn [Nat.sub seq fold_left fst snd app].
    change [Matrix (dims csf !!! 0) (ncolumns !!! 0) (matrices !!! 0);
            Matrix (dims csf !!! 1) (ncolumns !!! 1) (matrices !!! 1);
            Matrix (dims csf !!! 2) (ncolumns !!! 2) (matrices !!! 2)] with mats.
    set (maxcols := Nat.max (Nat.max (Nat.max 0 (ncolumns !!! 0)) (ncolumns !!! 1))
                      (ncolumns !!! 2)).
    set (st0 := TtmcMem (tenout st) (replicate (maxcols + 8) 0%Qc) []
                  (locks_initialized st) (lock_slots st) (lock_log st)).
    assert (ttmc_csf tensors mats mode opts st0
            = ttmc_csf tensors mats mode opts_onemode st0) as ->.
    { destruct Hopt as [H1|H2].
      - unfold ttmc_csf. rewrite H1. reflexivity.
      - apply (ttmc_csf_twomode_internal tensors mats mode opts opts_onemode st0
                 Hnm Hperm Hm H2 eq_refl). }
    destruct (ttmc_csf_internal_ref tensors mats mode opts_onemode st0 Hnm Hperm Htile
                eq_refl Hm Hok) as (st' & Hret & _).
    + exact Hout.
    + subst st0. cbn [scratch0]. rewrite length_replicate. fold csf.
      assert (Hj : forall m, m < 3 -> mat_J (mats !!! m) <= maxcols).
      { intros m Hlt. destruct m as [|[|[|m]]]; [| | |lia]; subst mats maxcols;
          cbn [map lookup_total list_lookup_total mat_J]; lia. }
      assert (dim_perm csf !!! 2 < 3) as Hp.
      { destruct (perm3_cases _ Hperm) as [H|[H|[H|[H|[H|H]]]]]; rewrite H; simpl; lia. }
      specialize (Hj _ Hp). lia.
    + rewrite Hret. exists st'. reflexivity.
Qed.

Lemma splatt_ttmc_success_or_exit_witness :
  (exists st',
     splatt_ttmc 0 [2; 2; 2] [csf_s1_tiled]
       [map qz [1; 2; 3; 4]%Z; map qz [1; 10; 100; 1000]%Z; map qz [1; 1; 1; 1; 5; 7]%Z]
       opts_onemode mem_s1
     = Exits 1 (None, st'))
  /\ (exists st',
        splatt_ttmc 1 [2; 2; 2] [csf_s1]
          [map qz [1; 2; 3; 4]%Z; map qz [1; 10; 100; 1000]%Z; map qz [1; 1; 1; 1; 5; 7]%Z]
          opts_onemode mem_s1
        = Returns (Some SPLATT_SUCCESS, st')).
Proof.
  split.
  - apply (proj1 (proj2 (splatt_ttmc_success_or_exit 0 [2; 2; 2] [csf_s1_tiled]
             [map qz [1; 2; 3; 4]%Z; map qz [1; 10; 100; 1000]%Z;
              map qz [1; 1; 1; 1; 5; 7]%Z] opts_onemode mem_s1))).
    reflexivity.
  - apply (proj2 (proj2 (splatt_ttmc_success_or_exit 1 [2; 2; 2] [csf_s1]
             [map qz [1; 2; 3; 4]%Z; map qz [1; 10; 100; 1000]%Z;
              map qz [1; 1; 1; 1; 5; 7]%Z] opts_onemode mem_s1))).
    + reflexivity.
    + apply Permutation_refl.
    + reflexivity.
    + left. reflexivity.
    + reflexivity.
    + vm_compute. reflexivity.
    + vm_compute. lia.
Defined.

(** ** The adjacency lists of convert.c *)

Lemma bump_same (l : list kvp_t) (v : nat) :
  row_count (bump l v) v = idx_add (row_count l v) 1.
Proof.
  induction l as [|e l IH]; cbn [bump row_count kvp_v kvp_cnt].
  - rewrite Nat.eqb_refl. reflexivity.
  - destruct (Nat.eqb (kvp_v e) v) eqn:E; cbn [row_count kvp_v kvp_cnt]; rewrite E.
    + reflexivity.
    + exact IH.
Qed.

Lemma bump_other (l : list kvp_t) (v v' : nat) :
  v' <> v -> row_count (bump l v) v' = row_count l v'.
Proof.
  intros Hne. induction l as [|e l IH]; cbn [bump row_count kvp_v kvp_cnt].
  - destruct (Nat.eqb_spec v v'); [congruence | reflexivity].
  - destruct (Nat.eqb_spec (kvp_v e) v) as [Hv|Hv]; cbn [row_count kvp_v kvp_cnt].
    + destruct (Nat.eqb_spec (kvp_v e) v'); [congruence | reflexivity].
    + rewrite IH. reflexivity.
Qed.

Lemma bump_keys_in (l : list kvp_t) (v k : nat) :
  In k (map kvp_v (bump l v)) <-> In k (map kvp_v l) \/ k = v.
Proof.
  induction l as [|e l IH]; cbn [bump map In].
  - split; [intros [<-|[]]; right; reflexivity | intros [[]| ->]; left; reflexivity].
  - destruct (Nat.eqb_spec (kvp_v e) v) as [Hv|Hv]; cbn [map In kvp_v].
    + split; [tauto | intros [H| ->]; [exact H | left; exact Hv]].
    + rewrite IH. tauto.
Qed.

Lemma bump_nodup (l : list kvp_t) (v : nat) :
  List.NoDup (map kvp_v l) -> List.NoDup (map kvp_v (bump l v)).
Proof.
  induction l as [|e l IH]; cbn [bump map]; intros Hnd.
  - constructor; [intros [] | constructor].
  - apply List.NoDup_cons_iff in Hnd. destruct Hnd as [Hnin Hnd].
    destruct (Nat.eqb_spec (kvp_v e) v) as [Hv|Hv]; cbn [map kvp_v].
    + constructor; assumption.
    + constructor; [|apply IH; exact Hnd].
      rewrite bump_keys_in. intros [H|H]; [exact (Hnin H) | exact (Hv H)].
Qed.

(** The search loop against [bump]: a hit is the entry [bump] raises, a
    miss means [bump] appends. *)
Lemma adj_search_bump (row : list kvp_t) (v : nat) :
  forall n i, i + n <= length row ->
    match adj_search row v i n with
    | Some j =>
        i <= j < i + n
        /\ bump (take n (drop i row)) v
           = <[j - i := Kvp (kvp_v (row !!! j)) (idx_add (kvp_cnt (row !!! j)) 1)]>
               (take n (drop i row))
    | None =>
        bump (take n (drop i row)) v = take n (drop i row) ++ [Kvp v 1]
        /\ ~ In v (map kvp_v (take n (drop i row)))
    end.
Proof.
  induction n as [|n IH]; intros i Hlen; cbn [adj_search].
  - cbn [take bump app map In]. split; [reflexivity | tauto].
  - assert (Hi : i < length row) by lia.
    rewrite (drop_S row (row !!! i) i) by (apply list_lookup_lookup_total_lt; exact Hi).
    cbn [take bump].
    destruct (Nat.eqb_spec (kvp_v (row !!! i)) v) as [Hv|Hv].
    + split; [lia|]. rewrite Nat.sub_diag. reflexivity.
    + specialize (IH (S i) ltac:(lia)).
      destruct (adj_search row v (S i) n) as [j|].
      * destruct IH as [Hj Hb]. split; [lia|]. rewrite Hb.
        replace (j - i) with (S (j - S i)) by lia. reflexivity.
      * destruct IH as [Hb Hnin]. split; [rewrite Hb; reflexivity|].
        cbn [map In]. tauto.
Qed.

Lemma take_insert_end (l : list kvp_t) (n : nat) (x : kvp_t) :
  n < length l -> take (n + 1) (<[n := x]> l) = take n l ++ [x].
Proof.
  intros Hn. rewrite insert_take_drop by exact Hn.
  rewrite (take_app_add' (take n l) (x :: drop (S n) l) n 1)
    by (rewrite length_take; lia).
  reflexivity.
Qed.

(** [__update_adj] on the entries in use. *)
Lemma update_adj_valid (u v : nat) (g : adj_lists) :
  adj_ok g -> u < length (adj g) ->
  let g' := __update_adj u v g in
  adj_ok g'
  /\ length (adj g') = length (adj g)
  /\ adj_valid g' u = bump (adj_valid g u) v
  /\ forall u', u' <> u -> adj_valid g' u' = adj_valid g u'.
Proof.
  intros (Hlm & Hls & Hrows) Hu g'. subst g'.
  destruct (Hrows u Hu) as (Hmk & Hlen & Hpos & Hnd).
  unfold __update_adj.
  pose proof (adj_search_bump (adj g !!! u) v (adjmkr g !!! u) 0 ltac:(lia)) as Hs.
  rewrite drop_0 in Hs.
  destruct (adj_search (adj g !!! u) v 0 (adjmkr g !!! u)) as [i|].
  - destruct Hs as [Hi Hb]. rewrite Nat.sub_0_r in Hb.
    assert (Hvalid : take (adjmkr g !!! u)
                       (<[i := Kvp (kvp_v ((adj g !!! u) !!! i))
                                 (idx_add (kvp_cnt ((adj g !!! u) !!! i)) 1)]> (adj g !!! u))
                     = bump (adj_valid g u) v).
    { rewrite take_insert_lt by lia. symmetry. exact Hb. }
    split; [|split; [|split]].
    + unfold adj_ok. cbn [adj adjmkr adjsize]. rewrite length_insert.
      split; [exact Hlm|]. split; [exact Hls|].
      intros u' Hu'. unfold adj_valid. cbn [adj adjmkr].
      destruct (Nat.eq_dec u' u) as [->|Hne].
      * rewrite list_lookup_total_insert_eq by exact Hu. rewrite length_insert.
        split; [exact Hmk|]. split; [exact Hlen|]. split; [exact Hpos|].
        rewrite Hvalid. apply bump_nodup. exact Hnd.
      * rewrite list_lookup_total_insert_ne by congruence. apply Hrows. exact Hu'.
    + cbn [adj]. apply length_insert.
    + unfold adj_valid at 1. cbn [adj adjmkr].
      rewrite list_lookup_total_insert_eq by exact Hu. exact Hvalid.
    + intros u' Hne. unfold adj_valid. cbn [adj adjmkr].
      rewrite list_lookup_total_insert_ne by congruence. reflexivity.
  - destruct Hs as [Hb Hnin].
    set (mkr := adjmkr g !!! u) in *. set (size0 := adjsize g !!! u) in *.
    set (row := adj g !!! u) in *.
    set (size := if Nat.eqb mkr size0 then size0 * 2 else size0).
    set (row' := if Nat.eqb mkr size0 then resize size inhabitant row else row).
    assert (Hrow' : length row' = size /\ take mkr row' = take mkr row /\ mkr < size).
    { subst row' size. destruct (Nat.eqb_spec mkr size0) as [He|He].
      - rewrite length_resize. split; [reflexivity|]. split; [|lia].
        rewrite resize_ge by lia. apply take_app_le. lia.
      - split; [exact Hlen|]. split; [reflexivity | lia]. }
    destruct Hrow' as (Hl' & Ht' & Hms).
    assert (Hvalid : take (mkr + 1) (<[mkr := Kvp v 1]> row') = bump (adj_valid g u) v).
    { rewrite take_insert_end by lia. rewrite Ht'. symmetry. exact Hb. }
    split; [|split; [|split]].
    + unfold adj_ok. cbn [adj adjmkr adjsize]. rewrite !length_insert.
      split; [exact Hlm|]. split; [exact Hls|].
      intros u' Hu'. unfold adj_valid. cbn [adj adjmkr].
      destruct (Nat.eq_dec u' u) as [->|Hne].
      * rewrite !list_lookup_total_insert_eq by lia. rewrite length_insert.
        split; [lia|]. split; [exact Hl'|]. split; [lia|].
        rewrite Hvalid. apply bump_nodup. exact Hnd.
      * rewrite !list_lookup_total_insert_ne by congruence. apply Hrows. exact Hu'.
    + cbn [adj]. apply length_insert.
    + unfold adj_valid at 1. cbn [adj adjmkr].
      rewrite !list_lookup_total_insert_eq by lia. exact Hvalid.
    + intros u' Hne. unfold adj_valid. cbn [adj adjmkr].
      rewrite !list_lookup_total_insert_ne by congruence. reflexivity.
Qed.

(** X24.  [__update_adj(u, v)] raises the count of [v] in the list of [u]
    by one, in [idx_t], creating the entry with count 1 if the list lacks
    [v]; no other count of any list changes.  The lists stay well formed:
    no key twice, the marker within the size of the array, which doubles
    when the list is full. *)
Theorem update_adj_counts (u v : nat) (g : adj_lists) :
  adj_ok g -> u < length (adj g) ->
  let g' := __update_adj u v g in
  adj_ok g'
  /\ adj_count g' u v = idx_add (adj_count g u v) 1
  /\ forall u' v', u' <> u \/ v' <> v -> adj_count g' u' v' = adj_count g u' v'.
Proof.
  intros Hok Hu g'.
  destruct (update_adj_valid u v g Hok Hu) as (Hok' & _ & Hv & Hother).
  fold g' in Hok', Hv, Hother.
  split; [exact Hok'|]. unfold adj_count. split.
  - rewrite Hv. apply bump_same.
  - intros u' v' Hne. destruct (Nat.eq_dec u' u) as [->|Hu'].
    + rewrite Hv. apply bump_other. destruct Hne; congruence.
    + rewrite (Hother u' Hu'). reflexivity.
Qed.

Lemma update_adj_counts_witness :
  let g := AdjLists [[Kvp 3 1; Kvp 5 2]; [Kvp 0 0; Kvp 0 0]] [2; 0] [2; 2] 2 in
  let g' := __update_adj 0 7 g in
  adj_ok g'
  /\ adj_count g' 0 7 = idx_add (adj_count g 0 7) 1
  /\ forall u' v', u' <> 0 \/ v' <> 7 -> adj_count g' u' v' = adj_count g u' v'.
Proof.
  apply (update_adj_counts 0 7
           (AdjLists [[Kvp 3 1; Kvp 5 2]; [Kvp 0 0; Kvp 0 0]] [2; 0] [2; 2] 2)).
  - split; [reflexivity|]. split; [reflexivity|].
    intros u Hu. cbn [adj length] in Hu.
    destruct u as [|[|u]]; [| |lia]; vm_compute.
    + repeat split; try lia.
      constructor; [intros [H|[]]; discriminate|].
      constructor; [intros []|constructor].
    + repeat split; try lia. constructor.
  - simpl. lia.
Defined.

(** *** The graph of a tensor *)

Lemma pair_count_app (l1 l2 : list (nat * nat)) (u v : nat) :
  pair_count (l1 ++ l2) u v = pair_count l1 u v + pair_count l2 u v.
Proof. unfold pair_count. rewrite List.filter_app, length_app. reflexivity. Qed.

Lemma pair_count_flat_map {X : Type} (f : X -> list (nat * nat)) (l : list X) (u v : nat) :
  pair_count (flat_map f l) u v = nsum (map (fun x => pair_count (f x) u v) l).
Proof.
  induction l as [|x l IH]; [reflexivity|].
  cbn [flat_map map nsum fold_right]. rewrite pair_count_app, IH. reflexivity.
Qed.

Lemma nsum_map_add {X : Type} (f g : X -> nat) (l : list X) :
  nsum (map (fun x => f x + g x) l) = nsum (map f l) + nsum (map g l).
Proof.
  induction l as [|x l IH]; [reflexivity|].
  cbn [map nsum fold_right]. fold (nsum (map (fun x => f x + g x) l)).
  fold (nsum (map f l)). fold (nsum (map g l)). rewrite IH. lia.
Qed.

Lemma nsum_map_zero {X : Type} (l : list X) : nsum (map (fun _ => 0) l) = 0.
Proof. induction l as [|x l IH]; [reflexivity|]. cbn [map nsum fold_right]. exact IH. Qed.

Lemma nsum_map_ext {X : Type} (f g : X -> nat) (l : list X) :
  (forall x, f x = g x) -> nsum (map f l) = nsum (map g l).
Proof. intros H. f_equal. apply map_ext. exact H. Qed.

Lemma nsum_exchange {X Y : Type} (a : X -> Y -> nat) (l1 : list X) (l2 : list Y) :
  nsum (map (fun i => nsum (map (fun j => a i j) l2)) l1)
  = nsum (map (fun j => nsum (map (fun i => a i j) l1)) l2).
Proof.
  induction l1 as [|x l1 IH].
  - cbn [map nsum fold_right]. symmetry. apply nsum_map_zero.
  - cbn [map nsum fold_right].
    fold (nsum (map (fun i => nsum (map (fun j => a i j) l2)) l1)). rewrite IH.
    rewrite <- nsum_map_add. reflexivity.
Qed.

(** A nonzero joins [u] to [v] as often as [v] to [u]. *)
Lemma joins_sym (tt : sptensor_t) (u v n : nat) : joins tt u v n = joins tt v u n.
Proof.
  unfold joins, emitted. rewrite !pair_count_flat_map.
  rewrite (nsum_map_ext _
             (fun m => nsum (map (fun m2 =>
                  pair_count (if negb (Nat.eqb m m2)
                              then [(vertex_of tt m n, vertex_of tt m2 n)] else []) u v)
                (seq 0 (tt_nmodes tt)))))
    by (intros m; apply pair_count_flat_map).
  rewrite (nsum_map_ext
             (fun m => pair_count (flat_map _ (seq 0 (tt_nmodes tt))) v u)
             (fun m => nsum (map (fun m2 =>
                  pair_count (if negb (Nat.eqb m m2)
                              then [(vertex_of tt m n, vertex_of tt m2 n)] else []) v u)
                (seq 0 (tt_nmodes tt)))))
    by (intros m; apply pair_count_flat_map).
  rewrite nsum_exchange.
  apply nsum_map_ext. intros m2. apply nsum_map_ext. intros m.
  rewrite (Nat.eqb_sym m2 m).
  destruct (Nat.eqb m m2); [reflexivity|].
  unfold pair_count. cbn [negb List.filter fst snd].
  rewrite (andb_comm (Nat.eqb (vertex_of tt m2 n) v)).
  destruct (Nat.eqb (vertex_of tt m n) u && Nat.eqb (vertex_of tt m2 n) v); reflexivity.
Qed.

Lemma mode_offset_S (tt : sptensor_t) (m : nat) :
  mode_offset tt (S m) = mode_offset tt m + tt_dims tt !!! m.
Proof. unfold mode_offset. rewrite for_range_S by lia. reflexivity. Qed.

Lemma mode_offset_mono (tt : sptensor_t) (m m' : nat) :
  m <= m' -> mode_offset tt m <= mode_offset tt m'.
Proof.
  induction 1 as [|m' Hle IH]; [lia|]. rewrite mode_offset_S. lia.
Qed.

Lemma vertex_of_lt (tt : sptensor_t) (m n : nat) :
  tt_inds_ok tt -> m < tt_nmodes tt -> n < tt_nnz tt ->
  vertex_of tt m n < mode_offset tt (tt_nmodes tt).
Proof.
  intros Hok Hm Hn. unfold vertex_of. specialize (Hok m n Hm Hn).
  pose proof (mode_offset_mono tt (S m) (tt_nmodes tt) ltac:(lia)) as Hmono.
  rewrite mode_offset_S in Hmono. lia.
Qed.

Lemma lookup_total_out {X : Type} `{!Inhabited X} (l : list X) (i : nat) :
  length l <= i -> l !!! i = inhabitant.
Proof.
  intros H. rewrite list_lookup_total_alt, lookup_ge_None_2 by exact H. reflexivity.
Qed.

Lemma idx_add_wrap_l (a b : Z) : idx_add (idx_wrap a) b = idx_wrap (a + b).
Proof. unfold idx_add, idx_wrap. apply Z.add_mod_idemp_l. vm_compute. discriminate. Qed.

(** The lists hold the counts of the pairs emitted so far. *)
Lemma update_adj_emits (nvtxs u v : nat) (g : adj_lists) (L : list (nat * nat)) :
  graph_of nvtxs g L -> u < nvtxs ->
  graph_of nvtxs (__update_adj u v g) (L ++ [(u, v)]).
Proof.
  intros (Hok & Hlen & Hcnt) Hu.
  destruct (update_adj_valid u v g Hok ltac:(lia)) as (Hok' & Hlen' & Hv & Hother).
  split; [exact Hok'|]. split; [lia|].
  intros u' v'. unfold adj_count. rewrite pair_count_app.
  unfold pair_count at 2. cbn [List.filter fst snd].
  destruct (Nat.eq_dec u' u) as [->|Hu'].
  - rewrite Hv. rewrite Nat.eqb_refl. cbn [andb].
    destruct (Nat.eqb_spec v v') as [->|Hv'].
    + rewrite bump_same. fold (adj_count g u v'). rewrite Hcnt.
      cbn [length]. rewrite Nat2Z.inj_add. apply idx_add_wrap_l.
    + rewrite bump_other by congruence. fold (adj_count g u v'). rewrite Hcnt.
      cbn [length]. rewrite Nat.add_0_r. reflexivity.
  - rewrite (Hother u' Hu'). fold (adj_count g u' v'). rewrite Hcnt.
    destruct (Nat.eqb_spec u u'); [congruence|]. cbn [andb length].
    rewrite Nat.add_0_r. reflexivity.
Qed.

Lemma ijk_graph_adj_graph (tt : sptensor_t) :
  tt_inds_ok tt ->
  graph_of (mode_offset tt (tt_nmodes tt))
    (ijk_graph_adj tt (mode_offset tt (tt_nmodes tt)))
    (flat_map (emitted tt) (seq 0 (tt_nnz tt))).
Proof.
  intros Hinds. set (nvtxs := mode_offset tt (tt_nmodes tt)). unfold ijk_graph_adj.
  apply (for_range_ind (fun i g => graph_of nvtxs g (flat_map (emitted tt) (seq 0 i))));
    [lia| |].
  - split; [|split].
    + unfold adj_ok. cbn [adj adjmkr adjsize]. rewrite !length_replicate.
      split; [reflexivity|]. split; [reflexivity|].
      intros u Hu. unfold adj_valid. cbn [adj adjmkr].
      rewrite !lookup_total_replicate_2 by exact Hu.
      cbn [length replicate take map]. repeat split; try lia. constructor.
    + cbn [adj]. apply length_replicate.
    + intros u v. unfold adj_count, adj_valid. cbn [adj adjmkr seq flat_map].
      destruct (Nat.lt_ge_cases u nvtxs) as [Hu|Hu].
      * rewrite lookup_total_replicate_2 by exact Hu. reflexivity.
      * rewrite (lookup_total_out (replicate nvtxs 0))
          by (rewrite length_replicate; exact Hu).
        reflexivity.
  - intros n g Hn Hg.
    rewrite List.seq_S, List.flat_map_app. cbn [flat_map Nat.add]. rewrite app_nil_r.
    set (L := flat_map (emitted tt) (seq 0 n)) in *.
    unfold emitted.
    enough (H : fst (for_range 0 (tt_nmodes tt)
                       (fun m (st : nat * adj_lists) =>
                          let uoffset := fst st in
                          let u := (tt_ind tt !!! m) !!! n + uoffset in
                          let st2 :=
                            for_range 0 (tt_nmodes tt) (fun m2 (st2 : nat * adj_lists) =>
                              let voffset := fst st2 in
                              let g :=
                                if negb (Nat.eqb m m2)
                                then __update_adj u ((tt_ind tt !!! m2) !!! n + voffset)
                                       (snd st2)
                                else snd st2 in
                              (voffset + tt_dims tt !!! m2, g)) (0, snd st) in
                          (uoffset + tt_dims tt !!! m, snd st2)) (0, g))
                = mode_offset tt (tt_nmodes tt)
                /\ graph_of nvtxs
                     (snd (for_range 0 (tt_nmodes tt)
                       (fun m (st : nat * adj_lists) =>
                          let uoffset := fst st in
                          let u := (tt_ind tt !!! m) !!! n + uoffset in
                          let st2 :=
                            for_range 0 (tt_nmodes tt) (fun m2 (st2 : nat * adj_lists) =>
                              let voffset := fst st2 in
                              let g :=
                                if negb (Nat.eqb m m2)
                                then __update_adj u ((tt_ind tt !!! m2) !!! n + voffset)
                                       (snd st2)
                                else snd st2 in
                              (voffset + tt_dims tt !!! m2, g)) (0, snd st) in
                          (uoffset + tt_dims tt !!! m, snd st2)) (0, g)))
                     (L ++ flat_map (fun m =>
                             flat_map (fun m2 =>
                               if negb (Nat.eqb m m2)
                               then [(vertex_of tt m n, vertex_of tt m2 n)] else [])
                               (seq 0 (tt_nmodes tt)))
                             (seq 0 (tt_nmodes tt)))) by exact (proj2 H).
    apply (for_range_ind (fun i (st : nat * adj_lists) =>
             fst st = mode_offset tt i
             /\ graph_of nvtxs (snd st)
                  (L ++ flat_map (fun m =>
                          flat_map (fun m2 =>
                            if negb (Nat.eqb m m2)
                            then [(vertex_of tt m n, vertex_of tt m2 n)] else [])
                            (seq 0 (tt_nmodes tt)))
                          (seq 0 i)))); [lia| |].
    + cbn [fst snd seq flat_map]. rewrite app_nil_r. split; [reflexivity | exact Hg].
    + intros m [uoff g1] Hm [Huoff Hg1]. cbn [fst snd] in Huoff, Hg1. cbv zeta.
      cbn [fst snd]. subst uoff.
      split; [rewrite mode_offset_S; reflexivity|].
      rewrite List.seq_S, List.flat_map_app. cbn [flat_map Nat.add].
      rewrite app_nil_r, app_assoc.
      set (L1 := L ++ flat_map _ (seq 0 m)) in *.
      fold (vertex_of tt m n).
      assert (Hu : vertex_of tt m n < nvtxs)
        by (apply vertex_of_lt; [exact Hinds | lia | lia]).
      enough (H : fst (for_range 0 (tt_nmodes tt)
                         (fun m2 (st2 : nat * adj_lists) =>
                            (fst st2 + tt_dims tt !!! m2,
                             if negb (Nat.eqb m m2)
                             then __update_adj (vertex_of tt m n)
                                    ((tt_ind tt !!! m2) !!! n + fst st2) (snd st2)
                             else snd st2)) (0, g1))
                  = mode_offset tt (tt_nmodes tt)
                  /\ graph_of nvtxs
                       (snd (for_range 0 (tt_nmodes tt)
                         (fun m2 (st2 : nat * adj_lists) =>
                            (fst st2 + tt_dims tt !!! m2,
                             if negb (Nat.eqb m m2)
                             then __update_adj (vertex_of tt m n)
                                    ((tt_ind tt !!! m2) !!! n + fst st2) (snd st2)
                             else snd st2)) (0, g1)))
                       (L1 ++ flat_map (fun m2 =>
                               if negb (Nat.eqb m m2)
                               then [(vertex_of tt m n, vertex_of tt m2 n)] else [])
                               (seq 0 (tt_nmodes tt)))) by exact (proj2 H).
      apply (for_range_ind (fun i (st2 : nat * adj_lists) =>
               fst st2 = mode_offset tt i
               /\ graph_of nvtxs (snd st2)
                    (L1 ++ flat_map (fun m2 =>
                            if negb (Nat.eqb m m2)
                            then [(vertex_of tt m n, vertex_of tt m2 n)] else [])
                            (seq 0 i)))); [lia| |].
      * cbn [fst snd seq flat_map]. rewrite app_nil_r. split; [reflexivity | exact Hg1].
      * intros m2 [voff g2] Hm2 [Hvoff Hg2]. cbn [fst snd] in Hvoff, Hg2.
        cbn [fst snd]. subst voff.
        split; [rewrite mode_offset_S; reflexivity|].
        rewrite List.seq_S, List.flat_map_app. cbn [flat_map Nat.add].
        rewrite app_nil_r, app_assoc.
        fold (vertex_of tt m2 n).
        destruct (negb (Nat.eqb m m2)).
        -- apply update_adj_emits; assumption.
        -- rewrite app_nil_r. exact Hg2.
Qed.

(** X25.  The graph [__convert_ijk_graph] builds from a tensor whose
    indices are within its dimensions: the count the list of [u] holds for
    [v] is, modulo [2^64], the number of times the nonzeros join [u] to
    [v] (once per pair of distinct modes whose indices are [u] and [v]);
    it is the count the list of [v] holds for [u], so the graph is
    symmetric; and no list holds a key twice. *)
Theorem convert_ijk_graph_counts (tt : sptensor_t) :
  tt_inds_ok tt ->
  let nvtxs := fst (fst (__convert_ijk_graph tt)) in
  let g := ijk_graph_adj tt nvtxs in
  adj_ok g
  /\ forall u v,
       adj_count g u v
       = idx_wrap (Z.of_nat (nsum (map (joins tt u v) (seq 0 (tt_nnz tt)))))
       /\ adj_count g u v = adj_count g v u.
Proof.
  intros Hinds nvtxs g.
  assert (Hnv : nvtxs = mode_offset tt (tt_nmodes tt)) by reflexivity.
  destruct (ijk_graph_adj_graph tt Hinds) as (Hok & _ & Hcnt).
  rewrite <- Hnv in Hok, Hcnt. fold g in Hok, Hcnt.
  split; [exact Hok|]. intros u v.
  assert (Hc : forall a b,
            adj_count g a b
            = idx_wrap (Z.of_nat (nsum (map (joins tt a b) (seq 0 (tt_nnz tt)))))).
  { intros a b. rewrite Hcnt, pair_count_flat_map. reflexivity. }
  split; [apply Hc|]. rewrite !Hc. do 2 f_equal.
  apply nsum_map_ext. intros n. apply joins_sym.
Qed.

Lemma convert_ijk_graph_counts_witness :
  let nvtxs := fst (fst (__convert_ijk_graph coo_s1)) in
  let g := ijk_graph_adj coo_s1 nvtxs in
  adj_ok g
  /\ forall u v,
       adj_count g u v
       = idx_wrap (Z.of_nat (nsum (map (joins coo_s1 u v) (seq 0 (tt_nnz coo_s1)))))
       /\ adj_count g u v = adj_count g v u.
Proof.
  apply (convert_ijk_graph_counts coo_s1).
  intros m n Hm Hn. cbn [tt_nmodes tt_nnz coo_s1] in Hm, Hn.
  destruct m as [|[|[|m]]]; [| | |lia]; destruct n as [|[|[|n]]]; try lia;
    vm_compute; lia.
Defined.
